(** * dagre: rank initialisation and crossing-minimisation ordering

    A shallow embedding of [lib/util.js], [lib/rank/util.js],
    [lib/order/index.js] and [lib/order/build-layer-graph.js], with the
    properties of the specification stated and proved over it. *)

From Stdlib Require Import String Ascii ZArith QArith Qabs Qround Lqa Bool Lia Arith List.
From Stdlib Require Import DecimalString DecimalNat DecimalFacts Finite.
Import ListNotations.

Set Implicit Arguments.

(** ** JavaScript numbers

    A JS number is NaN, one of the two infinities, or a finite value.  Finite
    values are rationals and arithmetic on them is exact: the development
    covers the range in which double arithmetic does not round (integers of
    magnitude at most 2^53, on which ranks, orders and counters live).  The
    two zeros are not distinguished. *)

Module JSNum.

Inductive num : Type :=
| NaN
| NegInfinity
| Fin (q : Q)
| PosInfinity.

Definition Int (z : Z) : num := Fin (inject_Z z).

(** [Number.MIN_VALUE] is the smallest positive double, 2^-1074;
    [Number.MAX_VALUE] is the largest finite one, (2^53 - 1) * 2^971. *)
Definition MIN_VALUE : num := Fin (1 # (2 ^ 1074)).
Definition MAX_VALUE : num := Fin (inject_Z ((2 ^ 53 - 1) * 2 ^ 971)).

Definition Qltb (a b : Q) : bool :=
  match Qcompare a b with Lt => true | _ => false end.

(** [a < b]; every comparison with NaN is false. *)
Definition num_ltb (a b : num) : bool :=
  match a, b with
  | NaN, _ | _, NaN => false
  | NegInfinity, NegInfinity => false
  | NegInfinity, _ => true
  | _, NegInfinity => false
  | PosInfinity, _ => false
  | Fin _, PosInfinity => true
  | Fin x, Fin y => Qltb x y
  end.

(** [a === b] on numbers. *)
Definition num_eqb (a b : num) : bool :=
  match a, b with
  | NegInfinity, NegInfinity => true
  | PosInfinity, PosInfinity => true
  | Fin x, Fin y => Qeq_bool x y
  | _, _ => false
  end.

Definition num_leb (a b : num) : bool := num_ltb a b || num_eqb a b.

Definition num_opp (a : num) : num :=
  match a with
  | NaN => NaN
  | NegInfinity => PosInfinity
  | PosInfinity => NegInfinity
  | Fin x => Fin (- x)
  end.

Definition num_add (a b : num) : num :=
  match a, b with
  | NaN, _ | _, NaN => NaN
  | PosInfinity, NegInfinity | NegInfinity, PosInfinity => NaN
  | PosInfinity, _ | _, PosInfinity => PosInfinity
  | NegInfinity, _ | _, NegInfinity => NegInfinity
  | Fin x, Fin y => Fin (x + y)
  end.

Definition num_sub (a b : num) : num := num_add a (num_opp b).

Definition num_abs (a : num) : num :=
  match a with
  | NaN => NaN
  | NegInfinity | PosInfinity => PosInfinity
  | Fin x => Fin (Qabs x)
  end.

(** Sign of a number: [Lt] negative, [Eq] zero, [Gt] positive. *)
Definition Qsign (x : Q) : comparison := Qcompare x 0.

Definition num_mul (a b : num) : num :=
  match a, b with
  | NaN, _ | _, NaN => NaN
  | Fin x, Fin y => Fin (x * y)
  | Fin x, PosInfinity | PosInfinity, Fin x =>
      match Qsign x with Lt => NegInfinity | Eq => NaN | Gt => PosInfinity end
  | Fin x, NegInfinity | NegInfinity, Fin x =>
      match Qsign x with Lt => PosInfinity | Eq => NaN | Gt => NegInfinity end
  | PosInfinity, PosInfinity | NegInfinity, NegInfinity => PosInfinity
  | PosInfinity, NegInfinity | NegInfinity, PosInfinity => NegInfinity
  end.

(** Division never raises: a zero divisor gives an infinity, or NaN for 0/0. *)
Definition num_div (a b : num) : num :=
  match a, b with
  | NaN, _ | _, NaN => NaN
  | Fin x, Fin y =>
      match Qsign y with
      | Eq => match Qsign x with
              | Lt => NegInfinity | Eq => NaN | Gt => PosInfinity
              end
      | _ => Fin (x / y)
      end
  | Fin _, _ => Fin 0
  | _, Fin y =>
      match a, Qsign y with
      | PosInfinity, Lt | NegInfinity, (Eq | Gt) => NegInfinity
      | _, _ => PosInfinity
      end
  | _, _ => NaN
  end.

(** ToBoolean on a number: [!x] holds for zero and NaN. *)
Definition truthy (a : num) : bool :=
  match a with
  | NaN => false
  | Fin x => negb (Qeq_bool x 0)
  | _ => true
  end.

(** One step of [Math.min] / [Math.max]: NaN is contagious, otherwise the
    running extremum is replaced only by a strictly better argument. *)
Definition min2 (lowest number : num) : num :=
  match lowest, number with
  | NaN, _ | _, NaN => NaN
  | _, _ => if num_ltb number lowest then number else lowest
  end.

Definition max2 (highest number : num) : num :=
  match highest, number with
  | NaN, _ | _, NaN => NaN
  | _, _ => if num_ltb highest number then number else highest
  end.

(** [Math.min(...args)] and [Math.max(...args)]; with no argument they
    return [Infinity] and [-Infinity]. *)
Definition Math_min (args : list num) : num := fold_left min2 args PosInfinity.
Definition Math_max (args : list num) : num := fold_left max2 args NegInfinity.

(** The array index denoted by a number, when it is one. *)
Definition array_index (a : num) : option nat :=
  match a with
  | Fin x =>
      if (Qeq_bool x (inject_Z (Qfloor x)) && (0 <=? Qfloor x)%Z)%bool
      then Some (Z.to_nat (Qfloor x)) else None
  | _ => None
  end.

Definition is_integer (a : num) : Prop := exists z, a = Int z.

End JSNum.
Import JSNum.

(** ** The graph abstraction

    Modelled from the spec: the graph storage (the external package
    graphlib) is consumed through its interface only.  Node ids are
    strings kept in insertion order, every node and edge has a label
    object, the hierarchy is a child-to-parent map.  An absent property
    ([undefined]) is [None]; two node ids never share one label object. *)

(** ToNumber on a property that may be absent. *)
Definition to_num (x : option num) : num :=
  match x with Some n => n | None => NaN end.

Module Label.

Record t : Type := mk {
  rank : option num;
  order : option num;
  minRank : option num;
  maxRank : option num;
  borderLeft : option (list (option string));
  borderRight : option (list (option string));
  dummy : option string;
  width : option num;
  height : option num
}.

Definition empty : t := mk None None None None None None None None None.

Definition set_rank (l : t) (r : option num) : t :=
  mk r (order l) (minRank l) (maxRank l) (borderLeft l) (borderRight l)
     (dummy l) (width l) (height l).

Definition set_order (l : t) (o : option num) : t :=
  mk (rank l) o (minRank l) (maxRank l) (borderLeft l) (borderRight l)
     (dummy l) (width l) (height l).

Definition set_dummy (l : t) (d : option string) : t :=
  mk (rank l) (order l) (minRank l) (maxRank l) (borderLeft l) (borderRight l)
     d (width l) (height l).

End Label.

Record Edge : Type := mkEdge { e_v : string; e_w : string; e_name : option string }.

Record EdgeLabel : Type := mkEdgeLabel { weight : option num; minlen : option num }.

Record GraphLabel : Type := mkGraphLabel {
  nodeRankFactor : option num;
  root : option string
}.

Record Graph : Type := mkGraph {
  g_nodes : list (string * Label.t);
  g_edges : list (Edge * EdgeLabel);
  g_parent : list (string * string);
  g_graph : GraphLabel
}.

Module Graphlib.

Fixpoint lookup {A : Type} (k : string) (l : list (string * A)) : option A :=
  match l with
  | [] => None
  | (k', a) :: l' => if String.eqb k k' then Some a else lookup k l'
  end.

(** Replace the value stored under [k], keeping its position. *)
Fixpoint replace {A : Type} (k : string) (a : A) (l : list (string * A))
  : list (string * A) :=
  match l with
  | [] => []
  | (k', a') :: l' =>
      if String.eqb k k' then (k', a) :: l' else (k', a') :: replace k a l'
  end.

Definition nodes (g : Graph) : list string := map fst (g_nodes g).

Definition node (g : Graph) (v : string) : option Label.t := lookup v (g_nodes g).

Definition hasNode (g : Graph) (v : string) : bool :=
  existsb (String.eqb v) (nodes g).

Definition with_nodes (g : Graph) (ns : list (string * Label.t)) : Graph :=
  mkGraph ns (g_edges g) (g_parent g) (g_graph g).

(** [g.setNode(v, label)]: a new node is appended, an existing one keeps its
    position and gets the new label. *)
Definition setNode (g : Graph) (v : string) (l : Label.t) : Graph :=
  if hasNode g v then with_nodes g (replace v l (g_nodes g))
  else with_nodes g (g_nodes g ++ [(v, l)]).

(** Mutation of the label object of [v] in place. *)
Definition update (g : Graph) (v : string) (f : Label.t -> Label.t) : Graph :=
  match node g v with
  | Some l => with_nodes g (replace v (f l) (g_nodes g))
  | None => g
  end.

Definition edges (g : Graph) : list Edge := map fst (g_edges g).

Definition Edge_eqb (e e' : Edge) : bool :=
  String.eqb (e_v e) (e_v e') && String.eqb (e_w e) (e_w e') &&
  match e_name e, e_name e' with
  | None, None => true
  | Some a, Some b => String.eqb a b
  | _, _ => false
  end.

Fixpoint edge (g_es : list (Edge * EdgeLabel)) (e : Edge) : option EdgeLabel :=
  match g_es with
  | [] => None
  | (e', l) :: es => if Edge_eqb e e' then Some l else edge es e
  end.

Definition outEdges (g : Graph) (v : string) : list Edge :=
  filter (fun e => String.eqb (e_v e) v) (edges g).

Definition inEdges (g : Graph) (v : string) : list Edge :=
  filter (fun e => String.eqb (e_w e) v) (edges g).

(** [g.sources()]: the nodes without incoming edge. *)
Definition sources (g : Graph) : list string :=
  filter (fun v => match inEdges g v with [] => true | _ => false end) (nodes g).

Definition parent (g : Graph) (v : string) : option string := lookup v (g_parent g).

End Graphlib.

(** ** Outcomes

    A call returns, throws (a [TypeError] on a property access through
    [undefined], or an explicit [Error]), or does not terminate.
    [OutOfFuel] is not a behaviour of the code: it marks a run cut by the
    bound on iterations or on recursion depth that the model works with. *)

Inductive outcome (A : Type) : Type :=
| Ok (a : A)
| Throw (msg : string)
| Diverge
| OutOfFuel.
Arguments Ok {A} a.
Arguments Throw {A} msg.
Arguments Diverge {A}.
Arguments OutOfFuel {A}.

(** ** lib/util.js *)

Module Util.

Definition CHUNKING_THRESHOLD : Z := 65535.

(** The loop of [splitToChunks]: [fuel] bounds the number of chunks, and
    the length of the array is always enough when [chunkSize] is positive. *)
Fixpoint splitToChunks_loop {A : Type} (fuel : nat) (array : list A)
  (chunkSize : nat) : list (list A) :=
  match fuel, array with
  | _, [] => []
  | O, _ => []
  | S fuel', _ =>
      firstn chunkSize array :: splitToChunks_loop fuel' (skipn chunkSize array) chunkSize
  end.

Definition splitToChunks {A : Type} (array : list A) (chunkSize : Z) : list (list A) :=
  splitToChunks_loop (List.length array) array (Z.to_nat chunkSize).

(** [fn.apply(null, args)] is [fn args] for a variadic [fn]. *)
Definition applyWithChunking {A : Type} (fn : list A -> A) (argsArray : list A) : A :=
  if (Z.of_nat (List.length argsArray) >? CHUNKING_THRESHOLD)%Z then
    let chunks := splitToChunks argsArray CHUNKING_THRESHOLD in
    fn (map (fun chunk => fn chunk) chunks)
  else
    fn argsArray.

Definition maxRank (g : Graph) : num :=
  let nodes := Graphlib.nodes g in
  let nodeRanks := map (fun v =>
    match Graphlib.node g v with
    | Some l =>
        match Label.rank l with
        | None => MIN_VALUE
        | Some rank => rank
        end
    | None => NaN (* not reached: [v] is a node of [g] *)
    end) nodes in
  applyWithChunking Math_max nodeRanks.


(** *** Identifier generation *)

(** ["" + id] for a counter value. *)
Definition number_to_string (n : nat) : string :=
  NilEmpty.string_of_uint (Nat.to_uint n).

(** [uniqueId(prefix)]; the module-level [idCounter] is passed explicitly. *)
Definition uniqueId (prefix : string) (idCounter : nat) : string * nat :=
  let id := S idCounter in
  ((prefix ++ number_to_string id)%string, id).

(** The [while (g.hasNode(v))] loop of [addDummyNode]: [None] when the loop
    is still running after [fuel] calls of [uniqueId]. *)
Fixpoint addDummyNode_loop (fuel : nat) (g : Graph) (name v : string)
  (idCounter : nat) : option (string * nat) :=
  if Graphlib.hasNode g v then
    match fuel with
    | O => None
    | S fuel' =>
        let '(v', idCounter') := uniqueId name idCounter in
        addDummyNode_loop fuel' g name v' idCounter'
    end
  else Some (v, idCounter).

(** [addDummyNode(g, type, attrs, name)] returns the id, the graph with the
    node inserted and the counter.  The loop is given one call of
    [uniqueId] per node of the graph; [addDummyNode_total] shows that it
    has always stopped by then. *)
Definition addDummyNode (g : Graph) (type : string) (attrs : Label.t)
  (name : string) (idCounter : nat) : option (string * Graph * nat) :=
  match addDummyNode_loop (List.length (Graphlib.nodes g)) g name name idCounter with
  | None => None
  | Some (v, idCounter') =>
      let attrs := Label.set_dummy attrs (Some type) in
      Some (v, Graphlib.setNode g v attrs, idCounter')
  end.

(** [addBorderNode(g, prefix, rank, order)]; [rank_order] is [None] for the
    call shape with fewer than four arguments. *)
Definition addBorderNode (g : Graph) (prefix : string)
  (rank_order : option (option num * option num)) (idCounter : nat)
  : option (string * Graph * nat) :=
  let node := Label.mk None None None None None None None (Some (Int 0)) (Some (Int 0)) in
  let node :=
    match rank_order with
    | Some (rank, order) => Label.set_order (Label.set_rank node rank) order
    | None => node
    end in
  addDummyNode g "border" node prefix idCounter.

(** *** Geometry *)

Record Rect : Type := mkRect { r_x : num; r_y : num; r_width : num; r_height : num }.
Record Point : Type := mkPoint { p_x : num; p_y : num }.

Definition intersectRect (rect : Rect) (point : Point) : outcome Point :=
  let x := r_x rect in
  let y := r_y rect in
  let dx := num_sub (p_x point) x in
  let dy := num_sub (p_y point) y in
  let w := num_div (r_width rect) (Int 2) in
  let h := num_div (r_height rect) (Int 2) in
  if negb (truthy dx) && negb (truthy dy) then
    Throw "Not possible to find intersection inside of the rectangle"
  else
    let '(sx, sy) :=
      if num_ltb (num_mul (num_abs dx) h) (num_mul (num_abs dy) w) then
        let h := if num_ltb dy (Int 0) then num_opp h else h in
        (num_div (num_mul h dx) dy, h)
      else
        let w := if num_ltb dx (Int 0) then num_opp w else w in
        (w, num_div (num_mul w dy) dx) in
    Ok (mkPoint (num_add x sx) (num_add y sy)).

(** *** Ranges and the layer matrix *)

(** The [for] loop of [range]; [None] when it is still running after [fuel]
    elements. *)
Fixpoint range_loop (fuel : nat) (endCon : num -> bool) (i step : num)
  : option (list num) :=
  if endCon i then
    match fuel with
    | O => None
    | S fuel' => option_map (cons i) (range_loop fuel' endCon (num_add i step) step)
    end
  else Some [].

(** Number of elements after which the loop of [range] has stopped if it
    stops at all: the distance to cover divided by the step, rounded up;
    one element at most when the step is not finite. *)
Definition range_budget (start limit step : num) : nat :=
  match start, limit, step with
  | Fin s, Fin l, Fin st =>
      if Qeq_bool st 0 then O
      else Z.to_nat (Qceiling (Qabs (l - s) / Qabs st))
  | _, _, Fin _ => O
  | _, _, _ => 1%nat
  end.

(** [range(start, limit, step)]; [limit] is [None] for the one-argument
    call and [step] defaults to 1 at the call sites.  [None] is returned
    when the loop does not terminate. *)
Definition range (start : num) (limit : option num) (step : num) : option (list num) :=
  let '(start, limit) :=
    match limit with
    | None => (Int 0, start)
    | Some limit => (start, limit)
    end in
  let endCon := if num_ltb step (Int 0)
                then (fun i => num_ltb limit i)
                else (fun i => num_ltb i limit) in
  range_loop (range_budget start limit step) endCon start step.

(** A JS array with holes; [array_set] is [a[i] = x], which extends the
    array when [i] is past its end. *)
Fixpoint array_set {A : Type} (a : list (option A)) (i : nat) (x : A)
  : list (option A) :=
  match i, a with
  | O, [] => [Some x]
  | O, _ :: a' => Some x :: a'
  | S i', [] => None :: array_set [] i' x
  | S i', y :: a' => y :: array_set a' i' x
  end.

Definition array_get {A : Type} (a : list (option A)) (i : nat) : option A :=
  match nth_error a i with
  | Some y => y
  | None => None
  end.

(** The layer matrix: one row per rank, a row being an array with holes.
    A write [row[order] = v] whose [order] is not an array index creates a
    named property, which no iteration over the row sees: it is dropped. *)
Definition Layering : Type := list (list (option string)).

Definition buildLayerMatrix_step (g : Graph) (layering : outcome Layering)
  (v : string) : outcome Layering :=
  match layering with
  | Ok layering =>
      match Graphlib.node g v with
      | None => Throw "TypeError"
      | Some node =>
          match Label.rank node with
          | None => Ok layering
          | Some rank =>
              match array_index rank with
              | None => Throw "TypeError"
              | Some r =>
                  match nth_error layering r with
                  | None => Throw "TypeError"
                  | Some row =>
                      match array_index (to_num (Label.order node)) with
                      | Some o =>
                          Ok (firstn r layering ++ array_set row o v
                                :: skipn (S r) layering)
                      | None => Ok layering
                      end
                  end
              end
          end
      end
  | other => other
  end.

Definition buildLayerMatrix (g : Graph) : outcome Layering :=
  match range (num_add (maxRank g) (Int 1)) None (Int 1) with
  | None => Diverge
  | Some ranks =>
      let layering := map (fun _ => []) ranks in
      fold_left (buildLayerMatrix_step g) (Graphlib.nodes g) (Ok layering)
  end.

(** *** Rank normalisation and compaction *)

Definition normalizeRanks (g : Graph) : Graph :=
  let nodeRanks := map (fun v =>
    match Graphlib.node g v with
    | Some l =>
        match Label.rank l with
        | None => MAX_VALUE
        | Some rank => rank
        end
    | None => NaN (* not reached: [v] is a node of [g] *)
    end) (Graphlib.nodes g) in
  let min := applyWithChunking Math_min nodeRanks in
  fold_left (fun g v =>
    Graphlib.update g v (fun node =>
      match Label.rank node with
      | Some rank => Label.set_rank node (Some (num_sub rank min))
      | None => node
      end)) (Graphlib.nodes g) g.

(** [a % b] on numbers. *)
Definition num_rem (a b : num) : num :=
  match a, b with
  | Fin x, Fin y =>
      if Qeq_bool y 0 then NaN
      else
        let q := (x / y)%Q in
        let t := if Qle_bool 0 q then Qfloor q else Qceiling q in
        Fin (x - y * inject_Z t)
  | Fin x, (PosInfinity | NegInfinity) => Fin x
  | _, _ => NaN
  end.

(** [layers[rank].push(v)], creating the layer when it is missing. *)
Fixpoint layers_push (layers : list (option (list string))) (i : nat) (v : string)
  : list (option (list string)) :=
  match i, layers with
  | O, [] => [Some [v]]
  | O, None :: ls => Some [v] :: ls
  | O, Some vs :: ls => Some (vs ++ [v]) :: ls
  | S i', [] => None :: layers_push [] i' v
  | S i', l :: ls => l :: layers_push ls i' v
  end.

(** The body of the [forEach] over [Array.from(layers)], at index [i]. *)
Definition removeEmptyRanks_step (nodeRankFactor : option num)
  (st : Z * Graph) (i : nat) (vs : option (list string)) : Z * Graph :=
  let '(delta, g) := st in
  match vs with
  | None =>
      if negb (num_eqb (num_rem (Int (Z.of_nat i)) (to_num nodeRankFactor)) (Int 0))
      then (delta - 1, g)%Z
      else (delta, g)
  | Some vs =>
      if negb (delta =? 0)%Z then
        (delta,
         fold_left (fun g v =>
           Graphlib.update g v (fun node =>
             Label.set_rank node
               (Some (num_add (to_num (Label.rank node)) (Int delta))))) vs g)
      else (delta, g)
  end.

Fixpoint removeEmptyRanks_loop (nodeRankFactor : option num)
  (layers : list (option (list string))) (i : nat) (st : Z * Graph) : Z * Graph :=
  match layers with
  | [] => st
  | vs :: layers' =>
      removeEmptyRanks_loop nodeRankFactor layers' (S i)
        (removeEmptyRanks_step nodeRankFactor st i vs)
  end.

(** A node whose [rank - offset] is not an array index lands in a named
    property of [layers], which [Array.from] does not copy. *)
Definition removeEmptyRanks (g : Graph) : Graph :=
  let nodeRanks := map (fun v =>
    match Graphlib.node g v with
    | Some l => to_num (Label.rank l)
    | None => NaN (* not reached: [v] is a node of [g] *)
    end) (Graphlib.nodes g) in
  let offset := applyWithChunking Math_min nodeRanks in
  let layers := fold_left (fun layers v =>
    match Graphlib.node g v with
    | Some l =>
        match array_index (num_sub (to_num (Label.rank l)) offset) with
        | Some rank => layers_push layers rank v
        | None => layers
        end
    | None => layers
    end) (Graphlib.nodes g) [] in
  let nodeRankFactor := nodeRankFactor (g_graph g) in
  snd (removeEmptyRanks_loop nodeRankFactor layers O (0%Z, g)).

End Util.

(** ** lib/rank/util.js *)

Module RankUtil.
Import Graphlib.

(** The state of [longestPath]: the graph, whose labels receive the ranks,
    and the keys of the [visited] object. *)
Definition DfsState : Type := (Graph * list string)%type.

Definition is_visited (v : string) (visited : list string) : bool :=
  existsb (String.eqb v) visited.

(** [g.outEdges(v).map((e) => dfs(e.w) - g.edge(e).minlen)], the state
    passing from one call of [dfs] to the next.  Edge objects are never
    [null], so the guard on [e == null] does not arise. *)
Fixpoint map_outEdges (dfs : string -> DfsState -> outcome (option num * DfsState))
  (es : list Edge) (st : DfsState) : outcome (list num * DfsState) :=
  match es with
  | [] => Ok ([], st)
  | e :: es' =>
      match dfs (e_w e) st with
      | Ok (r, st1) =>
          match edge (g_edges (fst st1)) e with
          | None => Throw "TypeError"
          | Some l =>
              let x := num_sub (to_num r) (to_num (minlen l)) in
              match map_outEdges dfs es' st1 with
              | Ok (xs, st2) => Ok (x :: xs, st2)
              | Throw msg => Throw msg
              | Diverge => Diverge
              | OutOfFuel => OutOfFuel
              end
          end
      | Throw msg => Throw msg
      | Diverge => Diverge
      | OutOfFuel => OutOfFuel
      end
  end.

(** [dfs(v)]; [fuel] bounds the depth of the recursion, and a call goes one
    level deeper only after marking a node that was not visited. *)
Fixpoint dfs (fuel : nat) (v : string) (st : DfsState)
  : outcome (option num * DfsState) :=
  let '(g, visited) := st in
  match node g v with
  | None => Throw "TypeError"
  | Some label =>
      if is_visited v visited then Ok (Label.rank label, st)
      else
        match fuel with
        | O => OutOfFuel
        | S fuel' =>
            let visited := v :: visited in
            match map_outEdges (dfs fuel') (outEdges g v) (g, visited) with
            | Ok (outEdgesMinLens, (g', visited')) =>
                let rank := Util.applyWithChunking Math_min outEdgesMinLens in
                let rank := if num_eqb rank PosInfinity then Int 0 else rank in
                Ok (Some rank,
                    (update g' v (fun label => Label.set_rank label (Some rank)),
                     visited'))
            | Throw msg => Throw msg
            | Diverge => Diverge
            | OutOfFuel => OutOfFuel
            end
        end
  end.

(** [g.sources().forEach(dfs)].  The recursion is as deep as a chain of
    distinct nodes at most, so the number of nodes is depth enough. *)
Definition longestPath (g : Graph) : outcome Graph :=
  let fuel := List.length (nodes g) in
  match
    fold_left (fun acc v =>
      match acc with
      | Ok st =>
          match dfs fuel v st with
          | Ok (_, st') => Ok st'
          | Throw msg => Throw msg
          | Diverge => Diverge
          | OutOfFuel => OutOfFuel
          end
      | other => other
      end) (sources g) (Ok (g, []))
  with
  | Ok (g', _) => Ok g'
  | Throw msg => Throw msg
  | Diverge => Diverge
  | OutOfFuel => OutOfFuel
  end.

Definition slack (g : Graph) (e : Edge) : outcome num :=
  match node g (e_w e), node g (e_v e), edge (g_edges g) e with
  | Some w_label, Some v_label, Some e_label =>
      Ok (num_sub (num_sub (to_num (Label.rank w_label)) (to_num (Label.rank v_label)))
                  (to_num (minlen e_label)))
  | _, _, _ => Throw "TypeError"
  end.

End RankUtil.

(** ** lib/order/build-layer-graph.js *)

(** The [relationship] argument: the strings ["inEdges"] and ["outEdges"]. *)
Inductive Relationship : Type := Rel_inEdges | Rel_outEdges.

(** Label of a node of a layer graph.  [Shared] is the label object of the
    main graph, handed out by the default-label function
    [(v) => g.node(v)]: reads and writes through it reach the main graph.
    [Own] is the fresh object [{borderLeft, borderRight}] given to a
    subgraph node; [order] is written on it by the sweep. *)
Inductive LgLabel : Type :=
| Shared
| Own (borderLeft borderRight : option string) (order : option num).

(** A layer graph: the compound graph built by [buildLayerGraph].
    [lg_rank] and [lg_relationship] record the arguments it was built from;
    the graph object of the code does not store them, they are kept for
    the statements about the two families. *)
Record LayerGraph : Type := mkLayerGraph {
  lg_rank : num;
  lg_relationship : Relationship;
  lg_root : string;
  lg_nodes : list (string * LgLabel);
  lg_parent : list (string * string);
  lg_edges : list (string * string * num)
}.

Module BuildLayerGraph.
Import Graphlib.

(** [while (g.hasNode((v = util.uniqueId("_root"))));], with one generated
    id per node of the graph as budget ([createRootNode_total]). *)
Fixpoint createRootNode_loop (fuel : nat) (g : Graph) (idCounter : nat)
  : option (string * nat) :=
  let '(v, idCounter') := Util.uniqueId "_root" idCounter in
  if hasNode g v then
    match fuel with
    | O => None
    | S fuel' => createRootNode_loop fuel' g idCounter'
    end
  else Some (v, idCounter').

Definition createRootNode (g : Graph) (idCounter : nat) : option (string * nat) :=
  createRootNode_loop (List.length (nodes g)) g idCounter.

(** graphlib on the result graph: [setNode(v)] keeps an existing node and
    otherwise adds it with the default label; [setNode(v, label)] replaces
    the label. *)
Definition lg_hasNode (lg : LayerGraph) (v : string) : bool :=
  existsb (fun p => String.eqb v (fst p)) (lg_nodes lg).

Definition lg_with_nodes (lg : LayerGraph) (ns : list (string * LgLabel)) : LayerGraph :=
  mkLayerGraph (lg_rank lg) (lg_relationship lg) (lg_root lg) ns
               (lg_parent lg) (lg_edges lg).

Definition lg_setNode_default (lg : LayerGraph) (v : string) : LayerGraph :=
  if lg_hasNode lg v then lg else lg_with_nodes lg (lg_nodes lg ++ [(v, Shared)]).

Definition lg_setNode (lg : LayerGraph) (v : string) (l : LgLabel) : LayerGraph :=
  if lg_hasNode lg v then lg_with_nodes lg (replace v l (lg_nodes lg))
  else lg_with_nodes lg (lg_nodes lg ++ [(v, l)]).

(** [setParent(v, parent)] also makes sure both nodes exist.  The hierarchy
    of the main graph is a forest, so the cycle check of graphlib never
    fires on a layer graph and is left out. *)
Definition lg_setParent (lg : LayerGraph) (v parent : string) : LayerGraph :=
  let lg := lg_setNode_default (lg_setNode_default lg parent) v in
  let ps := if existsb (fun p => String.eqb v (fst p)) (lg_parent lg)
            then replace v parent (lg_parent lg)
            else lg_parent lg ++ [(v, parent)] in
  mkLayerGraph (lg_rank lg) (lg_relationship lg) (lg_root lg) (lg_nodes lg)
               ps (lg_edges lg).

Definition edge_key_eqb (u v : string) (e : string * string * num) : bool :=
  String.eqb u (fst (fst e)) && String.eqb v (snd (fst e)).

Definition lg_edge (lg : LayerGraph) (u v : string) : option num :=
  option_map snd (find (edge_key_eqb u v) (lg_edges lg)).

Definition lg_setEdge (lg : LayerGraph) (u v : string) (weight : num) : LayerGraph :=
  let lg := lg_setNode_default (lg_setNode_default lg u) v in
  let es := if existsb (edge_key_eqb u v) (lg_edges lg)
            then map (fun e => if edge_key_eqb u v e then (u, v, weight) else e)
                     (lg_edges lg)
            else lg_edges lg ++ [(u, v, weight)] in
  mkLayerGraph (lg_rank lg) (lg_relationship lg) (lg_root lg) (lg_nodes lg)
               (lg_parent lg) es.

Definition relationship_edges (g : Graph) (relationship : Relationship) (v : string)
  : list Edge :=
  match relationship with
  | Rel_inEdges => Graphlib.inEdges g v
  | Rel_outEdges => Graphlib.outEdges g v
  end.

(** [a[rank]] on an array: [undefined] unless [rank] is an index in range. *)
Definition border_at (a : list (option string)) (rank : num) : option string :=
  match array_index rank with
  | Some i => Util.array_get a i
  | None => None
  end.

(** The body of [nodesWithRank.forEach] for the node [v]. *)
Definition buildLayerGraph_step (g : Graph) (rank : num) (relationship : Relationship)
  (root : string) (result : outcome LayerGraph) (v : string) : outcome LayerGraph :=
  match result with
  | Ok result =>
      match node g v with
      | None => Throw "TypeError"
      | Some node =>
          let parent := parent g v in
          if num_eqb (to_num (Label.rank node)) rank
             || (num_leb (to_num (Label.minRank node)) rank
                 && num_leb rank (to_num (Label.maxRank node)))
          then
            let result := lg_setNode_default result v in
            let result :=
              lg_setParent result v
                match parent with
                | Some p => if String.eqb p "" then root else p
                | None => root
                end in
            let result :=
              fold_left (fun result e =>
                match result with
                | Ok result =>
                    let u := if String.eqb (e_v e) v then e_w e else e_v e in
                    let weight' :=
                      match lg_edge result u v with
                      | Some edge_weight => edge_weight
                      | None => Int 0
                      end in
                    match Graphlib.edge (g_edges g) e with
                    | Some l =>
                        Ok (lg_setEdge result u v (num_add (to_num (weight l)) weight'))
                    | None => Throw "TypeError"
                    end
                | other => other
                end) (relationship_edges g relationship v) (Ok result) in
            match result with
            | Ok result =>
                match Label.minRank node with
                | Some _ =>
                    match Label.borderLeft node, Label.borderRight node with
                    | Some bl, Some br =>
                        Ok (lg_setNode result v
                              (Own (border_at bl rank) (border_at br rank) None))
                    | _, _ => Throw "TypeError"
                    end
                | None => Ok result
                end
            | other => other
            end
          else Ok result
      end
  | other => other
  end.

(** [buildLayerGraph(g, rank, relationship, nodesWithRank)]; the counter of
    [uniqueId] is threaded through. *)
Definition buildLayerGraph (g : Graph) (rank : num) (relationship : Relationship)
  (nodesWithRank : option (list string)) (idCounter : nat)
  : outcome LayerGraph * nat :=
  let nodesWithRank :=
    match nodesWithRank with
    | Some l => l
    | None => nodes g
    end in
  match createRootNode g idCounter with
  | None => (Diverge, idCounter)
  | Some (root, idCounter') =>
      let result := mkLayerGraph rank relationship root [] [] [] in
      (fold_left (buildLayerGraph_step g rank relationship root)
                 nodesWithRank (Ok result),
       idCounter')
  end.

End BuildLayerGraph.

(** ** lib/order/index.js *)

(** Modelled from the spec: the Initial Order Seeder ([init-order]), the
    Crossing Counter ([cross-count]), the Subgraph Sorter ([sort-subgraph])
    and the Subgraph Constraint Adder ([add-subgraph-constraints]) are not
    among the files modelled; they are parameters with the interface the
    specification gives them.  They read the main graph (the layer graphs
    share its label objects) and mutate nothing but the constraint graph
    [cg]; the Crossing Counter returns a non-negative integer. *)
Record Collaborators : Type := mkCollaborators {
  CG : Type;
  new_Graph : CG;
  initOrder : Graph -> list (list string);
  crossCount : Graph -> Util.Layering -> nat;
  sortSubgraph : Graph -> LayerGraph -> string -> CG -> bool -> list string;
  addSubgraphConstraints : Graph -> LayerGraph -> CG -> list string -> CG
}.

(** What an observer of a run of [order] sees: each call of
    [sweepLayerGraphs] with its arguments, and each crossing count with the
    layering it was computed on. *)
Inductive Event : Type :=
| Swept (layerGraphs : list LayerGraph) (biasRight : bool)
| Counted (layering : Util.Layering) (cc : nat).

(** The mutable state: the main graph, the [idCounter] of [util.js] and the
    events so far, oldest first. *)
Record World : Type := mkWorld {
  w_g : Graph;
  w_idCounter : nat;
  w_log : list Event
}.

Definition M (A : Type) : Type := World -> World * outcome A.

Definition ret {A : Type} (a : A) : M A := fun w => (w, Ok a).

Definition bind {A B : Type} (c : M A) (k : A -> M B) : M B :=
  fun w =>
    match c w with
    | (w', Ok a) => k a w'
    | (w', Throw msg) => (w', Throw msg)
    | (w', Diverge) => (w', Diverge)
    | (w', OutOfFuel) => (w', OutOfFuel)
    end.

Declare Scope monad_scope.
Delimit Scope monad_scope with monad.
Notation "x <- c ;; k" := (bind c (fun x => k))
  (at level 61, c at next level, right associativity) : monad_scope.
Notation "c ;;; k" := (bind c (fun _ => k))
  (at level 61, right associativity) : monad_scope.

Definition throw {A : Type} (msg : string) : M A := fun w => (w, Throw msg).
Definition diverge {A : Type} : M A := fun w => (w, Diverge).
Definition out_of_fuel {A : Type} : M A := fun w => (w, OutOfFuel).
Definition get_g : M Graph := fun w => (w, Ok (w_g w)).
Definition put_g (g : Graph) : M unit :=
  fun w => (mkWorld g (w_idCounter w) (w_log w), Ok tt).
Definition emit (e : Event) : M unit :=
  fun w => (mkWorld (w_g w) (w_idCounter w) (w_log w ++ [e]), Ok tt).

(** Sequential [forEach] / [map] with effects. *)
Fixpoint forEach {A : Type} (l : list A) (f : A -> M unit) : M unit :=
  match l with
  | [] => ret tt
  | a :: l' => (f a ;;; forEach l' f)%monad
  end.

Fixpoint mapM {A B : Type} (f : A -> M B) (l : list A) : M (list B) :=
  match l with
  | [] => ret []
  | a :: l' => (b <- f a ;; bs <- mapM f l' ;; ret (b :: bs))%monad
  end.

(** Elements of an array with holes, with their indices, as [forEach]
    visits them. *)
Fixpoint entries_from {A : Type} (i : nat) (a : list (option A)) : list (nat * A) :=
  match a with
  | [] => []
  | Some x :: a' => (i, x) :: entries_from (S i) a'
  | None :: a' => entries_from (S i) a'
  end.

Definition entries {A : Type} (a : list (option A)) : list (nat * A) := entries_from O a.

Module Order.
Import Graphlib.
Open Scope monad_scope.

(** [g.node(v).order = i]. *)
Definition set_node_order (v : string) (i : nat) : M unit :=
  g <- get_g ;;
  match node g v with
  | None => throw "TypeError"
  | Some _ =>
      put_g (update g v (fun l => Label.set_order l (Some (Int (Z.of_nat i)))))
  end.

(** [assignOrder(g, layering)]; [layering] is [None] when the variable is
    still [undefined]. *)
Definition assignOrder (layering : option Util.Layering) : M unit :=
  match layering with
  | None => throw "TypeError"
  | Some layering =>
      forEach layering (fun layer =>
        forEach (entries layer) (fun '(i, v) => set_node_order v i))
  end.

(** Keys of the [Map] are compared by SameValueZero. *)
Definition same_value_zero (a b : num) : bool :=
  match a, b with
  | NaN, NaN => true
  | _, _ => num_eqb a b
  end.

Fixpoint addNodeToRank (nodesByRank : list (num * list string)) (rank : num)
  (node : string) : list (num * list string) :=
  match nodesByRank with
  | [] => [(rank, [node])]
  | (r, vs) :: rest =>
      if same_value_zero rank r then (r, vs ++ [node]) :: rest
      else (r, vs) :: addNodeToRank rest rank node
  end.

Fixpoint nodesByRank_get (nodesByRank : list (num * list string)) (rank : num)
  : option (list string) :=
  match nodesByRank with
  | [] => None
  | (r, vs) :: rest =>
      if same_value_zero rank r then Some vs else nodesByRank_get rest rank
  end.

(** The ranks [minRank, minRank + 1, ...] not above [maxRank]; [None] when
    the loop [for (r = minRank; r <= maxRank; r++)] does not terminate. *)
Definition rank_span (minRank maxRank : num) : option (list num) :=
  Util.range_loop
    (match minRank, maxRank with
     | Fin a, Fin b => S (Z.to_nat (Qfloor (b - a)))
     | _, _ => O
     end)
    (fun r => num_leb r maxRank) minRank (Int 1).

(** The index from rank to nodes built by the first loop of
    [buildLayerGraphs]. *)
Definition index_node (g : Graph) (acc : option (list (num * list string)))
  (v : string) : option (list (num * list string)) :=
  match acc, node g v with
  | Some nodesByRank, Some node =>
      let nodesByRank :=
        match Label.rank node with
        | Some rank => addNodeToRank nodesByRank rank v
        | None => nodesByRank
        end in
      match Label.minRank node, Label.maxRank node with
      | Some minRank, Some maxRank =>
          match rank_span minRank maxRank with
          | Some rs =>
              Some (fold_left (fun nodesByRank r =>
                      if negb (num_eqb r (to_num (Label.rank node)))
                      then addNodeToRank nodesByRank r v
                      else nodesByRank) rs nodesByRank)
          | None => None
          end
      | _, _ => Some nodesByRank
      end
  | _, _ => acc
  end.

Definition buildLayerGraphs (ranks : list num) (relationship : Relationship)
  : M (list LayerGraph) :=
  g <- get_g ;;
  match fold_left (index_node g) (nodes g) (Some []) with
  | None => diverge
  | Some nodesByRank =>
      mapM (fun rank w =>
        let nodesWithRank :=
          match nodesByRank_get nodesByRank rank with
          | Some vs => vs
          | None => []
          end in
        let '(result, idCounter) :=
          BuildLayerGraph.buildLayerGraph g rank relationship (Some nodesWithRank)
            (w_idCounter w) in
        (mkWorld (w_g w) idCounter (w_log w), result)) ranks
  end.

(** [lg.node(v).order = i]: through a shared label the write lands on the
    main graph, on an own label it stays in the layer graph. *)
Definition lg_set_order (lg : LayerGraph) (v : string) (i : nat) : M LayerGraph :=
  match lookup v (lg_nodes lg) with
  | None => throw "TypeError"
  | Some Shared => set_node_order v i ;;; ret lg
  | Some (Own bl br _) =>
      ret (BuildLayerGraph.lg_with_nodes lg
             (replace v (Own bl br (Some (Int (Z.of_nat i)))) (lg_nodes lg)))
  end.

Fixpoint lg_set_orders (lg : LayerGraph) (vs : list string) (i : nat) : M LayerGraph :=
  match vs with
  | [] => ret lg
  | v :: vs' => lg' <- lg_set_order lg v i ;; lg_set_orders lg' vs' (S i)
  end.

(** The body of [layerGraphs.forEach] in [sweepLayerGraphs]; the layer
    graphs are mutated in place, so the updated one is handed back. *)
Definition sweep_step (C : Collaborators) (biasRight : bool)
  (st : CG C * list LayerGraph) (lg : LayerGraph) : M (CG C * list LayerGraph) :=
  let '(cg, done) := st in
  let root := lg_root lg in
  g <- get_g ;;
  let sorted_vs := sortSubgraph C g lg root cg biasRight in
  lg' <- lg_set_orders lg sorted_vs O ;;
  g' <- get_g ;;
  ret (addSubgraphConstraints C g' lg' cg sorted_vs, done ++ [lg']).

Fixpoint foldM {A B : Type} (f : B -> A -> M B) (l : list A) (b : B) : M B :=
  match l with
  | [] => ret b
  | a :: l' => b' <- f b a ;; foldM f l' b'
  end.

Definition sweepLayerGraphs (C : Collaborators) (layerGraphs : list LayerGraph)
  (biasRight : bool) : M (list LayerGraph) :=
  emit (Swept layerGraphs biasRight) ;;;
  let cg := new_Graph C in
  st <- foldM (sweep_step C biasRight) layerGraphs (cg, []) ;;
  ret (snd st).

Definition lift_outcome {A : Type} (o : outcome A) : M A := fun w => (w, o).

(** [cc < bestCC], with [None] for [Number.POSITIVE_INFINITY]. *)
Definition cc_lt (cc : nat) (bestCC : option nat) : bool :=
  match bestCC with
  | None => true
  | Some b => (cc <? b)%nat
  end.

(** The variables of the [for] loop. *)
Record LoopState : Type := mkLoopState {
  ls_i : nat;
  ls_lastBest : nat;
  ls_bestCC : option nat;
  ls_best : option Util.Layering;
  ls_down : list LayerGraph;
  ls_up : list LayerGraph
}.

(** One iteration: the body of the loop followed by [++i, ++lastBest]. *)
Definition order_iteration (C : Collaborators) (s : LoopState) : M LoopState :=
  let i := ls_i s in
  let biasRight := (2 <=? i mod 4)%nat in
  swept <- sweepLayerGraphs C
             (if negb (i mod 2 =? 0)%nat then ls_down s else ls_up s) biasRight ;;
  let down := if negb (i mod 2 =? 0)%nat then swept else ls_down s in
  let up := if negb (i mod 2 =? 0)%nat then ls_up s else swept in
  g <- get_g ;;
  layering <- lift_outcome (Util.buildLayerMatrix g) ;;
  let cc := crossCount C g layering in
  emit (Counted layering cc) ;;;
  if cc_lt cc (ls_bestCC s) then
    ret (mkLoopState (S i) (S O) (Some cc) (Some layering) down up)
  else
    ret (mkLoopState (S i) (S (ls_lastBest s)) (ls_bestCC s) (ls_best s) down up).

(** The [for] loop, allowed [fuel] iterations. *)
Fixpoint order_loop (C : Collaborators) (fuel : nat) (s : LoopState) : M LoopState :=
  if (ls_lastBest s <? 4)%nat then
    match fuel with
    | O => out_of_fuel
    | S fuel' => s' <- order_iteration C s ;; order_loop C fuel' s'
    end
  else ret s.

(** The default algorithm: [order] without a [customOrder] strategy. *)
Definition order_default (C : Collaborators) (fuel : nat)
  (disableOptimalOrderHeuristic : bool) : M unit :=
  g <- get_g ;;
  let maxRank := Util.maxRank g in
  ranks_down <- (fun w => (w, match Util.range (Int 1) (Some (num_add maxRank (Int 1))) (Int 1) with
                              | Some l => Ok l | None => Diverge end)) ;;
  downLayerGraphs <- buildLayerGraphs ranks_down Rel_inEdges ;;
  ranks_up <- (fun w => (w, match Util.range (num_sub maxRank (Int 1)) (Some (Int (-1))) (Int (-1)) with
                            | Some l => Ok l | None => Diverge end)) ;;
  upLayerGraphs <- buildLayerGraphs ranks_up Rel_outEdges ;;
  g <- get_g ;;
  let layering := map (map Some) (initOrder C g) in
  assignOrder (Some layering) ;;;
  if disableOptimalOrderHeuristic then ret tt
  else
    s <- order_loop C fuel
           (mkLoopState O O None None downLayerGraphs upLayerGraphs) ;;
    assignOrder (ls_best s).

(** The options of [order].  A [customOrder] strategy is handed the
    function [order] itself; here it receives the default algorithm as a
    function of the [disableOptimalOrderHeuristic] flag it passes on. *)
Record Opts : Type := mkOpts {
  customOrder : option ((bool -> M unit) -> M unit);
  disableOptimalOrderHeuristic : bool
}.

Definition order (C : Collaborators) (fuel : nat) (opts : option Opts) : M unit :=
  match opts with
  | Some (mkOpts (Some customOrder) _) => customOrder (order_default C fuel)
  | Some (mkOpts None disable) => order_default C fuel disable
  | None => order_default C fuel false
  end.

End Order.

(** ** lib/util.js: collections, adjacency weights and simplification *)

Module UtilMore.
Import Graphlib.

(** A plain JS object used as a map, as [{}] creates it: the list of its
    own properties.  Properties are read and written by key; the order of
    the list is the order of creation and no statement depends on it, so
    the place that integer-like keys take in the enumeration order is not
    modelled.

    A plain object inherits the members of [Object.prototype].  Reading a
    key that is no own property gives [undefined], unless the key names
    one of these members: then the read yields the inherited member, a
    function or an object.  A write creates or replaces an own property,
    unless the key is [__proto__] and no own property has that name: then
    the write goes to the inherited setter, no own property is created and
    the prototype itself may change.  The model holds own properties and
    nothing else: a read that yields an inherited member and a write that
    goes to the [__proto__] setter are outside it, and give [None]. *)
Definition Obj (A : Type) : Type := list (string * A).

Definition Object_prototype : list string :=
  ["constructor"; "__defineGetter__"; "__defineSetter__"; "hasOwnProperty";
   "__lookupGetter__"; "__lookupSetter__"; "isPrototypeOf";
   "propertyIsEnumerable"; "toString"; "valueOf"; "__proto__";
   "toLocaleString"]%string.

Definition inherited (k : string) : bool := existsb (String.eqb k) Object_prototype.

Definition has_own {A : Type} (obj : Obj A) (k : string) : bool :=
  existsb (fun p => String.eqb k (fst p)) obj.

(** [obj[k]]: the value of the own property, or [undefined] ([Some None]). *)
Definition obj_get {A : Type} (obj : Obj A) (k : string) : option (option A) :=
  match lookup k obj with
  | Some a => Some (Some a)
  | None => if inherited k then None else Some None
  end.

(** [obj[k] = a]. *)
Definition obj_set {A : Type} (obj : Obj A) (k : string) (a : A) : option (Obj A) :=
  if has_own obj k then Some (replace k a obj)
  else if String.eqb k "__proto__" then None
  else Some (obj ++ [(k, a)]).

Record Partition (A : Type) : Type := mkPartition { lhs : list A; rhs : list A }.

(** [partition(collection, fn)]; the result of [fn] is read as a boolean. *)
Definition partition {A : Type} (collection : list A) (fn : A -> bool) : Partition A :=
  fold_left (fun result value =>
    if fn value then mkPartition (lhs result ++ [value]) (rhs result)
    else mkPartition (lhs result) (rhs result ++ [value]))
    collection (mkPartition [] []).

(** The elements of an array with their indices, as [reduce] hands them to
    its callback. *)
Definition indexed {A : Type} (l : list A) : list (nat * A) :=
  combine (seq 0 (List.length l)) l.

(** [zipObject(props, values)]; [values[i]] is [undefined] ([None]) past
    the end of [values]. *)
Definition zipObject {A : Type} (props : list string) (values : list A)
  : option (Obj (option A)) :=
  fold_left (fun acc '(i, key) =>
               match acc with
               | Some acc => obj_set acc key (nth_error values i)
               | None => None
               end)
            (indexed props) (Some []).

(** [mapValues(obj, func)]; the call with a property name is the call with
    the function [(val) => val[funcOrProp]]. *)
Definition mapValues {A B : Type} (obj : Obj A) (func : A -> string -> B)
  : option (Obj B) :=
  fold_left (fun acc '(k, v) =>
               match acc with
               | Some acc => obj_set acc k (func v k)
               | None => None
               end)
            obj (Some []).

(** [pick(source, keys)]; a property of [source] may hold [undefined]
    ([None]), which like a missing property is not copied. *)
Definition pick {A : Type} (source : Obj (option A)) (keys : list string)
  : option (Obj A) :=
  fold_left (fun dest key =>
    match dest with
    | Some dest =>
        match obj_get source key with
        | Some (Some (Some x)) => obj_set dest key x
        | Some _ => Some dest
        | None => None
        end
    | None => None
    end) keys (Some []).

(** [x || 0] on a property holding a number: zero, NaN and [undefined]
    give 0. *)
Definition or_zero (x : option num) : num :=
  match x with
  | Some n => if truthy n then n else Int 0
  | None => Int 0
  end.

(** [g.edge(e).weight] for an edge object [e] of [g]. *)
Definition edge_weight (g : Graph) (e : Edge) : num :=
  match edge (g_edges g) e with
  | Some label => to_num (weight label)
  | None => NaN (* not reached: [e] is an edge of [g] *)
  end.

(** The body of the loops over the edges of a node,
    [weights[k] = (weights[k] || 0) + g.edge(e).weight], where [k] is
    [e.w] for the successors and [e.v] for the predecessors. *)
Definition add_weight (g : Graph) (key : Edge -> string)
  (weights : option (Obj num)) (e : Edge) : option (Obj num) :=
  match weights with
  | Some weights =>
      match obj_get weights (key e) with
      | Some x => obj_set weights (key e) (num_add (or_zero x) (edge_weight g e))
      | None => None
      end
  | None => None
  end.

(** The results of a [map] whose callback stays inside the model. *)
Fixpoint collect {A : Type} (l : list (option A)) : option (list A) :=
  match l with
  | [] => Some []
  | None :: _ => None
  | Some a :: l' => option_map (cons a) (collect l')
  end.

Definition successorWeights (g : Graph) : option (Obj (option (Obj num))) :=
  match collect (map (fun v => fold_left (add_weight g e_w) (outEdges g v) (Some []))
                     (nodes g)) with
  | Some weightMap => zipObject (nodes g) weightMap
  | None => None
  end.

Definition predecessorWeights (g : Graph) : option (Obj (option (Obj num))) :=
  match collect (map (fun v => fold_left (add_weight g e_v) (inEdges g v) (Some []))
                     (nodes g)) with
  | Some weightMap => zipObject (nodes g) weightMap
  | None => None
  end.

Definition with_edges (g : Graph) (es : list (Edge * EdgeLabel)) : Graph :=
  mkGraph (g_nodes g) es (g_parent g) (g_graph g).

(** [g.setEdge(v, w, label)] on a graph that is not a multigraph: the edge
    from [v] to [w] gets the label, and is appended when it is new.  Both
    ends are nodes of the graph at the call sites, so no node is created. *)
Definition setEdge (g : Graph) (v w : string) (label : EdgeLabel) : Graph :=
  let e := mkEdge v w None in
  if existsb (fun p => Edge_eqb e (fst p)) (g_edges g)
  then with_edges g (map (fun p => if Edge_eqb e (fst p) then (fst p, label) else p)
                         (g_edges g))
  else with_edges g (g_edges g ++ [(e, label)]).

(** [simplify(g)]: the result starts as [new Graph()] carrying the graph
    label of [g]. *)
Definition simplify (g : Graph) : Graph :=
  let simplified := mkGraph [] [] [] (g_graph g) in
  let simplified :=
    fold_left (fun simplified v =>
      match node g v with
      | Some label => setNode simplified v label
      | None => simplified (* not reached: [v] is a node of [g] *)
      end) (nodes g) simplified in
  fold_left (fun simplified e =>
    let simpleLabel :=
      match edge (g_edges simplified) (mkEdge (e_v e) (e_w e) None) with
      | Some l => l
      | None => mkEdgeLabel (Some (Int 0)) (Some (Int 1))
      end in
    match edge (g_edges g) e with
    | Some label =>
        setEdge simplified (e_v e) (e_w e)
          (mkEdgeLabel
             (Some (num_add (to_num (weight simpleLabel)) (to_num (weight label))))
             (Some (Math_max [to_num (minlen simpleLabel); to_num (minlen label)])))
    | None => simplified (* not reached: [e] is an edge of [g] *)
    end) (edges g) simplified.

End UtilMore.

(** ** Concrete graphs used as test inputs *)

Module Examples.
Open Scope string_scope.

Definition ranked (r : Z) : Label.t := Label.set_rank Label.empty (Some (Int r)).

Definition no_label : GraphLabel := mkGraphLabel None None.

(** A node at rank 0 inside a cluster: the cluster node has no rank. *)
Definition g_cluster : Graph :=
  mkGraph [("a", ranked 0); ("sg", Label.empty)] [] [("a", "sg")] no_label.

(** A small acyclic graph: a -> b -> c, a -> c, d -> c. *)
Definition edge_minlen (v w : string) (ml : Z) : Edge * EdgeLabel :=
  (mkEdge v w None, mkEdgeLabel (Some (Int 1)) (Some (Int ml))).

Definition g_dag : Graph :=
  mkGraph [("a", Label.empty); ("b", Label.empty); ("c", Label.empty); ("d", Label.empty)]
          [edge_minlen "a" "b" 1; edge_minlen "b" "c" 2; edge_minlen "a" "c" 1;
           edge_minlen "d" "c" 1] [] no_label.

(** Two nodes eight ranks apart, with rank factor 4. *)
Definition g_sparse : Graph :=
  mkGraph [("a", ranked 0); ("b", ranked 8)] [] [] (mkGraphLabel (Some (Int 4)) None).

(** A graph that already holds the prefix and the next two generated ids. *)
Definition g_taken : Graph :=
  mkGraph [("_d", ranked 0); ("_d1", ranked 1); ("_d2", ranked 2)] [] [] no_label.

(** Two ranks of two nodes joined by two parallel edges: the layout
    [a b / c d] has no crossing. *)
Definition unit_edge (v w : string) : Edge * EdgeLabel :=
  (mkEdge v w None, mkEdgeLabel (Some (Int 1)) (Some (Int 1))).

Definition g_ladder : Graph :=
  mkGraph [("a", ranked 0); ("b", ranked 0); ("c", ranked 1); ("d", ranked 1)]
          [unit_edge "a" "c"; unit_edge "b" "d"] [] no_label.

(** A seeder: the nodes of each rank, in the order of the graph. *)
Definition seed_by_rank (g : Graph) : list (list string) :=
  match Util.range (num_add (Util.maxRank g) (Int 1)) None (Int 1) with
  | Some ranks =>
      map (fun r =>
        filter (fun v =>
          match Graphlib.node g v with
          | Some l => num_eqb (to_num (Label.rank l)) r
          | None => false
          end) (Graphlib.nodes g)) ranks
  | None => []
  end.

(** A crossing counter: the pairs of edges between two consecutive rows
    whose end points come in opposite orders. *)
Fixpoint column (row : list (option string)) (v : string) (i : nat) : option nat :=
  match row with
  | [] => None
  | Some x :: row' => if String.eqb x v then Some i else column row' v (S i)
  | None :: row' => column row' v (S i)
  end.

Fixpoint position (layering : Util.Layering) (v : string) (r : nat) : option (nat * nat) :=
  match layering with
  | [] => None
  | row :: rows =>
      match column row v O with
      | Some c => Some (r, c)
      | None => position rows v (S r)
      end
  end.

Definition crosses (layering : Util.Layering) (e1 e2 : Edge) : bool :=
  match position layering (e_v e1) O, position layering (e_w e1) O,
        position layering (e_v e2) O, position layering (e_w e2) O with
  | Some (r1, a1), Some (s1, b1), Some (r2, a2), Some (s2, b2) =>
      (r1 =? r2)%nat && (s1 =? s2)%nat && (s1 =? S r1)%nat &&
      (a1 <? a2)%nat && (b2 <? b1)%nat
  | _, _, _, _ => false
  end.

Definition count_crossings (g : Graph) (layering : Util.Layering) : nat :=
  List.length
    (filter (fun p => crosses layering (fst p) (snd p))
            (list_prod (Graphlib.edges g) (Graphlib.edges g))).

(** A deterministic sorter that respects the interface and sorts badly:
    the movable nodes (the children of the root) by decreasing sum of the
    positions of their neighbours. *)
Definition order_of (g : Graph) (v : string) : Z :=
  match Graphlib.node g v with
  | Some l =>
      match Label.order l with
      | Some (Fin q) => Qfloor q
      | _ => 0%Z
      end
  | None => 0%Z
  end.

Definition neighbour_sum (g : Graph) (lg : LayerGraph) (v : string) : Z :=
  fold_left (fun acc e =>
    if String.eqb (snd (fst e)) v then (acc + order_of g (fst (fst e)))%Z else acc)
    (lg_edges lg) 0%Z.

Fixpoint insert_decreasing (key : string -> Z) (v : string) (l : list string)
  : list string :=
  match l with
  | [] => [v]
  | x :: l' =>
      if (key x <? key v)%Z then v :: x :: l' else x :: insert_decreasing key v l'
  end.

Definition sort_against_neighbours (g : Graph) (lg : LayerGraph) (root : string)
  (cg : unit) (biasRight : bool) : list string :=
  let movable :=
    map fst (filter (fun p => String.eqb (snd p) root) (lg_parent lg)) in
  fold_left (fun acc v => insert_decreasing (neighbour_sum g lg) v acc) movable [].

Definition adversary : Collaborators :=
  mkCollaborators tt seed_by_rank count_crossings sort_against_neighbours
                  (fun _ _ cg _ => cg).

(** A sorter that leaves every layer as it is, and a counter that always
    reports the same count. *)
Definition keep_order (g : Graph) (lg : LayerGraph) (root : string)
  (cg : unit) (biasRight : bool) : list string := [].

Definition idle : Collaborators :=
  mkCollaborators tt seed_by_rank count_crossings keep_order (fun _ _ cg _ => cg).

Definition start (g : Graph) : World := mkWorld g O [].

(** The run of [order] on the ladder with the badly sorting collaborators,
    allowed ten iterations. *)
Definition ladder_run : World * outcome unit :=
  Order.order adversary 10 None (start g_ladder).

(** Two ranks of two nodes joined crosswise: the layout [a b / c d] has
    one crossing, the layout [a b / d c] has none. *)
Definition g_crossed : Graph :=
  mkGraph [("a", ranked 0); ("b", ranked 0); ("c", ranked 1); ("d", ranked 1)]
          [unit_edge "a" "d"; unit_edge "b" "c"] [] no_label.

(** A deterministic sorter that looks at predecessors only: the movable
    nodes by increasing sum of the positions of their predecessors in the
    main graph, nodes with equal sums in the order they had. *)
Definition predecessor_sum (g : Graph) (v : string) : Z :=
  fold_left (fun acc e => (acc + order_of g (e_v e))%Z) (Graphlib.inEdges g v) 0%Z.

Definition sort_by_predecessors (g : Graph) (lg : LayerGraph) (root : string)
  (cg : unit) (biasRight : bool) : list string :=
  let movable :=
    map fst (filter (fun p => String.eqb (snd p) root) (lg_parent lg)) in
  fold_left (fun acc v => insert_decreasing (fun x => (- predecessor_sum g x)%Z) v acc)
            movable [].

Definition forward : Collaborators :=
  mkCollaborators tt seed_by_rank count_crossings sort_by_predecessors
                  (fun _ _ cg _ => cg).

(** The run of [order] on the crossed graph with this sorter, allowed ten
    iterations. *)
Definition crossed_run : World * outcome unit :=
  Order.order forward 10 None (start g_crossed).

End Examples.

(** ** Facts about numbers and the two reducers *)

Module JSNumFacts.

Lemma Qltb_spec (a b : Q) : reflect (a < b)%Q (Qltb a b).
Proof.
  unfold Qltb. destruct (Qcompare a b) eqn:E.
  - constructor. apply Qeq_alt in E. lra.
  - constructor. now apply Qlt_alt.
  - constructor. apply Qgt_alt in E. lra.
Qed.

Ltac case_Qltb :=
  repeat match goal with
  | |- context [Qltb ?a ?b] => destruct (Qltb_spec a b); simpl
  | H : context [Qltb ?a ?b] |- _ => destruct (Qltb_spec a b); simpl in H
  end.

Lemma min2_assoc (x y z : num) : min2 (min2 x y) z = min2 x (min2 y z).
Proof.
  destruct x, y, z; simpl; try reflexivity; case_Qltb;
    try reflexivity; try lra; case_Qltb; try reflexivity; lra.
Qed.

Lemma max2_assoc (x y z : num) : max2 (max2 x y) z = max2 x (max2 y z).
Proof.
  destruct x, y, z; simpl; try reflexivity; case_Qltb;
    try reflexivity; try lra; case_Qltb; try reflexivity; lra.
Qed.

Lemma min2_PosInfinity_l (x : num) : min2 PosInfinity x = x.
Proof. now destruct x. Qed.

Lemma max2_NegInfinity_l (x : num) : max2 NegInfinity x = x.
Proof. now destruct x. Qed.

Lemma min2_PosInfinity_r (x : num) : min2 x PosInfinity = x.
Proof. now destruct x. Qed.

Lemma max2_NegInfinity_r (x : num) : max2 x NegInfinity = x.
Proof. now destruct x. Qed.

(** A left fold of an associative operation with a unit splits at any point
    of the list: the shape shared by [Math.min] and [Math.max]. *)
Section Reducer.
Variable op : num -> num -> num.
Variable unit : num.
Hypothesis op_assoc : forall x y z, op (op x y) z = op x (op y z).
Hypothesis op_unit_l : forall x, op unit x = x.
Hypothesis op_unit_r : forall x, op x unit = x.

Definition reduce (l : list num) : num := fold_left op l unit.

Lemma fold_from (l : list num) (a : num) : fold_left op l a = op a (reduce l).
Proof.
  unfold reduce. revert a. induction l as [|x l IH]; intros a; simpl.
  - now rewrite op_unit_r.
  - rewrite IH, (IH (op unit x)), op_unit_l. apply op_assoc.
Qed.

Lemma reduce_cons (x : num) (l : list num) : reduce (x :: l) = op x (reduce l).
Proof. unfold reduce at 1. simpl. rewrite op_unit_l. apply fold_from. Qed.

Lemma reduce_app (l1 l2 : list num) : reduce (l1 ++ l2) = op (reduce l1) (reduce l2).
Proof.
  unfold reduce at 1. rewrite fold_left_app. apply fold_from.
Qed.

Lemma reduce_concat (ls : list (list num)) :
  reduce (map reduce ls) = reduce (concat ls).
Proof.
  induction ls as [|l ls IH]; simpl; [reflexivity|].
  now rewrite reduce_cons, reduce_app, IH.
Qed.

End Reducer.

Lemma Math_min_cons x l : Math_min (x :: l) = min2 x (Math_min l).
Proof.
  apply (@reduce_cons min2 PosInfinity min2_assoc min2_PosInfinity_l min2_PosInfinity_r).
Qed.

Lemma Math_max_cons x l : Math_max (x :: l) = max2 x (Math_max l).
Proof.
  apply (@reduce_cons max2 NegInfinity max2_assoc max2_NegInfinity_l max2_NegInfinity_r).
Qed.

Lemma Math_min_concat ls : Math_min (map Math_min ls) = Math_min (concat ls).
Proof.
  apply (@reduce_concat min2 PosInfinity min2_assoc min2_PosInfinity_l min2_PosInfinity_r).
Qed.

Lemma Math_max_concat ls : Math_max (map Math_max ls) = Math_max (concat ls).
Proof.
  apply (@reduce_concat max2 NegInfinity max2_assoc max2_NegInfinity_l max2_NegInfinity_r).
Qed.

(** *** Integers among the numbers *)

Lemma num_add_Int (a b : Z) : num_add (Int a) (Int b) = Int (a + b).
Proof.
  unfold Int, num_add, inject_Z, Qplus. cbn [Qnum Qden Pos.mul].
  do 2 f_equal. lia.
Qed.

Lemma num_sub_Int (a b : Z) : num_sub (Int a) (Int b) = Int (a - b).
Proof.
  unfold num_sub, num_opp, Int, num_add, inject_Z, Qplus, Qopp.
  cbn [Qnum Qden Pos.mul]. do 2 f_equal. lia.
Qed.

Lemma Qltb_inject_Z (a b : Z) : Qltb (inject_Z a) (inject_Z b) = (a <? b)%Z.
Proof.
  destruct (Qltb_spec (inject_Z a) (inject_Z b)) as [H|H].
  - rewrite <- Zlt_Qlt in H. symmetry. now apply Z.ltb_lt.
  - rewrite <- Zlt_Qlt in H. symmetry. now apply Z.ltb_ge, Z.nlt_ge.
Qed.

Lemma num_ltb_Int (a b : Z) : num_ltb (Int a) (Int b) = (a <? b)%Z.
Proof. apply Qltb_inject_Z. Qed.

Lemma Qeq_bool_inject_Z (a b : Z) : Qeq_bool (inject_Z a) (inject_Z b) = (a =? b)%Z.
Proof.
  unfold Qeq_bool, inject_Z. cbn [Qnum Qden]. now rewrite !Z.mul_1_r.
Qed.

Lemma num_eqb_Int (a b : Z) : num_eqb (Int a) (Int b) = (a =? b)%Z.
Proof. apply Qeq_bool_inject_Z. Qed.

Lemma num_leb_Int (a b : Z) : num_leb (Int a) (Int b) = (a <=? b)%Z.
Proof.
  unfold num_leb. rewrite num_ltb_Int, num_eqb_Int.
  destruct (a <? b)%Z eqn:E1, (a =? b)%Z eqn:E2, (a <=? b)%Z eqn:E3;
    try reflexivity; lia.
Qed.

Lemma array_index_Int (z : Z) :
  array_index (Int z) = if (0 <=? z)%Z then Some (Z.to_nat z) else None.
Proof.
  unfold array_index, Int. rewrite Qfloor_Z, Qeq_bool_inject_Z, Z.eqb_refl.
  reflexivity.
Qed.

Lemma min2_Int (a b : Z) : min2 (Int a) (Int b) = Int (Z.min a b).
Proof.
  change (min2 (Int a) (Int b))
    with (if num_ltb (Int b) (Int a) then Int b else Int a).
  rewrite num_ltb_Int. destruct (Z.ltb_spec b a); f_equal; lia.
Qed.

Lemma max2_Int (a b : Z) : max2 (Int a) (Int b) = Int (Z.max a b).
Proof.
  change (max2 (Int a) (Int b))
    with (if num_ltb (Int a) (Int b) then Int b else Int a).
  rewrite num_ltb_Int. destruct (Z.ltb_spec a b); f_equal; lia.
Qed.

(** [Math.min] of integers is the least of them. *)
Lemma Math_min_Int (z : Z) (zs : list Z) :
  exists m, Math_min (map Int (z :: zs)) = Int m /\
            In m (z :: zs) /\ forall x, In x (z :: zs) -> (m <= x)%Z.
Proof.
  revert z. induction zs as [|y zs IH]; intros z.
  - exists z. split; [reflexivity|]. split; [now left|].
    intros x [<-|[]]. lia.
  - destruct (IH y) as (m & E & Hin & Hle).
    exists (Z.min z m). split; [|split].
    + change (map Int (z :: y :: zs)) with (Int z :: map Int (y :: zs)).
      now rewrite Math_min_cons, E, min2_Int.
    + destruct (Z.min_spec z m) as [[_ ->]|[_ ->]]; [now left | now right].
    + intros x [<-|Hx]; [lia|]. specialize (Hle x Hx). lia.
Qed.

Lemma Math_max_Int (z : Z) (zs : list Z) :
  exists m, Math_max (map Int (z :: zs)) = Int m /\
            In m (z :: zs) /\ forall x, In x (z :: zs) -> (x <= m)%Z.
Proof.
  revert z. induction zs as [|y zs IH]; intros z.
  - exists z. split; [reflexivity|]. split; [now left|].
    intros x [<-|[]]. lia.
  - destruct (IH y) as (m & E & Hin & Hle).
    exists (Z.max z m). split; [|split].
    + change (map Int (z :: y :: zs)) with (Int z :: map Int (y :: zs)).
      now rewrite Math_max_cons, E, max2_Int.
    + destruct (Z.max_spec z m) as [[_ ->]|[_ ->]]; [now right | now left].
    + intros x [<-|Hx]; [lia|]. specialize (Hle x Hx). lia.
Qed.

(** Integers of magnitude at most 2^51: sums and differences of up to
    four of them stay within 2^53, the range in which the arithmetic of
    doubles on integers does not round. *)
Definition small (z : Z) : Prop := (Z.abs z <= 2251799813685248)%Z.

End JSNumFacts.

Module UtilFacts.
Import JSNumFacts Util.

Lemma concat_splitToChunks_loop {A : Type} (chunkSize : nat) :
  (0 < chunkSize)%nat ->
  forall (fuel : nat) (array : list A),
    (List.length array <= fuel)%nat ->
    concat (splitToChunks_loop fuel array chunkSize) = array.
Proof.
  intros Hpos. induction fuel as [|fuel IH]; intros array Hlen.
  - destruct array; [reflexivity | simpl in Hlen; lia].
  - destruct array as [|a array]; [reflexivity|].
    cbn [splitToChunks_loop concat]. rewrite IH.
    + apply firstn_skipn.
    + rewrite length_skipn. cbn [List.length] in *. lia.
Qed.

Lemma concat_splitToChunks {A : Type} (array : list A) :
  concat (splitToChunks array CHUNKING_THRESHOLD) = array.
Proof.
  unfold splitToChunks. apply concat_splitToChunks_loop; [|lia].
  unfold CHUNKING_THRESHOLD. lia.
Qed.

Lemma applyWithChunking_Math_min (xs : list num) :
  applyWithChunking Math_min xs = Math_min xs.
Proof.
  unfold applyWithChunking.
  destruct (Z.of_nat (List.length xs) >? CHUNKING_THRESHOLD)%Z; [|reflexivity].
  cbv zeta. now rewrite Math_min_concat, concat_splitToChunks.
Qed.

Lemma applyWithChunking_Math_max (xs : list num) :
  applyWithChunking Math_max xs = Math_max xs.
Proof.
  unfold applyWithChunking.
  destruct (Z.of_nat (List.length xs) >? CHUNKING_THRESHOLD)%Z; [|reflexivity].
  cbv zeta. now rewrite Math_max_concat, concat_splitToChunks.
Qed.

(** C6. For both reducers [Math.min] and [Math.max] and every finite
    sequence, of whatever length, [applyWithChunking] returns what the
    reducer returns on the whole sequence. *)
Theorem applyWithChunking_min_max (xs : list num) :
  applyWithChunking Math_min xs = Math_min xs /\
  applyWithChunking Math_max xs = Math_max xs.
Proof.
  split; [apply applyWithChunking_Math_min | apply applyWithChunking_Math_max].
Qed.

(** *** [range] on integers *)

Fixpoint Zseq_up (a : Z) (n : nat) : list Z :=
  match n with
  | O => []
  | S n' => a :: Zseq_up (a + 1) n'
  end.

Fixpoint Zseq_down (a : Z) (n : nat) : list Z :=
  match n with
  | O => []
  | S n' => a :: Zseq_down (a - 1) n'
  end.

Lemma range_loop_up (limit : Z) : forall n fuel a,
  n = Z.to_nat (limit - a) -> (n <= fuel)%nat ->
  range_loop fuel (fun i => num_ltb i (Int limit)) (Int a) (Int 1)
  = Some (map Int (Zseq_up a n)).
Proof.
  induction n as [|n IH]; intros fuel a Hn Hf.
  - destruct fuel; cbn [range_loop]; rewrite num_ltb_Int;
      destruct (Z.ltb_spec a limit); try reflexivity; lia.
  - destruct fuel as [|fuel]; [lia|].
    cbn [range_loop]. rewrite num_ltb_Int.
    destruct (Z.ltb_spec a limit); [|lia].
    rewrite num_add_Int, (IH fuel (a + 1)%Z) by lia. reflexivity.
Qed.

Lemma range_loop_down (limit : Z) : forall n fuel a,
  n = Z.to_nat (a - limit) -> (n <= fuel)%nat ->
  range_loop fuel (fun i => num_ltb (Int limit) i) (Int a) (Int (-1))
  = Some (map Int (Zseq_down a n)).
Proof.
  induction n as [|n IH]; intros fuel a Hn Hf.
  - destruct fuel; cbn [range_loop]; rewrite num_ltb_Int;
      destruct (Z.ltb_spec limit a); try reflexivity; lia.
  - destruct fuel as [|fuel]; [lia|].
    cbn [range_loop]. rewrite num_ltb_Int.
    destruct (Z.ltb_spec limit a); [|lia].
    rewrite num_add_Int, (IH fuel (a + -1)%Z) by lia.
    replace (a + -1)%Z with (a - 1)%Z by lia. reflexivity.
Qed.

Lemma range_budget_Int (a limit : Z) (step : Z) :
  (step = 1 \/ step = -1)%Z ->
  range_budget (Int a) (Int limit) (Int step) = Z.to_nat (Z.abs (limit - a)).
Proof.
  intros Hs. unfold range_budget, Int.
  assert (E : Qeq_bool (inject_Z step) 0 = false).
  { change 0%Q with (inject_Z 0). rewrite Qeq_bool_inject_Z.
    apply Z.eqb_neq. lia. }
  rewrite E. f_equal.
  assert (Q : (Qabs (inject_Z limit - inject_Z a) / Qabs (inject_Z step)
               == inject_Z (Z.abs (limit - a)))%Q).
  { assert (S1 : (Qabs (inject_Z step) == 1)%Q) by (destruct Hs; subst; reflexivity).
    rewrite S1. unfold Qminus. rewrite <- inject_Z_opp, <- inject_Z_plus.
    change (Qabs (inject_Z (limit + - a))) with (inject_Z (Z.abs (limit + - a))).
    unfold Qdiv. change (/ 1)%Q with 1%Q. rewrite Qmult_1_r. reflexivity. }
  rewrite Q. apply Qceiling_Z.
Qed.

(** [range(a, limit)] counts up from [a] and stops before [limit];
    [range(a, limit, -1)] counts down from [a] and stops before [limit]. *)
Lemma range_ascending (a limit : Z) :
  range (Int a) (Some (Int limit)) (Int 1)
  = Some (map Int (Zseq_up a (Z.to_nat (limit - a)))).
Proof.
  unfold range. rewrite num_ltb_Int. cbn [Z.ltb Z.compare].
  apply range_loop_up; [reflexivity|].
  rewrite range_budget_Int by auto. lia.
Qed.

Lemma range_descending (a limit : Z) :
  range (Int a) (Some (Int limit)) (Int (-1))
  = Some (map Int (Zseq_down a (Z.to_nat (a - limit)))).
Proof.
  unfold range. rewrite num_ltb_Int. cbn [Z.ltb Z.compare].
  apply range_loop_down; [reflexivity|].
  rewrite range_budget_Int by auto. lia.
Qed.

(** With an integer [maxRank], the ranks of the downward family are
    [1 .. maxRank] and those of the upward family [maxRank - 1 .. 0]. *)
Lemma ranks_of_families (m : Z) :
  range (Int 1) (Some (num_add (Int m) (Int 1))) (Int 1)
    = Some (map Int (Zseq_up 1 (Z.to_nat m))) /\
  range (num_sub (Int m) (Int 1)) (Some (Int (-1))) (Int (-1))
    = Some (map Int (Zseq_down (m - 1) (Z.to_nat m))).
Proof.
  rewrite num_add_Int, num_sub_Int, range_ascending, range_descending.
  split; do 3 f_equal; lia.
Qed.

End UtilFacts.

(** ** lib/util.js: maxRank, addDummyNode, intersectRect *)

Module UtilBasicFacts.
Import Util Graphlib.

(** C4. On a graph with a node of rank 0 and an unranked cluster node,
    [maxRank] returns [Number.MIN_VALUE], which is positive, and not the
    maximum assigned rank 0: the unranked node decides the result. *)
Theorem maxRank_unranked_node_counts :
  maxRank Examples.g_cluster = MIN_VALUE /\
  num_ltb (Int 0) (maxRank Examples.g_cluster) = true /\
  maxRank Examples.g_cluster <> Int 0.
Proof.
  assert (E : maxRank Examples.g_cluster = MIN_VALUE) by reflexivity.
  rewrite E. split; [reflexivity|]. split; [reflexivity | discriminate].
Qed.

Lemma hasNode_In (g : Graph) (v : string) : hasNode g v = true <-> In v (nodes g).
Proof.
  unfold hasNode. rewrite existsb_exists. split.
  - intros (x & Hx & E). apply String.eqb_eq in E. now subst.
  - intros H. exists v. split; [assumption | apply String.eqb_refl].
Qed.

Lemma append_inj_l (p a b : string) : (p ++ a = p ++ b)%string -> a = b.
Proof.
  induction p as [|c p IH]; simpl; intros H; [assumption|].
  injection H as H. auto.
Qed.

Lemma append_eq_self (p s : string) : (p ++ s = p)%string -> s = EmptyString.
Proof.
  induction p as [|c p IH]; simpl; intros H; [assumption|].
  injection H as H. auto.
Qed.

Lemma number_to_string_inj (a b : nat) :
  number_to_string a = number_to_string b -> a = b.
Proof.
  unfold number_to_string. intros H.
  apply (f_equal NilEmpty.uint_of_string) in H.
  rewrite !NilEmpty.usu in H. injection H as H.
  now apply Unsigned.to_uint_inj.
Qed.

Lemma number_to_string_nonempty (n : nat) : number_to_string n <> EmptyString.
Proof.
  unfold number_to_string. intros H.
  apply (f_equal NilEmpty.uint_of_string) in H.
  rewrite NilEmpty.usu in H. simpl in H. injection H as H.
  pose proof (Unsigned.to_of (Nat.to_uint n)) as T.
  rewrite Unsigned.of_to in T. rewrite H in T. discriminate T.
Qed.

(** The id generated from counter value [k]. *)
Definition candidate (name : string) (k : nat) : string :=
  (name ++ number_to_string k)%string.

Lemma candidate_inj (name : string) (a b : nat) :
  candidate name a = candidate name b -> a = b.
Proof. intros H. apply number_to_string_inj. eapply append_inj_l, H. Qed.

Lemma candidate_neq_name (name : string) (k : nat) : candidate name k <> name.
Proof. intros H. apply append_eq_self in H. now apply number_to_string_nonempty in H. Qed.

Lemma NoDup_candidates (name : string) (start len : nat) :
  NoDup (name :: map (candidate name) (seq start len)).
Proof.
  constructor.
  - rewrite in_map_iff. intros (k & E & _). now apply candidate_neq_name in E.
  - apply Injective_map_NoDup; [|apply seq_NoDup].
    intros a b. apply candidate_inj.
Qed.

Section Loop.
Variable g : Graph.
Variable name : string.

Lemma addDummyNode_loop_None (fuel : nat) : forall v idCounter,
  addDummyNode_loop fuel g name v idCounter = None ->
  hasNode g v = true /\
  forall k, (idCounter < k <= idCounter + fuel)%nat ->
            hasNode g (candidate name k) = true.
Proof.
  induction fuel as [|fuel IH]; intros v c; simpl;
    destruct (hasNode g v) eqn:Hv; try discriminate; intros H.
  - split; [reflexivity | intros k Hk; lia].
  - apply IH in H. destruct H as [H1 H2]. split; [reflexivity|].
    intros k Hk. destruct (Nat.eq_dec k (S c)) as [->|Hne]; [exact H1|].
    apply H2. lia.
Qed.

Lemma addDummyNode_loop_Some (fuel : nat) : forall v idCounter v' idCounter',
  addDummyNode_loop fuel g name v idCounter = Some (v', idCounter') ->
  hasNode g v' = false.
Proof.
  induction fuel as [|fuel IH]; intros v c v' c'; simpl;
    destruct (hasNode g v) eqn:Hv; try discriminate; intros H.
  - now injection H as <- <-.
  - eapply IH, H.
  - now injection H as <- <-.
Qed.

(** More fuel never changes a result already obtained. *)
Lemma addDummyNode_loop_more_fuel (fuel : nat) : forall fuel' v idCounter r,
  addDummyNode_loop fuel g name v idCounter = Some r ->
  (fuel <= fuel')%nat ->
  addDummyNode_loop fuel' g name v idCounter = Some r.
Proof.
  induction fuel as [|fuel IH]; intros fuel' v c r; simpl;
    destruct (hasNode g v) eqn:Hv; try discriminate; intros H Hle.
  - destruct fuel'; simpl; now rewrite Hv.
  - destruct fuel' as [|fuel']; [lia|]. simpl. rewrite Hv.
    apply IH; [assumption | lia].
  - destruct fuel'; simpl; now rewrite Hv.
Qed.

(** The loop has stopped after one generated id per node of the graph:
    the prefix and the generated ids are pairwise distinct, so the nodes
    cannot hold all of them. *)
Lemma addDummyNode_loop_total (idCounter : nat) :
  exists v idCounter',
    addDummyNode_loop (List.length (nodes g)) g name name idCounter
      = Some (v, idCounter').
Proof.
  destruct (addDummyNode_loop (List.length (nodes g)) g name name idCounter)
    as [[v c']|] eqn:E; [now exists v, c'|].
  exfalso. apply addDummyNode_loop_None in E. destruct E as [H1 H2].
  pose proof (NoDup_candidates name (S idCounter) (List.length (nodes g))) as ND.
  apply NoDup_incl_length with (l' := nodes g) in ND.
  - simpl in ND. rewrite length_map, length_seq in ND. lia.
  - intros x [<-|Hx]; [now apply hasNode_In|].
    apply in_map_iff in Hx. destruct Hx as (k & <- & Hk).
    apply in_seq in Hk. apply hasNode_In, H2. lia.
Qed.

End Loop.

Lemma hasNode_setNode_same (g : Graph) (v : string) (l : Label.t) :
  hasNode g v = false -> hasNode (setNode g v l) v = true.
Proof.
  intros H. unfold setNode. rewrite H. apply hasNode_In.
  unfold nodes, with_nodes. simpl. rewrite map_app. apply in_or_app.
  right. now left.
Qed.

(** C7. For every graph, prefix and counter value, [addDummyNode] returns:
    its loop stops, the id returned was not a node of the graph before the
    call and is one afterwards, and the loop stops at the same id however
    many more iterations it is allowed.  Nothing is assumed about the ids
    already in the graph. *)
Theorem addDummyNode_fresh (g : Graph) (type : string) (attrs : Label.t)
  (name : string) (idCounter : nat) :
  exists v g' idCounter',
    addDummyNode g type attrs name idCounter = Some (v, g', idCounter') /\
    hasNode g v = false /\
    hasNode g' v = true /\
    forall fuel, (List.length (nodes g) <= fuel)%nat ->
      addDummyNode_loop fuel g name name idCounter = Some (v, idCounter').
Proof.
  destruct (addDummyNode_loop_total g name idCounter) as (v & c' & E).
  pose proof (addDummyNode_loop_Some _ _ _ _ _ E) as Hfresh.
  exists v, (setNode g v (Label.set_dummy attrs (Some type))), c'.
  unfold addDummyNode. rewrite E. repeat split.
  - exact Hfresh.
  - now apply hasNode_setNode_same.
  - intros fuel Hle. eapply addDummyNode_loop_more_fuel; eassumption.
Qed.

Example addDummyNode_adversarial :
  option_map (fun r => (fst (fst r), snd r))
    (addDummyNode Examples.g_taken "edge" Label.empty "_d" 0) = Some ("_d3"%string, 3%nat).
Proof. reflexivity. Qed.

(** [point.x === rect.x && point.y === rect.y]. *)
Definition at_centre (rect : Rect) (point : Point) : bool :=
  num_eqb (p_x point) (r_x rect) && num_eqb (p_y point) (r_y rect).

Definition is_NaN (a : num) : bool :=
  match a with
  | NaN => true
  | _ => false
  end.

(** No offset along one axis, as [intersectRect] tests it with [!dx]: the
    two coordinates are equal, or one of them is NaN. *)
Definition no_offset (a b : num) : bool := num_eqb a b || is_NaN a || is_NaN b.

(** A difference of two numbers is falsy exactly when they are equal or
    one of them is NaN; the difference of an infinity and itself is NaN. *)
Lemma truthy_num_sub (a b : num) : truthy (num_sub a b) = negb (no_offset a b).
Proof.
  destruct a as [| |x|], b as [| |y|]; try reflexivity.
  unfold no_offset. cbn [num_sub num_opp num_add truthy num_eqb is_NaN].
  rewrite !orb_false_r. f_equal.
  destruct (Qeq_bool (x + - y) 0) eqn:E1, (Qeq_bool x y) eqn:E2; try reflexivity.
  - apply Qeq_bool_iff in E1. apply Qeq_bool_neq in E2. exfalso. apply E2. lra.
  - apply Qeq_bool_iff in E2. apply Qeq_bool_neq in E1. exfalso. apply E1. lra.
Qed.

(** When no coordinate is NaN, there is no offset on either axis exactly
    at the centre. *)
Lemma no_offset_at_centre (rect : Rect) (point : Point) :
  r_x rect <> NaN -> r_y rect <> NaN -> p_x point <> NaN -> p_y point <> NaN ->
  (no_offset (p_x point) (r_x rect) && no_offset (p_y point) (r_y rect))%bool
  = at_centre rect point.
Proof.
  intros Hx Hy Hpx Hpy. unfold no_offset, at_centre.
  destruct (r_x rect), (r_y rect), (p_x point), (p_y point);
    try congruence; cbn [is_NaN]; now rewrite !orb_false_r.
Qed.

(** C9 (as the code has it). [intersectRect] throws exactly when on both
    axes the coordinate of the point equals that of the centre or one of
    the two is NaN, and returns a point otherwise, whatever the width and
    the height.  With four coordinates that are numbers this is: exactly
    at the centre ([no_offset_at_centre]). *)
Theorem intersectRect_throws_iff_no_offset (rect : Rect) (point : Point) :
  ((no_offset (p_x point) (r_x rect) && no_offset (p_y point) (r_y rect))%bool = true /\
   exists msg, intersectRect rect point = Throw msg) \/
  ((no_offset (p_x point) (r_x rect) && no_offset (p_y point) (r_y rect))%bool = false /\
   exists p, intersectRect rect point = Ok p).
Proof.
  unfold intersectRect. cbv zeta.
  rewrite !truthy_num_sub, !negb_involutive.
  destruct (no_offset (p_x point) (r_x rect) && no_offset (p_y point) (r_y rect))%bool.
  - left. split; [reflexivity|]. eexists. reflexivity.
  - right. split; [reflexivity|].
    match goal with |- context [if ?c then _ else _] => destruct c end;
      eexists; reflexivity.
Qed.

(** A point whose [x] is NaN and whose [y] is that of the centre is not
    the centre, and [intersectRect] throws on it: [!NaN] is true. *)
Lemma intersectRect_throws_off_centre :
  at_centre (mkRect (Int 0) (Int 0) (Int 4) (Int 2)) (mkPoint NaN (Int 0)) = false /\
  intersectRect (mkRect (Int 0) (Int 0) (Int 4) (Int 2)) (mkPoint NaN (Int 0))
  = Throw "Not possible to find intersection inside of the rectangle".
Proof. split; reflexivity. Qed.

(** The point six units to the right of the centre of a 4 by 2 rectangle
    meets its border at (2, 0). *)
Example intersectRect_right :
  intersectRect (mkRect (Int 0) (Int 0) (Int 4) (Int 2)) (mkPoint (Int 6) (Int 0))
  = Ok (mkPoint (Fin ((0 + 4 / 2))%Q) (Fin (0 + (4 / 2 * 0 / 6))%Q)).
Proof. reflexivity. Qed.

End UtilBasicFacts.

(** ** lib/order/index.js: what a run may change *)

Module OrderFrame.
Import Graphlib Order.

(** A relation between the world before and after a computation that
    holds of every primitive step holds of the whole computation. *)
Section Respects.
Variable R : World -> World -> Prop.
Hypothesis R_refl : forall w, R w w.
Hypothesis R_trans : forall w1 w2 w3, R w1 w2 -> R w2 w3 -> R w1 w3.

Definition respects {A : Type} (c : M A) : Prop := forall w, R w (fst (c w)).

Lemma respects_ret {A : Type} (a : A) : respects (ret a).
Proof. intros w. apply R_refl. Qed.

Lemma respects_throw {A : Type} (msg : string) : respects (@throw A msg).
Proof. intros w. apply R_refl. Qed.

Lemma respects_diverge {A : Type} : respects (@diverge A).
Proof. intros w. apply R_refl. Qed.

Lemma respects_out_of_fuel {A : Type} : respects (@out_of_fuel A).
Proof. intros w. apply R_refl. Qed.

Lemma respects_get_g : respects get_g.
Proof. intros w. apply R_refl. Qed.

Lemma respects_lift_outcome {A : Type} (o : outcome A) : respects (lift_outcome o).
Proof. intros w. apply R_refl. Qed.

Lemma respects_pure {A : Type} (o : outcome A) : respects (fun w => (w, o)).
Proof. intros w. apply R_refl. Qed.

Lemma respects_bind {A B : Type} (c : M A) (k : A -> M B) :
  respects c -> (forall a, respects (k a)) -> respects (bind c k).
Proof.
  intros Hc Hk w. unfold bind. specialize (Hc w).
  destruct (c w) as [w' [a| | |]]; simpl in *; try assumption.
  eapply R_trans; [exact Hc | apply Hk].
Qed.

Lemma respects_forEach {A : Type} (l : list A) (f : A -> M unit) :
  (forall a, respects (f a)) -> respects (forEach l f).
Proof.
  intros Hf. induction l as [|a l IH]; simpl.
  - apply respects_ret.
  - apply respects_bind; [apply Hf | intros _; exact IH].
Qed.

Lemma respects_mapM {A B : Type} (f : A -> M B) (l : list A) :
  (forall a, respects (f a)) -> respects (mapM f l).
Proof.
  intros Hf. induction l as [|a l IH]; simpl.
  - apply respects_ret.
  - apply respects_bind; [apply Hf | intros b].
    apply respects_bind; [exact IH | intros bs; apply respects_ret].
Qed.

Lemma respects_foldM {A B : Type} (f : B -> A -> M B) (l : list A) :
  (forall b a, respects (f b a)) -> forall b, respects (foldM f l b).
Proof.
  intros Hf. induction l as [|a l IH]; intros b; simpl.
  - apply respects_ret.
  - apply respects_bind; [apply Hf | intros b'; apply IH].
Qed.

(** The three primitive effects. *)
Hypothesis R_put_order : forall w v i l,
  node (w_g w) v = Some l ->
  R w (mkWorld (update (w_g w) v (fun l => Label.set_order l (Some (Int (Z.of_nat i)))))
               (w_idCounter w) (w_log w)).
Hypothesis R_idCounter : forall w n, R w (mkWorld (w_g w) n (w_log w)).
Hypothesis R_emit : forall w e, R w (mkWorld (w_g w) (w_idCounter w) (w_log w ++ [e])).

Lemma respects_set_node_order (v : string) (i : nat) : respects (set_node_order v i).
Proof.
  intros w. unfold set_node_order, bind, get_g.
  destruct (node (w_g w) v) as [l|] eqn:E; simpl.
  - eapply R_put_order, E.
  - apply R_refl.
Qed.

Lemma respects_emit (e : Event) : respects (emit e).
Proof. intros w. apply R_emit. Qed.

Lemma respects_assignOrder (layering : option Util.Layering) :
  respects (assignOrder layering).
Proof.
  destruct layering as [layering|]; simpl; [|apply respects_throw].
  apply respects_forEach. intros layer. apply respects_forEach.
  intros [i v]. apply respects_set_node_order.
Qed.

Lemma respects_buildLayerGraphs (ranks : list num) (relationship : Relationship) :
  respects (buildLayerGraphs ranks relationship).
Proof.
  unfold buildLayerGraphs. apply respects_bind; [apply respects_get_g | intros g].
  destruct (fold_left (index_node g) (nodes g) (Some [])) as [nodesByRank|];
    [|apply respects_diverge].
  apply respects_mapM. intros rank w.
  destruct (BuildLayerGraph.buildLayerGraph _ _ _ _ _) as [result idCounter].
  apply R_idCounter.
Qed.

Lemma respects_lg_set_order (lg : LayerGraph) (v : string) (i : nat) :
  respects (lg_set_order lg v i).
Proof.
  unfold lg_set_order. destruct (lookup v (lg_nodes lg)) as [[|bl br o]|].
  - apply respects_bind; [apply respects_set_node_order | intros; apply respects_ret].
  - apply respects_ret.
  - apply respects_throw.
Qed.

Lemma respects_lg_set_orders (vs : list string) : forall lg i,
  respects (lg_set_orders lg vs i).
Proof.
  induction vs as [|v vs IH]; intros lg i; simpl.
  - apply respects_ret.
  - apply respects_bind; [apply respects_lg_set_order | intros lg'; apply IH].
Qed.

Lemma respects_sweep_step (C : Collaborators) (biasRight : bool)
  (st : CG C * list LayerGraph) (lg : LayerGraph) :
  respects (sweep_step C biasRight st lg).
Proof.
  destruct st as [cg done]. unfold sweep_step.
  apply respects_bind; [apply respects_get_g | intros g].
  apply respects_bind; [apply respects_lg_set_orders | intros lg'].
  apply respects_bind; [apply respects_get_g | intros g'; apply respects_ret].
Qed.

Lemma respects_sweepLayerGraphs (C : Collaborators) (layerGraphs : list LayerGraph)
  (biasRight : bool) : respects (sweepLayerGraphs C layerGraphs biasRight).
Proof.
  unfold sweepLayerGraphs.
  apply respects_bind; [apply respects_emit | intros _].
  apply respects_bind; [|intros st; apply respects_ret].
  apply respects_foldM. intros b a. apply respects_sweep_step.
Qed.

Lemma respects_order_iteration (C : Collaborators) (s : LoopState) :
  respects (order_iteration C s).
Proof.
  unfold order_iteration.
  apply respects_bind; [apply respects_sweepLayerGraphs | intros swept].
  apply respects_bind; [apply respects_get_g | intros g].
  apply respects_bind; [apply respects_lift_outcome | intros layering].
  apply respects_bind; [apply respects_emit | intros _].
  destruct (cc_lt _ _); apply respects_ret.
Qed.

Lemma respects_order_loop (C : Collaborators) (fuel : nat) : forall s,
  respects (order_loop C fuel s).
Proof.
  induction fuel as [|fuel IH]; intros s; simpl;
    destruct (ls_lastBest s <? 4)%nat;
    try apply respects_ret; try apply respects_out_of_fuel.
  apply respects_bind; [apply respects_order_iteration | exact IH].
Qed.

Lemma respects_order_default (C : Collaborators) (fuel : nat) (disable : bool) :
  respects (order_default C fuel disable).
Proof.
  unfold order_default.
  apply respects_bind; [apply respects_get_g | intros g].
  apply respects_bind; [apply respects_pure | intros ranks_down].
  apply respects_bind; [apply respects_buildLayerGraphs | intros down].
  apply respects_bind; [apply respects_pure | intros ranks_up].
  apply respects_bind; [apply respects_buildLayerGraphs | intros up].
  apply respects_bind; [apply respects_get_g | intros g'].
  apply respects_bind; [apply respects_assignOrder | intros _].
  destruct disable; [apply respects_ret|].
  apply respects_bind; [apply respects_order_loop | intros s].
  apply respects_assignOrder.
Qed.

End Respects.

(** Two graphs that differ at most in the [order] field of node labels:
    same nodes in the same sequence with labels equal once [order] is
    erased, same edges and edge labels, same hierarchy, same graph label. *)
Definition erase_order (p : string * Label.t) : string * Label.t :=
  (fst p, Label.set_order (snd p) None).

Definition same_but_order (g g' : Graph) : Prop :=
  map erase_order (g_nodes g) = map erase_order (g_nodes g') /\
  g_edges g = g_edges g' /\
  g_parent g = g_parent g' /\
  g_graph g = g_graph g'.

Lemma erase_replace_order (v : string) (o : option num) (ns : list (string * Label.t)) :
  forall l, lookup v ns = Some l ->
  map erase_order (replace v (Label.set_order l o) ns) = map erase_order ns.
Proof.
  induction ns as [|[k a] ns IH]; intros l; simpl; [discriminate|].
  destruct (String.eqb v k) eqn:E; intros H.
  - injection H as ->. reflexivity.
  - simpl. f_equal. now apply IH.
Qed.

Lemma same_but_order_update (g : Graph) (v : string) (o : option num) (l : Label.t) :
  node g v = Some l ->
  same_but_order g (update g v (fun l => Label.set_order l o)).
Proof.
  intros H. unfold update. rewrite H. unfold same_but_order, with_nodes; simpl.
  repeat split. symmetry. now apply erase_replace_order.
Qed.

(** Fields of a label other than [order] are read off the erased label. *)
Lemma same_but_order_node (g g' : Graph) (v : string) :
  same_but_order g g' ->
  option_map (fun l => Label.set_order l None) (node g v) =
  option_map (fun l => Label.set_order l None) (node g' v).
Proof.
  intros [H _]. unfold node.
  assert (E : forall ns, option_map (fun l => Label.set_order l None) (lookup v ns)
                         = lookup v (map erase_order ns)).
  { induction ns as [|[k a] ns IH]; simpl; [reflexivity|].
    destruct (String.eqb v k); [reflexivity | exact IH]. }
  now rewrite !E, H.
Qed.

Definition frame (w w' : World) : Prop := same_but_order (w_g w) (w_g w').

Lemma frame_refl (w : World) : frame w w.
Proof. repeat split. Qed.

Lemma frame_trans (w1 w2 w3 : World) : frame w1 w2 -> frame w2 w3 -> frame w1 w3.
Proof.
  unfold frame, same_but_order.
  intros (A1 & B1 & C1 & D1) (A2 & B2 & C2 & D2).
  repeat split; etransitivity; eassumption.
Qed.

(** C10. A run of the default algorithm, whatever its outcome and whatever
    the collaborators return, leaves the main graph as it was except for
    the [order] field of node labels: the nodes and every other field of
    their labels ([rank] among them), the edges and their labels, the
    hierarchy and the graph label are the same before and after. *)
Theorem order_writes_only_order (C : Collaborators) (fuel : nat)
  (disable : bool) (w : World) :
  same_but_order (w_g w) (w_g (fst (order C fuel None w))) /\
  same_but_order (w_g w) (w_g (fst (order C fuel (Some (mkOpts None disable)) w))) /\
  forall v,
    option_map Label.rank (node (w_g (fst (order C fuel (Some (mkOpts None disable)) w))) v)
    = option_map Label.rank (node (w_g w) v).
Proof.
  assert (H : forall d, same_but_order (w_g w) (w_g (fst (order_default C fuel d w)))).
  { intros d. apply (@respects_order_default frame frame_refl frame_trans).
    - intros w0 v i l Hl. unfold frame. simpl. eapply same_but_order_update, Hl.
    - intros w0 n. repeat split.
    - intros w0 e. repeat split. }
  split; [apply H|]. split; [apply H|]. intros v.
  pose proof (same_but_order_node v (H disable)) as E. simpl.
  destruct (node (w_g w) v) as [l|], (node (w_g (fst (order_default C fuel disable w))) v) as [l'|];
    simpl in *; try discriminate; [|reflexivity].
  apply (f_equal (option_map Label.rank)) in E. simpl in E. now rewrite E.
Qed.

End OrderFrame.

(** ** lib/order/index.js: the events of a run *)

Module OrderTrace.
Import Graphlib Order OrderFrame.

(** The events a computation adds to the log. *)
Definition new_events (w w' : World) : list Event :=
  skipn (List.length (w_log w)) (w_log w').

(** The families swept, in order, and the crossing counts, in order. *)
Definition swept_families (evs : list Event) : list (list LayerGraph * bool) :=
  flat_map (fun e => match e with
                     | Swept lgs biasRight => [(lgs, biasRight)]
                     | Counted _ _ => []
                     end) evs.

Definition counted (evs : list Event) : list (Util.Layering * nat) :=
  flat_map (fun e => match e with
                     | Swept _ _ => []
                     | Counted layering cc => [(layering, cc)]
                     end) evs.

(** The downward family has one layer graph per rank of
    [range(1, maxRank + 1)], built on incoming edges; the upward family one
    per rank of [range(maxRank - 1, -1, -1)], built on outgoing edges. *)
Definition tag (lg : LayerGraph) : num * Relationship :=
  (lg_rank lg, lg_relationship lg).

Definition family_of (ranks : option (list num)) (relationship : Relationship)
  (lgs : list LayerGraph) : Prop :=
  Some (map tag lgs) = option_map (map (fun r => (r, relationship))) ranks.

Definition is_downward (g : Graph) (lgs : list LayerGraph) : Prop :=
  family_of (Util.range (Int 1) (Some (num_add (Util.maxRank g) (Int 1))) (Int 1))
            Rel_inEdges lgs.

Definition is_upward (g : Graph) (lgs : list LayerGraph) : Prop :=
  family_of (Util.range (num_sub (Util.maxRank g) (Int 1)) (Some (Int (-1))) (Int (-1)))
            Rel_outEdges lgs.

Definition no_customOrder (opts : option Opts) : Prop :=
  match opts with
  | Some o => customOrder o = None
  | None => True
  end.

(** *** Computations that leave the log alone, or extend it *)

Definition same_log (w w' : World) : Prop := w_log w' = w_log w.

Lemma same_log_refl w : same_log w w.
Proof. reflexivity. Qed.

Lemma same_log_trans w1 w2 w3 : same_log w1 w2 -> same_log w2 w3 -> same_log w1 w3.
Proof. unfold same_log. congruence. Qed.

Lemma same_log_put_order : forall w v i l,
  node (w_g w) v = Some l ->
  same_log w (mkWorld (update (w_g w) v (fun l => Label.set_order l (Some (Int (Z.of_nat i)))))
                      (w_idCounter w) (w_log w)).
Proof. reflexivity. Qed.

Lemma same_log_idCounter : forall w n, same_log w (mkWorld (w_g w) n (w_log w)).
Proof. reflexivity. Qed.

Definition same_g (w w' : World) : Prop := w_g w' = w_g w.

Lemma new_events_app (w w' : World) (evs : list Event) :
  w_log w' = w_log w ++ evs -> new_events w w' = evs.
Proof.
  intros H. unfold new_events. rewrite H, skipn_app, skipn_all, Nat.sub_diag.
  reflexivity.
Qed.

(** *** Tags are fixed when a layer graph is built and never change *)

Lemma tag_lg_with_nodes lg ns : tag (BuildLayerGraph.lg_with_nodes lg ns) = tag lg.
Proof. reflexivity. Qed.

Lemma tag_lg_setNode_default lg v : tag (BuildLayerGraph.lg_setNode_default lg v) = tag lg.
Proof. unfold BuildLayerGraph.lg_setNode_default. now destruct (BuildLayerGraph.lg_hasNode lg v). Qed.

Lemma tag_lg_setNode lg v l : tag (BuildLayerGraph.lg_setNode lg v l) = tag lg.
Proof. unfold BuildLayerGraph.lg_setNode. now destruct (BuildLayerGraph.lg_hasNode lg v). Qed.

Lemma tag_lg_setParent lg v p : tag (BuildLayerGraph.lg_setParent lg v p) = tag lg.
Proof.
  unfold BuildLayerGraph.lg_setParent, tag. simpl.
  fold (tag (BuildLayerGraph.lg_setNode_default (BuildLayerGraph.lg_setNode_default lg p) v)).
  now rewrite !tag_lg_setNode_default.
Qed.

Lemma tag_lg_setEdge lg u v x : tag (BuildLayerGraph.lg_setEdge lg u v x) = tag lg.
Proof.
  unfold BuildLayerGraph.lg_setEdge, tag. simpl.
  fold (tag (BuildLayerGraph.lg_setNode_default (BuildLayerGraph.lg_setNode_default lg u) v)).
  now rewrite !tag_lg_setNode_default.
Qed.

(** A fold whose step passes failures through returns [Ok] only from an
    [Ok] start, and carries along what each step preserves. *)
Lemma fold_left_Ok {A B : Type} (f : outcome B -> A -> outcome B) (P : B -> B -> Prop) :
  (forall b, P b b) ->
  (forall b1 b2 b3, P b1 b2 -> P b2 b3 -> P b1 b3) ->
  (forall o a b', f o a = Ok b' -> exists b, o = Ok b /\ P b b') ->
  forall l o b', fold_left f l o = Ok b' -> exists b, o = Ok b /\ P b b'.
Proof.
  intros Hrefl Htrans Hf. induction l as [|a l IH]; simpl; intros o b' H.
  - exists b'. auto.
  - apply IH in H. destruct H as (b1 & H1 & P1).
    apply Hf in H1. destruct H1 as (b & -> & P0). exists b. eauto.
Qed.

Lemma tag_buildLayerGraph_step g rank relationship root o v lg' :
  BuildLayerGraph.buildLayerGraph_step g rank relationship root o v = Ok lg' ->
  exists lg, o = Ok lg /\ tag lg = tag lg'.
Proof.
  unfold BuildLayerGraph.buildLayerGraph_step.
  destruct o as [lg| | |]; try discriminate. intros H. exists lg. split; [reflexivity|].
  destruct (node g v) as [nd|]; [|discriminate].
  destruct (_ || _); [|now injection H as <-].
  match type of H with
  | match ?F with _ => _ end = _ => destruct F as [lg1| | |] eqn:E; try discriminate
  end.
  apply (@fold_left_Ok _ _ _ (fun a b => tag a = tag b)) in E;
    [| reflexivity | intros; congruence |].
  - destruct E as (lg0 & E0 & T). injection E0 as <-.
    rewrite tag_lg_setParent, tag_lg_setNode_default in T.
    destruct (Label.minRank nd); [|injection H as <-; exact T].
    destruct (Label.borderLeft nd), (Label.borderRight nd); try discriminate.
    injection H as <-. now rewrite tag_lg_setNode.
  - intros o a b' Hstep. destruct o as [b| | |]; try discriminate.
    exists b. split; [reflexivity|].
    destruct (edge (g_edges g) a); [|discriminate].
    injection Hstep as <-. now rewrite tag_lg_setEdge.
Qed.

Lemma tag_buildLayerGraph g rank relationship nodesWithRank idCounter lg idCounter' :
  BuildLayerGraph.buildLayerGraph g rank relationship nodesWithRank idCounter
    = (Ok lg, idCounter') ->
  tag lg = (rank, relationship).
Proof.
  unfold BuildLayerGraph.buildLayerGraph.
  destruct (BuildLayerGraph.createRootNode g idCounter) as [[root c]|]; [|discriminate].
  intros H. injection H as H _.
  apply (@fold_left_Ok _ _ _ (fun a b => tag a = tag b)) in H;
    [| reflexivity | intros; congruence | intros o a b'; apply tag_buildLayerGraph_step].
  destruct H as (lg0 & E0 & T). injection E0 as <-. now rewrite <- T.
Qed.

Lemma mapM_Ok {A B : Type} (f : A -> M B) (P : A -> B -> Prop) :
  (forall a w w' b, f a w = (w', Ok b) -> P a b) ->
  forall l w w' bs, mapM f l w = (w', Ok bs) -> Forall2 P l bs.
Proof.
  intros Hf. induction l as [|a l IH]; simpl; intros w w' bs H.
  - injection H as _ <-. constructor.
  - unfold bind in H. destruct (f a w) as [w1 [b| | |]] eqn:E1; try discriminate.
    destruct (mapM f l w1) as [w2 [bs'| | |]] eqn:E2; try discriminate.
    injection H as _ <-. constructor; eauto.
Qed.

Lemma buildLayerGraphs_family ranks relationship w w' lgs :
  buildLayerGraphs ranks relationship w = (w', Ok lgs) ->
  map tag lgs = map (fun r => (r, relationship)) ranks.
Proof.
  unfold buildLayerGraphs, bind, get_g.
  destruct (fold_left _ _ _) as [nodesByRank|]; [|discriminate].
  intros H.
  apply (@mapM_Ok _ _ _ (fun r lg => tag lg = (r, relationship))) in H.
  - induction H; simpl; congruence.
  - intros rank w0 w1 lg E.
    destruct (BuildLayerGraph.buildLayerGraph _ _ _ _ _) as [result c] eqn:B.
    injection E as _ ->. eapply tag_buildLayerGraph, B.
Qed.

(** *** One sweep, one iteration *)

Lemma tag_lg_set_order lg v i w w' lg' :
  lg_set_order lg v i w = (w', Ok lg') -> tag lg' = tag lg.
Proof.
  unfold lg_set_order. destruct (lookup v (lg_nodes lg)) as [[|bl br o]|].
  - unfold bind. destruct (set_node_order v i w) as [w1 [[]| | |]]; try discriminate.
    intros H. now injection H as _ <-.
  - intros H. now injection H as _ <-.
  - discriminate.
Qed.

Lemma tag_lg_set_orders vs : forall lg i w w' lg',
  lg_set_orders lg vs i w = (w', Ok lg') -> tag lg' = tag lg.
Proof.
  induction vs as [|v vs IH]; simpl; intros lg i w w' lg' H.
  - now injection H as _ <-.
  - unfold bind in H. destruct (lg_set_order lg v i w) as [w1 [lg1| | |]] eqn:E;
      try discriminate.
    apply IH in H. apply tag_lg_set_order in E. congruence.
Qed.

Lemma tag_sweep_step C biasRight cg done lg w w' cg' done' :
  sweep_step C biasRight (cg, done) lg w = (w', Ok (cg', done')) ->
  map tag done' = map tag done ++ [tag lg].
Proof.
  unfold sweep_step, bind, get_g.
  destruct (lg_set_orders lg _ 0 w) as [w1 [lg1| | |]] eqn:E; try discriminate.
  intros H. injection H as _ _ <-. apply tag_lg_set_orders in E.
  now rewrite map_app, <- E.
Qed.

Lemma bind_Ok {A B : Type} (c : M A) (k : A -> M B) w w' b :
  bind c k w = (w', Ok b) ->
  exists w1 a, c w = (w1, Ok a) /\ k a w1 = (w', Ok b).
Proof.
  unfold bind. destruct (c w) as [w1 [a| | |]]; try discriminate. eauto.
Qed.

Lemma tag_sweep_fold C biasRight lgs : forall cg done w w' cg' done',
  foldM (sweep_step C biasRight) lgs (cg, done) w = (w', Ok (cg', done')) ->
  map tag done' = map tag done ++ map tag lgs.
Proof.
  induction lgs as [|lg lgs IH]; cbn [foldM]; intros cg done w w' cg' done' H.
  - injection H as _ _ <-. now rewrite List.app_nil_r.
  - apply bind_Ok in H. destruct H as (w1 & [cg1 done1] & E & H).
    apply IH in H. apply tag_sweep_step in E.
    rewrite H, E, <- List.app_assoc. reflexivity.
Qed.

(** Only the main loop can run out of fuel. *)
Definition fuel_free {A : Type} (c : M A) : Prop := forall w, snd (c w) <> OutOfFuel.

Lemma fuel_free_bind {A B : Type} (c : M A) (k : A -> M B) :
  fuel_free c -> (forall a, fuel_free (k a)) -> fuel_free (bind c k).
Proof.
  intros Hc Hk w. unfold bind. specialize (Hc w).
  destruct (c w) as [w' [a| | |]]; simpl in *; try discriminate; [apply Hk | congruence].
Qed.

Lemma fuel_free_ret {A : Type} (a : A) : fuel_free (ret a).
Proof. intros w. discriminate. Qed.

Lemma fuel_free_throw {A : Type} (msg : string) : fuel_free (@throw A msg).
Proof. intros w. discriminate. Qed.

Lemma fuel_free_foldM {A B : Type} (f : B -> A -> M B) (l : list A) :
  (forall b a, fuel_free (f b a)) -> forall b, fuel_free (foldM f l b).
Proof.
  intros Hf. induction l as [|a l IH]; intros b; cbn [foldM].
  - apply fuel_free_ret.
  - apply fuel_free_bind; [apply Hf | intros b'; apply IH].
Qed.

Lemma fuel_free_set_node_order v i : fuel_free (set_node_order v i).
Proof.
  intros w. unfold set_node_order, bind, get_g.
  destruct (node (w_g w) v); discriminate.
Qed.

Lemma fuel_free_lg_set_orders vs : forall lg i, fuel_free (lg_set_orders lg vs i).
Proof.
  induction vs as [|v vs IH]; intros lg i; cbn [lg_set_orders].
  - apply fuel_free_ret.
  - apply fuel_free_bind; [|intros lg'; apply IH].
    unfold lg_set_order. destruct (lookup v (lg_nodes lg)) as [[|bl br o]|].
    + apply fuel_free_bind; [apply fuel_free_set_node_order | intros; apply fuel_free_ret].
    + apply fuel_free_ret.
    + apply fuel_free_throw.
Qed.

Lemma fuel_free_sweep_step C biasRight st lg : fuel_free (sweep_step C biasRight st lg).
Proof.
  destruct st as [cg done]. unfold sweep_step.
  apply fuel_free_bind; [intros w; discriminate | intros g].
  apply fuel_free_bind; [apply fuel_free_lg_set_orders | intros lg'].
  apply fuel_free_bind; [intros w; discriminate | intros g'; apply fuel_free_ret].
Qed.

Lemma buildLayerMatrix_fuel_free g : Util.buildLayerMatrix g <> OutOfFuel.
Proof.
  unfold Util.buildLayerMatrix.
  destruct (Util.range _ _ _) as [ranks|]; [|discriminate].
  generalize (map (fun _ : num => @nil (option string)) ranks). intros l0.
  assert (H : forall vs o, o <> OutOfFuel ->
            fold_left (Util.buildLayerMatrix_step g) vs o <> OutOfFuel).
  { induction vs as [|v vs IH]; simpl; intros o Ho; [exact Ho|].
    apply IH. unfold Util.buildLayerMatrix_step.
    destruct o as [l| | |]; try discriminate; [|congruence].
    destruct (node g v) as [nd|]; [|discriminate].
    destruct (Label.rank nd) as [r|]; [|discriminate].
    destruct (array_index r) as [ri|]; [|discriminate].
    destruct (nth_error l ri); [|discriminate].
    destruct (array_index _); discriminate. }
  apply H. discriminate.
Qed.

Lemma sweepLayerGraphs_spec C lgs biasRight w w' o :
  sweepLayerGraphs C lgs biasRight w = (w', o) ->
  w_log w' = w_log w ++ [Swept lgs biasRight] /\
  o <> OutOfFuel /\
  forall lgs', o = Ok lgs' -> map tag lgs' = map tag lgs.
Proof.
  unfold sweepLayerGraphs, bind, emit.
  set (w0 := mkWorld (w_g w) (w_idCounter w) (w_log w ++ [Swept lgs biasRight])).
  pose proof (@respects_foldM same_log same_log_refl same_log_trans _ _
                (sweep_step C biasRight) lgs
                (fun b a => @respects_sweep_step same_log same_log_refl same_log_trans
                              same_log_put_order C biasRight b a)
                (new_Graph C, []) w0) as L.
  pose proof (@fuel_free_foldM _ _ (sweep_step C biasRight) lgs
                (fuel_free_sweep_step C biasRight) (new_Graph C, []) w0) as F.
  destruct (foldM _ lgs _ w0) as [w1 [[cg' done']| | |]] eqn:E;
    try (exfalso; now apply F);
    unfold ret; intros H; injection H as <- <-; unfold same_log in L; simpl in L;
    (split; [exact L|]); (split; [discriminate|]);
    intros lgs' Hl; try discriminate.
  injection Hl as <-. apply tag_sweep_fold in E. exact E.
Qed.

(** The family handed to [sweepLayerGraphs] and the flag, at index [i]. *)
Definition family_at (s : LoopState) : list LayerGraph :=
  if Nat.even (ls_i s) then ls_up s else ls_down s.

Definition biasRight_at (i : nat) : bool := (2 <=? i mod 4)%nat.

Lemma even_mod2 (i : nat) : negb (i mod 2 =? 0)%nat = negb (Nat.even i).
Proof.
  f_equal. destruct (Nat.even i) eqn:E.
  - apply Nat.even_spec in E. destruct E as [k ->].
    apply Nat.eqb_eq. rewrite Nat.mul_comm. apply Nat.Div0.mod_mul.
  - apply Nat.eqb_neq. intros H. apply Nat.Div0.mod_divides in H.
    destruct H as [k ->]. rewrite Nat.even_mul in E. discriminate.
Qed.

(** What one iteration does to the log and to the loop variables. *)
Definition iteration_result (C : Collaborators) (s : LoopState) (w' : World)
  (rest : list Event) (s' : LoopState) : Prop :=
  ls_i s' = S (ls_i s) /\
  map tag (ls_down s') = map tag (ls_down s) /\
  map tag (ls_up s') = map tag (ls_up s) /\
  exists layering,
    let cc := crossCount C (w_g w') layering in
    rest = [Counted layering cc] /\
    Util.buildLayerMatrix (w_g w') = Ok layering /\
    ((cc_lt cc (ls_bestCC s) = true /\ ls_lastBest s' = 1%nat /\
      ls_bestCC s' = Some cc /\ ls_best s' = Some layering) \/
     (cc_lt cc (ls_bestCC s) = false /\ ls_lastBest s' = S (ls_lastBest s) /\
      ls_bestCC s' = ls_bestCC s /\ ls_best s' = ls_best s)).

Lemma order_iteration_spec C s w w' o :
  order_iteration C s w = (w', o) ->
  exists rest,
    w_log w' = w_log w ++ Swept (family_at s) (biasRight_at (ls_i s)) :: rest /\
    swept_families rest = [] /\
    o <> OutOfFuel /\
    forall s', o = Ok s' -> iteration_result C s w' rest s'.
Proof.
  unfold order_iteration. rewrite even_mod2. fold (biasRight_at (ls_i s)).
  unfold bind at 1.
  replace (if negb (Nat.even (ls_i s)) then ls_down s else ls_up s)
    with (family_at s) by (unfold family_at; now destruct (Nat.even (ls_i s))).
  destruct (sweepLayerGraphs C (family_at s) (biasRight_at (ls_i s)) w)
    as [w1 o1] eqn:E1.
  apply sweepLayerGraphs_spec in E1. destruct E1 as (L1 & NF & T1).
  destruct o1 as [swept| | |].
  2,3,4: try (exfalso; now apply NF);
    intros H; injection H as <- <-; exists []; rewrite L1;
    (repeat split; try discriminate).
  specialize (T1 swept eq_refl).
  unfold bind, get_g, lift_outcome, emit.
  pose proof (buildLayerMatrix_fuel_free (w_g w1)) as BF.
  destruct (Util.buildLayerMatrix (w_g w1)) as [layering| | |] eqn:BM.
  2,3,4: try (exfalso; now apply BF);
    intros H; injection H as <- <-; exists []; rewrite L1;
    (repeat split; try discriminate).
  set (cc := crossCount C (w_g w1) layering).
  destruct (cc_lt cc (ls_bestCC s)) eqn:LT; intros H; injection H as <- <-;
    exists [Counted layering cc]; simpl; rewrite L1, <- List.app_assoc; simpl;
    (split; [reflexivity|]); (split; [reflexivity|]); (split; [discriminate|]);
    intros s' Hs; injection Hs as <-; unfold iteration_result; simpl;
    (split; [reflexivity|]);
    unfold family_at in T1; destruct (Nat.even (ls_i s)); simpl;
    (split; [first [exact T1 | reflexivity]|]);
    (split; [first [exact T1 | reflexivity]|]);
    exists layering; fold cc; rewrite LT; (split; [reflexivity|]);
    (split; [exact BM|]); auto.
Qed.

(** *** The iterations of the loop *)

(** [iterations C s w evs s' w']: from the loop variables [s] in world [w],
    a number of complete iterations add the events [evs] and lead to the
    loop variables [s'] in world [w']. *)
Inductive iterations (C : Collaborators)
  : LoopState -> World -> list Event -> LoopState -> World -> Prop :=
| iterations_nil : forall s w, iterations C s w [] s w
| iterations_cons : forall s w s1 w1 rest evs s' w',
    (ls_lastBest s < 4)%nat ->
    order_iteration C s w = (w1, Ok s1) ->
    w_log w1 = w_log w ++ Swept (family_at s) (biasRight_at (ls_i s)) :: rest ->
    iteration_result C s w1 rest s1 ->
    iterations C s1 w1 evs s' w' ->
    iterations C s w (Swept (family_at s) (biasRight_at (ls_i s)) :: rest ++ evs) s' w'.

Lemma iterations_log C s w evs s' w' :
  iterations C s w evs s' w' -> w_log w' = w_log w ++ evs.
Proof.
  induction 1 as [s w | s w s1 w1 rest evs s' w' Hlt Hit Hlog Hres Hits IH].
  - now rewrite List.app_nil_r.
  - rewrite IH, Hlog, <- List.app_assoc. reflexivity.
Qed.

(** How a run of the loop ends. *)
Inductive loop_end (C : Collaborators) (s1 : LoopState) (w1 : World)
  : World -> outcome LoopState -> list Event -> Prop :=
| end_exit : (4 <= ls_lastBest s1)%nat -> loop_end C s1 w1 w1 (Ok s1) []
| end_fuel : (ls_lastBest s1 < 4)%nat -> loop_end C s1 w1 w1 OutOfFuel []
| end_fail : forall w' o rest,
    (ls_lastBest s1 < 4)%nat ->
    order_iteration C s1 w1 = (w', o) ->
    (forall s', o <> Ok s') -> o <> OutOfFuel ->
    swept_families rest = [] ->
    loop_end C s1 w1 w' o
             (Swept (family_at s1) (biasRight_at (ls_i s1)) :: rest).

Lemma order_loop_iterations C fuel : forall s w w' o,
  order_loop C fuel s w = (w', o) ->
  exists evs s1 w1 tail,
    iterations C s w evs s1 w1 /\
    loop_end C s1 w1 w' o tail /\
    w_log w' = w_log w ++ evs ++ tail.
Proof.
  induction fuel as [|fuel IH]; intros s w w' o; cbn [order_loop];
    destruct (ls_lastBest s <? 4)%nat eqn:Hlt.
  - intros H. injection H as <- <-. apply Nat.ltb_lt in Hlt.
    exists [], s, w, []. repeat split; try constructor; auto.
    now rewrite !List.app_nil_r.
  - intros H. injection H as <- <-. apply Nat.ltb_ge in Hlt.
    exists [], s, w, []. repeat split; try constructor; auto.
    now rewrite !List.app_nil_r.
  - apply Nat.ltb_lt in Hlt. unfold bind.
    destruct (order_iteration C s w) as [w1 o1] eqn:Hit.
    pose proof (order_iteration_spec _ _ _ Hit) as (rest & Hlog & Hsw & Hnf & Hres).
    destruct o1 as [s1| | |].
    + intros H. apply IH in H. destruct H as (evs & s2 & w2 & tail & Hits & Hend & Hlog2).
      exists (Swept (family_at s) (biasRight_at (ls_i s)) :: rest ++ evs), s2, w2, tail.
      split; [|split; [exact Hend|]].
      * econstructor; eauto.
      * rewrite Hlog2, Hlog, <- !List.app_assoc. simpl. now rewrite <- List.app_assoc.
    + intros H. injection H as <- <-.
      exists [], s, w, (Swept (family_at s) (biasRight_at (ls_i s)) :: rest).
      split; [constructor|]. split; [|now rewrite Hlog].
      eapply end_fail; eauto; discriminate.
    + intros H. injection H as <- <-.
      exists [], s, w, (Swept (family_at s) (biasRight_at (ls_i s)) :: rest).
      split; [constructor|]. split; [|now rewrite Hlog].
      eapply end_fail; eauto; discriminate.
    + now contradiction Hnf.
  - intros H. injection H as <- <-. apply Nat.ltb_ge in Hlt.
    exists [], s, w, []. repeat split; try constructor; auto.
    now rewrite !List.app_nil_r.
Qed.

(** *** Which family is swept at which iteration *)

Definition sweep_tags (evs : list Event) : list (list (num * Relationship) * bool) :=
  map (fun p => (map tag (fst p), snd p)) (swept_families evs).

(** The schedule of the loop from index [i]: the upward family at even
    indices, the downward one at odd indices. *)
Definition schedule (down up : list (num * Relationship)) (i n : nat)
  : list (list (num * Relationship) * bool) :=
  map (fun j => (if Nat.even j then up else down, biasRight_at j)) (seq i n).

Lemma swept_families_app evs1 evs2 :
  swept_families (evs1 ++ evs2) = swept_families evs1 ++ swept_families evs2.
Proof. apply flat_map_app. Qed.

Lemma sweep_tags_app evs1 evs2 :
  sweep_tags (evs1 ++ evs2) = sweep_tags evs1 ++ sweep_tags evs2.
Proof. unfold sweep_tags. now rewrite swept_families_app, map_app. Qed.

Lemma iteration_rest_no_sweep C s w1 rest s1 :
  iteration_result C s w1 rest s1 -> swept_families rest = [].
Proof. intros (_ & _ & _ & layering & -> & _). reflexivity. Qed.

Lemma iterations_schedule C s w evs s' w' :
  iterations C s w evs s' w' ->
  map tag (ls_down s') = map tag (ls_down s) /\
  map tag (ls_up s') = map tag (ls_up s) /\
  (ls_i s <= ls_i s')%nat /\
  sweep_tags evs =
    schedule (map tag (ls_down s)) (map tag (ls_up s)) (ls_i s) (ls_i s' - ls_i s).
Proof.
  induction 1 as [s w | s w s1 w1 rest evs s' w' Hlt Hit Hlog Hres Hits IH].
  - repeat split; auto. now rewrite Nat.sub_diag.
  - destruct IH as (D & U & Hle & IH).
    pose proof (iteration_rest_no_sweep Hres) as Hrest.
    destruct Hres as (Hi & D1 & U1 & _).
    rewrite D1 in D, IH. rewrite U1 in U, IH. rewrite Hi in Hle, IH.
    repeat split; auto; [lia|].
    replace (ls_i s' - ls_i s)%nat with (S (ls_i s' - S (ls_i s))) by lia.
    unfold schedule. cbn [seq map]. fold (schedule (map tag (ls_down s)) (map tag (ls_up s))
                                            (S (ls_i s)) (ls_i s' - S (ls_i s))).
    rewrite <- IH. change (Swept (family_at s) (biasRight_at (ls_i s)) :: rest ++ evs)
      with ([Swept (family_at s) (biasRight_at (ls_i s))] ++ rest ++ evs).
    rewrite !sweep_tags_app. unfold sweep_tags at 2. rewrite Hrest. simpl.
    unfold family_at. now destruct (Nat.even (ls_i s)).
Qed.

Lemma schedule_snoc down up i n :
  schedule down up i (S n) =
  schedule down up i n ++ [(if Nat.even (i + n) then up else down, biasRight_at (i + n))].
Proof. unfold schedule. now rewrite seq_S, map_app. Qed.

Lemma order_loop_schedule C fuel s w w' o :
  order_loop C fuel s w = (w', o) ->
  exists n, sweep_tags (new_events w w') =
            schedule (map tag (ls_down s)) (map tag (ls_up s)) (ls_i s) n.
Proof.
  intros H. apply order_loop_iterations in H.
  destruct H as (evs & s1 & w1 & tail & Hits & Hend & Hlog).
  rewrite (@new_events_app w w' _ Hlog).
  apply iterations_schedule in Hits. destruct Hits as (D & U & Hle & Hs).
  rewrite sweep_tags_app, Hs.
  destruct Hend as [Hex | Hf | w2 o2 rest Hlt Hit Hno Hnf Hrest].
  - exists (ls_i s1 - ls_i s)%nat. now rewrite List.app_nil_r.
  - exists (ls_i s1 - ls_i s)%nat. now rewrite List.app_nil_r.
  - exists (S (ls_i s1 - ls_i s)). rewrite schedule_snoc.
    replace (ls_i s + (ls_i s1 - ls_i s))%nat with (ls_i s1) by lia.
    f_equal. unfold sweep_tags. cbn [swept_families flat_map].
    fold (swept_families rest). rewrite Hrest. simpl.
    unfold family_at. rewrite <- D, <- U. now destruct (Nat.even (ls_i s1)).
Qed.

Lemma schedule_nth down up n i lgs biasRight evs :
  sweep_tags evs = schedule down up 0 n ->
  nth_error (swept_families evs) i = Some (lgs, biasRight) ->
  map tag lgs = (if Nat.even i then up else down) /\ biasRight = biasRight_at i.
Proof.
  intros Hs Hn.
  assert (E : nth_error (sweep_tags evs) i = Some (map tag lgs, biasRight)).
  { unfold sweep_tags. now rewrite nth_error_map, Hn. }
  rewrite Hs in E. unfold schedule in E. rewrite nth_error_map in E.
  rewrite nth_error_seq in E. destruct (i <? n)%nat; [|discriminate].
  simpl in E. now injection E as -> ->.
Qed.

(** The part of the default algorithm that precedes the loop leaves the
    log alone and builds the two families; what follows the loop leaves the
    log alone too. *)
Lemma order_default_run C fuel w w' o :
  order_default C fuel false w = (w', o) ->
  (w_log w' = w_log w /\ forall x, o <> Ok x) \/
  exists down up w0 w1 o1,
    is_downward (w_g w) down /\ is_upward (w_g w) up /\
    w_log w0 = w_log w /\
    order_loop C fuel (mkLoopState 0 0 None None down up) w0 = (w1, o1) /\
    w_log w' = w_log w1 /\
    match o1 with
    | Ok s => assignOrder (ls_best s) w1 = (w', o)
    | _ => w' = w1 /\ forall x, o <> Ok x
    end.
Proof.
  unfold order_default. unfold bind at 1, get_g at 1. unfold bind at 1.
  unfold is_downward, is_upward, family_of.
  destruct (Util.range (Int 1) _ (Int 1)) as [ranks_down|];
    [|intros H; injection H as <- <-; left; split; [reflexivity | discriminate]].
  unfold bind at 1.
  pose proof (@respects_buildLayerGraphs same_log same_log_refl same_log_trans
                same_log_idCounter ranks_down Rel_inEdges w) as L1.
  destruct (buildLayerGraphs ranks_down Rel_inEdges w) as [wa [down| | |]] eqn:E1;
    unfold same_log in L1; simpl in L1;
    try (intros H; injection H as <- <-; left; split; [assumption | discriminate]).
  apply buildLayerGraphs_family in E1.
  unfold bind at 1.
  destruct (Util.range (num_sub _ _) _ _) as [ranks_up|];
    [|intros H; injection H as <- <-; left; split; [assumption | discriminate]].
  unfold bind at 1.
  pose proof (@respects_buildLayerGraphs same_log same_log_refl same_log_trans
                same_log_idCounter ranks_up Rel_outEdges wa) as L2.
  destruct (buildLayerGraphs ranks_up Rel_outEdges wa) as [wb [up| | |]] eqn:E2;
    unfold same_log in L2; simpl in L2;
    try (intros H; injection H as <- <-; left; split; [congruence | discriminate]).
  apply buildLayerGraphs_family in E2.
  unfold bind at 1, get_g at 1. unfold bind at 1.
  set (layering := map (map Some) (initOrder C (w_g wb))).
  pose proof (@respects_assignOrder same_log same_log_refl same_log_trans
                same_log_put_order (Some layering) wb) as L3.
  destruct (assignOrder (Some layering) wb) as [w0 [[]| | |]] eqn:E3;
    unfold same_log in L3; simpl in L3;
    try (intros H; injection H as <- <-; left; split; [congruence | discriminate]).
  unfold bind at 1.
  destruct (order_loop C fuel _ w0) as [w1 o1] eqn:E4.
  intros H. right. exists down, up, w0, w1, o1.
  rewrite E1, E2. simpl.
  split; [reflexivity|]. split; [reflexivity|]. split; [congruence|].
  split; [exact E4|].
  destruct o1 as [s| | |].
  - split; [|exact H].
    pose proof (@respects_assignOrder same_log same_log_refl same_log_trans
                  same_log_put_order (ls_best s) w1) as L5.
    rewrite H in L5. exact L5.
  - injection H as <- <-. repeat split; discriminate.
  - injection H as <- <-. repeat split; discriminate.
  - injection H as <- <-. repeat split; discriminate.
Qed.

(** C1 (as the code has it). In a run of the default algorithm, the family
    swept at iteration index [i] is the upward family (ranks
    [range(maxRank - 1, -1, -1)], outgoing edges) when [i] is even and the
    downward family (ranks [range(1, maxRank + 1)], incoming edges) when [i]
    is odd; the flag passed along is [i % 4 >= 2].  With an integer
    [maxRank] of [m] the ranks are [m - 1, ..., 0] at even indices and
    [1, ..., m] at odd ones. *)
Theorem sweep_family_by_parity (C : Collaborators) (fuel : nat) (opts : option Opts)
  (w : World) (i : nat) (lgs : list LayerGraph) (biasRight : bool) :
  no_customOrder opts ->
  nth_error (swept_families (new_events w (fst (order C fuel opts w)))) i
    = Some (lgs, biasRight) ->
  (if Nat.even i then is_upward (w_g w) lgs else is_downward (w_g w) lgs) /\
  biasRight = (2 <=? i mod 4)%nat /\
  (forall m, Util.maxRank (w_g w) = Int m ->
     map tag lgs =
     if Nat.even i
     then map (fun r => (Int r, Rel_outEdges)) (UtilFacts.Zseq_down (m - 1) (Z.to_nat m))
     else map (fun r => (Int r, Rel_inEdges)) (UtilFacts.Zseq_up 1 (Z.to_nat m))).
Proof.
  intros Hopts Hnth.
  assert (Main : (if Nat.even i then is_upward (w_g w) lgs else is_downward (w_g w) lgs) /\
                 biasRight = (2 <=? i mod 4)%nat);
    [| destruct Main as [Hfam Hbias]; split; [exact Hfam|]; split; [exact Hbias|];
       intros m Hm; unfold is_upward, is_downward, family_of in Hfam;
       rewrite Hm in Hfam;
       destruct (UtilFacts.ranks_of_families m) as [Rup Rdown];
       destruct (Nat.even i);
       [rewrite Rdown in Hfam | rewrite Rup in Hfam];
       cbn [option_map] in Hfam; injection Hfam as ->; now rewrite map_map].
  revert Hnth.
  assert (Hd : exists d, order C fuel opts w = order_default C fuel d w).
  { destruct opts as [[[f|] d]|]; simpl in *; try discriminate; eauto. }
  destruct Hd as [d ->].
  destruct (order_default C fuel d w) as [w' o] eqn:Hrun. simpl.
  assert (Hlog : w_log w' = w_log w \/
                 exists down up, is_downward (w_g w) down /\ is_upward (w_g w) up /\
                   exists n, sweep_tags (new_events w w') = schedule (map tag down) (map tag up) 0 n).
  { destruct d.
    - (* with the heuristic disabled nothing is emitted *)
      left. revert Hrun. unfold order_default.
      unfold bind at 1, get_g at 1. unfold bind at 1.
      destruct (Util.range (Int 1) _ (Int 1)) as [ranks_down|];
        [|intros H; now injection H as <- _].
      unfold bind at 1.
      pose proof (@respects_buildLayerGraphs same_log same_log_refl same_log_trans
                    same_log_idCounter ranks_down Rel_inEdges w) as L1.
      destruct (buildLayerGraphs ranks_down Rel_inEdges w) as [wa [down| | |]];
        unfold same_log in L1; simpl in L1;
        try (intros H; now injection H as <- _).
      unfold bind at 1.
      destruct (Util.range (num_sub _ _) _ _) as [ranks_up|];
        [|intros H; now injection H as <- _].
      unfold bind at 1.
      pose proof (@respects_buildLayerGraphs same_log same_log_refl same_log_trans
                    same_log_idCounter ranks_up Rel_outEdges wa) as L2.
      destruct (buildLayerGraphs ranks_up Rel_outEdges wa) as [wb [up| | |]];
        unfold same_log in L2; simpl in L2;
        try (intros H; injection H as <- _; congruence).
      unfold bind at 1, get_g at 1. unfold bind at 1.
      pose proof (@respects_assignOrder same_log same_log_refl same_log_trans
                    same_log_put_order
                    (Some (map (map Some) (initOrder C (w_g wb)))) wb) as L3.
      destruct (assignOrder _ wb) as [w0 [[]| | |]];
        unfold same_log in L3; simpl in L3;
        intros H; injection H as <- _; congruence.
    - apply order_default_run in Hrun.
      destruct Hrun as [[L _] | (down & up & w0 & w1 & o1 & Hdn & Hup & L0 & Hloop & L1 & _)];
        [now left|].
      right. exists down, up. split; [exact Hdn|]. split; [exact Hup|].
      apply order_loop_schedule in Hloop. destruct Hloop as [n Hn]. exists n.
      simpl in Hn. rewrite <- Hn. unfold new_events. now rewrite L1, L0. }
  destruct Hlog as [L | (down & up & Hdn & Hup & n & Hs)].
  - unfold new_events. rewrite L, skipn_all. simpl. now destruct i.
  - intros Hn. destruct (@schedule_nth _ _ _ _ _ _ _ Hs Hn) as [T ->].
    split; [|reflexivity].
    unfold is_downward, is_upward, family_of in *.
    destruct (Nat.even i); rewrite T; assumption.
Qed.

Lemma sweep_family_by_parity_witness :
  exists lgs,
    nth_error (swept_families (w_log (fst Examples.ladder_run))) 1 = Some (lgs, false) /\
    is_downward Examples.g_ladder lgs.
Proof.
  eexists. split; [vm_compute; reflexivity|].
  apply (@sweep_family_by_parity Examples.adversary 10 None
           (Examples.start Examples.g_ladder) 1 _ false I).
  vm_compute. reflexivity.
Defined.

(** C1 as the specification words it: the downward family at even indices,
    the upward one at odd indices. *)
Definition claimed_family (g : Graph) (i : nat) (lgs : list LayerGraph) : Prop :=
  if Nat.even i then is_downward g lgs else is_upward g lgs.

(** On the ladder the family swept at index 0 is the one for rank 0 built
    on outgoing edges: the upward family, not the downward one. *)
Lemma first_sweep_is_not_downward :
  exists lgs biasRight,
    nth_error (swept_families (w_log (fst Examples.ladder_run))) 0
      = Some (lgs, biasRight) /\
    map tag lgs = [(Int 0, Rel_outEdges)] /\
    ~ claimed_family Examples.g_ladder 0 lgs.
Proof.
  eexists. eexists. split; [vm_compute; reflexivity|].
  split; [reflexivity|].
  intros H. vm_compute in H. discriminate H.
Qed.

(** *** When the loop stops *)

(** The default algorithm with the heuristic enabled. *)
Definition heuristic_enabled (opts : option Opts) : Prop :=
  match opts with
  | Some o => customOrder o = None /\ disableOptimalOrderHeuristic o = false
  | None => True
  end.

Definition counts (evs : list Event) : list nat := map snd (counted evs).

(** Iteration [j] strictly improves on the best count seen before it; the
    first iteration always does. *)
Definition improves (ccs : list nat) (j : nat) : Prop :=
  exists cc, nth_error ccs j = Some cc /\
             forall j' cc', (j' < j)%nat -> nth_error ccs j' = Some cc' -> (cc < cc')%nat.

(** The stopping point of the code: of the last four iterations the first
    improved and the three after it did not. *)
Definition stops_at (ccs : list nat) (m : nat) : Prop :=
  (4 <= m)%nat /\ improves ccs (m - 4) /\
  forall j, (m - 4 < j < m)%nat -> ~ improves ccs j.

(** The stopping point of the specification: four iterations in a row
    without improvement, and no such four iterations earlier.  [init] is
    the best count the loop is taken to start from: [None] for none (the
    code starts from [Infinity]), [Some c] for a count [c] known before
    the first iteration, that of the seeded order say; an iteration then
    improves when its count is below [c] as well. *)
Definition improves_on (init : option nat) (ccs : list nat) (j : nat) : Prop :=
  improves ccs j /\
  forall c cc, init = Some c -> nth_error ccs j = Some cc -> (cc < c)%nat.

Definition claimed_stop (init : option nat) (ccs : list nat) (m : nat) : Prop :=
  (4 <= m)%nat /\ forall j, (m - 4 <= j < m)%nat -> ~ improves_on init ccs j.

Definition claimed_rule (init : option nat) (ccs : list nat) (n : nat) : Prop :=
  claimed_stop init ccs n /\ forall m, (m < n)%nat -> ~ claimed_stop init ccs m.

Lemma improves_app (ccs l : list nat) (j : nat) :
  (j < List.length ccs)%nat -> (improves (ccs ++ l) j <-> improves ccs j).
Proof.
  intros Hj. unfold improves. split; intros (cc & Hcc & H); exists cc.
  - rewrite nth_error_app1 in Hcc by assumption. split; [assumption|].
    intros j' cc' Hlt Hn. apply (H j' cc' Hlt).
    rewrite nth_error_app1 by lia. assumption.
  - rewrite nth_error_app1 by assumption. split; [assumption|].
    intros j' cc' Hlt Hn. apply (H j' cc' Hlt).
    rewrite nth_error_app1 in Hn by lia. assumption.
Qed.

Lemma stops_at_app (ccs l : list nat) (m : nat) :
  (m <= List.length ccs)%nat -> (stops_at (ccs ++ l) m <-> stops_at ccs m).
Proof.
  intros Hm. unfold stops_at. split; intros (H4 & Hi & Hn); split; try assumption; split.
  - apply improves_app in Hi; [assumption | lia].
  - intros j Hj Hc. apply (Hn j Hj). apply improves_app; [lia | assumption].
  - apply improves_app; [lia | assumption].
  - intros j Hj Hc. apply (Hn j Hj). apply improves_app in Hc; [assumption | lia].
Qed.

(** The loop variables in terms of the history of layerings and counts. *)
Record LoopInv (hist : list (Util.Layering * nat)) (s : LoopState) : Prop := mkLoopInv {
  inv_i : ls_i s = List.length hist;
  inv_start : hist = [] -> ls_lastBest s = O /\ ls_bestCC s = None /\ ls_best s = None;
  inv_run : hist <> [] ->
    (1 <= ls_lastBest s <= 4)%nat /\ (ls_lastBest s <= List.length hist)%nat /\
    exists best b,
      ls_bestCC s = Some b /\ ls_best s = Some best /\
      nth_error hist (List.length hist - ls_lastBest s) = Some (best, b) /\
      (forall cc, In cc (map snd hist) -> (b <= cc)%nat) /\
      improves (map snd hist) (List.length hist - ls_lastBest s) /\
      forall j, (List.length hist - ls_lastBest s < j < List.length hist)%nat ->
                ~ improves (map snd hist) j;
  inv_nostop : forall m, (m < List.length hist)%nat -> ~ stops_at (map snd hist) m
}.

Lemma LoopInv_start down up : LoopInv [] (mkLoopState 0 0 None None down up).
Proof.
  constructor; simpl; auto.
  - intros H. now contradiction H.
  - intros m Hm. lia.
Qed.

Lemma nth_error_snoc {A : Type} (l : list A) (x : A) :
  nth_error (l ++ [x]) (List.length l) = Some x.
Proof. rewrite nth_error_app2, Nat.sub_diag by lia. reflexivity. Qed.

(** One more iteration with count [cc] on layering [layering]. *)
Lemma LoopInv_step hist s layering cc s' :
  LoopInv hist s ->
  (ls_lastBest s < 4)%nat ->
  ls_i s' = S (ls_i s) ->
  ((cc_lt cc (ls_bestCC s) = true /\ ls_lastBest s' = 1%nat /\
    ls_bestCC s' = Some cc /\ ls_best s' = Some layering) \/
   (cc_lt cc (ls_bestCC s) = false /\ ls_lastBest s' = S (ls_lastBest s) /\
    ls_bestCC s' = ls_bestCC s /\ ls_best s' = ls_best s)) ->
  LoopInv (hist ++ [(layering, cc)]) s'.
Proof.
  intros [Hi Hstart Hrun Hnostop] Hlt Hi' Hcase.
  assert (Hlen : List.length (hist ++ [(layering, cc)]) = S (List.length hist))
    by (rewrite length_app; simpl; lia).
  assert (Hmap : map snd (hist ++ [(layering, cc)]) = map snd hist ++ [cc])
    by now rewrite map_app.
  assert (Hml : List.length (map snd hist) = List.length hist) by apply length_map.
  (* no stop at an earlier index, nor at the index just reached *)
  assert (Hno : forall m, (m < S (List.length hist))%nat ->
                          ~ stops_at (map snd hist ++ [cc]) m).
  { intros m Hm Hs.
    apply (proj1 (@stops_at_app (map snd hist) [cc] m ltac:(lia))) in Hs.
    destruct (Nat.eq_dec m (List.length hist)) as [->|Hne];
      [|apply (Hnostop m); [lia | assumption]].
    destruct Hs as (H4 & Himp & Hnone).
    assert (Hne : hist <> []) by (intros ->; simpl in H4; lia).
    destruct (Hrun Hne) as (Hlb & Hle & best & b & _ & _ & _ & _ & Himp' & _).
    apply (Hnone (List.length hist - ls_lastBest s)%nat); [lia | assumption]. }
  destruct Hcase as [(Hcc & Hlb' & Hb' & Hbest') | (Hcc & Hlb' & Hb' & Hbest')].
  - (* improvement *)
    assert (Hall : forall c, In c (map snd hist) -> (cc < c)%nat).
    { intros c Hc. destruct hist as [|h hist']; [contradiction|].
      destruct (Hrun ltac:(discriminate)) as (_ & _ & best & b & Hb & _ & _ & Hmin & _).
      rewrite Hb in Hcc. simpl in Hcc. apply Nat.ltb_lt in Hcc.
      specialize (Hmin c Hc). lia. }
    assert (Himp : improves (map snd hist ++ [cc]) (List.length hist)).
    { exists cc. split; [rewrite <- Hml; apply nth_error_snoc|].
      intros j' cc' Hj Hn. rewrite nth_error_app1 in Hn by lia.
      apply Hall. eapply nth_error_In, Hn. }
    constructor; rewrite ?Hlen, ?Hmap, ?Hlb'.
    + lia.
    + intros H. destruct hist; discriminate H.
    + intros _. split; [lia|]. split; [lia|].
      exists layering, cc. split; [assumption|]. split; [assumption|].
      replace (S (List.length hist) - 1)%nat with (List.length hist) by lia.
      split; [apply nth_error_snoc|]. split; [|split; [exact Himp | intros j Hj; lia]].
      intros c Hc. apply in_app_or in Hc. destruct Hc as [Hc|[<-|[]]]; [|lia].
      specialize (Hall c Hc). lia.
    + exact Hno.
  - (* no improvement: some count has been seen already *)
    assert (Hne : hist <> []).
    { intros ->. destruct (Hstart eq_refl) as (_ & Hb & _).
      rewrite Hb in Hcc. discriminate Hcc. }
    destruct (Hrun Hne) as (Hlb & Hle & best & b & Hb & Hbest & Hnth & Hmin & Himp & Hnone).
    rewrite Hb in Hcc. simpl in Hcc. apply Nat.ltb_ge in Hcc.
    constructor; rewrite ?Hlen, ?Hmap, ?Hlb'.
    + lia.
    + intros H. destruct hist; discriminate H.
    + intros _. split; [lia|]. split; [lia|].
      exists best, b. split; [congruence|]. split; [congruence|].
      replace (S (List.length hist) - S (ls_lastBest s))%nat
        with (List.length hist - ls_lastBest s)%nat by lia.
      split; [rewrite nth_error_app1 by lia; exact Hnth|].
      split; [|split].
      * intros c Hc. apply in_app_or in Hc. destruct Hc as [Hc|[<-|[]]]; auto.
      * apply improves_app; [lia | exact Himp].
      * intros j Hj Hc.
        destruct (Nat.eq_dec j (List.length hist)) as [->|Hne'].
        -- destruct Hc as (c & Hc & Hless).
           rewrite <- Hml, nth_error_snoc in Hc. injection Hc as <-.
           specialize (Hless (List.length hist - ls_lastBest s)%nat b ltac:(lia)).
           rewrite nth_error_app1 in Hless by lia.
           assert (E : nth_error (map snd hist) (List.length hist - ls_lastBest s) = Some b)
             by now rewrite nth_error_map, Hnth.
           specialize (Hless E). lia.
        -- apply (proj1 (@improves_app (map snd hist) [cc] j ltac:(lia))) in Hc.
           apply (Hnone j); [lia | exact Hc].
    + exact Hno.
Qed.

Lemma counted_app evs1 evs2 : counted (evs1 ++ evs2) = counted evs1 ++ counted evs2.
Proof. apply flat_map_app. Qed.

Lemma iterations_inv C s w evs s' w' :
  iterations C s w evs s' w' ->
  forall hist, LoopInv hist s -> LoopInv (hist ++ counted evs) s'.
Proof.
  induction 1 as [s w | s w s1 w1 rest evs s' w' Hlt Hit Hlog Hres Hits IH];
    intros hist Hinv.
  - now rewrite List.app_nil_r.
  - destruct Hres as (Hi & _ & _ & layering & -> & _ & Hcase).
    cbn [counted flat_map app]. fold (counted evs).
    change ((layering, crossCount C (w_g w1) layering) :: counted evs)
      with ([(layering, crossCount C (w_g w1) layering)] ++ counted evs).
    rewrite List.app_assoc. apply IH.
    eapply LoopInv_step; eauto.
Qed.

(** *** Termination *)

(** The loop stops within [4 * bestCC + 4 - lastBest] iterations: an
    iteration either lowers the best count or raises [lastBest]. *)
Lemma order_loop_enough_fuel C fuel : forall s w b,
  ls_bestCC s = Some b ->
  (4 * b + (4 - ls_lastBest s) <= fuel)%nat ->
  snd (order_loop C fuel s w) <> OutOfFuel.
Proof.
  induction fuel as [|fuel IH]; intros s w b Hb Hf; cbn [order_loop];
    destruct (Nat.ltb_spec (ls_lastBest s) 4) as [Hlt|Hge]; try discriminate.
  - lia.
  - unfold bind. destruct (order_iteration C s w) as [w1 o1] eqn:Hit.
    pose proof (order_iteration_spec _ _ _ Hit) as (rest & _ & _ & Hnf & Hres).
    destruct o1 as [s1| | |]; try discriminate; [|now contradiction Hnf].
    destruct (Hres s1 eq_refl) as (_ & _ & _ & layering & _ & _ & Hcase).
    destruct Hcase as [(Hcc & Hlb' & Hb' & _) | (Hcc & Hlb' & Hb' & _)].
    + rewrite Hb in Hcc. simpl in Hcc. apply Nat.ltb_lt in Hcc.
      eapply IH; [exact Hb' | lia].
    + eapply IH; [rewrite Hb'; exact Hb | lia].
Qed.

(** A run that did not stop for lack of fuel is the same with more. *)
Lemma order_loop_more_fuel C fuel : forall fuel' s w w' o,
  order_loop C fuel s w = (w', o) -> o <> OutOfFuel -> (fuel <= fuel')%nat ->
  order_loop C fuel' s w = (w', o).
Proof.
  induction fuel as [|fuel IH]; intros fuel' s w w' o; cbn [order_loop];
    destruct (ls_lastBest s <? 4)%nat eqn:Hlt; intros H Ho Hle.
  - injection H as <- <-. now contradiction Ho.
  - destruct fuel'; cbn [order_loop]; now rewrite Hlt.
  - destruct fuel' as [|fuel']; [lia|]. cbn [order_loop]. rewrite Hlt.
    unfold bind in *. destruct (order_iteration C s w) as [w1 [s1| | |]]; try assumption.
    apply IH; [assumption | assumption | lia].
  - destruct fuel'; cbn [order_loop]; now rewrite Hlt.
Qed.

Lemma order_loop_terminates C down up w :
  exists N w' o,
    o <> OutOfFuel /\
    forall fuel, (N <= fuel)%nat ->
      order_loop C fuel (mkLoopState 0 0 None None down up) w = (w', o).
Proof.
  set (s0 := mkLoopState 0 0 None None down up).
  destruct (order_iteration C s0 w) as [w1 o1] eqn:Hit.
  pose proof (order_iteration_spec _ _ _ Hit) as (rest & _ & _ & Hnf & Hres).
  assert (Hone : forall fuel, order_loop C (S fuel) s0 w =
                   match o1 with
                   | Ok s1 => order_loop C fuel s1 w1
                   | Throw msg => (w1, Throw msg)
                   | Diverge => (w1, Diverge)
                   | OutOfFuel => (w1, OutOfFuel)
                   end).
  { intros fuel. cbn [order_loop]. simpl (ls_lastBest s0 <? 4)%nat.
    change (0 <? 4)%nat with true. cbv iota beta.
    unfold bind. now rewrite Hit. }
  destruct o1 as [s1| | |].
  - destruct (Hres s1 eq_refl) as (_ & _ & _ & layering & _ & _ & Hcase).
    destruct Hcase as [(_ & Hlb' & Hb' & _) | (Hcc & _)]; [|discriminate Hcc].
    set (N := (4 * crossCount C (w_g w1) layering + 3)%nat).
    destruct (order_loop C N s1 w1) as [w' o] eqn:Hrun.
    assert (Ho : o <> OutOfFuel).
    { pose proof (@order_loop_enough_fuel C N s1 w1 _ Hb') as H.
      rewrite Hrun in H. apply H. unfold N. lia. }
    exists (S N), w', o. split; [exact Ho|].
    intros fuel Hf. destruct fuel as [|fuel]; [lia|]. rewrite Hone.
    eapply order_loop_more_fuel; [exact Hrun | exact Ho | lia].
  - exists 1%nat, w1, (Throw msg). split; [discriminate|].
    intros fuel Hf. destruct fuel as [|fuel]; [lia|]. now rewrite Hone.
  - exists 1%nat, w1, Diverge. split; [discriminate|].
    intros fuel Hf. destruct fuel as [|fuel]; [lia|]. now rewrite Hone.
  - now contradiction Hnf.
Qed.

(** *** No divergence *)

(** A computation that returns or throws in every state. *)
Definition halts {A : Type} (c : M A) : Prop := forall w, snd (c w) <> Diverge.

Lemma halts_bind {A B : Type} (c : M A) (k : A -> M B) :
  halts c -> (forall a, halts (k a)) -> halts (bind c k).
Proof.
  intros Hc Hk w. unfold bind. specialize (Hc w).
  destruct (c w) as [w' [a| | |]]; simpl in *; try discriminate; [apply Hk | congruence].
Qed.

Lemma halts_ret {A : Type} (a : A) : halts (ret a).
Proof. intros w. discriminate. Qed.

Lemma halts_throw {A : Type} (msg : string) : halts (@throw A msg).
Proof. intros w. discriminate. Qed.

Lemma halts_foldM {A B : Type} (f : B -> A -> M B) (l : list A) :
  (forall b a, halts (f b a)) -> forall b, halts (foldM f l b).
Proof.
  intros Hf. induction l as [|a l IH]; intros b; cbn [foldM].
  - apply halts_ret.
  - apply halts_bind; [apply Hf | intros b'; apply IH].
Qed.

Lemma halts_set_node_order v i : halts (set_node_order v i).
Proof.
  intros w. unfold set_node_order, bind, get_g.
  destruct (node (w_g w) v); discriminate.
Qed.

Lemma halts_lg_set_orders vs : forall lg i, halts (lg_set_orders lg vs i).
Proof.
  induction vs as [|v vs IH]; intros lg i; cbn [lg_set_orders].
  - apply halts_ret.
  - apply halts_bind; [|intros lg'; apply IH].
    unfold lg_set_order. destruct (lookup v (lg_nodes lg)) as [[|bl br o]|].
    + apply halts_bind; [apply halts_set_node_order | intros; apply halts_ret].
    + apply halts_ret.
    + apply halts_throw.
Qed.

Lemma halts_sweep_step C biasRight st lg : halts (sweep_step C biasRight st lg).
Proof.
  destruct st as [cg done]. unfold sweep_step.
  apply halts_bind; [intros w; discriminate | intros g].
  apply halts_bind; [apply halts_lg_set_orders | intros lg'].
  apply halts_bind; [intros w; discriminate | intros g'; apply halts_ret].
Qed.

Lemma halts_sweepLayerGraphs C lgs biasRight : halts (sweepLayerGraphs C lgs biasRight).
Proof.
  unfold sweepLayerGraphs.
  apply halts_bind; [intros w; discriminate | intros _].
  apply halts_bind; [|intros st; apply halts_ret].
  apply halts_foldM. intros b a. apply halts_sweep_step.
Qed.

(** The loop of [range(limit)] is over after [n] elements when [limit] is
    at most [k + n]. *)
Lemma range_loop_bounded (q : Q) : forall (n : nat) (k : Z),
  (q <= inject_Z (k + Z.of_nat n))%Q ->
  Util.range_loop n (fun i => num_ltb i (Fin q)) (Int k) (Int 1) <> None.
Proof.
  induction n as [|n IH]; intros k Hq; cbn [Util.range_loop].
  - cbn [num_ltb Int]. destruct (JSNumFacts.Qltb_spec (inject_Z k) q) as [Hlt|_];
      [|discriminate].
    exfalso. rewrite Z.add_0_r in Hq. apply (Qlt_irrefl q).
    eapply Qle_lt_trans; eassumption.
  - destruct (num_ltb (Int k) (Fin q)); [|discriminate].
    rewrite JSNumFacts.num_add_Int.
    specialize (IH (k + 1)%Z).
    replace (k + 1 + Z.of_nat n)%Z with (k + Z.of_nat (S n))%Z in IH by lia.
    specialize (IH Hq).
    destruct (Util.range_loop n _ (Int (k + 1)) (Int 1)); [discriminate | congruence].
Qed.

(** [range(limit)] returns unless [limit] is [Infinity]. *)
Lemma range_returns (limit : num) :
  limit <> PosInfinity -> Util.range limit None (Int 1) <> None.
Proof.
  intros Hl. unfold Util.range.
  change (num_ltb (Int 1) (Int 0)) with false. cbv iota.
  destruct limit as [| |q|]; try discriminate; [|congruence].
  apply range_loop_bounded.
  unfold Util.range_budget, Int.
  change (Qeq_bool (inject_Z 1) 0) with false. cbv iota.
  assert (X : (Qabs (q - inject_Z 0) / Qabs (inject_Z 1) == Qabs q)%Q).
  { change (inject_Z 0) with 0%Q. change (Qabs (inject_Z 1)) with 1%Q.
    unfold Qdiv. change (/ 1)%Q with 1%Q. rewrite Qmult_1_r.
    apply Qabs_wd. ring. }
  set (c := Qceiling (Qabs (q - inject_Z 0) / Qabs (inject_Z 1))).
  assert (Hc : (Qabs q <= inject_Z c)%Q).
  { rewrite <- X. apply Qle_ceiling. }
  eapply Qle_trans; [apply Qle_Qabs|].
  eapply Qle_trans; [exact Hc|].
  rewrite <- Zle_Qle. lia.
Qed.

Lemma buildLayerMatrix_halts (g : Graph) :
  Util.maxRank g <> PosInfinity -> Util.buildLayerMatrix g <> Diverge.
Proof.
  intros Hm. unfold Util.buildLayerMatrix.
  destruct (Util.range _ _ _) as [ranks|] eqn:R.
  - generalize (map (fun _ : num => @nil (option string)) ranks). intros l0.
    assert (H : forall vs o, o <> Diverge ->
              fold_left (Util.buildLayerMatrix_step g) vs o <> Diverge).
    { induction vs as [|v vs IH]; simpl; intros o Ho; [exact Ho|].
      apply IH. unfold Util.buildLayerMatrix_step.
      destruct o as [l| | |]; try discriminate; [|congruence].
      destruct (node g v) as [nd|]; [|discriminate].
      destruct (Label.rank nd) as [r|]; [|discriminate].
      destruct (array_index r) as [ri|]; [|discriminate].
      destruct (nth_error l ri); [|discriminate].
      destruct (array_index _); discriminate. }
    apply H. discriminate.
  - exfalso. revert R. apply range_returns.
    destruct (Util.maxRank g) as [| |q|]; try discriminate. congruence.
Qed.

(** The greatest rank is out of reach of the writes of [order]. *)
Lemma maxRank_same_but_order (g g' : Graph) :
  OrderFrame.same_but_order g g' -> Util.maxRank g = Util.maxRank g'.
Proof.
  intros H. pose proof (fun v => OrderFrame.same_but_order_node v H) as Hn.
  destruct H as (Hnodes & _).
  assert (E : nodes g = nodes g').
  { unfold nodes. apply (f_equal (map fst)) in Hnodes.
    rewrite !map_map in Hnodes. exact Hnodes. }
  unfold Util.maxRank. cbv zeta. rewrite <- E. f_equal.
  apply map_ext. intros v. specialize (Hn v).
  destruct (node g v) as [l|], (node g' v) as [l'|]; try discriminate; [|reflexivity].
  apply (f_equal (option_map Label.rank)) in Hn. simpl in Hn.
  injection Hn as Hn. now rewrite Hn.
Qed.

Lemma frame_put_order (w : World) (v : string) (i : nat) (l : Label.t) :
  node (w_g w) v = Some l ->
  OrderFrame.frame w
    (mkWorld (update (w_g w) v (fun l => Label.set_order l (Some (Int (Z.of_nat i)))))
             (w_idCounter w) (w_log w)).
Proof. intros Hl. unfold OrderFrame.frame. simpl. eapply OrderFrame.same_but_order_update, Hl. Qed.

Lemma frame_emit (w : World) (e : Event) :
  OrderFrame.frame w (mkWorld (w_g w) (w_idCounter w) (w_log w ++ [e])).
Proof. repeat split. Qed.

Lemma order_iteration_maxRank C s w :
  Util.maxRank (w_g (fst (order_iteration C s w))) = Util.maxRank (w_g w).
Proof.
  symmetry. apply maxRank_same_but_order.
  apply (@OrderFrame.respects_order_iteration OrderFrame.frame
           OrderFrame.frame_refl OrderFrame.frame_trans frame_put_order frame_emit).
Qed.

Lemma order_iteration_halts C s w :
  Util.maxRank (w_g w) <> PosInfinity -> snd (order_iteration C s w) <> Diverge.
Proof.
  intros Hm. unfold order_iteration. unfold bind at 1.
  pose proof (halts_sweepLayerGraphs C
                (if negb (ls_i s mod 2 =? 0)%nat then ls_down s else ls_up s)
                (2 <=? ls_i s mod 4)%nat w) as Hs.
  pose proof (@OrderFrame.respects_sweepLayerGraphs OrderFrame.frame
                OrderFrame.frame_refl OrderFrame.frame_trans frame_put_order frame_emit
                C (if negb (ls_i s mod 2 =? 0)%nat then ls_down s else ls_up s)
                (2 <=? ls_i s mod 4)%nat w) as Hf.
  destruct (sweepLayerGraphs C _ _ w) as [w1 [swept| | |]]; simpl in *;
    try discriminate; [|congruence].
  apply maxRank_same_but_order in Hf.
  unfold bind, get_g, lift_outcome, emit.
  pose proof (@buildLayerMatrix_halts (w_g w1)) as Hb. rewrite <- Hf in Hb.
  specialize (Hb Hm).
  destruct (Util.buildLayerMatrix (w_g w1)) as [layering| | |]; simpl;
    try discriminate; [|congruence].
  destruct (cc_lt _ _); discriminate.
Qed.

Lemma order_loop_halts C fuel : forall s w,
  Util.maxRank (w_g w) <> PosInfinity -> snd (order_loop C fuel s w) <> Diverge.
Proof.
  induction fuel as [|fuel IH]; intros s w Hm; cbn [order_loop];
    destruct (ls_lastBest s <? 4)%nat; try discriminate.
  unfold bind.
  pose proof (@order_iteration_halts C s w Hm) as Hh.
  pose proof (order_iteration_maxRank C s w) as Hr.
  destruct (order_iteration C s w) as [w1 [s1| | |]]; simpl in *;
    try discriminate; [|congruence].
  apply IH. now rewrite Hr.
Qed.

(** The run of the loop when it returns: after [n] iterations, of which
    iteration [n - 4] strictly improved on the best count before it and
    none of the three after it did; no earlier index has that property. *)
Lemma order_loop_stop_rule C fuel down up w w' s' :
  order_loop C fuel (mkLoopState 0 0 None None down up) w = (w', Ok s') ->
  let ccs := counts (new_events w w') in
  stops_at ccs (List.length ccs) /\
  forall m, (m < List.length ccs)%nat -> ~ stops_at ccs m.
Proof.
  intros Hrun. apply order_loop_iterations in Hrun.
  destruct Hrun as (evs & s1 & w1 & tail & Hits & Hend & Hlog).
  inversion Hend as [Hex Hw Hs Ht | | w2 o2 rest Hlt Hit Hno Hnf Hrest Hw Hs Ht];
    subst; [|now contradiction (Hno s')].
  rewrite List.app_nil_r in Hlog. cbv zeta.
  rewrite (@new_events_app w w' _ Hlog).
  pose proof (iterations_inv Hits (LoopInv_start down up)) as [Hi Hstart Hrun Hnostop].
  simpl in Hi, Hstart, Hrun, Hnostop.
  unfold counts. rewrite length_map.
  assert (Hne : counted evs <> []).
  { intros E. destruct (Hstart E) as (Hz & _). lia. }
  destruct (Hrun Hne) as (Hlb & Hle & best & b & _ & _ & _ & _ & Himp & Hnone).
  assert (E4 : ls_lastBest s' = 4%nat) by lia. rewrite E4 in *.
  split; [|exact Hnostop].
  split; [exact Hle|]. split; [exact Himp | exact Hnone].
Qed.

(** *** The run of [order] around the loop *)

(** What follows the loop: the final [assignOrder] when the loop returns. *)
Definition finish (r : World * outcome LoopState) : World * outcome unit :=
  match r with
  | (w1, Ok s) => assignOrder (ls_best s) w1
  | (w1, Throw msg) => (w1, Throw msg)
  | (w1, Diverge) => (w1, Diverge)
  | (w1, OutOfFuel) => (w1, OutOfFuel)
  end.

(** Same log, and the same graph up to [order]. *)
Definition settled (w w' : World) : Prop :=
  w_log w' = w_log w /\ OrderFrame.same_but_order (w_g w) (w_g w').

Lemma settled_refl w : settled w w.
Proof. split; [reflexivity | apply OrderFrame.frame_refl]. Qed.

Lemma settled_trans w1 w2 w3 : settled w1 w2 -> settled w2 w3 -> settled w1 w3.
Proof.
  intros [L1 F1] [L2 F2]. split; [congruence|].
  exact (OrderFrame.frame_trans (w1 := w1) (w2 := w2) (w3 := w3) F1 F2).
Qed.

Lemma settled_put_order (w : World) (v : string) (i : nat) (l : Label.t) :
  node (w_g w) v = Some l ->
  settled w
    (mkWorld (update (w_g w) v (fun l => Label.set_order l (Some (Int (Z.of_nat i)))))
             (w_idCounter w) (w_log w)).
Proof. intros Hl. split; [reflexivity | now apply (frame_put_order w v i Hl)]. Qed.

Lemma settled_idCounter (w : World) (n : nat) : settled w (mkWorld (w_g w) n (w_log w)).
Proof. repeat split. Qed.

(** The part of [order] before the loop: the two families are built and
    the seeded order is assigned. *)
Definition prelude (C : Collaborators) : M (list LayerGraph * list LayerGraph) :=
  g <- get_g ;;
  let maxRank := Util.maxRank g in
  ranks_down <- (fun w => (w, match Util.range (Int 1) (Some (num_add maxRank (Int 1))) (Int 1) with
                              | Some l => Ok l | None => Diverge end)) ;;
  downLayerGraphs <- buildLayerGraphs ranks_down Rel_inEdges ;;
  ranks_up <- (fun w => (w, match Util.range (num_sub maxRank (Int 1)) (Some (Int (-1))) (Int (-1)) with
                            | Some l => Ok l | None => Diverge end)) ;;
  upLayerGraphs <- buildLayerGraphs ranks_up Rel_outEdges ;;
  g <- get_g ;;
  let layering := map (map Some) (initOrder C g) in
  assignOrder (Some layering) ;;;
  ret (downLayerGraphs, upLayerGraphs).

Lemma fuel_free_forEach {A : Type} (l : list A) (f : A -> M unit) :
  (forall a, fuel_free (f a)) -> fuel_free (forEach l f).
Proof.
  intros Hf. induction l as [|a l IH]; cbn [forEach].
  - apply fuel_free_ret.
  - apply fuel_free_bind; [apply Hf | intros _; exact IH].
Qed.

Lemma fuel_free_mapM {A B : Type} (f : A -> M B) (l : list A) :
  (forall a, fuel_free (f a)) -> fuel_free (mapM f l).
Proof.
  intros Hf. induction l as [|a l IH]; cbn [mapM].
  - apply fuel_free_ret.
  - apply fuel_free_bind; [apply Hf | intros b].
    apply fuel_free_bind; [exact IH | intros bs; apply fuel_free_ret].
Qed.

Lemma fuel_free_assignOrder (layering : option Util.Layering) :
  fuel_free (assignOrder layering).
Proof.
  destruct layering as [layering|]; [|apply fuel_free_throw].
  cbn [assignOrder]. apply fuel_free_forEach. intros layer.
  apply fuel_free_forEach. intros [i v]. apply fuel_free_set_node_order.
Qed.

Lemma buildLayerGraph_fuel_free g rank relationship nodesWithRank idCounter :
  fst (BuildLayerGraph.buildLayerGraph g rank relationship nodesWithRank idCounter)
  <> OutOfFuel.
Proof.
  unfold BuildLayerGraph.buildLayerGraph.
  destruct (BuildLayerGraph.createRootNode g idCounter) as [[root c]|]; [|discriminate].
  cbn [fst].
  assert (H : forall vs o, o <> OutOfFuel ->
            fold_left (BuildLayerGraph.buildLayerGraph_step g rank relationship root) vs o
            <> OutOfFuel).
  { induction vs as [|v vs IH]; cbn [fold_left]; intros o Ho; [exact Ho|].
    apply IH. unfold BuildLayerGraph.buildLayerGraph_step.
    destruct o as [lg| | |]; try discriminate; [|congruence].
    destruct (node g v) as [nd|]; [|discriminate].
    destruct (_ || _)%bool; [|discriminate].
    match goal with
    | |- match fold_left ?f ?es ?o0 with _ => _ end <> _ =>
        assert (Hin : fold_left f es o0 <> OutOfFuel);
        [|destruct (fold_left f es o0) as [lg1| | |]; try discriminate; [|congruence]]
    end.
    - generalize (BuildLayerGraph.lg_setParent (BuildLayerGraph.lg_setNode_default lg v) v
                    match parent g v with
                    | Some p => if String.eqb p "" then root else p
                    | None => root
                    end).
      intros lg0.
      assert (Hes : forall es o, o <> OutOfFuel ->
                fold_left (fun result e =>
                  match result with
                  | Ok result =>
                      let u := if String.eqb (e_v e) v then e_w e else e_v e in
                      let weight' :=
                        match BuildLayerGraph.lg_edge result u v with
                        | Some edge_weight => edge_weight
                        | None => Int 0
                        end in
                      match Graphlib.edge (g_edges g) e with
                      | Some l =>
                          Ok (BuildLayerGraph.lg_setEdge result u v
                                (num_add (to_num (weight l)) weight'))
                      | None => Throw "TypeError"
                      end
                  | other => other
                  end) es o <> OutOfFuel).
      { induction es as [|e es IHes]; cbn [fold_left]; intros o' Ho'; [exact Ho'|].
        apply IHes. destruct o' as [lg'| | |]; try discriminate; [|congruence].
        cbv zeta. destruct (Graphlib.edge (g_edges g) e); discriminate. }
      apply Hes. discriminate.
    - destruct (Label.minRank nd); [|discriminate].
      destruct (Label.borderLeft nd), (Label.borderRight nd); discriminate. }
  apply H. discriminate.
Qed.

Lemma fuel_free_buildLayerGraphs ranks relationship :
  fuel_free (buildLayerGraphs ranks relationship).
Proof.
  unfold buildLayerGraphs.
  apply fuel_free_bind; [intros w; discriminate | intros g].
  destruct (fold_left (index_node g) (nodes g) (Some [])) as [nodesByRank|];
    [|intros w; discriminate].
  apply fuel_free_mapM. intros rank w.
  pose proof (@buildLayerGraph_fuel_free g rank relationship
                (Some match nodesByRank_get nodesByRank rank with
                      | Some vs => vs
                      | None => []
                      end) (w_idCounter w)) as H.
  destruct (BuildLayerGraph.buildLayerGraph _ _ _ _ _) as [result idCounter].
  exact H.
Qed.

(** Up to the loop a run does not depend on the number of iterations
    allowed. *)
Lemma order_default_prelude C fuel w :
  order_default C fuel false w
  = match prelude C w with
    | (w0, Ok (down, up)) =>
        finish (order_loop C fuel (mkLoopState 0 0 None None down up) w0)
    | (w0, Throw msg) => (w0, Throw msg)
    | (w0, Diverge) => (w0, Diverge)
    | (w0, OutOfFuel) => (w0, OutOfFuel)
    end.
Proof.
  unfold order_default, prelude, bind, get_g, ret, finish.
  destruct (Util.range (Int 1) _ (Int 1)) as [ranks_down|]; [|reflexivity].
  destruct (buildLayerGraphs ranks_down Rel_inEdges w) as [wa [down| | |]];
    try reflexivity.
  destruct (Util.range (num_sub _ _) _ _) as [ranks_up|]; [|reflexivity].
  destruct (buildLayerGraphs ranks_up Rel_outEdges wa) as [wb [up| | |]];
    try reflexivity.
  destruct (assignOrder _ wb) as [w0 [[]| | |]]; reflexivity.
Qed.

Lemma prelude_settled C w : settled w (fst (prelude C w)).
Proof.
  apply (@OrderFrame.respects_bind settled settled_trans);
    [apply (@OrderFrame.respects_get_g settled settled_refl) | intros g].
  apply (@OrderFrame.respects_bind settled settled_trans);
    [apply (@OrderFrame.respects_pure settled settled_refl) | intros ranks_down].
  apply (@OrderFrame.respects_bind settled settled_trans);
    [apply (@OrderFrame.respects_buildLayerGraphs settled settled_refl settled_trans
              settled_idCounter) | intros down].
  apply (@OrderFrame.respects_bind settled settled_trans);
    [apply (@OrderFrame.respects_pure settled settled_refl) | intros ranks_up].
  apply (@OrderFrame.respects_bind settled settled_trans);
    [apply (@OrderFrame.respects_buildLayerGraphs settled settled_refl settled_trans
              settled_idCounter) | intros up].
  apply (@OrderFrame.respects_bind settled settled_trans);
    [apply (@OrderFrame.respects_get_g settled settled_refl) | intros g'].
  apply (@OrderFrame.respects_bind settled settled_trans);
    [apply (@OrderFrame.respects_assignOrder settled settled_refl settled_trans
              settled_put_order) | intros _].
  apply (@OrderFrame.respects_ret settled settled_refl).
Qed.

Lemma prelude_fuel_free C : fuel_free (prelude C).
Proof.
  unfold prelude.
  apply fuel_free_bind; [intros w; discriminate | intros g].
  apply fuel_free_bind; [intros w; simpl; destruct (Util.range _ _ _); discriminate
                        | intros ranks_down].
  apply fuel_free_bind; [apply fuel_free_buildLayerGraphs | intros down].
  apply fuel_free_bind; [intros w; simpl; destruct (Util.range _ _ _); discriminate
                        | intros ranks_up].
  apply fuel_free_bind; [apply fuel_free_buildLayerGraphs | intros up].
  apply fuel_free_bind; [intros w; discriminate | intros g'].
  apply fuel_free_bind; [apply fuel_free_assignOrder | intros _].
  apply fuel_free_ret.
Qed.

(** The loop is reached only on a graph whose greatest rank is not
    [Infinity]. *)
Lemma prelude_Ok C w w0 families :
  prelude C w = (w0, Ok families) -> Util.maxRank (w_g w) <> PosInfinity.
Proof.
  unfold prelude, bind, get_g. intros H E. rewrite E in H. discriminate H.
Qed.

Lemma forEach_returns_or_throws {A : Type} (f : A -> M unit) (l : list A) :
  (forall a w, snd (f a w) = Ok tt \/ exists msg, snd (f a w) = Throw msg) ->
  forall w, snd (forEach l f w) = Ok tt \/ exists msg, snd (forEach l f w) = Throw msg.
Proof.
  intros Hf. induction l as [|a l IH]; intros w; cbn [forEach]; [now left|].
  unfold bind. specialize (Hf a w).
  destruct (f a w) as [w1 [[]| | |]]; simpl in *.
  - apply IH.
  - right. eauto.
  - destruct Hf as [Hf|[msg Hf]]; discriminate.
  - destruct Hf as [Hf|[msg Hf]]; discriminate.
Qed.

Lemma assignOrder_returns_or_throws (layering : option Util.Layering) (w : World) :
  snd (assignOrder layering w) = Ok tt \/ exists msg, snd (assignOrder layering w) = Throw msg.
Proof.
  destruct layering as [layering|]; [|right; eexists; reflexivity].
  cbn [assignOrder]. apply forEach_returns_or_throws. intros layer w1.
  apply forEach_returns_or_throws. intros [i v] w2.
  unfold set_node_order, bind, get_g.
  destruct (node (w_g w2) v); [now left | right; eexists; reflexivity].
Qed.

(** C5 (as the code has it). A run of the default algorithm with the
    heuristic enabled is the same for every number of allowed iterations
    beyond some bound and is never cut by that bound; once the loop is
    entered (a sweep has happened) the run returns or throws: the loop
    terminates.  When the run returns after [n] iterations, iteration
    [n - 4] strictly improved on the best count before it and none of the
    three iterations after it did; no earlier index has that property. *)
Theorem order_loop_stops (C : Collaborators) (opts : option Opts) (w : World) :
  heuristic_enabled opts ->
  exists N w' o,
    (forall fuel, (N <= fuel)%nat -> order C fuel opts w = (w', o)) /\
    o <> OutOfFuel /\
    (swept_families (new_events w w') <> [] ->
     o = Ok tt \/ exists msg, o = Throw msg) /\
    (o = Ok tt ->
     let ccs := counts (new_events w w') in
     stops_at ccs (List.length ccs) /\
     forall m, (m < List.length ccs)%nat -> ~ stops_at ccs m).
Proof.
  intros Hopts.
  assert (Hd : forall fuel, order C fuel opts w = order_default C fuel false w).
  { intros fuel. destruct opts as [[[f|] d]|]; simpl in *; try reflexivity.
    - destruct Hopts; discriminate.
    - destruct Hopts as [_ ->]. reflexivity. }
  destruct (prelude C w) as [w0 [[down up]|msg| |]] eqn:Hpre.
  2,3,4: (exists 0%nat, w0; eexists;
          split; [intros fuel _; rewrite Hd, order_default_prelude, Hpre; reflexivity|];
          pose proof (prelude_settled C w) as [Hlog _]; rewrite Hpre in Hlog; simpl in Hlog;
          pose proof (prelude_fuel_free C w) as Hff; rewrite Hpre in Hff; simpl in Hff;
          assert (E : new_events w w0 = [])
            by (unfold new_events; rewrite Hlog; apply skipn_all);
          rewrite E; split; [first [discriminate | exfalso; now apply Hff]|];
          split; [intros H; now contradiction H | discriminate]).
  pose proof (prelude_settled C w) as [Hlog Hf]. rewrite Hpre in Hlog, Hf. simpl in Hlog, Hf.
  pose proof (prelude_Ok _ _ Hpre) as Hm.
  assert (Hrun : forall fuel, order_default C fuel false w
                 = finish (order_loop C fuel (mkLoopState 0 0 None None down up) w0))
    by (intros fuel; now rewrite order_default_prelude, Hpre).
  assert (Hm0 : Util.maxRank (w_g w0) <> PosInfinity)
    by now rewrite <- (maxRank_same_but_order Hf).
  destruct (order_loop_terminates C down up w0) as (N & w1 & o1 & Ho1 & Hloop).
  pose proof (@order_loop_halts C N (mkLoopState 0 0 None None down up) w0 Hm0) as Hd1.
  rewrite (Hloop N (Nat.le_refl N)) in Hd1. simpl in Hd1.
  assert (Hfin : forall fuel, (N <= fuel)%nat ->
            order C fuel opts w = finish (w1, o1)).
  { intros fuel Hle. now rewrite Hd, Hrun, (Hloop fuel Hle). }
  destruct o1 as [s|msg| |]; try congruence.
  - cbn [finish] in Hfin.
    pose proof (assignOrder_returns_or_throws (ls_best s) w1) as Hret.
    pose proof (@OrderFrame.respects_assignOrder settled settled_refl settled_trans
                  settled_put_order (ls_best s) w1) as [Hlog1 _].
    destruct (assignOrder (ls_best s) w1) as [w' o]. simpl in Hret, Hlog1.
    exists N, w', o. split; [exact Hfin|].
    split; [destruct Hret as [->|[msg ->]]; discriminate|].
    split; [intros _; exact Hret|].
    intros _.
    assert (E : new_events w w' = new_events w0 w1).
    { unfold new_events. now rewrite Hlog1, Hlog. }
    rewrite E. exact (@order_loop_stop_rule C N down up w0 w1 s (Hloop N (Nat.le_refl N))).
  - cbn [finish] in Hfin. exists N, w1, (Throw msg).
    split; [exact Hfin|]. split; [discriminate|].
    split; [intros _; right; eauto | discriminate].
Qed.

Lemma order_loop_stops_witness :
  exists N w' o,
    (forall fuel, (N <= fuel)%nat ->
       order Examples.forward fuel None (Examples.start Examples.g_crossed) = (w', o)) /\
    o <> OutOfFuel /\
    (swept_families (new_events (Examples.start Examples.g_crossed) w') <> [] ->
     o = Ok tt \/ exists msg, o = Throw msg) /\
    (o = Ok tt ->
     let ccs := counts (new_events (Examples.start Examples.g_crossed) w') in
     stops_at ccs (List.length ccs) /\
     forall m, (m < List.length ccs)%nat -> ~ stops_at ccs m).
Proof.
  apply (@order_loop_stops Examples.forward None (Examples.start Examples.g_crossed)).
  exact I.
Defined.

(** With a rank that is [Infinity] the layer matrix of the first iteration
    is never finished, however many iterations are allowed. *)
Example order_loop_infinite_rank :
  forall fuel,
    snd (order_loop Examples.idle (S fuel) (mkLoopState 0 0 None None [] [])
           (Examples.start
              (mkGraph [("a"%string, Label.set_rank Label.empty (Some PosInfinity))]
                       [] [] Examples.no_label)))
    = Diverge.
Proof. intros fuel. reflexivity. Qed.

(** With such a rank a run of [order] does not get as far as the loop:
    the ranks of the downward family are never complete. *)
Lemma order_infinite_rank (C : Collaborators) (fuel : nat) (w : World) :
  Util.maxRank (w_g w) = PosInfinity -> order C fuel None w = (w, Diverge).
Proof.
  intros H. unfold order, order_default, bind, get_g. rewrite H. reflexivity.
Qed.

(** On the crossed graph the counts are 1, 0, 0, 0, 0: the second
    iteration lowers the count of the first, which is also that of the
    seeded order, and the loop stops after the three iterations that
    follow it.  Whatever count the loop is taken to start from, this is
    not the stopping point of the specification: either the second
    iteration improved, and the last four iterations were not all without
    improvement, or no iteration improved, and four iterations in a row
    without improvement were complete one iteration earlier. *)
Lemma crossed_run_stops_after_three_idle_iterations :
  snd Examples.crossed_run = Ok tt /\
  counts (w_log (fst Examples.crossed_run)) = [1; 0; 0; 0; 0]%nat /\
  Examples.count_crossings Examples.g_crossed
    (map (map Some) (Examples.seed_by_rank Examples.g_crossed)) = 1%nat /\
  forall init,
    ~ claimed_rule init (counts (w_log (fst Examples.crossed_run)))
                   (List.length (counts (w_log (fst Examples.crossed_run)))).
Proof.
  assert (E : counts (w_log (fst Examples.crossed_run)) = [1; 0; 0; 0; 0]%nat)
    by (vm_compute; reflexivity).
  split; [vm_compute; reflexivity|]. split; [exact E|].
  split; [vm_compute; reflexivity|].
  rewrite E. cbn [List.length]. intros init [[_ Hstop] Hmin].
  assert (H1 : improves [1; 0; 0; 0; 0]%nat 1).
  { exists 0%nat. split; [reflexivity|].
    intros [|j'] cc' Hj Hn; [|lia]. injection Hn as <-. lia. }
  destruct init as [[|c]|].
  - apply (Hmin 4%nat); [lia|]. split; [lia|].
    intros j Hj [_ Hc].
    destruct j as [|[|[|[|j]]]]; try lia;
      specialize (Hc 0%nat _ eq_refl eq_refl); lia.
  - apply (Hstop 1%nat); [lia|]. split; [exact H1|].
    intros c' cc Hc Hcc. injection Hc as <-. injection Hcc as <-. lia.
  - apply (Hstop 1%nat); [lia|]. split; [exact H1|].
    intros c' cc Hc. discriminate Hc.
Qed.

(** *** What is committed *)

(** Every count in the log is the Crossing Counter's answer on the layer
    matrix of the graph at that moment. *)
Lemma iterations_counted C s w evs s' w' :
  iterations C s w evs s' w' ->
  forall layering cc, In (layering, cc) (counted evs) ->
    exists g, Util.buildLayerMatrix g = Ok layering /\ cc = crossCount C g layering.
Proof.
  induction 1 as [s w | s w s1 w1 rest evs s' w' Hlt Hit Hlog Hres Hits IH];
    intros l c Hin; [contradiction|].
  destruct Hres as (_ & _ & _ & layering & -> & Hbm & _).
  cbn [counted flat_map app] in Hin. fold (counted evs) in Hin.
  destruct Hin as [E|Hin]; [|eauto].
  injection E as <- <-. eauto.
Qed.

(** C2 (as the code has it). When a run of the default algorithm with the
    heuristic enabled returns, the layering it commits with its final
    [assignOrder] is one of the layerings counted after a sweep, its count
    is the Crossing Counter's answer on it, and that count is less than or
    equal to the count after every sweep of the run.  The seeded order is
    not among the candidates. *)
Theorem committed_count_is_least (C : Collaborators) (fuel : nat) (opts : option Opts)
  (w w' : World) :
  heuristic_enabled opts ->
  order C fuel opts w = (w', Ok tt) ->
  exists best cc w1,
    In (best, cc) (counted (new_events w w')) /\
    (exists g, Util.buildLayerMatrix g = Ok best /\ cc = crossCount C g best) /\
    (forall layering c, In (layering, c) (counted (new_events w w')) -> (cc <= c)%nat) /\
    assignOrder (Some best) w1 = (w', Ok tt).
Proof.
  intros Hopts Hrun.
  assert (Hd : order C fuel opts w = order_default C fuel false w).
  { destruct opts as [[[f|] d]|]; simpl in *; try reflexivity.
    - destruct Hopts; discriminate.
    - destruct Hopts as [_ ->]. reflexivity. }
  rewrite Hd in Hrun. apply order_default_run in Hrun.
  destruct Hrun as [[_ Hno] | (down & up & w0 & w1 & o1 & _ & _ & L0 & Hloop & L1 & Hfin)];
    [now contradiction (Hno tt)|].
  destruct o1 as [s| | |]; try (now contradiction (proj2 Hfin tt)).
  apply order_loop_iterations in Hloop.
  destruct Hloop as (evs & s1 & w2 & tail & Hits & Hend & Hlog).
  inversion Hend as [Hex Hw Hs Ht | | w3 o3 rest Hlt Hit Hno Hnf Hrest Hw Hs Ht];
    subst; [|now contradiction (Hno s)].
  rewrite List.app_nil_r in Hlog.
  assert (Hev : new_events w w' = evs).
  { apply new_events_app. congruence. }
  rewrite Hev.
  pose proof (iterations_inv Hits (LoopInv_start down up)) as [Hi Hstart Hrun _].
  simpl in Hstart, Hrun.
  assert (Hne : counted evs <> []).
  { intros E. destruct (Hstart E) as (Hz & _). lia. }
  destruct (Hrun Hne) as (_ & _ & best & b & _ & Hbest & Hnth & Hmin & _).
  exists best, b, w1. rewrite Hbest in Hfin.
  apply nth_error_In in Hnth.
  split; [exact Hnth|]. split; [eapply iterations_counted; eassumption|].
  split; [|exact Hfin].
  intros l c Hin. apply Hmin. apply in_map_iff. now exists (l, c).
Qed.

Lemma committed_count_is_least_witness :
  exists best cc,
    In (best, cc) (counted (w_log (fst Examples.ladder_run))) /\
    forall layering c,
      In (layering, c) (counted (w_log (fst Examples.ladder_run))) -> (cc <= c)%nat.
Proof.
  destruct (@committed_count_is_least Examples.adversary 10 None
              (Examples.start Examples.g_ladder) (fst Examples.ladder_run) I)
    as (best & cc & w1 & Hin & _ & Hmin & _).
  - vm_compute. reflexivity.
  - exists best, cc. split; [exact Hin | exact Hmin].
Defined.

(** The crossing count of the order found on the graph at the end of a
    run, and that of the seeded order. *)
Definition final_crossings (C : Collaborators) (w' : World) : option nat :=
  match Util.buildLayerMatrix (w_g w') with
  | Ok layering => Some (crossCount C (w_g w') layering)
  | _ => None
  end.

Definition seeded_crossings (C : Collaborators) (g : Graph) : option nat :=
  let layering := map (map Some) (initOrder C g) in
  match assignOrder (Some layering) (mkWorld g O []) with
  | (w1, Ok _) => Some (crossCount C (w_g w1) layering)
  | _ => None
  end.

(** On the ladder the seeded order [a b / c d] has no crossing; every
    sweep of the badly sorting collaborator yields one crossing, and the
    order committed has one. *)
Lemma ladder_final_count_exceeds_seed :
  snd Examples.ladder_run = Ok tt /\
  exists final seed,
    final_crossings Examples.adversary (fst Examples.ladder_run) = Some final /\
    seeded_crossings Examples.adversary Examples.g_ladder = Some seed /\
    ~ (final <= seed)%nat.
Proof.
  split; [vm_compute; reflexivity|].
  exists 1%nat, 0%nat. split; [vm_compute; reflexivity|].
  split; [vm_compute; reflexivity|]. lia.
Qed.

End OrderTrace.

(** ** Labels under updates *)

Module GraphFacts.
Import Graphlib JSNumFacts.

Lemma lookup_replace {A : Type} (u v : string) (a : A) (ns : list (string * A)) :
  lookup u (replace v a ns) =
  if String.eqb u v then option_map (fun _ => a) (lookup v ns) else lookup u ns.
Proof.
  induction ns as [|[k b] ns IH]; simpl.
  - now destruct (String.eqb u v).
  - destruct (String.eqb v k) eqn:Evk; simpl.
    + apply String.eqb_eq in Evk. subst k.
      destruct (String.eqb u v); reflexivity.
    + destruct (String.eqb u k) eqn:Euk.
      * apply String.eqb_eq in Euk. subst k.
        rewrite String.eqb_sym in Evk. now rewrite Evk.
      * exact IH.
Qed.

Lemma map_fst_replace {A : Type} (v : string) (a : A) (ns : list (string * A)) :
  map fst (replace v a ns) = map fst ns.
Proof.
  induction ns as [|[k b] ns IH]; simpl; [reflexivity|].
  destruct (String.eqb v k); simpl; now rewrite ?IH.
Qed.

Lemma node_update (g : Graph) (v u : string) (f : Label.t -> Label.t) :
  node (update g v f) u =
  if String.eqb u v then option_map f (node g v) else node g u.
Proof.
  unfold update. destruct (node g v) as [l|] eqn:E.
  - unfold node at 1. simpl. rewrite lookup_replace. fold (node g v) (node g u).
    now rewrite E.
  - destruct (String.eqb u v) eqn:Euv; [|reflexivity].
    apply String.eqb_eq in Euv. now subst.
Qed.

Lemma nodes_update (g : Graph) (v : string) (f : Label.t -> Label.t) :
  nodes (update g v f) = nodes g.
Proof.
  unfold update. destruct (node g v); [|reflexivity].
  unfold nodes. simpl. apply map_fst_replace.
Qed.

Lemma g_edges_update (g : Graph) (v : string) (f : Label.t -> Label.t) :
  g_edges (update g v f) = g_edges g.
Proof. unfold update. now destruct (node g v). Qed.

Lemma g_graph_update (g : Graph) (v : string) (f : Label.t -> Label.t) :
  g_graph (update g v f) = g_graph g.
Proof. unfold update. now destruct (node g v). Qed.

Definition update_all (f : Label.t -> Label.t) (vs : list string) (g : Graph) : Graph :=
  fold_left (fun g v => update g v f) vs g.

Lemma nodes_update_all f vs : forall g, nodes (update_all f vs g) = nodes g.
Proof.
  induction vs as [|v vs IH]; intros g; simpl; [reflexivity|].
  unfold update_all in *. simpl. now rewrite IH, nodes_update.
Qed.

Lemma g_edges_update_all f vs : forall g, g_edges (update_all f vs g) = g_edges g.
Proof.
  induction vs as [|v vs IH]; intros g; simpl; [reflexivity|].
  unfold update_all in *. simpl. now rewrite IH, g_edges_update.
Qed.

Lemma g_graph_update_all f vs : forall g, g_graph (update_all f vs g) = g_graph g.
Proof.
  induction vs as [|v vs IH]; intros g; simpl; [reflexivity|].
  unfold update_all in *. simpl. now rewrite IH, g_graph_update.
Qed.

Lemma node_update_all_out f vs : forall g u,
  ~ In u vs -> node (update_all f vs g) u = node g u.
Proof.
  induction vs as [|v vs IH]; intros g u Hu; [reflexivity|].
  unfold update_all in *. simpl. rewrite IH by (intros H; apply Hu; now right).
  rewrite node_update. destruct (String.eqb u v) eqn:E; [|reflexivity].
  apply String.eqb_eq in E. subst. exfalso. apply Hu. now left.
Qed.

Lemma node_update_all_in f vs : forall g u,
  NoDup vs -> In u vs -> node (update_all f vs g) u = option_map f (node g u).
Proof.
  induction vs as [|v vs IH]; intros g u Hnd Hu; [contradiction|].
  inversion Hnd as [|? ? Hv Hnd']; subst.
  unfold update_all in *. simpl. destruct Hu as [->|Hu].
  - fold (update_all f vs (update g u f)).
    rewrite node_update_all_out by assumption.
    now rewrite node_update, String.eqb_refl.
  - rewrite IH by assumption. rewrite node_update.
    destruct (String.eqb u v) eqn:E; [|reflexivity].
    apply String.eqb_eq in E. subst. contradiction.
Qed.

Lemma node_In (g : Graph) (v : string) : In v (nodes g) -> exists l, node g v = Some l.
Proof.
  unfold nodes, node. induction (g_nodes g) as [|[k a] ns IH]; simpl; [contradiction|].
  intros [->|H].
  - rewrite String.eqb_refl. eauto.
  - destruct (String.eqb v k); eauto.
Qed.

Lemma node_Some_In (g : Graph) (v : string) (l : Label.t) :
  node g v = Some l -> In v (nodes g).
Proof.
  unfold nodes, node. induction (g_nodes g) as [|[k a] ns IH]; simpl; [discriminate|].
  destruct (String.eqb v k) eqn:E; intros H.
  - apply String.eqb_eq in E. now left.
  - right. auto.
Qed.

(** [v] carries the integer rank [z]. *)
Definition has_rank (g : Graph) (v : string) (z : Z) : Prop :=
  exists l, node g v = Some l /\ Label.rank l = Some (Int z).

Lemma Int_inj (a b : Z) : Int a = Int b -> a = b.
Proof. unfold Int, inject_Z. intros H. now injection H. Qed.

Lemma has_rank_fun g v z1 z2 : has_rank g v z1 -> has_rank g v z2 -> z1 = z2.
Proof.
  intros (l1 & N1 & R1) (l2 & N2 & R2). rewrite N1 in N2. injection N2 as <-.
  apply Int_inj. congruence.
Qed.

Definition all_ranked (g : Graph) : Prop :=
  forall v, In v (nodes g) -> exists z, has_rank g v z.

(** The least rank of the graph. *)
Definition is_min_rank (g : Graph) (m : Z) : Prop :=
  (exists v, has_rank g v m) /\ forall v z, has_rank g v z -> (m <= z)%Z.

(** The integer read off a rank. *)
Definition rankZ (g : Graph) (v : string) : Z :=
  match node g v with
  | Some l =>
      match Label.rank l with
      | Some (Fin q) => Qfloor q
      | _ => 0%Z
      end
  | None => 0%Z
  end.

Lemma has_rank_rankZ g v z : has_rank g v z -> rankZ g v = z.
Proof.
  intros (l & N & R). unfold rankZ. rewrite N, R. apply Qfloor_Z.
Qed.

Lemma all_ranked_rankZ g v : all_ranked g -> In v (nodes g) -> has_rank g v (rankZ g v).
Proof.
  intros H Hv. destruct (H v Hv) as [z Hz]. now rewrite (has_rank_rankZ Hz).
Qed.

(** The reduction over all ranks, on a graph whose nodes all have integer
    ranks. *)
Lemma node_ranks_Int (g : Graph) (d : num) :
  all_ranked g ->
  map (fun v => match node g v with
                | Some l => match Label.rank l with
                            | None => d
                            | Some rank => rank
                            end
                | None => NaN
                end) (nodes g)
  = map Int (map (rankZ g) (nodes g)).
Proof.
  intros H. rewrite map_map. apply map_ext_in. intros v Hv.
  destruct (@all_ranked_rankZ g v H Hv) as (l & N & R). now rewrite N, R.
Qed.

Lemma is_min_rank_Math_min (g : Graph) (m : Z) :
  all_ranked g -> is_min_rank g m ->
  Math_min (map Int (map (rankZ g) (nodes g))) = Int m.
Proof.
  intros Hall [(v0 & H0) Hmin].
  assert (Hv0 : In v0 (nodes g)) by (destruct H0 as (l & N & _); eapply node_Some_In, N).
  destruct (map (rankZ g) (nodes g)) as [|z zs] eqn:E.
  - apply (in_map (rankZ g)) in Hv0. rewrite E in Hv0. contradiction.
  - destruct (Math_min_Int z zs) as (m' & Em & Hin & Hle). rewrite Em. f_equal.
    rewrite <- E in Hin, Hle.
    apply in_map_iff in Hin. destruct Hin as (v & <- & Hv).
    pose proof (Hmin v _ (@all_ranked_rankZ g v Hall Hv)).
    specialize (Hle (rankZ g v0) (in_map _ _ _ Hv0)).
    rewrite (has_rank_rankZ H0) in Hle. lia.
Qed.

Lemma exists_min_rank (g : Graph) (u : string) (zu : Z) :
  all_ranked g -> has_rank g u zu -> exists m, is_min_rank g m.
Proof.
  intros Hall Hu.
  assert (Iu : In u (nodes g)) by (destruct Hu as (l & N & _); eapply node_Some_In, N).
  destruct (map (rankZ g) (nodes g)) as [|z zs] eqn:E.
  - apply (in_map (rankZ g)) in Iu. rewrite E in Iu. contradiction.
  - destruct (Math_min_Int z zs) as (m & _ & Hin & Hle). exists m.
    rewrite <- E in Hin, Hle. apply in_map_iff in Hin. destruct Hin as (v & <- & Hv).
    split; [exists v; now apply all_ranked_rankZ|].
    intros w zw Hw. rewrite <- (has_rank_rankZ Hw). apply Hle, in_map.
    destruct Hw as (l & N & _). eapply node_Some_In, N.
Qed.

(** On a graph whose nodes all carry an integer rank, [maxRank] is the
    largest of them: the stand-in for an absent rank is the only way the
    result can leave the assigned ranks. *)
Lemma maxRank_all_ranked (g : Graph) :
  all_ranked g -> nodes g <> [] ->
  exists m, Util.maxRank g = Int m /\
            (exists v, has_rank g v m) /\
            forall v z, has_rank g v z -> (z <= m)%Z.
Proof.
  intros Hall Hne. unfold Util.maxRank.
  rewrite (@node_ranks_Int g MIN_VALUE Hall), UtilFacts.applyWithChunking_Math_max.
  destruct (map (rankZ g) (nodes g)) as [|z zs] eqn:E.
  - destruct (nodes g); [now contradiction Hne | discriminate E].
  - destruct (Math_max_Int z zs) as (m & Em & Hin & Hle). exists m.
    split; [exact Em|]. rewrite <- E in Hin, Hle.
    apply in_map_iff in Hin. destruct Hin as (v & <- & Hv).
    split; [exists v; now apply all_ranked_rankZ|].
    intros u zu Hu. rewrite <- (has_rank_rankZ Hu). apply Hle, in_map.
    destruct Hu as (l & N & _). eapply node_Some_In, N.
Qed.

End GraphFacts.

(** ** lib/util.js: removeEmptyRanks *)

Module RemoveEmptyRanksFacts.
Import Graphlib JSNumFacts UtilFacts GraphFacts Util.

(** Some node has rank [z]. *)
Definition rank_used (g : Graph) (z : Z) : bool :=
  existsb (fun v => (rankZ g v =? z)%Z) (nodes g).

(** The number of ranks below offset [i] that the compaction removes: the
    empty ones whose offset from the least rank [m] is not a multiple of
    [f]. *)
Definition removable (g : Graph) (m f : Z) (j : nat) : bool :=
  negb (rank_used g (m + Z.of_nat j)) && negb (Z.of_nat j mod f =? 0)%Z.

Definition removed_below (g : Graph) (m f : Z) (i : nat) : nat :=
  List.length (filter (removable g m f) (seq 0 i)).

(** *** The array of layers *)

Definition layer_at (layers : list (option (list string))) (i : nat) : list string :=
  match nth_error layers i with
  | Some (Some vs) => vs
  | _ => []
  end.

(** No layer is present and empty. *)
Definition layers_ok (layers : list (option (list string))) : Prop :=
  forall i, nth_error layers i <> Some (Some []).

Lemma layers_push_at (v : string) : forall i layers j,
  layer_at (layers_push layers i v) j =
  if (j =? i)%nat then layer_at layers i ++ [v] else layer_at layers j.
Proof.
  unfold layer_at.
  induction i as [|i IH]; intros layers j.
  - destruct layers as [|[vs|] ls], j as [|j]; simpl; try reflexivity.
    now destruct j.
  - destruct layers as [|l ls], j as [|j]; simpl; try reflexivity.
    + rewrite IH, !nth_error_nil. now destruct (j =? i)%nat.
    + apply IH.
Qed.

Lemma layers_push_ok (v : string) : forall i layers,
  layers_ok layers -> layers_ok (layers_push layers i v).
Proof.
  unfold layers_ok.
  induction i as [|i IH]; intros layers H j.
  - destruct layers as [|[vs|] ls], j as [|j]; simpl; try discriminate.
    + now destruct j.
    + destruct vs; discriminate.
    + apply (H (S j)).
    + apply (H (S j)).
  - destruct layers as [|l ls], j as [|j]; simpl.
    + discriminate.
    + apply IH. intros k. now destruct k.
    + apply (H 0%nat).
    + apply IH. intros k. apply (H (S k)).
Qed.

Lemma layers_push_length (v : string) : forall i layers,
  List.length (layers_push layers i v) = Nat.max (List.length layers) (S i).
Proof.
  induction i as [|i IH]; intros layers.
  - destruct layers as [|[vs|] ls]; simpl; lia.
  - destruct layers as [|l ls]; simpl; rewrite IH; simpl; lia.
Qed.

Section Layers.
Variable idx : string -> nat.

Definition build_layers (vs : list string) (layers : list (option (list string)))
  : list (option (list string)) :=
  fold_left (fun layers v => layers_push layers (idx v) v) vs layers.

Lemma build_layers_spec (vs : list string) : forall layers,
  (forall i, layer_at (build_layers vs layers) i
             = layer_at layers i ++ filter (fun v => (idx v =? i)%nat) vs) /\
  (layers_ok layers -> layers_ok (build_layers vs layers)) /\
  (List.length layers <= List.length (build_layers vs layers))%nat /\
  (forall v, In v vs -> (idx v < List.length (build_layers vs layers))%nat).
Proof.
  induction vs as [|v vs IH]; intros layers; simpl.
  - repeat split; auto. + intros i. now rewrite List.app_nil_r. + intros v [].
  - destruct (IH (layers_push layers (idx v) v)) as (A & B & C & D).
    pose proof (layers_push_length v (idx v) layers) as L.
    repeat split.
    + intros i. unfold build_layers in *. rewrite A, layers_push_at.
      destruct (Nat.eqb_spec (idx v) i) as [->|Hne].
      * rewrite Nat.eqb_refl, <- List.app_assoc. reflexivity.
      * destruct (Nat.eqb_spec i (idx v)); [congruence | reflexivity].
    + intros H. apply B. now apply layers_push_ok.
    + unfold build_layers in *. lia.
    + intros u [<-|Hu]; [unfold build_layers in *; lia | now apply D].
Qed.

End Layers.

Lemma fold_left_ext_in {A B : Type} (f g : A -> B -> A) (l : list B) :
  (forall a b, In b l -> f a b = g a b) ->
  forall a, fold_left f l a = fold_left g l a.
Proof.
  induction l as [|b l IH]; intros H a; simpl; [reflexivity|].
  rewrite H by now left. apply IH. intros a' b' Hb. apply H. now right.
Qed.

(** *** The remainder test *)

Lemma Qeq_bool_eq_Z (a : Q) (k : Z) :
  (a == inject_Z k)%Q -> Qeq_bool a (inject_Z 0) = (k =? 0)%Z.
Proof.
  intros H. destruct (Z.eqb_spec k 0) as [->|Hne].
  - now apply Qeq_bool_iff.
  - destruct (Qeq_bool a (inject_Z 0)) eqn:E; [|reflexivity].
    apply Qeq_bool_iff in E. rewrite H in E.
    apply (proj1 (inject_Z_injective k 0)) in E. contradiction.
Qed.

Lemma num_rem_nat (i : nat) (f : Z) :
  (0 < f)%Z ->
  num_eqb (num_rem (Int (Z.of_nat i)) (Int f)) (Int 0) = (Z.of_nat i mod f =? 0)%Z.
Proof.
  intros Hf. unfold num_rem, Int.
  assert (E0 : Qeq_bool (inject_Z f) 0 = false).
  { change 0%Q with (inject_Z 0). rewrite Qeq_bool_inject_Z. apply Z.eqb_neq. lia. }
  rewrite E0.
  set (x := Z.of_nat i). assert (Hx : (0 <= x)%Z) by (unfold x; lia).
  assert (Hq : (0 <= inject_Z x / inject_Z f)%Q).
  { apply Qle_shift_div_l.
    - change 0%Q with (inject_Z 0). rewrite <- Zlt_Qlt. lia.
    - rewrite Qmult_0_l. change 0%Q with (inject_Z 0). rewrite <- Zle_Qle. lia. }
  apply Qle_bool_iff in Hq. rewrite Hq.
  assert (Ht : Qfloor (inject_Z x / inject_Z f) = (x / f)%Z).
  { destruct f as [|p|p]; try lia.
    unfold Qdiv, Qinv, inject_Z, Qmult, Qfloor. cbn [Qnum Qden].
    rewrite Z.mul_1_r, Pos.mul_1_l. reflexivity. }
  rewrite Ht. cbn [num_eqb].
  apply Qeq_bool_eq_Z.
  rewrite (Z.mod_eq x f) by lia.
  unfold Qminus, Z.sub. rewrite inject_Z_plus, inject_Z_opp, inject_Z_mult.
  reflexivity.
Qed.

(** *** The compaction loop *)

Section Compaction.
Variable g : Graph.
Variables m f : Z.
Hypothesis Hnd : NoDup (nodes g).
Hypothesis Hall : all_ranked g.
Hypothesis Hf : nodeRankFactor (g_graph g) = Some (Int f).
Hypothesis Hpos : (0 < f)%Z.
Hypothesis Hmin : is_min_rank g m.

Definition idx (v : string) : nat := Z.to_nat (rankZ g v - m).

Definition layers : list (option (list string)) := build_layers idx (nodes g) [].

Definition c (i : nat) : nat := removed_below g m f i.

Lemma rankZ_ge v : In v (nodes g) -> (m <= rankZ g v)%Z.
Proof. intros Hv. destruct Hmin as [_ H]. eapply H, all_ranked_rankZ; eauto. Qed.

Lemma offset_is_min :
  applyWithChunking Math_min
    (map (fun v => match node g v with
                   | Some l => to_num (Label.rank l)
                   | None => NaN
                   end) (nodes g)) = Int m.
Proof.
  rewrite applyWithChunking_Math_min.
  rewrite <- (is_min_rank_Math_min Hall Hmin), <- (node_ranks_Int NaN Hall).
  apply (f_equal Math_min). apply map_ext. intros v.
  destruct (node g v) as [l|]; [|reflexivity]. now destruct (Label.rank l).
Qed.

Lemma layers_built :
  fold_left (fun layers v =>
    match node g v with
    | Some l =>
        match array_index (num_sub (to_num (Label.rank l)) (Int m)) with
        | Some rank => layers_push layers rank v
        | None => layers
        end
    | None => layers
    end) (nodes g) [] = layers.
Proof.
  unfold layers, build_layers. apply fold_left_ext_in. intros a v Hv.
  destruct (@all_ranked_rankZ g v Hall Hv) as (l & N & R).
  rewrite N, R. cbn [to_num]. rewrite num_sub_Int, array_index_Int.
  pose proof (rankZ_ge v Hv).
  destruct (Z.leb_spec 0 (rankZ g v - m)); [reflexivity | lia].
Qed.

Lemma layer_at_layers i : layer_at layers i = filter (fun v => (idx v =? i)%nat) (nodes g).
Proof.
  unfold layers. destruct (build_layers_spec idx (nodes g) []) as (A & _).
  rewrite A. unfold layer_at. now rewrite nth_error_nil.
Qed.

Lemma layers_are_ok : layers_ok layers.
Proof.
  unfold layers. destruct (build_layers_spec idx (nodes g) []) as (_ & B & _).
  apply B. intros i. now rewrite nth_error_nil.
Qed.

Lemma idx_lt_length v : In v (nodes g) -> (idx v < List.length layers)%nat.
Proof.
  unfold layers. destruct (build_layers_spec idx (nodes g) []) as (_ & _ & _ & D).
  apply D.
Qed.

Lemma rank_used_idx i :
  rank_used g (m + Z.of_nat i) = true <->
  exists v, In v (nodes g) /\ idx v = i.
Proof.
  unfold rank_used. rewrite existsb_exists. split.
  - intros (v & Hv & E). exists v. split; [assumption|].
    apply Z.eqb_eq in E. unfold idx. lia.
  - intros (v & Hv & E). exists v. split; [assumption|].
    apply Z.eqb_eq. pose proof (rankZ_ge v Hv). unfold idx in E. lia.
Qed.

Lemma filter_idx_nil i :
  filter (fun v => (idx v =? i)%nat) (nodes g) = [] -> rank_used g (m + Z.of_nat i) = false.
Proof.
  intros H. destruct (rank_used g (m + Z.of_nat i)) eqn:E; [|reflexivity].
  apply rank_used_idx in E. destruct E as (v & Hv & E).
  assert (Hin : In v (filter (fun v => (idx v =? i)%nat) (nodes g))).
  { apply filter_In. split; [assumption | now apply Nat.eqb_eq]. }
  rewrite H in Hin. contradiction.
Qed.

Lemma c_S i : c (S i) = (c i + if removable g m f i then 1 else 0)%nat.
Proof.
  unfold c, removed_below. rewrite seq_S, filter_app, length_app. simpl.
  now destruct (removable g m f i).
Qed.

(** The loop variables after the layers below index [i]: [delta] is minus
    the number of layers removed so far, and exactly the nodes of those
    layers have been moved. *)
Definition Inv (i : nat) (st : Z * Graph) : Prop :=
  fst st = (- Z.of_nat (c i))%Z /\
  nodes (snd st) = nodes g /\
  forall v, In v (nodes g) ->
    has_rank (snd st) v
      (if (idx v <? i)%nat then rankZ g v - Z.of_nat (c (idx v)) else rankZ g v).

Lemma Inv_start : Inv 0 (0%Z, g).
Proof.
  repeat split. intros v Hv. simpl. now apply all_ranked_rankZ.
Qed.

Lemma has_rank_shift (gi : Graph) (vs : list string) (delta : Z) (v : string) (z : Z) :
  NoDup vs -> has_rank gi v z ->
  has_rank
    (fold_left (fun g v =>
       update g v (fun node =>
         Label.set_rank node (Some (num_add (to_num (Label.rank node)) (Int delta)))))
       vs gi) v
    (if existsb (String.eqb v) vs then z + delta else z).
Proof.
  intros Hvs (l & N & R).
  set (F := fun node => Label.set_rank node
                          (Some (num_add (to_num (Label.rank node)) (Int delta)))).
  change (has_rank (update_all F vs gi) v
            (if existsb (String.eqb v) vs then z + delta else z)%Z).
  unfold has_rank.
  destruct (existsb (String.eqb v) vs) eqn:E.
  - apply existsb_exists in E. destruct E as (u & Hu & E).
    apply String.eqb_eq in E. subst u.
    rewrite (@node_update_all_in F vs gi v Hvs Hu), N.
    eexists. split; [reflexivity|]. unfold F. simpl.
    rewrite R. cbn [to_num]. now rewrite num_add_Int.
  - rewrite node_update_all_out.
    + exists l. auto.
    + intros Hin. assert (existsb (String.eqb v) vs = true).
      { apply existsb_exists. exists v. split; [assumption | apply String.eqb_refl]. }
      congruence.
Qed.

Lemma Inv_step i st x :
  Inv i st -> nth_error layers i = Some x ->
  Inv (S i) (removeEmptyRanks_step (Some (Int f)) st i x).
Proof.
  destruct st as [delta gi]. intros (Hd & Hn & Hr) Hx. simpl in Hd, Hn, Hr.
  pose proof (layer_at_layers i) as Hl. unfold layer_at in Hl. rewrite Hx in Hl.
  unfold Inv, removeEmptyRanks_step. rewrite c_S. unfold removable.
  destruct x as [vs|].
  - (* a layer with nodes *)
    assert (Hne : vs <> []).
    { intros ->. apply (layers_are_ok i). exact Hx. }
    assert (Hused : rank_used g (m + Z.of_nat i) = true).
    { apply rank_used_idx. destruct vs as [|v vs']; [contradiction|].
      assert (Hin : In v (filter (fun v => (idx v =? i)%nat) (nodes g)))
        by (rewrite <- Hl; now left).
      apply filter_In in Hin. destruct Hin as [Hv E]. apply Nat.eqb_eq in E. eauto. }
    rewrite Hused. cbn [negb andb]. rewrite Nat.add_0_r.
    assert (Hvs : NoDup vs) by (rewrite Hl; now apply NoDup_filter).
    assert (Hmem : forall v, In v (nodes g) ->
              existsb (String.eqb v) vs = (idx v =? i)%nat).
    { intros v Hv. destruct (Nat.eqb_spec (idx v) i) as [E|E].
      - apply existsb_exists. exists v. split; [|apply String.eqb_refl].
        rewrite Hl. apply filter_In. split; [assumption | now apply Nat.eqb_eq].
      - destruct (existsb (String.eqb v) vs) eqn:Ex; [|reflexivity].
        apply existsb_exists in Ex. destruct Ex as (u & Hu & Eu).
        apply String.eqb_eq in Eu. subst u. rewrite Hl in Hu.
        apply filter_In in Hu. destruct Hu as [_ Hu]. apply Nat.eqb_eq in Hu.
        contradiction. }
    destruct (Z.eqb_spec delta 0) as [E0|E0]; cbn [negb fst snd].
    + split; [exact Hd|]. split; [exact Hn|]. intros v Hv.
      specialize (Hr v Hv).
      destruct (Nat.ltb_spec (idx v) i), (Nat.ltb_spec (idx v) (S i)); try lia; auto.
      assert (idx v = i) by lia. subst i.
      replace (rankZ g v - Z.of_nat (c (idx v)))%Z with (rankZ g v) by lia. exact Hr.
    + split; [exact Hd|]. split.
      * change (nodes (update_all
          (fun node => Label.set_rank node
             (Some (num_add (to_num (Label.rank node)) (Int delta)))) vs gi) = nodes g).
        now rewrite nodes_update_all.
      * intros v Hv. specialize (Hr v Hv).
        pose proof (has_rank_shift delta Hvs Hr) as Hs.
        rewrite (Hmem v Hv) in Hs.
        destruct (Nat.eqb_spec (idx v) i) as [E|E].
        -- subst i. rewrite Nat.ltb_irrefl in Hs.
           destruct (Nat.ltb_spec (idx v) (S (idx v))); [|lia].
           replace (rankZ g v - Z.of_nat (c (idx v)))%Z with (rankZ g v + delta)%Z by lia.
           exact Hs.
        -- destruct (Nat.ltb_spec (idx v) i), (Nat.ltb_spec (idx v) (S i));
             try lia; exact Hs.
  - (* a hole *)
    assert (Hused : rank_used g (m + Z.of_nat i) = false) by now apply filter_idx_nil.
    rewrite Hused. cbn [negb andb to_num]. rewrite num_rem_nat by assumption.
    assert (Hnone : forall v, In v (nodes g) -> idx v <> i).
    { intros v Hv E.
      assert (rank_used g (m + Z.of_nat i) = true) by (apply rank_used_idx; eauto).
      congruence. }
    assert (Hranks : forall v, In v (nodes g) ->
              has_rank gi v (if (idx v <? S i)%nat
                             then rankZ g v - Z.of_nat (c (idx v)) else rankZ g v)).
    { intros v Hv. specialize (Hr v Hv). specialize (Hnone v Hv).
      destruct (Nat.ltb_spec (idx v) i), (Nat.ltb_spec (idx v) (S i)); try lia; exact Hr. }
    destruct (Z.of_nat i mod f =? 0)%Z; cbn [negb fst snd];
      (split; [lia|]); (split; [exact Hn | exact Hranks]).
Qed.

Lemma Inv_loop : forall rest pre st,
  layers = pre ++ rest ->
  Inv (List.length pre) st ->
  Inv (List.length layers)
      (removeEmptyRanks_loop (Some (Int f)) rest (List.length pre) st).
Proof.
  induction rest as [|x rest IH]; intros pre st Hl Hi; cbn [removeEmptyRanks_loop].
  - rewrite Hl, List.app_nil_r. exact Hi.
  - replace (S (List.length pre)) with (List.length (pre ++ [x]))
      by (rewrite length_app; simpl; lia).
    apply IH.
    + now rewrite <- List.app_assoc.
    + rewrite length_app. simpl. rewrite Nat.add_1_r. apply Inv_step; [exact Hi|].
      rewrite Hl, nth_error_app2, Nat.sub_diag by lia. reflexivity.
Qed.

(** Every node moves down by the number of ranks removed below it. *)
Lemma removeEmptyRanks_rank v z :
  has_rank g v z ->
  has_rank (removeEmptyRanks g) v (z - Z.of_nat (removed_below g m f (Z.to_nat (z - m)))).
Proof.
  intros Hz.
  assert (Hv : In v (nodes g)) by (destruct Hz as (l & N & _); eapply node_Some_In, N).
  unfold removeEmptyRanks. rewrite offset_is_min, layers_built, Hf.
  destruct (@Inv_loop layers [] (0%Z, g) eq_refl Inv_start) as (_ & _ & Hr).
  specialize (Hr v Hv). pose proof (idx_lt_length v Hv) as Hlt.
  apply Nat.ltb_lt in Hlt. rewrite Hlt in Hr.
  rewrite <- (has_rank_rankZ Hz) at 1 2. exact Hr.
Qed.

(** Between a non-empty rank and a higher one, not every rank is removed. *)
Lemma c_gap i j :
  (i < j)%nat -> rank_used g (m + Z.of_nat i) = true -> (c j - c i < j - i)%nat /\ (c i <= c j)%nat.
Proof.
  intros Hij Hu. induction j as [|j IH]; [lia|].
  rewrite c_S. destruct (Nat.eq_dec i j) as [<-|Hne].
  - unfold removable. rewrite Hu. cbn [negb andb]. lia.
  - destruct IH as [A B]; [lia|]. destruct (removable g m f j); lia.
Qed.

Lemma removeEmptyRanks_monotone u v zu zv zu' zv' :
  has_rank g u zu -> has_rank g v zv ->
  has_rank (removeEmptyRanks g) u zu' -> has_rank (removeEmptyRanks g) v zv' ->
  (zu < zv)%Z -> (zu' < zv')%Z.
Proof.
  intros Hu Hv Hu' Hv' Hlt.
  pose proof (has_rank_fun Hu' (removeEmptyRanks_rank Hu)) as ->.
  pose proof (has_rank_fun Hv' (removeEmptyRanks_rank Hv)) as ->.
  assert (Iu : In u (nodes g)) by (destruct Hu as (l & N & _); eapply node_Some_In, N).
  assert (Iv : In v (nodes g)) by (destruct Hv as (l & N & _); eapply node_Some_In, N).
  pose proof (rankZ_ge u Iu) as Gu. pose proof (rankZ_ge v Iv) as Gv.
  rewrite (has_rank_rankZ Hu) in Gu. rewrite (has_rank_rankZ Hv) in Gv.
  assert (Hused : rank_used g (m + Z.of_nat (Z.to_nat (zu - m))) = true).
  { apply rank_used_idx. exists u. split; [assumption|].
    unfold idx. now rewrite (has_rank_rankZ Hu). }
  destruct (@c_gap (Z.to_nat (zu - m)) (Z.to_nat (zv - m)) ltac:(lia) Hused) as [A B].
  unfold c in A, B. lia.
Qed.

End Compaction.



Lemma g_sparse_ranked : all_ranked Examples.g_sparse.
Proof.
  intros v [<-|[<-|[]]]; [exists 0%Z | exists 8%Z]; eexists; split; reflexivity.
Qed.


(** C8 as the specification words it: after the call, no rank at an offset
    from the least rank that is not a multiple of [f] is empty while a
    node lies above it. *)
Definition no_gap_off_multiple (g : Graph) (f : Z) : Prop :=
  forall m r,
    is_min_rank g m -> (m <= r)%Z -> ((r - m) mod f <> 0)%Z ->
    (exists v z, has_rank g v z /\ (r < z)%Z) ->
    exists v, has_rank g v r.


End RemoveEmptyRanksFacts.

(** ** lib/rank/util.js: longestPath, then normalizeRanks *)

Module LongestPathFacts.
Import Graphlib JSNumFacts UtilFacts GraphFacts Util RankUtil.

(** A non-empty path along the edges. *)
Inductive path (g : Graph) : string -> string -> Prop :=
| path_edge : forall e, In e (edges g) -> path g (e_v e) (e_w e)
| path_cons : forall e w, In e (edges g) -> path g (e_w e) w -> path g (e_v e) w.

Definition acyclic (g : Graph) : Prop := forall v, ~ path g v v.

(** The end points of edges are nodes, as [setEdge] guarantees. *)
Definition edges_closed (g : Graph) : Prop :=
  forall e, In e (edges g) -> In (e_v e) (nodes g) /\ In (e_w e) (nodes g).

Definition minlen_of (g : Graph) (e : Edge) (ml : Z) : Prop :=
  exists l, edge (g_edges g) e = Some l /\ minlen l = Some (Int ml).

Definition integer_minlen (g : Graph) : Prop :=
  forall e, In e (edges g) -> exists ml, minlen_of g e ml.

Lemma path_snoc (g : Graph) (x p : string) (e : Edge) :
  path g x p -> In e (edges g) -> e_v e = p -> path g x (e_w e).
Proof.
  intros H He Hp. induction H as [e0 H0 | e0 w H0 H1 IH].
  - apply path_cons; [assumption|]. rewrite <- Hp. now apply path_edge.
  - apply path_cons; [assumption|]. now apply IH.
Qed.

(** In a finite acyclic graph no set of nodes has a predecessor inside the
    set for each of its members: a chain of predecessors longer than the
    number of nodes would repeat a node. *)
Lemma no_endless_ascent (g : Graph) (P : string -> Prop) :
  acyclic g ->
  (forall u, P u -> In u (nodes g) /\
                    exists e, In e (edges g) /\ e_w e = u /\ P (e_v e)) ->
  forall u, ~ P u.
Proof.
  intros Hacyc Hpred.
  assert (Hchain : forall n u, P u ->
            exists l, List.length l = n /\ NoDup l /\
                      forall x, In x l -> In x (nodes g) /\ path g x u).
  { induction n as [|n IH]; intros u Hu.
    - exists []. repeat split; [constructor | contradiction | contradiction].
    - destruct (Hpred u Hu) as (_ & e & He & Hw & Hp).
      destruct (IH (e_v e) Hp) as (l & Hlen & Hnd & Hl).
      exists (e_v e :: l). split; [simpl; now rewrite Hlen|]. split.
      + constructor; [|assumption]. intros Hin.
        apply (Hacyc (e_v e)). now apply Hl.
      + intros x [<-|Hx].
        * split; [apply (Hpred _ Hp)|]. rewrite <- Hw. now apply path_edge.
        * split; [now apply Hl|]. rewrite <- Hw.
          eapply path_snoc; [apply Hl, Hx | assumption | reflexivity]. }
  intros u Hu. destruct (Hchain (S (List.length (nodes g))) u Hu) as (l & Hlen & Hnd & Hl).
  apply NoDup_incl_length with (l' := nodes g) in Hnd.
  - lia.
  - intros x Hx. now apply Hl.
Qed.

Lemma filter_length_mono {A : Type} (p q : A -> bool) (l : list A) :
  (forall x, p x = true -> q x = true) ->
  (List.length (filter p l) <= List.length (filter q l))%nat.
Proof.
  intros H. induction l as [|a l IH]; simpl; [lia|].
  destruct (p a) eqn:Ep.
  - rewrite (H a Ep). simpl. lia.
  - destruct (q a); simpl; lia.
Qed.

Lemma filter_length_lt {A : Type} (p q : A -> bool) (l : list A) (x : A) :
  (forall x, p x = true -> q x = true) ->
  In x l -> p x = false -> q x = true ->
  (S (List.length (filter p l)) <= List.length (filter q l))%nat.
Proof.
  intros H Hx Hp Hq. induction l as [|a l IH]; [contradiction|]. simpl.
  destruct Hx as [->|Hx].
  - rewrite Hp, Hq. simpl. pose proof (filter_length_mono p q l H). lia.
  - specialize (IH Hx). destruct (p a) eqn:Ep.
    + rewrite (H a Ep). simpl. lia.
    + destruct (q a); simpl; lia.
Qed.

Section DFS.
Variable g0 : Graph.
Hypothesis Hclosed : edges_closed g0.
Hypothesis Hml : integer_minlen g0.
Hypothesis Hacyc : acyclic g0.

(** [u] has its final rank: its successors are visited, out of the stack of
    calls in progress, ranked, and far enough below. *)
Definition finished (g : Graph) (visited stack : list string) (u : string) : Prop :=
  exists zu, has_rank g u zu /\
    forall e, In e (edges g0) -> e_v e = u ->
      In (e_w e) visited /\ ~ In (e_w e) stack /\
      exists zw ml, has_rank g (e_w e) zw /\ minlen_of g0 e ml /\ (zu + ml <= zw)%Z.

Record Inv (st : DfsState) (stack : list string) : Prop := mkInv {
  inv_nodes : nodes (fst st) = nodes g0;
  inv_edges : g_edges (fst st) = g_edges g0;
  inv_visited : forall u, In u (snd st) -> In u (nodes g0);
  inv_finished : forall u, In u (snd st) -> ~ In u stack ->
                           finished (fst st) (snd st) stack u
}.

Definition unvisited (st : DfsState) : nat :=
  List.length (filter (fun v => negb (is_visited v (snd st))) (nodes g0)).

(** A call only adds visited nodes and leaves the labels of the nodes
    visited before it alone. *)
Definition extends (st st' : DfsState) : Prop :=
  (forall u, In u (snd st) -> In u (snd st')) /\
  (forall u, In u (snd st) -> node (fst st') u = node (fst st) u) /\
  (unvisited st' <= unvisited st)%nat.

Lemma extends_refl st : extends st st.
Proof. repeat split; auto. Qed.

Lemma extends_trans st1 st2 st3 : extends st1 st2 -> extends st2 st3 -> extends st1 st3.
Proof.
  intros (A1 & B1 & C1) (A2 & B2 & C2). repeat split; auto.
  - intros u Hu. rewrite B2 by auto. auto.
  - lia.
Qed.

Lemma is_visited_In v visited : is_visited v visited = true <-> In v visited.
Proof.
  unfold is_visited. rewrite existsb_exists. split.
  - intros (x & Hx & E). apply String.eqb_eq in E. now subst.
  - intros H. exists v. split; [assumption | apply String.eqb_refl].
Qed.

Lemma has_rank_extends st st' u z :
  extends st st' -> In u (snd st) -> has_rank (fst st) u z -> has_rank (fst st') u z.
Proof.
  intros (_ & B & _) Hu (l & N & R). exists l. split; [|assumption].
  now rewrite B.
Qed.

(** Marking a node that was not visited lowers the count of unvisited
    nodes. *)
Lemma unvisited_mark g visited g' v :
  In v (nodes g0) -> is_visited v visited = false ->
  (S (unvisited (g', v :: visited)) <= unvisited (g, visited))%nat.
Proof.
  unfold unvisited. cbn [snd]. intros Hv Hnv.
  apply filter_length_lt with (x := v); [| assumption | |].
  - intros y Hy. unfold is_visited in *. cbn [existsb] in Hy.
    now destruct (String.eqb y v), (existsb (String.eqb y) visited).
  - unfold is_visited. cbn [existsb]. now rewrite String.eqb_refl.
  - now rewrite Hnv.
Qed.

(** What a call [dfs(v)] achieves, under the stack of calls in progress. *)
Definition dfs_post (stack : list string) (v : string) (st : DfsState)
  (r : outcome (option num * DfsState)) : Prop :=
  exists z st',
    r = Ok (Some (Int z), st') /\ Inv st' stack /\ In v (snd st') /\
    ~ In v stack /\ has_rank (fst st') v z /\ extends st st'.

(** The value [dfs(e.w) - minlen] computed for an out-edge. *)
Definition edge_value (st' : DfsState) (stack : list string) (e : Edge) (x : num) : Prop :=
  exists zw ml,
    x = Int (zw - ml) /\ has_rank (fst st') (e_w e) zw /\ minlen_of g0 e ml /\
    In (e_w e) (snd st') /\ ~ In (e_w e) stack.

Lemma edge_value_extends st st' stack e x :
  extends st st' -> edge_value st stack e x -> edge_value st' stack e x.
Proof.
  intros Hext (zw & ml & -> & Hr & Hm & Hin & Hout).
  exists zw, ml. repeat split; try assumption.
  - eapply has_rank_extends; eassumption.
  - now apply Hext.
Qed.

Lemma map_outEdges_ok (f : string -> DfsState -> outcome (option num * DfsState))
  (fuel' : nat) (v : string) (stack : list string) :
  (forall w st, Inv st (v :: stack) -> In w (nodes g0) ->
      (forall x, In x (v :: stack) -> path g0 x w) ->
      (unvisited st <= fuel')%nat ->
      dfs_post (v :: stack) w st (f w st)) ->
  (forall x, In x stack -> path g0 x v) ->
  forall es st, Inv st (v :: stack) -> (unvisited st <= fuel')%nat ->
    (forall e, In e es -> In e (edges g0) /\ e_v e = v) ->
    exists xs st',
      map_outEdges f es st = Ok (xs, st') /\ Inv st' (v :: stack) /\
      extends st st' /\ Forall2 (edge_value st' (v :: stack)) es xs.
Proof.
  intros Hf Hstack. induction es as [|e es IH]; intros st Hinv Hfuel Hes.
  - exists [], st. repeat split; auto using extends_refl.
    + apply Hinv. + apply Hinv. + apply Hinv. + apply Hinv.
  - destruct (Hes e (or_introl eq_refl)) as [He Hv].
    destruct (@Hclosed e He) as [_ Hw].
    assert (Hpath : forall x, In x (v :: stack) -> path g0 x (e_w e)).
    { intros x [<-|Hx].
      - rewrite <- Hv. now apply path_edge.
      - eapply path_snoc; [apply Hstack, Hx | assumption | assumption]. }
    destruct (Hf (e_w e) st Hinv Hw Hpath Hfuel)
      as (z & st1 & E1 & Hinv1 & Hin1 & Hout1 & Hr1 & Hext1).
    cbn [map_outEdges]. rewrite E1.
    destruct (@Hml e He) as (ml & l & El & Eml).
    rewrite (inv_edges Hinv1), El. cbv zeta.
    destruct (IH st1 Hinv1) as (xs & st2 & E2 & Hinv2 & Hext2 & Hall).
    { destruct Hext1 as (_ & _ & Hc). lia. }
    { intros e' He'. apply Hes. now right. }
    rewrite E2. exists (num_sub (to_num (Some (Int z))) (to_num (minlen l)) :: xs), st2.
    split; [reflexivity|]. split; [assumption|].
    split; [eapply extends_trans; eassumption|].
    constructor; [|assumption].
    apply edge_value_extends with (st := st1); [assumption|].
    exists z, ml. rewrite Eml. cbn [to_num]. rewrite num_sub_Int.
    repeat split; try assumption. exists l. auto.
Qed.

(** The rank assigned from the values of the out-edges: their least, or 0
    when there is none. *)
Lemma assigned_rank (xs : list num) :
  Forall (fun x => exists k, x = Int k) xs ->
  exists z,
    (let rank := applyWithChunking Math_min xs in
     if num_eqb rank PosInfinity then Int 0 else rank) = Int z /\
    forall k, In (Int k) xs -> (z <= k)%Z.
Proof.
  intros Hall. rewrite applyWithChunking_Math_min.
  assert (Hzs : exists zs, xs = map Int zs).
  { induction Hall as [|x xs (k & ->) _ (zs & ->)]; [now exists [] | now exists (k :: zs)]. }
  destruct Hzs as [[|k ks] ->].
  - exists 0%Z. split; [reflexivity | intros k []].
  - destruct (Math_min_Int k ks) as (m & Em & _ & Hle).
    exists m. cbv zeta. rewrite Em. split; [reflexivity|].
    intros j Hj. apply in_map_iff in Hj. destruct Hj as (j' & E & Hj').
    apply Int_inj in E. subst j'. now apply Hle.
Qed.

Lemma has_rank_update_other g v u z f :
  u <> v -> has_rank g u z -> has_rank (update g v f) u z.
Proof.
  intros Hne (l & N & R). exists l. split; [|assumption].
  rewrite node_update. destruct (String.eqb u v) eqn:E; [|assumption].
  apply String.eqb_eq in E. contradiction.
Qed.

Lemma has_rank_update_same g v z :
  In v (nodes g) ->
  has_rank (update g v (fun label => Label.set_rank label (Some (Int z)))) v z.
Proof.
  intros Hv. destruct (node_In g v Hv) as [l N].
  unfold has_rank. rewrite node_update, String.eqb_refl, N. cbn [option_map].
  eexists. split; reflexivity.
Qed.

Lemma outEdges_In g v e :
  g_edges g = g_edges g0 ->
  (In e (outEdges g v) <-> In e (edges g0) /\ e_v e = v).
Proof.
  intros Hg. unfold outEdges, edges. rewrite Hg, filter_In.
  now rewrite String.eqb_eq.
Qed.

Lemma Forall2_In_l {A B : Type} (R : A -> B -> Prop) (l : list A) (l' : list B) (a : A) :
  Forall2 R l l' -> In a l -> exists b, In b l' /\ R a b.
Proof.
  induction 1 as [|x y l l' Hxy _ IH]; intros Ha; [contradiction|].
  destruct Ha as [->|Ha].
  - exists y. split; [now left | assumption].
  - destruct (IH Ha) as (b & Hb & Hr). exists b. split; [now right | assumption].
Qed.

Lemma dfs_ok (fuel : nat) : forall v st stack,
  Inv st stack -> In v (nodes g0) ->
  (forall x, In x stack -> path g0 x v) ->
  (unvisited st <= fuel)%nat ->
  dfs_post stack v st (dfs fuel v st).
Proof.
  induction fuel as [|fuel IH]; intros v [g visited] stack Hinv Hv Hstack Hfuel.
  all: assert (Hout : ~ In v stack) by (intros H; apply (@Hacyc v), Hstack, H).
  all: pose proof (inv_nodes Hinv) as Hn; cbn [fst] in Hn.
  all: assert (Hvg : In v (nodes g)) by now rewrite Hn.
  all: destruct (node_In g v Hvg) as [label N].
  all: cbn [dfs]; rewrite N.
  all: destruct (is_visited v visited) eqn:Evis.
  1,3: apply is_visited_In in Evis;
    destruct (inv_finished Hinv v Evis Hout) as (z & Hz & _);
    exists z, (g, visited);
    (split; [destruct Hz as (l & N' & R); cbn [fst] in N'; rewrite N in N';
             injection N' as <-; now rewrite R|]);
    repeat split; auto using extends_refl; apply Hinv.
  - pose proof (@unvisited_mark g visited g v Hv Evis). lia.
  - (* a node seen for the first time *)
    set (st1 := (g, v :: visited) : DfsState).
    assert (Hnv : ~ In v visited).
    { intros H. apply is_visited_In in H. congruence. }
    assert (Hinv1 : Inv st1 (v :: stack)).
    { constructor; cbn [fst snd st1].
      - apply Hinv. - apply Hinv.
      - intros u [<-|Hu]; [assumption | now apply (inv_visited Hinv)].
      - intros u Hu Hus.
        assert (Hu' : In u visited).
        { destruct Hu as [<-|Hu]; [exfalso; apply Hus; now left | assumption]. }
        destruct (inv_finished Hinv u Hu') as (zu & Hzu & Hsucc).
        { intros H. apply Hus. now right. }
        exists zu. split; [assumption|]. intros e He Hev.
        destruct (Hsucc e He Hev) as (Hin & Hst & Hrest).
        split; [now right|]. split; [|assumption].
        intros [E|H]; [|contradiction]. apply Hnv. now rewrite E. }
    assert (Hfuel1 : (unvisited st1 <= fuel)%nat).
    { pose proof (@unvisited_mark g visited g v Hv Evis). unfold st1. lia. }
    destruct (@map_outEdges_ok (dfs fuel) fuel v stack
                (fun w st => IH w st (v :: stack)) Hstack
                (outEdges g v) st1 Hinv1 Hfuel1)
      as (xs & [g2 visited2] & Emap & Hinv2 & Hext2 & Hall).
    { intros e He. apply (outEdges_In g v e (inv_edges Hinv)). exact He. }
    fold st1. rewrite Emap.
    destruct (@assigned_rank xs) as (z & Ez & Hz).
    { clear - Hall. induction Hall as [|e x es xs (zw & ml & -> & _) _ IHa];
        constructor; eauto. }
    cbv zeta in Ez. cbv zeta. rewrite Ez.
    pose proof (inv_nodes Hinv2) as Hn2. cbn [fst] in Hn2.
    assert (Hv2 : In v (nodes g2)) by now rewrite Hn2.
    exists z, (update g2 v (fun label => Label.set_rank label (Some (Int z))), visited2).
    split; [reflexivity|].
    assert (Hvis2 : In v visited2) by (apply Hext2; now left).
    split; [|split; [exact Hvis2|split; [exact Hout|split]]].
    + constructor; cbn [fst snd].
      * now rewrite nodes_update.
      * rewrite g_edges_update. apply Hinv2.
      * apply Hinv2.
      * intros u Hu Hus. destruct (string_dec u v) as [->|Hne].
        -- exists z. split; [now apply has_rank_update_same|].
           intros e He Hev.
           assert (Hin : In e (outEdges g v))
             by (apply (outEdges_In g v e (inv_edges Hinv)); auto).
           destruct (@Forall2_In_l _ _ _ _ _ e Hall Hin)
             as (x & Hx & zw & ml & -> & Hr & Hm & Hiw & Hsw).
           split; [exact Hiw|]. split; [intros H; apply Hsw; now right|].
           exists zw, ml. split; [|split; [exact Hm|]].
           ++ apply has_rank_update_other; [|exact Hr].
              intros E. apply Hsw. left. now rewrite E.
           ++ specialize (Hz _ Hx). lia.
        -- destruct (inv_finished Hinv2 u Hu) as (zu & Hzu & Hsucc).
           { intros [E|H]; [now apply Hne | contradiction]. }
           exists zu. split; [now apply has_rank_update_other|].
           intros e He Hev. destruct (Hsucc e He Hev) as (Hiw & Hsw & zw & ml & Hr & Hm & Hle).
           split; [exact Hiw|]. split; [intros H; apply Hsw; now right|].
           exists zw, ml. split; [|auto].
           apply has_rank_update_other; [|exact Hr].
           intros E. apply Hsw. left. now rewrite E.
    + now apply has_rank_update_same.
    + destruct Hext2 as (A & B & Cn). repeat split; cbn [fst snd].
      * intros u Hu. apply A. now right.
      * intros u Hu. rewrite node_update.
        destruct (String.eqb u v) eqn:E.
        -- apply String.eqb_eq in E. subst. contradiction.
        -- rewrite B by now right. reflexivity.
      * pose proof (@unvisited_mark g visited g v Hv Evis) as Hm.
        unfold st1, unvisited in *. cbn [snd] in *. lia.
Qed.

End DFS.

(** *** The whole of [longestPath] *)

Section LongestPath.
Variable g0 : Graph.
Hypothesis Hclosed : edges_closed g0.
Hypothesis Hml : integer_minlen g0.
Hypothesis Hacyc : acyclic g0.

Definition visit_source (fuel : nat) (acc : outcome DfsState) (v : string)
  : outcome DfsState :=
  match acc with
  | Ok st =>
      match dfs fuel v st with
      | Ok (_, st') => Ok st'
      | Throw msg => Throw msg
      | Diverge => Diverge
      | OutOfFuel => OutOfFuel
      end
  | other => other
  end.

Lemma unvisited_le st : (unvisited g0 st <= List.length (nodes g0))%nat.
Proof. unfold unvisited. apply filter_length_le. Qed.

Lemma visit_sources (vs : list string) : forall st,
  Inv g0 st [] -> (forall v, In v vs -> In v (nodes g0)) ->
  exists st',
    fold_left (visit_source (List.length (nodes g0))) vs (Ok st) = Ok st' /\
    Inv g0 st' [] /\ extends g0 st st' /\ forall v, In v vs -> In v (snd st').
Proof.
  induction vs as [|v vs IH]; intros st Hinv Hvs.
  - exists st. split; [reflexivity|]. split; [exact Hinv|].
    split; [apply extends_refl|]. intros v [].
  - destruct (@dfs_ok g0 Hclosed Hml Hacyc (List.length (nodes g0)) v st [] Hinv)
      as (z & st1 & E & Hinv1 & Hin1 & _ & _ & Hext1).
    { apply Hvs. now left. } { intros x []. } { apply unvisited_le. }
    destruct (IH st1 Hinv1) as (st2 & E2 & Hinv2 & Hext2 & Hall).
    { intros u Hu. apply Hvs. now right. }
    exists st2. cbn [fold_left visit_source]. rewrite E.
    split; [exact E2|]. split; [exact Hinv2|].
    split; [eapply extends_trans; eassumption|].
    intros u [<-|Hu]; [now apply Hext2 | now apply Hall].
Qed.

Lemma Inv_initial : Inv g0 (g0, []) [].
Proof. constructor; cbn [fst snd]; auto; intros u []. Qed.

(** Every node is reached from the sources. *)
Lemma all_visited (st : DfsState) :
  Inv g0 st [] -> (forall v, In v (sources g0) -> In v (snd st)) ->
  forall v, In v (nodes g0) -> In v (snd st).
Proof.
  intros Hinv Hsrc v Hv.
  destruct (in_dec string_dec v (snd st)) as [H|H]; [exact H | exfalso].
  apply (@no_endless_ascent g0 (fun u => In u (nodes g0) /\ ~ In u (snd st)) Hacyc)
    with (u := v); [|now split].
  intros u [Hu Hnu]. split; [exact Hu|].
  destruct (inEdges g0 u) as [|e es] eqn:Ein.
  - exfalso. apply Hnu, Hsrc. unfold sources. apply filter_In.
    split; [exact Hu | now rewrite Ein].
  - assert (He : In e (inEdges g0 u)) by (rewrite Ein; now left).
    unfold inEdges in He. apply filter_In in He. destruct He as [He Ew].
    apply String.eqb_eq in Ew.
    exists e. split; [exact He|]. split; [exact Ew|].
    split; [now apply Hclosed|].
    intros Hp. destruct (inv_finished Hinv _ Hp) as (zu & _ & Hsucc); [intros []|].
    destruct (Hsucc e He eq_refl) as (Hw & _). apply Hnu. now rewrite <- Ew.
Qed.

Lemma longestPath_unfold :
  longestPath g0 =
  match fold_left (visit_source (List.length (nodes g0))) (sources g0)
                  (@Ok DfsState (g0, [])) with
  | Ok (g', _) => Ok g'
  | Throw msg => Throw msg
  | Diverge => Diverge
  | OutOfFuel => OutOfFuel
  end.
Proof. reflexivity. Qed.

Lemma longestPath_ok :
  exists g1,
    longestPath g0 = Ok g1 /\
    nodes g1 = nodes g0 /\ g_edges g1 = g_edges g0 /\
    (forall v, In v (nodes g0) -> exists z, has_rank g1 v z) /\
    (forall e, In e (edges g0) ->
       exists zv zw ml, has_rank g1 (e_v e) zv /\ has_rank g1 (e_w e) zw /\
                        minlen_of g0 e ml /\ (zv + ml <= zw)%Z).
Proof.
  destruct (@visit_sources (sources g0) (g0, []) Inv_initial)
    as ([g1 visited] & E & Hinv & _ & Hsrc).
  { intros v Hv. unfold sources in Hv. apply filter_In in Hv. apply Hv. }
  pose proof (all_visited Hinv Hsrc) as Hall. cbn [snd] in Hall.
  exists g1. rewrite longestPath_unfold, E. split; [reflexivity|].
  split; [apply Hinv|]. split; [apply Hinv|]. split.
  - intros v Hv. destruct (inv_finished Hinv v (Hall v Hv)) as (z & Hz & _); [intros []|].
    eauto.
  - intros e He. destruct (@Hclosed e He) as [Hv _].
    destruct (inv_finished Hinv _ (Hall _ Hv)) as (zv & Hzv & Hsucc); [intros []|].
    destruct (Hsucc e He eq_refl) as (_ & _ & zw & ml & Hzw & Hm & Hle).
    exists zv, zw, ml. auto.
Qed.

End LongestPath.

(** *** normalizeRanks *)

Lemma normalizeRanks_spec (g : Graph) (m : Z) :
  NoDup (nodes g) -> all_ranked g -> is_min_rank g m ->
  forall v z, has_rank g v z -> has_rank (normalizeRanks g) v (z - m).
Proof.
  intros Hnd Hall Hmin v z (l & N & R).
  unfold normalizeRanks.
  rewrite (node_ranks_Int MAX_VALUE Hall), applyWithChunking_Math_min,
    (is_min_rank_Math_min Hall Hmin).
  set (F := fun node => match Label.rank node with
                        | Some rank => Label.set_rank node (Some (num_sub rank (Int m)))
                        | None => node
                        end).
  change (has_rank (update_all F (nodes g) g) v (z - m)).
  unfold has_rank. rewrite (@node_update_all_in F (nodes g) g v Hnd (node_Some_In _ _ N)), N.
  eexists. split; [reflexivity|]. unfold F. rewrite R. cbn [Label.set_rank Label.rank].
  now rewrite num_sub_Int.
Qed.

Lemma normalizeRanks_structure (g : Graph) :
  nodes (normalizeRanks g) = nodes g /\ g_edges (normalizeRanks g) = g_edges g.
Proof.
  unfold normalizeRanks.
  match goal with
  | |- context [fold_left (fun g v => update g v ?F) (nodes g) g] =>
      change (fold_left (fun g v => update g v F) (nodes g) g)
        with (update_all F (nodes g) g)
  end.
  now rewrite nodes_update_all, g_edges_update_all.
Qed.

(** A graph with a height that decreases along every edge has no cycle. *)
Lemma height_acyclic (g : Graph) (h : string -> nat) :
  (forall e, In e (edges g) -> (h (e_w e) < h (e_v e))%nat) -> acyclic g.
Proof.
  intros Hh.
  assert (Hp : forall x y, path g x y -> (h y < h x)%nat).
  { induction 1 as [e He | e w He Hp IH]; [now apply Hh|].
    specialize (Hh e He). lia. }
  intros v Hv. specialize (Hp v v Hv). lia.
Qed.


Lemma g_dag_acyclic : acyclic Examples.g_dag.
Proof.
  apply height_acyclic with
    (h := fun v => if String.eqb v "a" then 3%nat
                   else if String.eqb v "b" then 2%nat
                   else if String.eqb v "d" then 1%nat else 0%nat).
  intros e [<-|[<-|[<-|[<-|[]]]]]; simpl; lia.
Qed.




End LongestPathFacts.

(** ** lib/util.js: partition, zipObject, mapValues, pick *)

Module CollectionFacts.
Import Graphlib UtilMore GraphFacts.

Lemma lookup_app {A : Type} (k : string) (l1 l2 : list (string * A)) :
  lookup k (l1 ++ l2) =
  match lookup k l1 with
  | Some a => Some a
  | None => lookup k l2
  end.
Proof.
  induction l1 as [|[k1 a1] l1 IH]; simpl; [reflexivity|].
  now destruct (String.eqb k k1).
Qed.

Lemma lookup_None_iff {A : Type} (k : string) (l : list (string * A)) :
  lookup k l = None <-> existsb (fun p => String.eqb k (fst p)) l = false.
Proof.
  induction l as [|[k1 a1] l IH]; simpl; [tauto|].
  destruct (String.eqb k k1); simpl; [split; discriminate | exact IH].
Qed.

Lemma lookup_None_In {A : Type} (k : string) (l : list (string * A)) :
  lookup k l = None <-> ~ In k (map fst l).
Proof.
  induction l as [|[k1 a1] l IH]; simpl; [tauto|].
  destruct (String.eqb k k1) eqn:E.
  - apply String.eqb_eq in E. subst. split; [discriminate | intros H; exfalso; auto].
  - apply String.eqb_neq in E. rewrite IH. split; [intros H [H1|H1]; auto | tauto].
Qed.

(** The own properties after a write that creates or replaces one. *)
Definition put {A : Type} (obj : Obj A) (k : string) (a : A) : Obj A :=
  if has_own obj k then replace k a obj else obj ++ [(k, a)].

Lemma lookup_put {A : Type} (obj : Obj A) (k k' : string) (a : A) :
  lookup k' (put obj k a) = if String.eqb k' k then Some a else lookup k' obj.
Proof.
  unfold put, has_own.
  destruct (existsb (fun p => String.eqb k (fst p)) obj) eqn:E.
  - rewrite lookup_replace. destruct (String.eqb k' k); [|reflexivity].
    destruct (lookup k obj) eqn:L; [reflexivity|].
    apply lookup_None_iff in L. congruence.
  - rewrite lookup_app. simpl. destruct (String.eqb k' k) eqn:E'.
    + apply String.eqb_eq in E'. subst k'.
      apply lookup_None_iff in E. now rewrite E.
    + now destruct (lookup k' obj).
Qed.

(** A key that is no member of [Object.prototype]. *)
Definition plain (k : string) : Prop := inherited k = false.

Lemma plain_not_proto (k : string) : plain k -> String.eqb k "__proto__" = false.
Proof.
  unfold plain, inherited, Object_prototype. cbn [existsb]. intros H.
  repeat (apply orb_false_iff in H; destruct H as [? H]). assumption.
Qed.

(** Away from [__proto__] a write stores an own property. *)
Lemma obj_set_put {A : Type} (obj : Obj A) (k : string) (a : A) :
  String.eqb k "__proto__" = false -> obj_set obj k a = Some (put obj k a).
Proof. intros H. unfold obj_set, put. rewrite H. now destruct (has_own obj k). Qed.

(** Away from the members of [Object.prototype] a read sees own properties
    only. *)
Lemma obj_get_plain {A : Type} (obj : Obj A) (k : string) :
  plain k -> obj_get obj k = Some (lookup k obj).
Proof. intros H. unfold obj_get. rewrite H. now destruct (lookup k obj). Qed.

Lemma partition_from {A : Type} (fn : A -> bool) (collection : list A) :
  forall l r,
    fold_left (fun result value =>
      if fn value then mkPartition (lhs result ++ [value]) (rhs result)
      else mkPartition (lhs result) (rhs result ++ [value]))
      collection (mkPartition l r)
    = mkPartition (l ++ filter fn collection)
                  (r ++ filter (fun x => negb (fn x)) collection).
Proof.
  induction collection as [|x xs IH]; intros l r; simpl.
  - now rewrite !List.app_nil_r.
  - destruct (fn x); simpl; rewrite IH; simpl; now rewrite <- List.app_assoc.
Qed.

(** X1. [partition] sends the elements accepted by [fn] to [lhs] and the
    others to [rhs], both in the order of the collection. *)
Theorem partition_splits_in_order {A : Type} (collection : list A) (fn : A -> bool) :
  lhs (partition collection fn) = filter fn collection /\
  rhs (partition collection fn) = filter (fun x => negb (fn x)) collection.
Proof.
  unfold partition. rewrite partition_from. now split.
Qed.

Lemma combine_snoc {A B : Type} (l : list A) (l' : list B) (a : A) (b : B) :
  List.length l = List.length l' ->
  combine (l ++ [a]) (l' ++ [b]) = combine l l' ++ [(a, b)].
Proof.
  revert l'. induction l as [|x l IH]; intros [|y l'] H; simpl in *;
    try discriminate; [reflexivity|].
  f_equal. apply IH. now injection H.
Qed.

Lemma indexed_snoc {A : Type} (l : list A) (x : A) :
  indexed (l ++ [x]) = indexed l ++ [(List.length l, x)].
Proof.
  unfold indexed. rewrite List.length_app. simpl.
  rewrite seq_app. simpl.
  apply combine_snoc. apply List.length_seq.
Qed.

(** The own properties that [zipObject] stores. *)
Definition zipped {A : Type} (props : list string) (values : list A) : Obj (option A) :=
  fold_left (fun acc '(i, key) => put acc key (nth_error values i)) (indexed props) [].

Lemma zipped_snoc {A : Type} (props : list string) (k : string) (values : list A) :
  zipped (props ++ [k]) values
  = put (zipped props values) k (nth_error values (List.length props)).
Proof.
  unfold zipped. now rewrite indexed_snoc, fold_left_app.
Qed.

Lemma zipObject_snoc {A : Type} (props : list string) (k : string) (values : list A) :
  zipObject (props ++ [k]) values
  = match zipObject props values with
    | Some acc => obj_set acc k (nth_error values (List.length props))
    | None => None
    end.
Proof.
  unfold zipObject. now rewrite indexed_snoc, fold_left_app.
Qed.

Lemma zipObject_zipped {A : Type} (props : list string) (values : list A) :
  ~ In "__proto__"%string props -> zipObject props values = Some (zipped props values).
Proof.
  induction props as [|p props IH] using rev_ind; intros Hp; [reflexivity|].
  rewrite zipObject_snoc, zipped_snoc, IH.
  - apply obj_set_put. apply String.eqb_neq. intros ->.
    apply Hp, in_or_app. right. now left.
  - intros H. apply Hp, in_or_app. now left.
Qed.

Lemma zipped_absent {A : Type} (props : list string) (values : list A) (k : string) :
  ~ In k props -> lookup k (zipped props values) = None.
Proof.
  induction props as [|p props IH] using rev_ind; intros Hk; [reflexivity|].
  rewrite zipped_snoc, lookup_put.
  destruct (String.eqb k p) eqn:E.
  - apply String.eqb_eq in E. subst. exfalso. apply Hk, in_or_app. right. now left.
  - apply IH. intros H. apply Hk, in_or_app. now left.
Qed.

Lemma zipped_last {A : Type} (props : list string) (values : list A) (k : string) :
  forall i, nth_error props i = Some k ->
    (forall j, (i < j)%nat -> nth_error props j <> Some k) ->
    lookup k (zipped props values) = Some (nth_error values i).
Proof.
  induction props as [|p props IH] using rev_ind; intros i Hi Hlast.
  - now destruct i.
  - rewrite zipped_snoc, lookup_put.
    destruct (String.eqb k p) eqn:E.
    + apply String.eqb_eq in E. subst p.
      destruct (Nat.lt_trichotomy i (List.length props)) as [Hlt|[->|Hgt]].
      * exfalso. apply (Hlast (List.length props) Hlt).
        now rewrite nth_error_app2, Nat.sub_diag by lia.
      * reflexivity.
      * assert (Hnone : nth_error (props ++ [k]) i = None).
        { apply nth_error_None. rewrite List.length_app. simpl. lia. }
        congruence.
    + assert (Hlt : (i < List.length props)%nat).
      { assert (Hl : (i < List.length (props ++ [p]))%nat)
          by (apply nth_error_Some; congruence).
        rewrite List.length_app in Hl. simpl in Hl.
        destruct (Nat.eq_dec i (List.length props)) as [->|]; [|lia].
        rewrite nth_error_app2, Nat.sub_diag in Hi by lia. simpl in Hi.
        injection Hi as <-. now rewrite String.eqb_refl in E. }
      rewrite nth_error_app1 in Hi by assumption.
      apply IH; [assumption|].
      intros j Hj Hjk.
      apply (Hlast j Hj).
      rewrite nth_error_app1; [assumption|].
      apply nth_error_Some. congruence.
Qed.

(** X2. When no key is [__proto__], the object that
    [zipObject(props, values)] returns has as own properties the keys of
    [props], each with the value at the index of its last occurrence in
    [props] ([undefined] when [values] is shorter), and no other own
    property. *)
Theorem zipObject_lookup {A : Type} (props : list string) (values : list A) :
  ~ In "__proto__"%string props ->
  exists obj,
    zipObject props values = Some obj /\
    forall k,
      (forall i, nth_error props i = Some k ->
         (forall j, (i < j)%nat -> nth_error props j <> Some k) ->
         lookup k obj = Some (nth_error values i)) /\
      (~ In k props -> lookup k obj = None).
Proof.
  intros Hp. exists (zipped props values).
  split; [now apply zipObject_zipped|].
  intros k. split; [apply zipped_last | apply zipped_absent].
Qed.

Lemma zipObject_lookup_witness :
  exists obj,
    zipObject ["a"; "b"; "b"]%string [1; 2; 3]%nat = Some obj /\
    lookup "b"%string obj = Some (Some 3%nat).
Proof.
  destruct (@zipObject_lookup nat ["a"; "b"; "b"]%string [1; 2; 3]%nat)
    as (obj & E & H).
  - simpl. intuition discriminate.
  - exists obj. split; [exact E|].
    apply (proj1 (H "b"%string) 2%nat).
    + reflexivity.
    + intros [|[|[|[|j]]]] Hj; try lia; discriminate.
Defined.

(** With [__proto__] among the keys the write goes to the setter. *)
Example zipObject_proto :
  zipObject ["a"; "__proto__"]%string [1; 2]%nat = None.
Proof. reflexivity. Qed.

(** The own properties that [mapValues] stores. *)
Definition mapped {A B : Type} (obj : Obj A) (func : A -> string -> B) : Obj B :=
  fold_left (fun acc '(k, v) => put acc k (func v k)) obj [].

Lemma mapped_snoc {A B : Type} (obj : Obj A) (func : A -> string -> B)
  (k : string) (v : A) :
  mapped (obj ++ [(k, v)]) func = put (mapped obj func) k (func v k).
Proof. unfold mapped. now rewrite fold_left_app. Qed.

Lemma mapValues_mapped {A B : Type} (obj : Obj A) (func : A -> string -> B) :
  ~ In "__proto__"%string (map fst obj) -> mapValues obj func = Some (mapped obj func).
Proof.
  induction obj as [|[k v] obj IH] using rev_ind; intros Hp; [reflexivity|].
  rewrite map_app in Hp. simpl in Hp.
  unfold mapValues in *. rewrite fold_left_app. cbn [fold_left].
  rewrite IH, mapped_snoc.
  - apply obj_set_put. apply String.eqb_neq. intros ->.
    apply Hp, in_or_app. right. now left.
  - intros H. apply Hp, in_or_app. now left.
Qed.

(** X3. On an object (no key twice) that has no own property
    [__proto__], [mapValues] returns an object with the same keys, and
    under each key [func] of the value and the key. *)
Theorem mapValues_lookup {A B : Type} (obj : Obj A) (func : A -> string -> B) :
  NoDup (map fst obj) -> ~ In "__proto__"%string (map fst obj) ->
  exists result,
    mapValues obj func = Some result /\
    forall k, lookup k result = option_map (fun v => func v k) (lookup k obj).
Proof.
  intros Hnd Hp. exists (mapped obj func).
  split; [now apply mapValues_mapped|]. clear Hp.
  induction obj as [|[k' v] obj IH] using rev_ind; intros k; [reflexivity|].
  rewrite map_app in Hnd. simpl in Hnd.
  apply NoDup_remove in Hnd. rewrite List.app_nil_r in Hnd. destruct Hnd as [Hnd Hk].
  rewrite mapped_snoc, lookup_put, lookup_app, IH by assumption. simpl.
  destruct (String.eqb k k') eqn:E.
  - apply String.eqb_eq in E. subst k'.
    apply lookup_None_In in Hk. now rewrite Hk.
  - now destruct (lookup k obj).
Qed.

Lemma mapValues_lookup_witness :
  exists result,
    mapValues [("a"%string, 1%nat); ("b"%string, 2%nat)] (fun v _ => S v) = Some result /\
    lookup "b"%string result = Some 3%nat.
Proof.
  destruct (@mapValues_lookup nat nat
              [("a"%string, 1%nat); ("b"%string, 2%nat)] (fun v _ => S v))
    as (result & E & H).
  - repeat constructor; simpl; intuition discriminate.
  - simpl. intuition discriminate.
  - exists result. split; [exact E | apply H].
Defined.

(** X4. When no key of [keys] names a member of [Object.prototype],
    [pick(source, keys)] returns an object whose own properties are
    exactly the properties of [source] that are listed in [keys] and do
    not hold [undefined], with the values they have in [source]. *)
Theorem pick_lookup {A : Type} (source : Obj (option A)) (keys : list string) :
  (forall key, In key keys -> plain key) ->
  exists dest,
    pick source keys = Some dest /\
    forall k, lookup k dest =
              if existsb (String.eqb k) keys
              then match lookup k source with
                   | Some (Some x) => Some x
                   | _ => None
                   end
              else None.
Proof.
  unfold pick. induction keys as [|key keys IH] using rev_ind; intros Hp.
  - exists []. split; reflexivity.
  - destruct IH as (dest & E & H).
    { intros k Hk. apply Hp, in_or_app. now left. }
    assert (Pk : plain key) by (apply Hp, in_or_app; right; now left).
    rewrite fold_left_app, E. cbn [fold_left]. rewrite (obj_get_plain _ Pk).
    assert (Hcase : forall k, existsb (String.eqb k) (keys ++ [key])
                              = (existsb (String.eqb k) keys || String.eqb k key)%bool).
    { intros k. rewrite existsb_app. simpl. now rewrite orb_false_r. }
    destruct (lookup key source) as [[x|]|] eqn:L.
    + exists (put dest key x). split; [apply obj_set_put, plain_not_proto, Pk|].
      intros k. rewrite lookup_put, Hcase, H.
      destruct (String.eqb k key) eqn:Ek.
      * apply String.eqb_eq in Ek. subst k. now rewrite orb_true_r, L.
      * now rewrite orb_false_r.
    + exists dest. split; [reflexivity|].
      intros k. rewrite Hcase, H.
      destruct (String.eqb k key) eqn:Ek.
      * apply String.eqb_eq in Ek. subst k. rewrite L, orb_true_r.
        now destruct (existsb (String.eqb key) keys).
      * now rewrite orb_false_r.
    + exists dest. split; [reflexivity|].
      intros k. rewrite Hcase, H.
      destruct (String.eqb k key) eqn:Ek.
      * apply String.eqb_eq in Ek. subst k. rewrite L, orb_true_r.
        now destruct (existsb (String.eqb key) keys).
      * now rewrite orb_false_r.
Qed.

Lemma pick_lookup_witness :
  exists dest,
    pick [("a"%string, Some 1%nat); ("b"%string, None); ("c"%string, Some 3%nat)]
         ["c"; "b"; "d"]%string = Some dest /\
    lookup "c"%string dest = Some 3%nat /\
    lookup "b"%string dest = None /\
    lookup "a"%string dest = None.
Proof.
  destruct (@pick_lookup nat
              [("a"%string, Some 1%nat); ("b"%string, None); ("c"%string, Some 3%nat)]
              ["c"; "b"; "d"]%string)
    as (dest & E & H).
  - intros key [<-|[<-|[<-|[]]]]; reflexivity.
  - exists dest. split; [exact E|]. rewrite !H. repeat split.
Defined.

(** A key that names a member of [Object.prototype] is read from there. *)
Example pick_inherited :
  pick [("a"%string, Some 1%nat)] ["a"; "toString"]%string = None.
Proof. reflexivity. Qed.

(** The object that maps every key of [props] to [f] of the key. *)
Lemma zipped_tabulate {A : Type} (f : string -> A) (props : list string) (k : string) :
  forall values,
    (forall i p, nth_error props i = Some p -> nth_error values i = Some (f p)) ->
    In k props ->
    lookup k (zipped props values) = Some (Some (f k)).
Proof.
  induction props as [|p props IH] using rev_ind; intros values Hv Hk; [contradiction|].
  rewrite zipped_snoc, lookup_put.
  destruct (String.eqb k p) eqn:E.
  - apply String.eqb_eq in E. subst p. f_equal. apply Hv.
    now rewrite nth_error_app2, Nat.sub_diag by lia.
  - apply IH.
    + intros i q Hi. apply Hv. rewrite nth_error_app1; [assumption|].
      apply nth_error_Some. congruence.
    + apply in_app_or in Hk. destruct Hk as [Hk|[->|[]]]; [assumption|].
      now rewrite String.eqb_refl in E.
Qed.

Lemma zipped_map {A : Type} (f : string -> A) (props : list string) (k : string) :
  In k props -> lookup k (zipped props (map f props)) = Some (Some (f k)).
Proof.
  apply zipped_tabulate. intros i p Hi. now rewrite nth_error_map, Hi.
Qed.

(** *** successorWeights and predecessorWeights *)

(** The running total [(total || 0) + x], from no property at all. *)
Definition accumulate (xs : list num) : option num :=
  fold_left (fun total x => Some (num_add (or_zero total) x)) xs None.

(** The edges from [v] to [w], in the order of the graph. *)
Definition edges_between (g : Graph) (v w : string) : list Edge :=
  filter (fun e => String.eqb (e_w e) w) (outEdges g v).

Lemma accumulate_snoc (xs : list num) (x : num) :
  accumulate (xs ++ [x]) = Some (num_add (or_zero (accumulate xs)) x).
Proof. unfold accumulate. now rewrite fold_left_app. Qed.

Section Tally.
Variable g : Graph.
Variable key : Edge -> string.

(** The own properties that the loop over the edges [es] stores. *)
Definition tally (es : list Edge) : Obj num :=
  fold_left (fun acc e =>
    put acc (key e) (num_add (or_zero (lookup (key e) acc)) (edge_weight g e)))
    es [].

Lemma tally_lookup (k : string) (es : list Edge) :
  lookup k (tally es)
  = accumulate (map (edge_weight g) (filter (fun e => String.eqb (key e) k) es)).
Proof.
  unfold tally. induction es as [|e es IH] using rev_ind; [reflexivity|].
  rewrite fold_left_app, filter_app, map_app. simpl.
  rewrite lookup_put, (String.eqb_sym k).
  destruct (String.eqb (key e) k) eqn:E.
  - apply String.eqb_eq in E. simpl. rewrite accumulate_snoc, <- IH. now subst k.
  - simpl. now rewrite List.app_nil_r.
Qed.

Lemma add_weight_tally (es : list Edge) :
  (forall e, In e es -> plain (key e)) ->
  fold_left (add_weight g key) es (Some []) = Some (tally es).
Proof.
  unfold tally. induction es as [|e es IH] using rev_ind; intros Hp; [reflexivity|].
  rewrite !fold_left_app, IH by (intros e' He'; apply Hp, in_or_app; now left).
  cbn [fold_left add_weight].
  assert (Pe : plain (key e)) by (apply Hp, in_or_app; right; now left).
  rewrite (obj_get_plain _ Pe). apply obj_set_put, plain_not_proto, Pe.
Qed.

End Tally.

Lemma filter_comm {A : Type} (p q : A -> bool) (l : list A) :
  filter p (filter q l) = filter q (filter p l).
Proof.
  induction l as [|x l IH]; [reflexivity|]. simpl.
  destruct (p x) eqn:P, (q x) eqn:Q; simpl; rewrite ?P, ?Q, IH; reflexivity.
Qed.

Lemma collect_map {A B : Type} (f : A -> option B) (f' : A -> B) (l : list A) :
  (forall a, In a l -> f a = Some (f' a)) -> collect (map f l) = Some (map f' l).
Proof.
  induction l as [|a l IH]; intros H; [reflexivity|].
  cbn [map collect]. rewrite (H a (or_introl eq_refl)), IH; [reflexivity|].
  intros a' Ha'. apply H. now right.
Qed.

(** No node id and no end of an edge names a member of
    [Object.prototype]. *)
Definition plain_ids (g : Graph) : Prop :=
  (forall v, In v (nodes g) -> plain v) /\
  (forall e, In e (edges g) -> plain (e_v e) /\ plain (e_w e)).

Lemma successorWeights_plain (g : Graph) :
  plain_ids g ->
  successorWeights g
  = Some (zipped (nodes g) (map (fun v => tally g e_w (outEdges g v)) (nodes g))).
Proof.
  intros [Hn He]. unfold successorWeights.
  rewrite (@collect_map _ _ _ (fun v => tally g e_w (outEdges g v))).
  - apply zipObject_zipped. intros H. apply Hn in H. discriminate H.
  - intros v _. apply add_weight_tally. intros e Hin.
    unfold outEdges in Hin. apply filter_In in Hin. now apply He.
Qed.

Lemma predecessorWeights_plain (g : Graph) :
  plain_ids g ->
  predecessorWeights g
  = Some (zipped (nodes g) (map (fun v => tally g e_v (inEdges g v)) (nodes g))).
Proof.
  intros [Hn He]. unfold predecessorWeights.
  rewrite (@collect_map _ _ _ (fun v => tally g e_v (inEdges g v))).
  - apply zipObject_zipped. intros H. apply Hn in H. discriminate H.
  - intros v _. apply add_weight_tally. intros e Hin.
    unfold inEdges in Hin. apply filter_In in Hin. now apply He.
Qed.

(** The own property [k2] of the object that is the own property [k1]. *)
Definition lookup2 {A : Type} (obj : Obj (option (Obj A))) (k1 k2 : string) : option A :=
  match lookup k1 obj with
  | Some (Some inner) => lookup k2 inner
  | _ => None
  end.

(** X5. On a graph none of whose ids names a member of
    [Object.prototype], the two adjacency maps agree: for nodes [v] and
    [w], the weight stored under [w] in the successors of [v] is the
    weight stored under [v] in the predecessors of [w], a missing entry on
    one side being missing on the other. *)
Theorem successor_predecessor_weights_agree (g : Graph) (v w : string) :
  plain_ids g -> In v (nodes g) -> In w (nodes g) ->
  exists sucs preds,
    successorWeights g = Some sucs /\
    predecessorWeights g = Some preds /\
    lookup2 sucs v w = lookup2 preds w v.
Proof.
  intros Hp Hv Hw. eexists. eexists.
  split; [now apply successorWeights_plain|].
  split; [now apply predecessorWeights_plain|].
  unfold lookup2.
  rewrite (zipped_map (fun v => tally g e_w (outEdges g v)) _ _ Hv),
          (zipped_map (fun w => tally g e_v (inEdges g w)) _ _ Hw), !tally_lookup.
  unfold outEdges, inEdges. now rewrite filter_comm.
Qed.

(** Every edge of the graph carries an integer weight. *)
Definition integer_weights (g : Graph) : Prop :=
  forall e, In e (edges g) -> exists z, edge_weight g e = Int z.

(** The integer read off a weight. *)
Definition weightZ (g : Graph) (e : Edge) : Z :=
  match edge_weight g e with
  | Fin q => Qfloor q
  | _ => 0%Z
  end.

Definition Zsum (zs : list Z) : Z := fold_right Z.add 0%Z zs.

Lemma Zsum_snoc (zs : list Z) (z : Z) : Zsum (zs ++ [z]) = (Zsum zs + z)%Z.
Proof. unfold Zsum. induction zs as [|y zs IH]; simpl; lia. Qed.

Lemma Zsum_abs (zs : list Z) : (Z.abs (Zsum zs) <= Zsum (map Z.abs zs))%Z.
Proof. unfold Zsum. induction zs as [|y zs IH]; simpl; lia. Qed.

Lemma or_zero_Int (z : Z) : or_zero (Some (Int z)) = Int z.
Proof.
  unfold or_zero, truthy, Int. change 0%Q with (inject_Z 0).
  rewrite JSNumFacts.Qeq_bool_inject_Z.
  destruct (Z.eqb_spec z 0); simpl; [now subst | reflexivity].
Qed.

Lemma accumulate_Int (zs : list Z) :
  accumulate (map Int zs) =
  match zs with
  | [] => None
  | _ => Some (Int (Zsum zs))
  end.
Proof.
  induction zs as [|z zs IH] using rev_ind; [reflexivity|].
  rewrite map_app. simpl. rewrite accumulate_snoc, IH.
  destruct zs as [|y zs]; simpl app.
  - cbn [or_zero]. rewrite JSNumFacts.num_add_Int.
    do 2 f_equal. unfold Zsum. simpl. lia.
  - rewrite or_zero_Int, JSNumFacts.num_add_Int.
    change (y :: zs ++ [z]) with ((y :: zs) ++ [z]). now rewrite Zsum_snoc.
Qed.

(** X6. On a graph none of whose ids names a member of
    [Object.prototype], with integer edge weights whose magnitudes from
    [v] to [w] add up to 2^53 at most, the weight stored under [w] in the
    successors of [v] is the sum of the weights of the edges from [v] to
    [w], an integer within 2^53; nothing is stored under [w] when there is
    no such edge. *)
Theorem successorWeights_sums (g : Graph) (v w : string) :
  plain_ids g -> In v (nodes g) -> integer_weights g ->
  (Zsum (map Z.abs (map (weightZ g) (edges_between g v w))) <= 9007199254740992)%Z ->
  exists sucs,
    successorWeights g = Some sucs /\
    lookup2 sucs v w =
      match edges_between g v w with
      | [] => None
      | es => Some (Int (Zsum (map (weightZ g) es)))
      end /\
    (Z.abs (Zsum (map (weightZ g) (edges_between g v w))) <= 9007199254740992)%Z.
Proof.
  intros Hp Hv Hint Hbound. eexists.
  split; [now apply successorWeights_plain|]. split.
  - unfold lookup2.
    rewrite (zipped_map (fun v => tally g e_w (outEdges g v)) _ _ Hv), tally_lookup.
    fold (edges_between g v w).
    assert (E : map (edge_weight g) (edges_between g v w)
                = map Int (map (weightZ g) (edges_between g v w))).
    { rewrite map_map. apply map_ext_in. intros e He.
      unfold edges_between, outEdges in He.
      apply filter_In in He. destruct He as [He _].
      apply filter_In in He. destruct He as [He _].
      destruct (Hint e He) as [z Hz]. unfold weightZ. rewrite Hz.
      unfold Int. now rewrite Qfloor_Z. }
    rewrite E, accumulate_Int.
    now destruct (edges_between g v w).
  - eapply Z.le_trans; [apply Zsum_abs | exact Hbound].
Qed.

(** Two parallel edges from a to b, with weights 2 and 3, and one from a
    to c. *)
Definition g_parallel : Graph :=
  mkGraph [("a", Label.empty); ("b", Label.empty); ("c", Label.empty)]%string
          [(mkEdge "a" "b" (Some "x"), mkEdgeLabel (Some (Int 2)) (Some (Int 1)));
           (mkEdge "a" "c" None, mkEdgeLabel (Some (Int 1)) (Some (Int 0)));
           (mkEdge "a" "b" (Some "y"), mkEdgeLabel (Some (Int 3)) (Some (Int 4)))]%string
          [] (mkGraphLabel None None).

Lemma g_parallel_integer_weights : integer_weights g_parallel.
Proof.
  intros e [<-|[<-|[<-|[]]]]; eexists; reflexivity.
Qed.

Lemma g_parallel_plain_ids : plain_ids g_parallel.
Proof.
  split.
  - intros v [<-|[<-|[<-|[]]]]; reflexivity.
  - intros e [<-|[<-|[<-|[]]]]; split; reflexivity.
Qed.

Lemma successorWeights_sums_witness :
  exists sucs,
    successorWeights g_parallel = Some sucs /\
    lookup2 sucs "a" "b" = Some (Int 5).
Proof.
  destruct (@successorWeights_sums g_parallel "a"%string "b"%string)
    as (sucs & E & H & _).
  - exact g_parallel_plain_ids.
  - simpl. auto.
  - exact g_parallel_integer_weights.
  - vm_compute. discriminate.
  - exists sucs. split; [exact E | exact H].
Defined.

Lemma successor_predecessor_weights_agree_witness :
  exists sucs preds,
    successorWeights g_parallel = Some sucs /\
    predecessorWeights g_parallel = Some preds /\
    lookup2 sucs "a" "b" = lookup2 preds "b" "a".
Proof.
  apply (@successor_predecessor_weights_agree g_parallel "a"%string "b"%string).
  - exact g_parallel_plain_ids.
  - simpl. auto.
  - simpl. auto.
Defined.

(** A node called [toString]: the first read of [sucs["toString"]] yields
    the inherited function. *)
Example successorWeights_inherited_id :
  successorWeights
    (mkGraph [("a", Label.empty); ("toString", Label.empty)]%string
             [(mkEdge "a" "toString" None, mkEdgeLabel (Some (Int 1)) (Some (Int 1)))]%string
             [] (mkGraphLabel None None))
  = None.
Proof. reflexivity. Qed.

End CollectionFacts.

(** ** lib/util.js: simplify *)

Module SimplifyFacts.
Import Graphlib UtilMore GraphFacts CollectionFacts JSNumFacts.

Lemma Edge_eqb_eq (e e' : Edge) : Edge_eqb e e' = true <-> e = e'.
Proof.
  destruct e as [v w n], e' as [v' w' n']. unfold Edge_eqb. simpl.
  rewrite !andb_true_iff, !String.eqb_eq. split.
  - intros [[-> ->] H]. destruct n, n'; try discriminate; [|reflexivity].
    apply String.eqb_eq in H. now subst.
  - intros H. injection H as -> -> ->. repeat split.
    destruct n'; [apply String.eqb_refl | reflexivity].
Qed.

Lemma Edge_eqb_refl (e : Edge) : Edge_eqb e e = true.
Proof. now apply Edge_eqb_eq. Qed.

Lemma Edge_eqb_neq (e e' : Edge) : Edge_eqb e e' = false <-> e <> e'.
Proof.
  rewrite <- Edge_eqb_eq. destruct (Edge_eqb e e'); split; congruence.
Qed.

Lemma existsb_edge (es : list (Edge * EdgeLabel)) (e : Edge) :
  existsb (fun p => Edge_eqb e (fst p)) es = true <-> In e (map fst es).
Proof.
  rewrite existsb_exists, in_map_iff. split.
  - intros (p & Hp & E). apply Edge_eqb_eq in E. eauto.
  - intros (p & E & Hp). exists p. split; [assumption|]. now apply Edge_eqb_eq.
Qed.

Lemma edge_None (es : list (Edge * EdgeLabel)) (e : Edge) :
  edge es e = None <-> ~ In e (map fst es).
Proof.
  induction es as [|[e' l] es IH]; simpl; [tauto|].
  destruct (Edge_eqb e e') eqn:E.
  - apply Edge_eqb_eq in E. subst. split; [discriminate | intros H; exfalso; auto].
  - apply Edge_eqb_neq in E. rewrite IH. split; [intros H [H1|H1]; auto | tauto].
Qed.

Lemma edge_In (es : list (Edge * EdgeLabel)) (e : Edge) :
  In e (map fst es) -> exists l, edge es e = Some l.
Proof.
  intros H. destruct (edge es e) as [l|] eqn:E; [eauto|].
  apply edge_None in E. contradiction.
Qed.

Lemma edge_relabel (es : list (Edge * EdgeLabel)) (e q : Edge) (l : EdgeLabel) :
  edge (map (fun p => if Edge_eqb e (fst p) then (fst p, l) else p) es) q
  = if Edge_eqb q e then option_map (fun _ => l) (edge es e) else edge es q.
Proof.
  induction es as [|[e' l'] es IH]; simpl.
  - now destruct (Edge_eqb q e).
  - destruct (Edge_eqb e e') eqn:E; simpl.
    + apply Edge_eqb_eq in E. subst e'. now destruct (Edge_eqb q e).
    + destruct (Edge_eqb q e') eqn:Q.
      * apply Edge_eqb_eq in Q. subst e'.
        assert (Q' : Edge_eqb q e = false).
        { apply Edge_eqb_neq. apply Edge_eqb_neq in E. congruence. }
        now rewrite Q'.
      * exact IH.
Qed.

Lemma edge_app (es1 es2 : list (Edge * EdgeLabel)) (q : Edge) :
  edge (es1 ++ es2) q =
  match edge es1 q with
  | Some l => Some l
  | None => edge es2 q
  end.
Proof.
  induction es1 as [|[e l] es1 IH]; simpl; [reflexivity|].
  now destruct (Edge_eqb q e).
Qed.

(** Reading an edge after [setEdge]. *)
Lemma edge_setEdge (s : Graph) (v w : string) (l : EdgeLabel) (q : Edge) :
  edge (g_edges (setEdge s v w l)) q
  = if Edge_eqb q (mkEdge v w None) then Some l else edge (g_edges s) q.
Proof.
  unfold setEdge.
  destruct (existsb (fun p => Edge_eqb (mkEdge v w None) (fst p)) (g_edges s)) eqn:E;
    cbn [g_edges with_edges].
  - rewrite edge_relabel. destruct (Edge_eqb q (mkEdge v w None)); [|reflexivity].
    apply existsb_edge, edge_In in E. destruct E as [l' ->]. reflexivity.
  - rewrite edge_app. simpl.
    destruct (Edge_eqb q (mkEdge v w None)) eqn:Q.
    + apply Edge_eqb_eq in Q. subst q.
      assert (N : edge (g_edges s) (mkEdge v w None) = None).
      { apply edge_None. intros H. apply existsb_edge in H. congruence. }
      now rewrite N.
    + now destruct (edge (g_edges s) q).
Qed.

Lemma edges_setEdge (s : Graph) (v w : string) (l : EdgeLabel) :
  edges (setEdge s v w l)
  = if existsb (fun p => Edge_eqb (mkEdge v w None) (fst p)) (g_edges s)
    then edges s else edges s ++ [mkEdge v w None].
Proof.
  unfold setEdge, edges.
  destruct (existsb _ (g_edges s)); cbn [g_edges with_edges].
  - rewrite map_map. apply map_ext. intros [e' l']. simpl.
    now destruct (Edge_eqb (mkEdge v w None) e').
  - now rewrite map_app.
Qed.

Lemma NoDup_snoc {A : Type} (l : list A) (x : A) :
  NoDup l -> ~ In x l -> NoDup (l ++ [x]).
Proof.
  intros Hl Hx. apply NoDup_rev in Hl.
  rewrite <- (rev_involutive (l ++ [x])). apply NoDup_rev.
  rewrite rev_app_distr. simpl. constructor; [|assumption].
  now rewrite <- in_rev.
Qed.

(** [g.edge(e).minlen] for an edge object [e] of [g]. *)
Definition edge_minlen (g : Graph) (e : Edge) : num :=
  match edge (g_edges g) e with
  | Some label => to_num (minlen label)
  | None => NaN
  end.

Section Merge.
Variable g : Graph.

(** The body of [g.edges().forEach] in [simplify]. *)
Definition merge_step (simplified : Graph) (e : Edge) : Graph :=
  let simpleLabel :=
    match edge (g_edges simplified) (mkEdge (e_v e) (e_w e) None) with
    | Some l => l
    | None => mkEdgeLabel (Some (Int 0)) (Some (Int 1))
    end in
  match edge (g_edges g) e with
  | Some label =>
      setEdge simplified (e_v e) (e_w e)
        (mkEdgeLabel
           (Some (num_add (to_num (weight simpleLabel)) (to_num (weight label))))
           (Some (Math_max [to_num (minlen simpleLabel); to_num (minlen label)])))
  | None => simplified
  end.

Definition total_weight (es : list Edge) : num :=
  fold_left (fun a e => num_add a (edge_weight g e)) es (Int 0).

Definition greatest_minlen (es : list Edge) : num :=
  fold_left (fun a e => max2 a (edge_minlen g e)) es (Int 1).

Definition merged (es : list Edge) : option EdgeLabel :=
  match es with
  | [] => None
  | _ => Some (mkEdgeLabel (Some (total_weight es)) (Some (greatest_minlen es)))
  end.

Definition between (v w : string) (es : list Edge) : list Edge :=
  filter (fun e => String.eqb (e_w e) w) (filter (fun e => String.eqb (e_v e) v) es).

Lemma between_snoc (v w : string) (es : list Edge) (e : Edge) :
  between v w (es ++ [e]) =
  between v w es ++ (if String.eqb (e_v e) v && String.eqb (e_w e) w then [e] else []).
Proof.
  unfold between. rewrite !filter_app. simpl.
  destruct (String.eqb (e_v e) v); simpl; [|reflexivity].
  now destruct (String.eqb (e_w e) w).
Qed.

Lemma merged_snoc (es : list Edge) (e : Edge) :
  merged (es ++ [e]) =
  Some (mkEdgeLabel (Some (num_add (total_weight es) (edge_weight g e)))
                    (Some (max2 (greatest_minlen es) (edge_minlen g e)))).
Proof.
  unfold merged, total_weight, greatest_minlen. rewrite !fold_left_app. simpl.
  now destruct es.
Qed.

Lemma same_pair (v w : string) (e : Edge) :
  Edge_eqb (mkEdge v w None) (mkEdge (e_v e) (e_w e) None)
  = String.eqb (e_v e) v && String.eqb (e_w e) w.
Proof.
  unfold Edge_eqb. simpl. rewrite andb_true_r.
  now rewrite (String.eqb_sym v), (String.eqb_sym w).
Qed.

Record Merged (s0 : Graph) (es : list Edge) (s : Graph) : Prop := mkMerged {
  merged_nodes : g_nodes s = g_nodes s0;
  merged_graph : g_graph s = g_graph s0;
  merged_parent : g_parent s = g_parent s0;
  merged_label : forall v w, edge (g_edges s) (mkEdge v w None) = merged (between v w es);
  merged_edges : forall e, In e (edges s) <->
                   e_name e = None /\ between (e_v e) (e_w e) es <> [];
  merged_NoDup : NoDup (edges s)
}.

Lemma merge_all (s0 : Graph) (es : list Edge) :
  g_edges s0 = [] -> (forall e, In e es -> In e (edges g)) ->
  Merged s0 es (fold_left merge_step es s0).
Proof.
  intros H0. induction es as [|e es IH] using rev_ind; intros Hes.
  - simpl. split; try reflexivity.
    + intros v w. now rewrite H0.
    + intros e. unfold edges. rewrite H0. simpl. split; [contradiction|].
      intros [_ H]. now apply H.
    + unfold edges. rewrite H0. constructor.
  - assert (Hes' : forall e', In e' es -> In e' (edges g))
      by (intros e' H; apply Hes, in_or_app; now left).
    specialize (IH Hes'). destruct IH as [I1 I2 I3 I4 I5 I6].
    rewrite fold_left_app. simpl.
    set (s := fold_left merge_step es s0) in *.
    assert (He : In e (edges g)) by (apply Hes, in_or_app; right; now left).
    destruct (edge_In (g_edges g) e He) as [label Hl].
    assert (Wt : edge_weight g e = to_num (weight label))
      by (unfold edge_weight; now rewrite Hl).
    assert (Ml : edge_minlen g e = to_num (minlen label))
      by (unfold edge_minlen; now rewrite Hl).
    unfold merge_step. rewrite Hl, I4.
    set (prev := between (e_v e) (e_w e) es).
    set (l' := mkEdgeLabel _ _).
    assert (El' : Some l' = merged (prev ++ [e])).
    { rewrite merged_snoc, Wt, Ml. unfold l'. f_equal.
      assert (Mx : forall a b, Math_max [a; b] = max2 a b).
      { intros a b. unfold Math_max. cbn [fold_left]. now rewrite max2_NegInfinity_l. }
      rewrite Mx. unfold merged.
      destruct prev as [|p prev']; [reflexivity|]. reflexivity. }
    split.
    + unfold setEdge. now destruct (existsb _ _).
    + unfold setEdge. now destruct (existsb _ _).
    + unfold setEdge. now destruct (existsb _ _).
    + intros v w. rewrite edge_setEdge, same_pair, between_snoc.
      destruct (String.eqb (e_v e) v && String.eqb (e_w e) w) eqn:E.
      * apply andb_true_iff in E. destruct E as [Ev Ew].
        apply String.eqb_eq in Ev, Ew. subst v w. exact El'.
      * rewrite List.app_nil_r. apply I4.
    + intros e'. rewrite edges_setEdge.
      assert (Hin : In e' (edges s ++ [mkEdge (e_v e) (e_w e) None]) <->
                    e_name e' = None /\ between (e_v e') (e_w e') (es ++ [e]) <> []).
      { rewrite in_app_iff, I5, between_snoc. simpl. split.
        - intros [[Hn Hb]|[<-|[]]].
          + split; [assumption|]. intros H. apply app_eq_nil in H. now destruct H.
          + simpl. split; [reflexivity|]. rewrite !String.eqb_refl. simpl.
            intros H. apply app_eq_nil in H. destruct H; discriminate.
        - intros [Hn Hb].
          destruct (String.eqb (e_v e) (e_v e') && String.eqb (e_w e) (e_w e')) eqn:E.
          + right. left. apply andb_true_iff in E. destruct E as [Ev Ew].
            apply String.eqb_eq in Ev, Ew. destruct e' as [v' w' n']. simpl in *.
            now subst.
          + left. split; [assumption|]. now rewrite List.app_nil_r in Hb. }
      destruct (existsb _ (g_edges s)) eqn:E; [|exact Hin].
      rewrite <- Hin, in_app_iff. split; [now left|].
      intros [H|[<-|[]]]; [assumption|]. now apply existsb_edge in E.
    + rewrite edges_setEdge.
      destruct (existsb _ (g_edges s)) eqn:E; [assumption|].
      apply NoDup_snoc; [assumption|].
      intros H. apply existsb_edge in H. unfold edges in H. congruence.
Qed.

End Merge.

(** The nodes of [g] copied into an empty graph. *)
Lemma copy_nodes (gl : GraphLabel) (ns : list (string * Label.t)) :
  forall pre,
    NoDup (map fst pre) ->
    (forall p, In p pre -> lookup (fst p) ns = Some (snd p)) ->
    fold_left (fun simplified v =>
      match lookup v ns with
      | Some label => setNode simplified v label
      | None => simplified
      end) (map fst pre) (mkGraph [] [] [] gl)
    = mkGraph pre [] [] gl.
Proof.
  induction pre as [|[k l] pre IH] using rev_ind; intros Hnd Hl; [reflexivity|].
  rewrite map_app in *. simpl in *.
  apply NoDup_remove in Hnd. rewrite List.app_nil_r in Hnd. destruct Hnd as [Hnd Hk].
  rewrite fold_left_app, IH; [|assumption|intros p Hp; apply Hl, in_or_app; now left].
  assert (Hkl : lookup k ns = Some l)
    by (apply (Hl (k, l)), in_or_app; right; now left).
  simpl. rewrite Hkl.
  unfold setNode, hasNode, nodes. simpl.
  assert (E : existsb (String.eqb k) (map fst pre) = false).
  { destruct (existsb (String.eqb k) (map fst pre)) eqn:E; [|reflexivity].
    apply existsb_exists in E. destruct E as (x & Hx & E).
    apply String.eqb_eq in E. now subst. }
  now rewrite E.
Qed.

Lemma lookup_In_NoDup {A : Type} (ns : list (string * A)) (p : string * A) :
  NoDup (map fst ns) -> In p ns -> lookup (fst p) ns = Some (snd p).
Proof.
  induction ns as [|[k a] ns IH]; intros Hnd Hp; [contradiction|].
  inversion Hnd as [|? ? Hk Hnd']; subst. simpl.
  destruct Hp as [<-|Hp]; simpl.
  - now rewrite String.eqb_refl.
  - destruct (String.eqb (fst p) k) eqn:E; [|now apply IH].
    apply String.eqb_eq in E. subst k. exfalso. apply Hk. now apply in_map.
Qed.

Lemma simplify_unfold (g : Graph) :
  simplify g =
  fold_left (merge_step g) (edges g)
    (fold_left (fun simplified v =>
       match node g v with
       | Some label => setNode simplified v label
       | None => simplified
       end) (nodes g) (mkGraph [] [] [] (g_graph g))).
Proof. reflexivity. Qed.

Lemma copied_nodes_no_edge (g : Graph) (vs : list string) : forall s,
  g_edges s = [] ->
  g_edges (fold_left (fun simplified v =>
       match node g v with
       | Some label => setNode simplified v label
       | None => simplified
       end) vs s) = [] /\
  g_graph (fold_left (fun simplified v =>
       match node g v with
       | Some label => setNode simplified v label
       | None => simplified
       end) vs s) = g_graph s.
Proof.
  induction vs as [|v vs IH]; intros s Hs; [now split|].
  simpl. destruct (node g v) as [l|]; [|now apply IH].
  destruct (IH (setNode s v l)) as [E1 E2].
  - unfold setNode. now destruct (hasNode s v).
  - split; [exact E1|]. rewrite E2. unfold setNode. now destruct (hasNode s v).
Qed.

(** X7. [simplify(g)] keeps the nodes of [g] with their labels and the
    graph label, and has exactly one edge, without a name, for each ordered
    pair of nodes that [g] joins by at least one edge. *)
Theorem simplify_structure (g : Graph) :
  NoDup (nodes g) ->
  g_nodes (simplify g) = g_nodes g /\
  g_graph (simplify g) = g_graph g /\
  NoDup (edges (simplify g)) /\
  forall e, In e (edges (simplify g)) <->
            e_name e = None /\ edges_between g (e_v e) (e_w e) <> [].
Proof.
  intros Hnd. rewrite simplify_unfold.
  set (s0 := fold_left _ (nodes g) _).
  assert (E0 : s0 = mkGraph (g_nodes g) [] [] (g_graph g)).
  { unfold s0, node, nodes. apply copy_nodes; [exact Hnd|].
    intros p Hp. now apply lookup_In_NoDup. }
  destruct (@merge_all g s0 (edges g)) as [I1 I2 I3 I4 I5 I6];
    [now rewrite E0 | auto |].
  split; [now rewrite I1, E0|]. split; [now rewrite I2, E0|].
  split; [exact I6 | exact I5].
Qed.

Lemma fold_left_over_map {A B : Type} (op : A -> A -> A) (f : B -> A) (l : list B) :
  forall a, fold_left (fun a e => op a (f e)) l a = fold_left op (map f l) a.
Proof.
  induction l as [|x l IH]; intros a; [reflexivity|]. simpl. apply IH.
Qed.

(** X8. In [simplify(g)] the edge from [v] to [w] carries the sum of the
    weights of the edges of [g] from [v] to [w], and the greatest of their
    [minlen] values and 1; there is no such edge when [g] has none. *)
Theorem simplify_merges_labels (g : Graph) (v w : string) :
  edge (g_edges (simplify g)) (mkEdge v w None) =
  match edges_between g v w with
  | [] => None
  | es => Some (mkEdgeLabel
                  (Some (fold_left num_add (map (edge_weight g) es) (Int 0)))
                  (Some (Math_max (Int 1 :: map (edge_minlen g) es))))
  end.
Proof.
  rewrite simplify_unfold.
  set (s0 := fold_left _ (nodes g) _).
  assert (E0 : g_edges s0 = []).
  { apply (copied_nodes_no_edge g (nodes g) (mkGraph [] [] [] (g_graph g))).
    reflexivity. }
  destruct (@merge_all g s0 (edges g) E0 (fun e H => H)) as [_ _ _ I4 _ _].
  rewrite I4. fold (edges_between g v w).
  change (between v w (edges g)) with (edges_between g v w).
  assert (TW : forall l, total_weight g l
                         = fold_left num_add (map (edge_weight g) l) (Int 0))
    by (intros l; apply fold_left_over_map).
  assert (GM : forall l, greatest_minlen g l
                         = Math_max (Int 1 :: map (edge_minlen g) l)).
  { intros l. unfold Math_max, greatest_minlen. cbn [fold_left].
    rewrite max2_NegInfinity_l. apply fold_left_over_map. }
  unfold merged.
  destruct (edges_between g v w) as [|e es]; [reflexivity|].
  now rewrite TW, GM.
Qed.

Lemma g_parallel_NoDup : NoDup (nodes g_parallel).
Proof. repeat constructor; simpl; intuition discriminate. Qed.

Lemma simplify_structure_witness :
  g_nodes (simplify g_parallel) = g_nodes g_parallel /\
  g_graph (simplify g_parallel) = g_graph g_parallel /\
  NoDup (edges (simplify g_parallel)) /\
  forall e, In e (edges (simplify g_parallel)) <->
            e_name e = None /\ edges_between g_parallel (e_v e) (e_w e) <> [].
Proof.
  apply (@simplify_structure g_parallel). exact g_parallel_NoDup.
Defined.

(** The parallel edges of weights 2 and 3 and [minlen] 1 and 4 become one
    edge of weight 5 and [minlen] 4; the single edge of [minlen] 0 gets
    [minlen] 1. *)
Example simplify_parallel :
  g_edges (simplify g_parallel)
  = [(mkEdge "a" "b" None, mkEdgeLabel (Some (Int 5)) (Some (Int 4)));
     (mkEdge "a" "c" None, mkEdgeLabel (Some (Int 1)) (Some (Int 1)))].
Proof. reflexivity. Qed.

End SimplifyFacts.

(** ** lib/util.js: range and splitToChunks *)

Module RangeFacts.
Import JSNumFacts Util.

(** The terms [a, a + s, a + 2 s, ...], [n] of them. *)
Definition progression (a s : Z) (n : nat) : list num :=
  map (fun k => Int (a + Z.of_nat k * s)) (seq 0 n).

Lemma progression_S (a s : Z) (n : nat) :
  progression a s (S n) = Int a :: progression (a + s) s n.
Proof.
  unfold progression. simpl. f_equal; [f_equal; lia|].
  rewrite <- seq_shift, map_map. apply map_ext. intros k. f_equal. lia.
Qed.

(** The loop of [range] on integers, for either direction of the test. *)
Lemma range_loop_progression (endCon : num -> bool) (before : Z -> bool) (s : Z) :
  (forall z, endCon (Int z) = before z) ->
  forall n fuel a,
    (n <= fuel)%nat ->
    (forall k, (k < n)%nat -> before (a + Z.of_nat k * s)%Z = true) ->
    before (a + Z.of_nat n * s)%Z = false ->
    range_loop fuel endCon (Int a) (Int s) = Some (progression a s n).
Proof.
  intros HendCon. induction n as [|n IH]; intros fuel a Hf Hin Hout.
  - replace (a + Z.of_nat 0 * s)%Z with a in Hout by lia.
    destruct fuel; cbn [range_loop]; now rewrite HendCon, Hout.
  - destruct fuel as [|fuel]; [lia|].
    cbn [range_loop]. rewrite HendCon.
    assert (H0 : before a = true).
    { specialize (Hin O ltac:(lia)). now replace (a + Z.of_nat 0 * s)%Z with a in Hin by lia. }
    rewrite H0, num_add_Int, (IH fuel (a + s)%Z), progression_S; [reflexivity|lia| |].
    + intros k Hk. specialize (Hin (S k) ltac:(lia)).
      now replace (a + s + Z.of_nat k * s)%Z with (a + Z.of_nat (S k) * s)%Z by lia.
    + now replace (a + s + Z.of_nat n * s)%Z with (a + Z.of_nat (S n) * s)%Z by lia.
Qed.

(** The budget of the model covers every term that lies before the limit. *)
Lemma range_budget_enough (a limit s : Z) (n : nat) :
  s <> 0%Z ->
  ((Z.of_nat n - 1) * Z.abs s < Z.abs (limit - a))%Z ->
  (n <= range_budget (Int a) (Int limit) (Int s))%nat.
Proof.
  intros Hs Hn. unfold range_budget, Int.
  assert (E : Qeq_bool (inject_Z s) 0 = false).
  { change 0%Q with (inject_Z 0). rewrite Qeq_bool_inject_Z. now apply Z.eqb_neq. }
  rewrite E.
  assert (Q : (Qabs (inject_Z limit - inject_Z a) / Qabs (inject_Z s)
               == inject_Z (Z.abs (limit - a)) / inject_Z (Z.abs s))%Q).
  { unfold Qminus. rewrite <- inject_Z_opp, <- inject_Z_plus. reflexivity. }
  rewrite Q.
  assert (Hpos : (0 < inject_Z (Z.abs s))%Q).
  { change 0%Q with (inject_Z 0). rewrite <- Zlt_Qlt. lia. }
  assert (Hlt : (inject_Z (Z.of_nat n - 1)
                 < inject_Z (Z.abs (limit - a)) / inject_Z (Z.abs s))%Q).
  { apply Qlt_shift_div_l; [exact Hpos|].
    rewrite <- inject_Z_mult, <- Zlt_Qlt. exact Hn. }
  pose proof (Qle_ceiling (inject_Z (Z.abs (limit - a)) / inject_Z (Z.abs s))) as Hc.
  pose proof (Qlt_le_trans _ _ _ Hlt Hc) as Hz.
  rewrite <- Zlt_Qlt in Hz. lia.
Qed.

(** The number of terms of the progression from [a] by steps of [s] that
    lie strictly before [limit]. *)
Definition terms_before (a limit s : Z) : nat :=
  if (0 <? s)%Z then Z.to_nat ((limit - a + s - 1) / s)
  else Z.to_nat ((a - limit - s - 1) / - s).

Lemma terms_before_up (a limit s : Z) (k : nat) :
  (0 < s)%Z ->
  ((k < Z.to_nat ((limit - a + s - 1) / s))%nat <-> (a + Z.of_nat k * s < limit)%Z).
Proof.
  intros Hs.
  pose proof (Z.div_mod (limit - a + s - 1) s ltac:(lia)) as Hdm.
  pose proof (Z.mod_pos_bound (limit - a + s - 1) s Hs) as Hb.
  set (q := ((limit - a + s - 1) / s)%Z) in *.
  set (r := ((limit - a + s - 1) mod s)%Z) in *.
  split; intros H.
  - assert (Hq : (Z.of_nat k + 1 <= q)%Z) by lia. nia.
  - assert (Hq : (Z.of_nat k < q)%Z) by nia. lia.
Qed.

Lemma terms_before_spec (a limit s : Z) (k : nat) :
  s <> 0%Z ->
  ((k < terms_before a limit s)%nat <->
   if (0 <? s)%Z then (a + Z.of_nat k * s < limit)%Z
   else (limit < a + Z.of_nat k * s)%Z).
Proof.
  intros Hs. unfold terms_before. destruct (Z.ltb_spec 0 s) as [Hp|Hn].
  - now apply terms_before_up.
  - replace (a - limit - s - 1)%Z with (- limit - - a + - s - 1)%Z by lia.
    rewrite (terms_before_up (- a) (- limit) (s := - s) k) by lia. lia.
Qed.

(** X9. For integers [a] and [step] of magnitude at most 2^51, [step]
    not zero, and an integer [limit] less than 2^32 away from [a],
    [range(a, limit, step)] returns [a, a + step, a + 2 step, ...]: exactly
    the terms that lie strictly before [limit] in the direction of the
    step.  It is empty when [a] itself is not before [limit].  The array
    has at most as many elements as [limit] is away from [a], and every
    value the loop computes, the first one past [limit] included, is an
    integer within 2^52. *)
Theorem range_integer_step (a limit s : Z) :
  s <> 0%Z -> small a -> small s -> (Z.abs (limit - a) < 4294967296)%Z ->
  exists n,
    range (Int a) (Some (Int limit)) (Int s) = Some (progression a s n) /\
    (forall k, (k < n)%nat <->
               if (0 <? s)%Z then (a + Z.of_nat k * s < limit)%Z
               else (limit < a + Z.of_nat k * s)%Z) /\
    (Z.of_nat n <= Z.abs (limit - a))%Z /\
    forall k, (k <= n)%nat -> (Z.abs (a + Z.of_nat k * s) <= 4503599627370496)%Z.
Proof.
  intros Hs Sa Ss Hd. exists (terms_before a limit s).
  assert (Hspec : forall k, (k < terms_before a limit s)%nat <->
                    if (0 <? s)%Z then (a + Z.of_nat k * s < limit)%Z
                    else (limit < a + Z.of_nat k * s)%Z)
    by (intros k; now apply terms_before_spec).
  split; [|split; [exact Hspec|]].
  - assert (Hlast : ~ (terms_before a limit s < terms_before a limit s)%nat) by lia.
    rewrite terms_before_spec in Hlast by assumption.
    assert (Hbudget : (terms_before a limit s
                       <= range_budget (Int a) (Int limit) (Int s))%nat).
    { destruct (terms_before a limit s) as [|m] eqn:Em; [lia|].
      apply range_budget_enough; [assumption|].
      assert (Hm : (m < terms_before a limit s)%nat) by lia.
      rewrite terms_before_spec in Hm by assumption.
      destruct (Z.ltb_spec 0 s); nia. }
    unfold range. rewrite num_ltb_Int.
    destruct (Z.ltb_spec s 0) as [Hneg|Hpos].
    + assert (E : (0 <? s)%Z = false) by (apply Z.ltb_ge; lia).
      rewrite E in Hlast.
      apply (@range_loop_progression _ (fun z => (limit <? z)%Z) s).
      * intros z. apply num_ltb_Int.
      * exact Hbudget.
      * intros k Hk. apply terms_before_spec in Hk; [|assumption].
        rewrite E in Hk. now apply Z.ltb_lt.
      * apply Z.ltb_ge. lia.
    + assert (E : (0 <? s)%Z = true) by (apply Z.ltb_lt; lia).
      rewrite E in Hlast.
      apply (@range_loop_progression _ (fun z => (z <? limit)%Z) s).
      * intros z. apply num_ltb_Int.
      * exact Hbudget.
      * intros k Hk. apply terms_before_spec in Hk; [|assumption].
        rewrite E in Hk. now apply Z.ltb_lt.
      * apply Z.ltb_ge. lia.
  - assert (Hprev : forall k, (k <= terms_before a limit s)%nat -> (1 <= k)%nat ->
              if (0 <? s)%Z then (a + (Z.of_nat k - 1) * s < limit)%Z
              else (limit < a + (Z.of_nat k - 1) * s)%Z).
    { intros k Hk H1. specialize (Hspec (k - 1)%nat).
      replace (Z.of_nat (k - 1)) with (Z.of_nat k - 1)%Z in Hspec by lia.
      apply Hspec. lia. }
    unfold small in *. split.
    + destruct (terms_before a limit s) as [|m] eqn:Em; [lia|].
      specialize (Hprev (S m) (Nat.le_refl _) ltac:(lia)).
      destruct (Z.ltb_spec 0 s); nia.
    + intros k Hk. destruct k as [|k]; [simpl; lia|].
      specialize (Hprev (S k) Hk ltac:(lia)).
      destruct (Z.ltb_spec 0 s); nia.
Qed.

Lemma range_integer_step_witness :
  exists n, range (Int 7) (Some (Int 0)) (Int (-3)) = Some (progression 7 (-3) n).
Proof.
  destruct (@range_integer_step 7 0 (-3)) as (n & H & _);
    try (unfold small; simpl; lia).
  exists n. exact H.
Defined.

Example range_down_by_three :
  range (Int 7) (Some (Int 0)) (Int (-3)) = Some [Int 7; Int 4; Int 1].
Proof. reflexivity. Qed.

(** Numbers that are equal as numbers: finite values are compared as
    rationals. *)
Definition num_equiv (a b : num) : Prop :=
  match a, b with
  | Fin x, Fin y => (x == y)%Q
  | NaN, NaN | NegInfinity, NegInfinity | PosInfinity, PosInfinity => True
  | _, _ => False
  end.

Lemma num_ltb_equiv (a b c : num) : num_equiv a b -> num_ltb a c = num_ltb b c.
Proof.
  destruct a as [| |x|], b as [| |y|]; simpl; try contradiction; try reflexivity.
  intros E. destruct c as [| |z|]; try reflexivity. simpl.
  destruct (Qltb_spec x z), (Qltb_spec y z); try reflexivity; exfalso; lra.
Qed.

Lemma num_add_zero (a b : num) : num_equiv a b -> num_equiv (num_add a (Int 0)) b.
Proof.
  destruct a as [| |x|], b as [| |y|]; simpl; try contradiction; try exact id.
  intros E. unfold inject_Z. lra.
Qed.

Lemma range_loop_stuck (limit start : num) (fuel : nat) : forall i,
  num_equiv i start ->
  range_loop fuel (fun i => num_ltb i limit) i (Int 0)
  = if num_ltb start limit then None else Some [].
Proof.
  induction fuel as [|fuel IH]; intros i Hi; cbn [range_loop];
    rewrite (@num_ltb_equiv i start limit Hi); destruct (num_ltb start limit) eqn:E;
    try reflexivity.
  rewrite IH by now apply num_add_zero. reflexivity.
Qed.

Lemma num_equiv_refl (a : num) : num_equiv a a.
Proof. destruct a; simpl; try exact I. reflexivity. Qed.

(** X10. With a step of 0, [range(start, limit, 0)] returns the empty
    array when [start] is not below [limit]; otherwise its loop is still
    running after any number of iterations, and the call never returns. *)
Theorem range_zero_step (start limit : num) :
  (forall fuel, range_loop fuel (fun i => num_ltb i limit) start (Int 0)
                = if num_ltb start limit then None else Some []) /\
  range start (Some limit) (Int 0) = if num_ltb start limit then None else Some [].
Proof.
  split.
  - intros fuel. apply range_loop_stuck, num_equiv_refl.
  - unfold range. rewrite num_ltb_Int. cbn [Z.ltb Z.compare].
    apply range_loop_stuck, num_equiv_refl.
Qed.

Lemma splitToChunks_loop_slices {A : Type} (chunkSize : nat) :
  (0 < chunkSize)%nat ->
  forall (fuel : nat) (array : list A) (i : nat) (chunk : list A),
    nth_error (splitToChunks_loop fuel array chunkSize) i = Some chunk ->
    chunk = firstn chunkSize (skipn (i * chunkSize) array) /\ chunk <> [].
Proof.
  intros Hpos. induction fuel as [|fuel IH]; intros array i chunk H.
  - destruct array; destruct i; discriminate.
  - destruct array as [|a array]; [destruct i; discriminate|].
    cbn [splitToChunks_loop] in H. destruct i as [|i].
    + injection H as <-. split; [reflexivity|].
      destruct chunkSize; [lia | discriminate].
    + cbn [nth_error] in H. apply IH in H. destruct H as [-> Hne].
      split; [|exact Hne]. rewrite skipn_skipn. do 2 f_equal. lia.
Qed.

Lemma splitToChunks_loop_length {A : Type} (chunkSize : nat) :
  (0 < chunkSize)%nat ->
  forall (fuel : nat) (array : list A),
    (List.length array <= fuel)%nat ->
    (List.length (splitToChunks_loop fuel array chunkSize) * chunkSize
     < List.length array + chunkSize)%nat.
Proof.
  intros Hpos. induction fuel as [|fuel IH]; intros array Hlen.
  - destruct array; simpl in *; lia.
  - destruct array as [|a array]; [simpl; lia|].
    cbn [splitToChunks_loop List.length].
    specialize (IH (skipn chunkSize (a :: array))).
    rewrite length_skipn in IH. cbn [List.length] in *.
    assert (H : (S (List.length array) - chunkSize <= fuel)%nat) by lia.
    specialize (IH H). cbn [Nat.mul].
    destruct (le_lt_dec chunkSize (S (List.length array))) as [Hle|Hlt]; [lia|].
    assert (H0 : List.length (splitToChunks_loop fuel (skipn chunkSize (a :: array))
                                chunkSize) = O) by nia.
    rewrite H0. lia.
Qed.

(** X15. For a positive chunk size, the chunks of [splitToChunks] are the
    consecutive slices [array.slice(i * chunkSize, (i + 1) * chunkSize)]:
    none is empty, together they are the array, and there are no more of
    them than the length of the array requires. *)
Theorem splitToChunks_slices {A : Type} (array : list A) (chunkSize : Z) :
  (0 < chunkSize)%Z ->
  concat (splitToChunks array chunkSize) = array /\
  (forall i chunk, nth_error (splitToChunks array chunkSize) i = Some chunk ->
     chunk = firstn (Z.to_nat chunkSize) (skipn (i * Z.to_nat chunkSize) array) /\
     chunk <> []) /\
  (List.length (splitToChunks array chunkSize) * Z.to_nat chunkSize
   < List.length array + Z.to_nat chunkSize)%nat.
Proof.
  intros Hpos. unfold splitToChunks.
  assert (Hn : (0 < Z.to_nat chunkSize)%nat) by lia.
  split; [|split].
  - now apply UtilFacts.concat_splitToChunks_loop.
  - intros i chunk. now apply splitToChunks_loop_slices.
  - now apply splitToChunks_loop_length.
Qed.

Lemma splitToChunks_slices_witness :
  concat (splitToChunks [1; 2; 3; 4; 5]%nat 2) = [1; 2; 3; 4; 5]%nat.
Proof.
  apply (@splitToChunks_slices nat [1; 2; 3; 4; 5]%nat 2). lia.
Defined.

Example splitToChunks_five_by_two :
  splitToChunks [1; 2; 3; 4; 5]%nat 2 = [[1; 2]; [3; 4]; [5]]%nat.
Proof. reflexivity. Qed.

End RangeFacts.

(** ** lib/util.js: ranks of partly ranked graphs *)

Module RankFacts.
Import Graphlib JSNumFacts UtilFacts GraphFacts Util RankUtil.

Definition is_finite (x : num) : Prop := exists q, x = Fin q.

Lemma num_ltb_trans_false (x y z : num) :
  is_finite x -> is_finite y -> is_finite z ->
  num_ltb x z = false -> num_ltb x y = true -> num_ltb y z = false.
Proof.
  intros [a ->] [b ->] [c ->]. simpl.
  destruct (Qltb_spec a c), (Qltb_spec a b), (Qltb_spec b c);
    try reflexivity; try discriminate. intros _ _. lra.
Qed.

Lemma num_ltb_trans_false' (x y z : num) :
  is_finite x -> is_finite y -> is_finite z ->
  num_ltb z x = false -> num_ltb y x = true -> num_ltb z y = false.
Proof.
  intros [a ->] [b ->] [c ->]. simpl.
  destruct (Qltb_spec c a), (Qltb_spec b a), (Qltb_spec c b);
    try reflexivity; try discriminate. intros _ _. lra.
Qed.

Lemma num_ltb_irrefl (x : num) : num_ltb x x = false.
Proof.
  destruct x as [| |a|]; try reflexivity. simpl.
  destruct (Qltb_spec a a); [lra | reflexivity].
Qed.

(** [Math.max] of finite numbers returns one of them, and none is greater. *)
Lemma Math_max_finite (l : list num) :
  Forall is_finite l -> l <> [] ->
  exists x, In x l /\ Math_max l = x /\ forall y, In y l -> num_ltb x y = false.
Proof.
  induction l as [|y l IH] using rev_ind; intros Hfin Hne; [congruence|].
  apply Forall_app in Hfin. destruct Hfin as [Hl Hy].
  inversion Hy as [|? ? Fy _]; subst.
  unfold Math_max. rewrite fold_left_app. cbn [fold_left]. fold (Math_max l).
  destruct l as [|z l'].
  - exists y. change (Math_max []) with NegInfinity. rewrite max2_NegInfinity_l.
    split; [now left|]. split; [reflexivity|].
    intros y' [<-|[]]. apply num_ltb_irrefl.
  - destruct (IH Hl ltac:(discriminate)) as (x & Hx & -> & Hmax).
    assert (Fx : is_finite x) by (rewrite Forall_forall in Hl; now apply Hl).
    assert (E : max2 x y = if num_ltb x y then y else x).
    { destruct Fx as [a ->], Fy as [b ->]. reflexivity. }
    rewrite E. destruct (num_ltb x y) eqn:Lt.
    + exists y. split; [apply in_or_app; right; now left|]. split; [reflexivity|].
      intros y' Hy'. apply in_app_or in Hy'. destruct Hy' as [Hy'|[<-|[]]].
      * apply (@num_ltb_trans_false x y y' Fx Fy); [|now apply Hmax|assumption].
        rewrite Forall_forall in Hl. now apply Hl.
      * apply num_ltb_irrefl.
    + exists x. split; [apply in_or_app; now left|]. split; [reflexivity|].
      intros y' Hy'. apply in_app_or in Hy'. destruct Hy' as [Hy'|[<-|[]]].
      * now apply Hmax.
      * exact Lt.
Qed.

(** [Math.min] of finite numbers returns one of them, and none is less. *)
Lemma Math_min_finite (l : list num) :
  Forall is_finite l -> l <> [] ->
  exists x, In x l /\ Math_min l = x /\ forall y, In y l -> num_ltb y x = false.
Proof.
  induction l as [|y l IH] using rev_ind; intros Hfin Hne; [congruence|].
  apply Forall_app in Hfin. destruct Hfin as [Hl Hy].
  inversion Hy as [|? ? Fy _]; subst.
  unfold Math_min. rewrite fold_left_app. cbn [fold_left]. fold (Math_min l).
  destruct l as [|z l'].
  - exists y. change (Math_min []) with PosInfinity. rewrite min2_PosInfinity_l.
    split; [now left|]. split; [reflexivity|].
    intros y' [<-|[]]. apply num_ltb_irrefl.
  - destruct (IH Hl ltac:(discriminate)) as (x & Hx & -> & Hmin).
    assert (Fx : is_finite x) by (rewrite Forall_forall in Hl; now apply Hl).
    assert (E : min2 x y = if num_ltb y x then y else x).
    { destruct Fx as [a ->], Fy as [b ->]. reflexivity. }
    rewrite E. destruct (num_ltb y x) eqn:Lt.
    + exists y. split; [apply in_or_app; right; now left|]. split; [reflexivity|].
      intros y' Hy'. apply in_app_or in Hy'. destruct Hy' as [Hy'|[<-|[]]].
      * apply (@num_ltb_trans_false' x y y' Fx Fy); [|now apply Hmin|assumption].
        rewrite Forall_forall in Hl. now apply Hl.
      * apply num_ltb_irrefl.
    + exists x. split; [apply in_or_app; now left|]. split; [reflexivity|].
      intros y' Hy'. apply in_app_or in Hy'. destruct Hy' as [Hy'|[<-|[]]].
      * now apply Hmin.
      * exact Lt.
Qed.

(** Every rank that is assigned is an integer. *)
Definition ranks_integral (g : Graph) : Prop :=
  forall v l r, node g v = Some l -> Label.rank l = Some r -> exists z, r = Int z.

(** The rank of each node, with [d] standing in for a missing one. *)
Definition rank_or (g : Graph) (d : num) (v : string) : num :=
  match node g v with
  | Some l =>
      match Label.rank l with
      | None => d
      | Some rank => rank
      end
  | None => NaN
  end.

Lemma rank_or_cases (g : Graph) (d : num) (v : string) :
  ranks_integral g -> In v (nodes g) ->
  (exists l, node g v = Some l /\ Label.rank l = None /\ rank_or g d v = d) \/
  (exists z, has_rank g v z /\ rank_or g d v = Int z).
Proof.
  intros Hint Hv. destruct (node_In g v Hv) as [l N]. unfold rank_or. rewrite N.
  destruct (Label.rank l) as [r|] eqn:R.
  - right. destruct (Hint v l r N R) as [z ->]. exists z. split; [|reflexivity].
    exists l. now split.
  - left. exists l. now repeat split.
Qed.

Lemma rank_or_has_rank (g : Graph) (d : num) (v : string) (z : Z) :
  has_rank g v z -> rank_or g d v = Int z.
Proof. intros (l & N & R). unfold rank_or. now rewrite N, R. Qed.

Lemma MIN_VALUE_lt_Int (z : Z) : num_ltb MIN_VALUE (Int z) = (1 <=? z)%Z.
Proof.
  unfold MIN_VALUE, Int. cbn [num_ltb].
  destruct (Qltb_spec (1 # 2 ^ 1074) (inject_Z z)) as [H|H];
    destruct (Z.leb_spec 1 z) as [L|L]; try reflexivity; exfalso.
  - unfold Qlt, inject_Z in H. cbn [Qnum Qden] in H. lia.
  - apply H. unfold Qlt, inject_Z. cbn [Qnum Qden].
    assert (P : (1 < Z.pos (2 ^ 1074))%Z) by reflexivity. nia.
Qed.

(** X11. When the greatest assigned rank is an integer of at least 1,
    [maxRank] returns it: nodes without a rank do not change the result. *)
Theorem maxRank_ignores_unranked_above_zero (g : Graph) (m : Z) :
  ranks_integral g ->
  (exists u, has_rank g u m) ->
  (forall v z, has_rank g v z -> (z <= m)%Z) ->
  (1 <= m)%Z ->
  maxRank g = Int m.
Proof.
  intros Hint [u Hu] Hmax Hm. unfold maxRank. cbv zeta.
  rewrite applyWithChunking_Math_max.
  change (Math_max (map (rank_or g MIN_VALUE) (nodes g)) = Int m).
  assert (Iu : In u (nodes g)) by (destruct Hu as (l & N & _); eapply node_Some_In, N).
  destruct (@Math_max_finite (map (rank_or g MIN_VALUE) (nodes g))) as (x & Hx & -> & Hge).
  - apply Forall_forall. intros y Hy. apply in_map_iff in Hy. destruct Hy as (v & <- & Hv).
    destruct (@rank_or_cases g MIN_VALUE v Hint Hv) as [(l & _ & _ & ->)|(z & _ & ->)];
      eexists; reflexivity.
  - intros E. apply (in_map (rank_or g MIN_VALUE)) in Iu. rewrite E in Iu. contradiction.
  - assert (Hin : In (Int m) (map (rank_or g MIN_VALUE) (nodes g))).
    { rewrite <- (@rank_or_has_rank g MIN_VALUE u m Hu). now apply in_map. }
    specialize (Hge (Int m) Hin).
    apply in_map_iff in Hx. destruct Hx as (v & <- & Hv).
    destruct (@rank_or_cases g MIN_VALUE v Hint Hv) as [(l & _ & _ & E)|(z & Hz & E)];
      rewrite E in *.
    + rewrite MIN_VALUE_lt_Int in Hge. apply Z.leb_gt in Hge. lia.
    + rewrite num_ltb_Int in Hge. apply Z.ltb_ge in Hge.
      specialize (Hmax v z Hz). f_equal. lia.
Qed.

(** Ranks 2 and -1, and a cluster node without rank. *)
Definition g_partly_ranked : Graph :=
  mkGraph [("a", Examples.ranked 2); ("sg", Label.empty); ("b", Examples.ranked (-1))]%string
          [(mkEdge "b" "a" None, mkEdgeLabel (Some (Int 1)) (Some (Int 1)))]%string
          [("a", "sg"); ("b", "sg")]%string (mkGraphLabel None None).

Lemma g_partly_ranked_integral : ranks_integral g_partly_ranked.
Proof.
  intros v l r N R. unfold node in N. simpl in N.
  repeat match type of N with
         | (if ?c then _ else _) = _ => destruct c
         end;
    try discriminate; injection N as <-; simpl in R;
    try discriminate; injection R as <-; eexists; reflexivity.
Qed.

Lemma g_partly_ranked_has_rank (v : string) (z : Z) :
  has_rank g_partly_ranked v z -> (v = "a"%string /\ z = 2%Z) \/ (v = "b"%string /\ z = (-1)%Z).
Proof.
  intros (l & N & R). unfold node in N. simpl in N.
  destruct (String.eqb v "a") eqn:Ea; [|destruct (String.eqb v "sg") eqn:Es;
    [|destruct (String.eqb v "b") eqn:Eb]]; try discriminate;
    injection N as <-; cbn [Label.rank Label.set_rank Examples.ranked Label.empty] in R;
    try discriminate; injection R as <-.
  - left. apply String.eqb_eq in Ea. now split.
  - right. apply String.eqb_eq in Eb. now split.
Qed.

Lemma maxRank_ignores_unranked_above_zero_witness :
  maxRank g_partly_ranked = Int 2.
Proof.
  apply (@maxRank_ignores_unranked_above_zero g_partly_ranked 2).
  - exact g_partly_ranked_integral.
  - exists "a"%string. eexists. split; reflexivity.
  - intros v z H. destruct (g_partly_ranked_has_rank H) as [[_ ->]|[_ ->]]; lia.
  - lia.
Defined.

(** [Number.MAX_VALUE] as an integer. *)
Definition max_value : Z := (2 ^ 53 - 1) * 2 ^ 971.

Lemma MAX_VALUE_Int : MAX_VALUE = Int max_value.
Proof. reflexivity. Qed.

Lemma max_value_nonneg : (0 <= max_value)%Z.
Proof. unfold Z.le. vm_compute. discriminate. Qed.

Definition ranks_small (g : Graph) : Prop := forall v z, has_rank g v z -> small z.

Lemma small_le_max_value (z : Z) : small z -> (z <= max_value)%Z.
Proof.
  unfold small. intros H.
  assert (B : (2251799813685248 <= max_value)%Z) by (unfold Z.le; vm_compute; discriminate).
  lia.
Qed.

(** The rewriting of the labels done by [normalizeRanks] for the minimum
    [min]. *)
Definition shift_rank (min : num) (node : Label.t) : Label.t :=
  match Label.rank node with
  | Some rank => Label.set_rank node (Some (num_sub rank min))
  | None => node
  end.

Lemma normalizeRanks_unfold (g : Graph) :
  normalizeRanks g
  = update_all (shift_rank (Math_min (map (rank_or g MAX_VALUE) (nodes g)))) (nodes g) g.
Proof.
  unfold normalizeRanks. cbv zeta. rewrite applyWithChunking_Math_min. reflexivity.
Qed.

(** The minimum that [normalizeRanks] computes is the least assigned rank,
    as soon as one node has a rank that a number can hold. *)
Lemma normalizeRanks_min (g : Graph) (u : string) (zu : Z) :
  ranks_integral g -> has_rank g u zu -> (zu <= max_value)%Z ->
  exists m, is_min_rank g m /\ Math_min (map (rank_or g MAX_VALUE) (nodes g)) = Int m.
Proof.
  intros Hint Hu Hzu.
  assert (Iu : In u (nodes g)) by (destruct Hu as (l & N & _); eapply node_Some_In, N).
  destruct (@Math_min_finite (map (rank_or g MAX_VALUE) (nodes g))) as (x & Hx & E & Hle).
  - apply Forall_forall. intros y Hy. apply in_map_iff in Hy. destruct Hy as (v & <- & Hv).
    destruct (@rank_or_cases g MAX_VALUE v Hint Hv) as [(l & _ & _ & ->)|(z & _ & ->)];
      eexists; reflexivity.
  - intros E. apply (in_map (rank_or g MAX_VALUE)) in Iu. rewrite E in Iu. contradiction.
  - assert (Hrk : forall v z, has_rank g v z -> num_ltb (Int z) x = false).
    { intros v z Hv. apply Hle. rewrite <- (@rank_or_has_rank g MAX_VALUE v z Hv).
      apply in_map. destruct Hv as (l & N & _). eapply node_Some_In, N. }
    apply in_map_iff in Hx. destruct Hx as (v & Ev & Hv).
    destruct (@rank_or_cases g MAX_VALUE v Hint Hv) as [(l & _ & _ & E')|(z & Hz & E')];
      rewrite E' in Ev; subst x.
    + exists zu.
      assert (Hge : forall v z, has_rank g v z -> (max_value <= z)%Z).
      { intros v' z Hv'. specialize (Hrk v' z Hv'). rewrite MAX_VALUE_Int, num_ltb_Int in Hrk.
        now apply Z.ltb_ge in Hrk. }
      pose proof (Hge u zu Hu) as Hu'.
      assert (zu = max_value) by lia. subst zu.
      split; [split; [now exists u | exact Hge]|].
      now rewrite E, MAX_VALUE_Int.
    + exists z. split; [|exact E].
      split; [now exists v|].
      intros v' z' Hv'. specialize (Hrk v' z' Hv'). rewrite num_ltb_Int in Hrk.
      now apply Z.ltb_ge in Hrk.
Qed.

Lemma shift_rank_Int (m z : Z) (l : Label.t) :
  Label.rank l = Some (Int z) ->
  Label.rank (shift_rank (Int m) l) = Some (Int (z - m)).
Proof.
  intros R. unfold shift_rank. rewrite R. cbn [Label.rank Label.set_rank].
  now rewrite num_sub_Int.
Qed.

(** X12. On a graph where the ranks that are assigned are integers of
    magnitude at most 2^51, [normalizeRanks] subtracts the least assigned
    rank from every assigned rank, so that the least becomes 0: nodes
    without a rank have no part in the minimum.  The new ranks lie between
    0 and 2^52. *)
Theorem normalizeRanks_ignores_unranked (g : Graph) (u : string) (zu : Z) :
  NoDup (nodes g) -> ranks_integral g -> ranks_small g -> has_rank g u zu ->
  exists m, is_min_rank g m /\
    forall v z, has_rank g v z ->
      has_rank (normalizeRanks g) v (z - m) /\ (0 <= z - m <= 4503599627370496)%Z.
Proof.
  intros Hnd Hint Hsmall Hu.
  destruct (normalizeRanks_min Hint Hu (small_le_max_value (Hsmall _ _ Hu)))
    as (m & Hmin & Em).
  exists m. split; [exact Hmin|].
  rewrite normalizeRanks_unfold, Em.
  intros v z Hz. split.
  - destruct Hz as (l & N & R). unfold has_rank.
    rewrite (@node_update_all_in (shift_rank (Int m)) (nodes g) g v Hnd (node_Some_In _ _ N)), N.
    eexists. split; [reflexivity|]. now apply shift_rank_Int.
  - destruct Hmin as [[v0 Hv0] Hleast].
    pose proof (Hleast v z Hz) as Hle.
    pose proof (Hsmall v z Hz) as Sz. pose proof (Hsmall v0 m Hv0) as Sm.
    unfold small in *. lia.
Qed.

Lemma g_partly_ranked_small : ranks_small g_partly_ranked.
Proof.
  intros v z H. destruct (g_partly_ranked_has_rank H) as [[_ ->]|[_ ->]];
    unfold small; simpl; lia.
Qed.

Lemma normalizeRanks_ignores_unranked_witness :
  has_rank (normalizeRanks g_partly_ranked) "b" 0 /\
  has_rank (normalizeRanks g_partly_ranked) "a" 3.
Proof.
  destruct (@normalizeRanks_ignores_unranked g_partly_ranked "a"%string 2)
    as (m & [_ Hm] & Hr).
  - repeat constructor; simpl; intuition discriminate.
  - exact g_partly_ranked_integral.
  - exact g_partly_ranked_small.
  - eexists. split; reflexivity.
  - split; eexists; split; reflexivity.
Defined.

(** Either some node has an integer rank or none has. *)
Lemma classic_ranked (g : Graph) :
  (exists u zu, has_rank g u zu) \/ ~ (exists u zu, has_rank g u zu).
Proof.
  assert (Hdec : forall l : Label.t, (exists z, Label.rank l = Some (Int z)) \/
                                      ~ (exists z, Label.rank l = Some (Int z))).
  { intros l. destruct (Label.rank l) as [[| |q|]|]; try (right; intros [z Hz]; discriminate).
    destruct (Qeq_bool q (inject_Z (Qfloor q))) eqn:E.
    - destruct q as [n d]. destruct (Pos.eq_dec d 1) as [->|Hd].
      + left. exists n. reflexivity.
      + right. intros [z Hz]. injection Hz as _ Hd'. contradiction.
    - right. intros [z Hz]. injection Hz as ->.
      unfold Int in E. rewrite Qfloor_Z in E.
      now rewrite (proj2 (Qeq_bool_iff _ _) (Qeq_refl _)) in E. }
  assert (Hlist : forall vs : list string,
            (exists u zu, In u vs /\ has_rank g u zu) \/
            ~ (exists u zu, In u vs /\ has_rank g u zu)).
  { induction vs as [|v vs IH].
    - right. intros (u & zu & [] & _).
    - destruct IH as [(u & zu & Hin & Hu)|IH].
      + left. exists u, zu. split; [now right | assumption].
      + destruct (node g v) as [l|] eqn:N.
        * destruct (Hdec l) as [[z Hz]|Hn].
          -- left. exists v, z. split; [now left|]. exists l. now split.
          -- right. intros (u & zu & [<-|Hin] & Hu).
             ++ destruct Hu as (l' & N' & R'). rewrite N in N'. injection N' as <-.
                apply Hn. eauto.
             ++ apply IH. eauto.
        * right. intros (u & zu & [<-|Hin] & Hu).
          -- destruct Hu as (l' & N' & _). congruence.
          -- apply IH. eauto. }
  destruct (Hlist (nodes g)) as [(u & zu & _ & Hu)|Hn].
  - left. eauto.
  - right. intros (u & zu & Hu). apply Hn. exists u, zu. split; [|assumption].
    destruct Hu as (l & N & _). eapply node_Some_In, N.
Qed.

Lemma normalizeRanks_ignores_unranked_aux (g : Graph) (u : string) (zu : Z) :
  NoDup (nodes g) -> ranks_integral g -> has_rank g u zu -> (zu <= max_value)%Z ->
  exists m, is_min_rank g m /\
    Math_min (map (rank_or g MAX_VALUE) (nodes g)) = Int m /\
    (forall v z, has_rank g v z -> has_rank (normalizeRanks g) v (z - m)).
Proof.
  intros Hnd Hint Hu Hzu.
  destruct (normalizeRanks_min Hint Hu Hzu) as (m & Hmin & Em).
  exists m. split; [exact Hmin|]. split; [exact Em|].
  rewrite normalizeRanks_unfold, Em.
  intros v z (l & N & R). unfold has_rank.
  rewrite (@node_update_all_in (shift_rank (Int m)) (nodes g) g v Hnd (node_Some_In _ _ N)), N.
  eexists. split; [reflexivity|]. now apply shift_rank_Int.
Qed.

Lemma replace_same {A : Type} (v : string) (a : A) (ns : list (string * A)) :
  lookup v ns = Some a -> replace v a ns = ns.
Proof.
  induction ns as [|[k b] ns IH]; simpl; [reflexivity|].
  destruct (String.eqb v k) eqn:E; intros H.
  - injection H as ->. reflexivity.
  - now rewrite IH.
Qed.

Lemma update_same (g : Graph) (v : string) (f : Label.t -> Label.t) :
  (forall l, node g v = Some l -> f l = l) -> update g v f = g.
Proof.
  intros H. unfold update. destruct (node g v) as [l|] eqn:N; [|reflexivity].
  rewrite (H l eq_refl). unfold node in N. rewrite (replace_same _ _ N).
  now destruct g.
Qed.

Lemma update_all_same (f : Label.t -> Label.t) (vs : list string) (g : Graph) :
  (forall v l, node g v = Some l -> f l = l) -> update_all f vs g = g.
Proof.
  intros H. induction vs as [|v vs IH]; [reflexivity|].
  unfold update_all in *. simpl. rewrite update_same; [exact IH|].
  intros l. apply H.
Qed.

Lemma shift_rank_zero (l : Label.t) (z : Z) :
  Label.rank l = Some (Int z) -> shift_rank (Int 0) l = l.
Proof.
  intros R. unfold shift_rank. rewrite R, num_sub_Int.
  replace (z - 0)%Z with z by lia. destruct l. simpl in *. now rewrite R.
Qed.

Lemma is_min_rank_fun (g : Graph) (m m' : Z) :
  is_min_rank g m -> is_min_rank g m' -> m = m'.
Proof.
  intros [[v Hv] H1] [[v' Hv'] H2].
  specialize (H1 _ _ Hv'). specialize (H2 _ _ Hv). lia.
Qed.

(** X13. [normalizeRanks] is idempotent on a graph all of whose nodes
    have a rank, the ranks being integers of magnitude at most 2^51: a
    second call changes nothing. *)
Theorem normalizeRanks_idempotent (g : Graph) :
  NoDup (nodes g) -> all_ranked g -> ranks_small g ->
  normalizeRanks (normalizeRanks g) = normalizeRanks g.
Proof.
  intros Hnd Hall Hsmall.
  assert (Hint : ranks_integral g).
  { intros v l r N R. destruct (Hall v (node_Some_In _ _ N)) as (z & l' & N' & R').
    exists z. congruence. }
  assert (Hbound : forall v z, has_rank g v z -> (z <= max_value)%Z).
  { intros v z Hz. apply small_le_max_value. eapply Hsmall, Hz. }
  set (g' := normalizeRanks g).
  assert (Hnodes : nodes g' = nodes g).
  { unfold g'. rewrite normalizeRanks_unfold. apply nodes_update_all. }
  assert (Hlabel : forall v l', node g' v = Some l' ->
            exists l, node g v = Some l /\
              l' = shift_rank (Math_min (map (rank_or g MAX_VALUE) (nodes g))) l).
  { intros v l' N'. unfold g' in N'. rewrite normalizeRanks_unfold in N'.
    assert (Hv : In v (nodes g)).
    { rewrite <- (nodes_update_all (shift_rank (Math_min (map (rank_or g MAX_VALUE) (nodes g))))
                    (nodes g) g). eapply node_Some_In, N'. }
    rewrite (@node_update_all_in _ (nodes g) g v Hnd Hv) in N'.
    destruct (node g v) as [l|]; [|discriminate]. injection N' as <-. eauto. }
  destruct (classic_ranked g) as [(u & zu & Hu)|Hnone].
  - destruct (@normalizeRanks_ignores_unranked_aux g u zu Hnd Hint Hu (Hbound _ _ Hu))
      as (m & Hmin & Em & Hr).
    assert (Hint' : ranks_integral g').
    { intros v l' r N' R'. destruct (Hlabel v l' N') as (l & N & ->).
      rewrite Em in R'. unfold shift_rank in R'.
      destruct (Label.rank l) as [r0|] eqn:R0.
      - destruct (Hint v l r0 N R0) as [z ->].
        cbn [Label.rank Label.set_rank] in R'. rewrite num_sub_Int in R'.
        injection R' as <-. eauto.
      - congruence. }
    destruct Hmin as [[v0 Hv0] Hleast].
    assert (H0 : has_rank g' v0 0).
    { replace 0%Z with (m - m)%Z by lia. now apply Hr. }
    assert (Hmin' : is_min_rank g' 0).
    { split; [now exists v0|].
      intros v z' (l' & N' & R'). destruct (Hlabel v l' N') as (l & N & ->).
      rewrite Em in R'. unfold shift_rank in R'.
      destruct (Label.rank l) as [r0|] eqn:R0; [|congruence].
      destruct (Hint v l r0 N R0) as [z ->].
      cbn [Label.rank Label.set_rank] in R'. rewrite num_sub_Int in R'.
      injection R' as R'.
      assert (Hz : has_rank g v z) by (exists l; now split).
      specialize (Hleast v z Hz). lia. }
    destruct (normalizeRanks_min Hint' H0 max_value_nonneg) as (m' & Hm' & Em').
    rewrite (is_min_rank_fun Hm' Hmin') in Em'.
    rewrite (normalizeRanks_unfold g'), Em'.
    apply update_all_same. intros v l' N'.
    destruct (Label.rank l') as [r|] eqn:R'.
    + destruct (Hint' v l' r N' R') as [z ->]. now apply (shift_rank_zero l' (z := z)).
    + unfold shift_rank. now rewrite R'.
  - assert (Hsame : forall f, update_all (shift_rank f) (nodes g) g = g).
    { intros f. apply update_all_same. intros v l N. unfold shift_rank.
      destruct (Label.rank l) as [r|] eqn:R; [|reflexivity].
      destruct (Hint v l r N R) as [z ->]. exfalso. apply Hnone.
      exists v, z, l. now split. }
    assert (Eg : g' = g) by (unfold g'; rewrite normalizeRanks_unfold; apply Hsame).
    rewrite Eg. exact Eg.
Qed.

Lemma g_partly_ranked_NoDup : NoDup (nodes g_partly_ranked).
Proof. repeat constructor; simpl; intuition discriminate. Qed.

(** Ranks 2 and -1. *)
Definition g_off_zero : Graph :=
  mkGraph [("a", Examples.ranked 2); ("b", Examples.ranked (-1))]%string
          [(mkEdge "b" "a" None, mkEdgeLabel (Some (Int 1)) (Some (Int 1)))]%string
          [] (mkGraphLabel None None).

Lemma g_off_zero_has_rank (v : string) (z : Z) :
  has_rank g_off_zero v z -> (v = "a"%string /\ z = 2%Z) \/ (v = "b"%string /\ z = (-1)%Z).
Proof.
  intros (l & N & R). unfold node in N. simpl in N.
  destruct (String.eqb v "a") eqn:Ea; [|destruct (String.eqb v "b") eqn:Eb];
    try discriminate;
    injection N as <-; cbn [Label.rank Label.set_rank Examples.ranked Label.empty] in R;
    injection R as <-.
  - left. apply String.eqb_eq in Ea. now split.
  - right. apply String.eqb_eq in Eb. now split.
Qed.

Lemma normalizeRanks_idempotent_witness :
  normalizeRanks (normalizeRanks g_off_zero) = normalizeRanks g_off_zero.
Proof.
  apply (@normalizeRanks_idempotent g_off_zero).
  - repeat constructor; simpl; intuition discriminate.
  - intros v [<-|[<-|[]]]; eexists; eexists; split; reflexivity.
  - intros v z H. destruct (g_off_zero_has_rank H) as [[_ ->]|[_ ->]];
      unfold small; simpl; lia.
Defined.

(** The two ranks become 3 and 0. *)
Example normalizeRanks_off_zero :
  map (fun p => Label.rank (snd p)) (g_nodes (normalizeRanks g_off_zero))
  = [Some (Int 3); Some (Int 0)].
Proof. reflexivity. Qed.

(** X14. On a graph whose assigned ranks are integers of magnitude at
    most 2^51, [normalizeRanks] does not change the slack of an edge whose
    ends have a rank and whose [minlen] is an integer of that magnitude;
    the slack is an integer within 2^53. *)
Theorem slack_normalizeRanks (g : Graph) (e : Edge) (a b ml : Z) :
  NoDup (nodes g) -> ranks_integral g -> ranks_small g ->
  has_rank g (e_v e) a -> has_rank g (e_w e) b ->
  LongestPathFacts.minlen_of g e ml -> small ml ->
  slack (normalizeRanks g) e = Ok (Int (b - a - ml)) /\
  slack g e = Ok (Int (b - a - ml)) /\
  (Z.abs (b - a - ml) <= 9007199254740992)%Z.
Proof.
  intros Hnd Hint Hsmall Ha Hb (le & He & Hml) Sml.
  destruct (@normalizeRanks_ignores_unranked_aux g (e_v e) a Hnd Hint Ha
              (small_le_max_value (Hsmall _ _ Ha)))
    as (m & _ & _ & Hr).
  assert (Hs : forall g' a' b',
            has_rank g' (e_v e) a' -> has_rank g' (e_w e) b' ->
            g_edges g' = g_edges g ->
            slack g' e = Ok (Int (b' - a' - ml))).
  { intros g' a' b' (lv & Nv & Rv) (lw & Nw & Rw) Eg.
    unfold slack. rewrite Nv, Nw, Eg, He, Rv, Rw, Hml. cbn [to_num].
    now rewrite !num_sub_Int. }
  split; [|split].
  - rewrite (Hs (normalizeRanks g) (a - m)%Z (b - m)%Z).
    + do 2 f_equal. lia.
    + now apply Hr.
    + now apply Hr.
    + apply LongestPathFacts.normalizeRanks_structure.
  - now apply Hs.
  - pose proof (Hsmall _ _ Ha) as Sa. pose proof (Hsmall _ _ Hb) as Sb.
    unfold small in *. lia.
Qed.

Lemma slack_normalizeRanks_witness :
  slack (normalizeRanks g_partly_ranked) (mkEdge "b" "a" None) = Ok (Int 2) /\
  slack g_partly_ranked (mkEdge "b" "a" None) = Ok (Int 2) /\
  (Z.abs (2 - -1 - 1) <= 9007199254740992)%Z.
Proof.
  apply (@slack_normalizeRanks g_partly_ranked (mkEdge "b" "a" None) (-1) 2 1).
  - exact g_partly_ranked_NoDup.
  - exact g_partly_ranked_integral.
  - exact g_partly_ranked_small.
  - eexists. split; reflexivity.
  - eexists. split; reflexivity.
  - eexists. split; reflexivity.
  - unfold small. simpl. lia.
Defined.

End RankFacts.

(** ** lib/util.js and build-layer-graph.js: generated node ids *)

Module NodeIdFacts.
Import Graphlib Util UtilBasicFacts GraphFacts.

(** X16. Two calls of [uniqueId] with the same prefix return the same id
    only at the same counter value, the counter grows by one at each call,
    and a generated id is never the prefix itself. *)
Theorem uniqueId_injective (prefix : string) (a b : nat) :
  (fst (uniqueId prefix a) = fst (uniqueId prefix b) <-> a = b) /\
  snd (uniqueId prefix a) = S a /\
  fst (uniqueId prefix a) <> prefix.
Proof.
  unfold uniqueId. cbn [fst snd]. split; [|split].
  - split; [|now intros ->].
    intros H. apply (@candidate_inj prefix (S a) (S b)) in H. lia.
  - reflexivity.
  - apply (@candidate_neq_name prefix (S a)).
Qed.

(** Ids generated from different prefixes can coincide. *)
Example uniqueId_prefix_collision :
  fst (uniqueId "a1" 0) = fst (uniqueId "a" 10).
Proof. reflexivity. Qed.

(** Where the loop of [addDummyNode] stops: at the id it starts from when
    that one is free, and otherwise at the first generated id that is
    free. *)
Lemma addDummyNode_loop_first_free (g : Graph) (name : string) (fuel : nat) :
  forall v idCounter v' idCounter',
    addDummyNode_loop fuel g name v idCounter = Some (v', idCounter') ->
    (hasNode g v = false /\ v' = v /\ idCounter' = idCounter) \/
    (hasNode g v = true /\ v' = candidate name idCounter' /\
     (idCounter < idCounter')%nat /\
     forall k, (idCounter < k < idCounter')%nat -> hasNode g (candidate name k) = true).
Proof.
  induction fuel as [|fuel IH]; intros v c v' c'; simpl;
    destruct (hasNode g v) eqn:Hv; try discriminate; intros H.
  - injection H as <- <-. now left.
  - right. split; [reflexivity|].
    apply IH in H. destruct H as [(Hfree & -> & ->)|(Htaken & -> & Hlt & Hall)].
    + split; [reflexivity|]. split; [lia|]. intros k Hk. lia.
    + split; [reflexivity|]. split; [lia|].
      intros k Hk. destruct (Nat.eq_dec k (S c)) as [->|Hne]; [exact Htaken|].
      apply Hall. lia.
  - injection H as <- <-. now left.
Qed.

Lemma addDummyNode_adds_one_node_aux (g : Graph) (type : string) (attrs : Label.t)
  (name : string) (idCounter : nat) (v : string) (g' : Graph) (idCounter' : nat) :
  addDummyNode g type attrs name idCounter = Some (v, g', idCounter') ->
  g_nodes g' = g_nodes g ++ [(v, Label.set_dummy attrs (Some type))] /\
  g_edges g' = g_edges g /\ g_parent g' = g_parent g /\ g_graph g' = g_graph g.
Proof.
  unfold addDummyNode.
  destruct (addDummyNode_loop (List.length (nodes g)) g name name idCounter)
    as [[v0 c0]|] eqn:E; [|discriminate].
  intros H. injection H as <- <- <-.
  pose proof (addDummyNode_loop_Some _ _ _ _ _ E) as Hfresh.
  unfold setNode. rewrite Hfresh. cbn [g_nodes g_edges g_parent g_graph with_nodes].
  now repeat split.
Qed.

(** X17. What a call of [addDummyNode] does: the node it adds comes last,
    labelled with [attrs] and the [dummy] type; nodes, labels, edges,
    hierarchy and graph label are otherwise untouched.  The id is [name]
    itself when that is free, and else [name] followed by the first counter
    value above the current one for which the id is free. *)
Theorem addDummyNode_adds_one_node (g : Graph) (type : string) (attrs : Label.t)
  (name : string) (idCounter : nat) (v : string) (g' : Graph) (idCounter' : nat) :
  addDummyNode g type attrs name idCounter = Some (v, g', idCounter') ->
  g_nodes g' = g_nodes g ++ [(v, Label.set_dummy attrs (Some type))] /\
  g_edges g' = g_edges g /\ g_parent g' = g_parent g /\ g_graph g' = g_graph g /\
  ((hasNode g name = false /\ v = name /\ idCounter' = idCounter) \/
   (hasNode g name = true /\ v = candidate name idCounter' /\
    (idCounter < idCounter')%nat /\
    forall k, (idCounter < k < idCounter')%nat -> hasNode g (candidate name k) = true)).
Proof.
  intros H.
  destruct (addDummyNode_adds_one_node_aux _ _ _ _ _ H) as (H1 & H2 & H3 & H4).
  repeat (split; [assumption|]).
  unfold addDummyNode in H.
  destruct (addDummyNode_loop (List.length (nodes g)) g name name idCounter)
    as [[v0 c0]|] eqn:E; [|discriminate].
  injection H as <- _ <-.
  now apply (addDummyNode_loop_first_free g name _ _ _ E).
Qed.

Lemma addDummyNode_adds_one_node_witness :
  exists g', addDummyNode Examples.g_taken "edge" Label.empty "_d" 0
             = Some ("_d3"%string, g', 3%nat) /\
             g_edges g' = g_edges Examples.g_taken.
Proof.
  eexists. split; [reflexivity|].
  apply (@addDummyNode_adds_one_node Examples.g_taken "edge" Label.empty "_d" 0
           "_d3" _ 3 eq_refl).
Defined.

(** X18. [addBorderNode] adds one node of width and height 0, marked as
    a border dummy; it carries the rank and the order passed to the call,
    and neither of them in the call without these arguments.  The node was
    not in the graph before. *)
Theorem addBorderNode_label (g : Graph) (prefix : string)
  (rank_order : option (option num * option num)) (idCounter : nat)
  (v : string) (g' : Graph) (idCounter' : nat) :
  addBorderNode g prefix rank_order idCounter = Some (v, g', idCounter') ->
  hasNode g v = false /\
  nodes g' = nodes g ++ [v] /\
  node g' v = Some (Label.mk
                      (match rank_order with Some (rank, _) => rank | None => None end)
                      (match rank_order with Some (_, order) => order | None => None end)
                      None None None None (Some "border"%string)
                      (Some (Int 0)) (Some (Int 0))) /\
  forall u, u <> v -> node g' u = node g u.
Proof.
  unfold addBorderNode. cbv zeta. intros H.
  assert (Hfresh : hasNode g v = false).
  { unfold addDummyNode in H.
    destruct (addDummyNode_loop (List.length (nodes g)) g prefix prefix idCounter)
      as [[v0 c0]|] eqn:E; [|discriminate].
    injection H as <- _ _. eapply addDummyNode_loop_Some, E. }
  apply addDummyNode_adds_one_node_aux in H. destruct H as (Hn & _).
  split; [exact Hfresh|]. split; [|split].
  - unfold nodes. rewrite Hn, map_app. reflexivity.
  - unfold node. rewrite Hn, CollectionFacts.lookup_app.
    assert (N : lookup v (g_nodes g) = None).
    { apply CollectionFacts.lookup_None_In. intros Hin.
      apply hasNode_In in Hin. congruence. }
    rewrite N. simpl. rewrite String.eqb_refl.
    now destruct rank_order as [[rank order]|].
  - intros u Hu. unfold node. rewrite Hn, CollectionFacts.lookup_app.
    destruct (lookup u (g_nodes g)); [reflexivity|]. simpl.
    apply String.eqb_neq in Hu. now rewrite Hu.
Qed.

Lemma addBorderNode_label_witness :
  exists g', addBorderNode Examples.g_taken "_d" (Some (Some (Int 1), Some (Int 0))) 0
             = Some ("_d3"%string, g', 3%nat) /\
             node g' "_d3" = Some (Label.mk (Some (Int 1)) (Some (Int 0)) None None None None
                                            (Some "border"%string) (Some (Int 0)) (Some (Int 0))).
Proof.
  eexists. split; [reflexivity|].
  apply (@addBorderNode_label Examples.g_taken "_d" (Some (Some (Int 1), Some (Int 0))) 0
           "_d3" _ 3 eq_refl).
Defined.

Section RootLoop.
Variable g : Graph.

Lemma createRootNode_loop_None (fuel : nat) : forall idCounter,
  BuildLayerGraph.createRootNode_loop fuel g idCounter = None ->
  forall k, (idCounter < k <= idCounter + fuel + 1)%nat ->
            hasNode g (candidate "_root" k) = true.
Proof.
  induction fuel as [|fuel IH]; intros c; cbn [BuildLayerGraph.createRootNode_loop uniqueId];
    fold (candidate "_root" (S c));
    destruct (hasNode g (candidate "_root" (S c))) eqn:Hv; try discriminate; intros H k Hk.
  - now replace k with (S c) by lia.
  - destruct (Nat.eq_dec k (S c)) as [->|Hne]; [exact Hv|].
    apply (IH (S c) H). lia.
Qed.

Lemma createRootNode_loop_Some (fuel : nat) : forall idCounter v idCounter',
  BuildLayerGraph.createRootNode_loop fuel g idCounter = Some (v, idCounter') ->
  v = candidate "_root" idCounter' /\ (idCounter < idCounter')%nat /\
  hasNode g v = false /\
  forall k, (idCounter < k < idCounter')%nat -> hasNode g (candidate "_root" k) = true.
Proof.
  induction fuel as [|fuel IH]; intros c v c';
    cbn [BuildLayerGraph.createRootNode_loop uniqueId];
    fold (candidate "_root" (S c));
    destruct (hasNode g (candidate "_root" (S c))) eqn:Hv; try discriminate; intros H.
  - injection H as <- <-. repeat split; [lia | assumption | intros k Hk; lia].
  - apply IH in H. destruct H as (-> & Hlt & Hfree & Hall).
    repeat split; [lia | assumption |].
    intros k Hk. destruct (Nat.eq_dec k (S c)) as [->|Hne]; [exact Hv|].
    apply Hall. lia.
  - injection H as <- <-. repeat split; [lia | assumption | intros k Hk; lia].
Qed.

End RootLoop.

(** X19. [createRootNode] always returns: its loop stops within one
    generated id per node of the graph.  The id returned is ["_root"]
    followed by the first counter value above the current one for which
    the id is not a node of the graph. *)
Theorem createRootNode_fresh (g : Graph) (idCounter : nat) :
  exists v idCounter',
    BuildLayerGraph.createRootNode g idCounter = Some (v, idCounter') /\
    v = ("_root" ++ number_to_string idCounter')%string /\
    (idCounter < idCounter')%nat /\
    hasNode g v = false /\
    forall k, (idCounter < k < idCounter')%nat ->
              hasNode g ("_root" ++ number_to_string k)%string = true.
Proof.
  unfold BuildLayerGraph.createRootNode.
  destruct (BuildLayerGraph.createRootNode_loop (List.length (nodes g)) g idCounter)
    as [[v c']|] eqn:E.
  - exists v, c'. split; [reflexivity|].
    now apply (@createRootNode_loop_Some g _ _ _ _ E).
  - exfalso.
    pose proof (@createRootNode_loop_None g _ _ E) as Hall.
    pose proof (NoDup_candidates "_root" (S idCounter) (S (List.length (nodes g)))) as ND.
    apply NoDup_cons_iff in ND. destruct ND as [_ ND].
    apply NoDup_incl_length with (l' := nodes g) in ND.
    + rewrite length_map, length_seq in ND. lia.
    + intros x Hx. apply in_map_iff in Hx. destruct Hx as (k & <- & Hk).
      apply in_seq in Hk. apply hasNode_In, Hall. lia.
Qed.

End NodeIdFacts.

(** ** lib/rank/util.js: longestPath on arbitrary graphs *)

Module LongestPathMore.
Import Graphlib JSNumFacts UtilFacts GraphFacts Util RankUtil LongestPathFacts.

(** The label with its [rank] removed. *)
Definition erase_rank (p : string * Label.t) : string * Label.t :=
  (fst p, Label.set_rank (snd p) None).

(** [g'] differs from [g] in the [rank] of node labels at most. *)
Definition same_but_rank (g g' : Graph) : Prop :=
  map erase_rank (g_nodes g') = map erase_rank (g_nodes g) /\
  g_edges g' = g_edges g /\ g_parent g' = g_parent g /\ g_graph g' = g_graph g.

Lemma same_but_rank_refl (g : Graph) : same_but_rank g g.
Proof. now repeat split. Qed.

Lemma same_but_rank_trans (g1 g2 g3 : Graph) :
  same_but_rank g1 g2 -> same_but_rank g2 g3 -> same_but_rank g1 g3.
Proof.
  intros (A1 & B1 & C1 & D1) (A2 & B2 & C2 & D2). repeat split; congruence.
Qed.

Lemma erase_replace_rank (v : string) (r : option num) (ns : list (string * Label.t)) :
  forall l, lookup v ns = Some l ->
  map erase_rank (replace v (Label.set_rank l r) ns) = map erase_rank ns.
Proof.
  induction ns as [|[k a] ns IH]; intros l H; simpl in *; [reflexivity|].
  destruct (String.eqb v k) eqn:E; simpl.
  - injection H as ->. reflexivity.
  - f_equal. now apply IH.
Qed.

Lemma same_but_rank_rewrite (g : Graph) (v : string) (r : Label.t -> option num) :
  same_but_rank g (update g v (fun label => Label.set_rank label (r label))).
Proof.
  unfold update. destruct (node g v) as [l|] eqn:N; [|apply same_but_rank_refl].
  repeat split. cbn [g_nodes with_nodes]. now apply erase_replace_rank.
Qed.

Lemma same_but_rank_update (g : Graph) (v : string) (r : option num) :
  same_but_rank g (update g v (fun label => Label.set_rank label r)).
Proof. apply (same_but_rank_rewrite g v (fun _ => r)). Qed.

Lemma same_but_rank_nodes (g g' : Graph) : same_but_rank g g' -> nodes g' = nodes g.
Proof.
  intros (A & _). unfold nodes.
  assert (E : forall ns, map fst ns = map fst (map erase_rank ns)).
  { intros ns. rewrite map_map. now apply map_ext. }
  now rewrite (E (g_nodes g')), (E (g_nodes g)), A.
Qed.

Section Runs.
Variable g0 : Graph.
Hypothesis Hclosed : edges_closed g0.

Record Shape (st : DfsState) : Prop := mkShape {
  shape_frame : same_but_rank g0 (fst st);
  shape_visited : forall u, In u (snd st) -> In u (nodes g0)
}.

(** A call that returns, having marked its node and no fewer nodes than
    were marked before. *)
Definition runs (v : string) (st : DfsState) (r : outcome (option num * DfsState)) : Prop :=
  exists x st',
    r = Ok (x, st') /\ Shape st' /\
    (forall u, In u (snd st) -> In u (snd st')) /\
    In v (snd st') /\
    (unvisited g0 st' <= unvisited g0 st)%nat.

Lemma map_outEdges_runs (f : string -> DfsState -> outcome (option num * DfsState))
  (fuel' : nat) :
  (forall w st, Shape st -> In w (nodes g0) -> (unvisited g0 st <= fuel')%nat ->
                runs w st (f w st)) ->
  forall es st, Shape st -> (unvisited g0 st <= fuel')%nat ->
    (forall e, In e es -> In e (edges g0)) ->
    exists xs st',
      map_outEdges f es st = Ok (xs, st') /\ Shape st' /\
      (forall u, In u (snd st) -> In u (snd st')) /\
      (unvisited g0 st' <= unvisited g0 st)%nat.
Proof.
  intros Hf. induction es as [|e es IH]; intros st Hsh Hfuel Hes.
  - exists [], st. repeat split; auto; apply Hsh.
  - assert (He : In e (edges g0)) by (apply Hes; now left).
    destruct (@Hclosed e He) as [_ Hw].
    destruct (Hf (e_w e) st Hsh Hw Hfuel) as (x & st1 & E1 & Hsh1 & Hmono1 & _ & Hle1).
    cbn [map_outEdges]. rewrite E1.
    destruct (shape_frame Hsh1) as (_ & Eedges & _).
    destruct (SimplifyFacts.edge_In (g_edges g0) e He) as [l El].
    rewrite Eedges, El. cbv zeta.
    destruct (IH st1 Hsh1) as (xs & st2 & E2 & Hsh2 & Hmono2 & Hle2); [lia| |].
    { intros e' He'. apply Hes. now right. }
    rewrite E2. eexists _, st2. split; [reflexivity|]. split; [assumption|].
    split; [auto | lia].
Qed.

Lemma dfs_runs (fuel : nat) : forall v st,
  Shape st -> In v (nodes g0) -> (unvisited g0 st <= fuel)%nat ->
  runs v st (dfs fuel v st).
Proof.
  induction fuel as [|fuel IH]; intros v [g visited] Hsh Hv Hfuel.
  all: pose proof (same_but_rank_nodes (shape_frame Hsh)) as Hn; cbn [fst] in Hn.
  all: assert (Hvg : In v (nodes g)) by now rewrite Hn.
  all: destruct (node_In g v Hvg) as [label N].
  all: cbn [dfs]; rewrite N.
  all: destruct (is_visited v visited) eqn:Evis.
  1,3: apply is_visited_In in Evis; exists (Label.rank label), (g, visited);
    repeat split; auto; apply Hsh.
  - pose proof (@unvisited_mark g0 g visited g v Hv Evis). lia.
  - set (st1 := (g, v :: visited) : DfsState).
    assert (Hsh1 : Shape st1).
    { constructor; cbn [fst snd st1]; [apply Hsh|].
      intros u [<-|Hu]; [assumption | now apply (shape_visited Hsh)]. }
    pose proof (@unvisited_mark g0 g visited g v Hv Evis) as Hmark.
    destruct (@map_outEdges_runs (dfs fuel) fuel IH (outEdges g v) st1 Hsh1)
      as (xs & [g2 visited2] & Emap & Hsh2 & Hmono2 & Hle2).
    { unfold st1. lia. }
    { intros e He. destruct (shape_frame Hsh) as (_ & Eedges & _). cbn [fst] in Eedges.
      now apply (proj1 (@outEdges_In g0 g v e Eedges)) in He. }
    fold st1. rewrite Emap. eexists _, (_, visited2). split; [reflexivity|].
    split; [|split; [|split]]; cbn [fst snd].
    + constructor; cbn [fst snd]; [|apply Hsh2].
      eapply same_but_rank_trans; [apply Hsh2|]. apply same_but_rank_update.
    + intros u Hu. apply Hmono2. now right.
    + apply Hmono2. now left.
    + unfold st1, unvisited in *. cbn [snd] in *. lia.
Qed.

Lemma sources_run (vs : list string) : forall st,
  Shape st -> (forall v, In v vs -> In v (nodes g0)) ->
  exists st',
    fold_left (visit_source (List.length (nodes g0))) vs (Ok st) = Ok st' /\ Shape st'.
Proof.
  induction vs as [|v vs IH]; intros st Hsh Hvs.
  - now exists st.
  - destruct (@dfs_runs (List.length (nodes g0)) v st Hsh) as (x & st1 & E & Hsh1 & _).
    { apply Hvs. now left. } { apply unvisited_le. }
    destruct (IH st1 Hsh1) as (st2 & E2 & Hsh2).
    { intros u Hu. apply Hvs. now right. }
    exists st2. cbn [fold_left visit_source]. rewrite E. now split.
Qed.

Lemma longestPath_runs :
  exists g1, longestPath g0 = Ok g1 /\ same_but_rank g0 g1.
Proof.
  destruct (@sources_run (sources g0) (g0, [])) as ([g1 visited] & E & Hsh).
  - constructor; cbn [fst snd]; [apply same_but_rank_refl | intros u []].
  - intros v Hv. unfold sources in Hv. apply filter_In in Hv. apply Hv.
  - exists g1. rewrite longestPath_unfold, E. split; [reflexivity | apply Hsh].
Qed.

End Runs.

(** *** The ranks of longestPath are tight *)

Lemma assigned_rank_attained (xs : list num) (z : Z) :
  Forall (fun x => exists k, x = Int k) xs ->
  (let rank := applyWithChunking Math_min xs in
   if num_eqb rank PosInfinity then Int 0 else rank) = Int z ->
  (xs = [] /\ z = 0%Z) \/ In (Int z) xs.
Proof.
  intros Hall. rewrite applyWithChunking_Math_min.
  assert (Hzs : exists zs, xs = map Int zs).
  { induction Hall as [|x xs (k & ->) _ (zs & ->)]; [now exists [] | now exists (k :: zs)]. }
  destruct Hzs as [[|k ks] ->]; cbv zeta.
  - intros E. left. split; [reflexivity|]. apply Int_inj. now rewrite <- E.
  - destruct (Math_min_Int k ks) as (m & Em & Hin & _). rewrite Em.
    change (num_eqb (Int m) PosInfinity) with false. cbv iota.
    intros E. apply Int_inj in E. subst m. right. now apply in_map.
Qed.

Lemma Forall2_In_r {A B : Type} (R : A -> B -> Prop) (l : list A) (l' : list B) (b : B) :
  Forall2 R l l' -> In b l' -> exists a, In a l /\ R a b.
Proof.
  induction 1 as [|x y l l' Hxy _ IH]; intros Hb; [contradiction|].
  destruct Hb as [->|Hb].
  - exists x. split; [now left | assumption].
  - destruct (IH Hb) as (a & Ha & Hr). exists a. split; [now right | assumption].
Qed.

Section Tight.
Variable g0 : Graph.
Hypothesis Hclosed : edges_closed g0.
Hypothesis Hml : integer_minlen g0.
Hypothesis Hacyc : acyclic g0.

(** The rank of [u] is 0 when [u] has no out-edge, and is otherwise met
    exactly by one of its out-edges. *)
Definition tight (g : Graph) (u : string) : Prop :=
  exists zu, has_rank g u zu /\
    (((forall e, In e (edges g0) -> e_v e <> u) /\ zu = 0%Z) \/
     exists e zw ml, In e (edges g0) /\ e_v e = u /\ has_rank g (e_w e) zw /\
                     minlen_of g0 e ml /\ (zu + ml = zw)%Z).

Definition TInv (st : DfsState) (stack : list string) : Prop :=
  forall u, In u (snd st) -> ~ In u stack -> tight (fst st) u.

Lemma tight_extends (st st' : DfsState) (stack : list string) (u : string) :
  Inv g0 st stack -> extends g0 st st' -> In u (snd st) -> ~ In u stack ->
  tight (fst st) u -> tight (fst st') u.
Proof.
  intros Hinv Hext Hu Hus (zu & Hzu & Hcase).
  exists zu. split; [eapply has_rank_extends; eassumption|].
  destruct Hcase as [Hsink|(e & zw & ml & He & Hev & Hzw & Hm & Heq)]; [now left|].
  right. exists e, zw, ml. repeat split; try assumption.
  destruct (inv_finished Hinv u Hu Hus) as (zu' & _ & Hsucc).
  destruct (Hsucc e He Hev) as (Hw & _).
  eapply has_rank_extends; eassumption.
Qed.

Lemma tight_update (g : Graph) (v u : string) (z : Z) (visited stack : list string) :
  Inv g0 (g, visited) (v :: stack) -> In u visited -> ~ In u (v :: stack) ->
  tight g u ->
  tight (update g v (fun label => Label.set_rank label (Some (Int z)))) u.
Proof.
  intros Hinv Hu Hus (zu & Hzu & Hcase).
  assert (Hne : u <> v) by (intros E; apply Hus; left; now rewrite E).
  exists zu. split; [now apply has_rank_update_other|].
  destruct Hcase as [Hsink|(e & zw & ml & He & Hev & Hzw & Hm & Heq)]; [now left|].
  right. exists e, zw, ml. repeat split; try assumption.
  destruct (inv_finished Hinv u Hu Hus) as (zu' & _ & Hsucc).
  destruct (Hsucc e He Hev) as (_ & Hout & _).
  apply has_rank_update_other; [|assumption].
  intros E. apply Hout. left. now rewrite E.
Qed.

Lemma map_outEdges_tight (f : string -> DfsState -> outcome (option num * DfsState))
  (fuel' : nat) (v : string) (stack : list string) :
  (forall w st, Inv g0 st (v :: stack) -> In w (nodes g0) ->
      (forall x, In x (v :: stack) -> path g0 x w) ->
      (unvisited g0 st <= fuel')%nat ->
      dfs_post g0 (v :: stack) w st (f w st)) ->
  (forall w st, Inv g0 st (v :: stack) -> TInv st (v :: stack) -> In w (nodes g0) ->
      (forall x, In x (v :: stack) -> path g0 x w) ->
      (unvisited g0 st <= fuel')%nat ->
      forall r st', f w st = Ok (r, st') -> TInv st' (v :: stack)) ->
  (forall x, In x stack -> path g0 x v) ->
  forall es st, Inv g0 st (v :: stack) -> TInv st (v :: stack) ->
    (unvisited g0 st <= fuel')%nat ->
    (forall e, In e es -> In e (edges g0) /\ e_v e = v) ->
    forall xs st', map_outEdges f es st = Ok (xs, st') -> TInv st' (v :: stack).
Proof.
  intros Hf Hft Hstack. induction es as [|e es IH]; intros st Hinv Ht Hfuel Hes xs st' E.
  - cbn [map_outEdges] in E. injection E as <- <-. exact Ht.
  - destruct (Hes e (or_introl eq_refl)) as [He Hv].
    destruct (@Hclosed e He) as [_ Hw].
    assert (Hpath : forall x, In x (v :: stack) -> path g0 x (e_w e)).
    { intros x [<-|Hx].
      - rewrite <- Hv. now apply path_edge.
      - eapply path_snoc; [apply Hstack, Hx | assumption | assumption]. }
    destruct (Hf (e_w e) st Hinv Hw Hpath Hfuel)
      as (z & st1 & E1 & Hinv1 & _ & _ & _ & Hext1).
    pose proof (Hft (e_w e) st Hinv Ht Hw Hpath Hfuel _ _ E1) as Ht1.
    cbn [map_outEdges] in E. rewrite E1 in E.
    destruct (@Hml e He) as (ml & l & El & Eml).
    rewrite (inv_edges Hinv1), El in E. cbv zeta in E.
    destruct (map_outEdges f es st1) as [[xs2 st2]| | |] eqn:E2; try discriminate.
    injection E as <- <-.
    apply (IH st1 Hinv1 Ht1) with (xs := xs2); [| |exact E2].
    + destruct Hext1 as (_ & _ & Hc). lia.
    + intros e' He'. apply Hes. now right.
Qed.

Lemma Inv_push (g : Graph) (visited stack : list string) (v : string) :
  Inv g0 (g, visited) stack -> In v (nodes g0) -> ~ In v visited ->
  Inv g0 (g, v :: visited) (v :: stack).
Proof.
  intros Hinv Hv Hnv. constructor; cbn [fst snd].
  - apply Hinv.
  - apply Hinv.
  - intros u [<-|Hu]; [assumption | now apply (inv_visited Hinv)].
  - intros u Hu Hus.
    assert (Hu' : In u visited).
    { destruct Hu as [<-|Hu]; [exfalso; apply Hus; now left | assumption]. }
    destruct (inv_finished Hinv u Hu') as (zu & Hzu & Hsucc).
    { intros H. apply Hus. now right. }
    exists zu. split; [assumption|]. intros e He Hev.
    destruct (Hsucc e He Hev) as (Hin & Hst & Hrest).
    split; [now right|]. split; [|assumption].
    intros [E|H]; [|contradiction]. apply Hnv. now rewrite E.
Qed.

Lemma dfs_tight (fuel : nat) : forall v st stack,
  Inv g0 st stack -> TInv st stack -> In v (nodes g0) ->
  (forall x, In x stack -> path g0 x v) ->
  (unvisited g0 st <= fuel)%nat ->
  forall r st', dfs fuel v st = Ok (r, st') -> TInv st' stack.
Proof.
  induction fuel as [|fuel IH]; intros v [g visited] stack Hinv Ht Hv Hstack Hfuel r st' E.
  all: assert (Hout : ~ In v stack) by (intros H; apply (@Hacyc v), Hstack, H).
  all: pose proof (inv_nodes Hinv) as Hn; cbn [fst] in Hn.
  all: assert (Hvg : In v (nodes g)) by now rewrite Hn.
  all: destruct (node_In g v Hvg) as [label N].
  all: cbn [dfs] in E; rewrite N in E.
  all: destruct (is_visited v visited) eqn:Evis.
  1,3: injection E as _ <-; exact Ht.
  - discriminate.
  - set (st1 := (g, v :: visited) : DfsState) in *.
    assert (Hnv : ~ In v visited).
    { intros H. apply is_visited_In in H. congruence. }
    assert (Hinv1 : Inv g0 st1 (v :: stack)) by now apply Inv_push.
    assert (Ht1 : TInv st1 (v :: stack)).
    { intros u Hu Hus. cbn [fst snd st1] in *. apply (Ht u).
      - destruct Hu as [<-|Hu]; [exfalso; apply Hus; now left | assumption].
      - intros H. apply Hus. now right. }
    assert (Hfuel1 : (unvisited g0 st1 <= fuel)%nat).
    { pose proof (@unvisited_mark g0 g visited g v Hv Evis). unfold st1. lia. }
    assert (Hes : forall e, In e (outEdges g v) -> In e (edges g0) /\ e_v e = v).
    { intros e He. apply (@outEdges_In g0 g v e (inv_edges Hinv)). exact He. }
    destruct (@map_outEdges_ok g0 Hclosed Hml (dfs fuel) fuel v stack
                (fun w st => @dfs_ok g0 Hclosed Hml Hacyc fuel w st (v :: stack)) Hstack
                (outEdges g v) st1 Hinv1 Hfuel1 Hes)
      as (xs & [g2 visited2] & Emap & Hinv2 & Hext2 & Hall).
    pose proof (@map_outEdges_tight (dfs fuel) fuel v stack
                  (fun w st => @dfs_ok g0 Hclosed Hml Hacyc fuel w st (v :: stack))
                  (fun w st Hi Hti Hw Hp Hf => IH w st (v :: stack) Hi Hti Hw Hp Hf)
                  Hstack (outEdges g v) st1 Hinv1 Ht1 Hfuel1 Hes xs _ Emap) as Ht2.
    rewrite Emap in E.
    assert (Hints : Forall (fun x => exists k, x = Int k) xs).
    { clear - Hall. induction Hall as [|e x es xs (zw & ml & -> & _) _ IHa];
        constructor; eauto. }
    destruct (@assigned_rank xs Hints) as (z & Ez & _).
    pose proof (assigned_rank_attained Hints Ez) as Hatt.
    cbv zeta in Ez, E. rewrite Ez in E. injection E as _ <-.
    intros u Hu Hus. cbn [fst snd] in *.
    destruct (string_dec u v) as [->|Hne].
    + exists z. pose proof (inv_nodes Hinv2) as Hn2. cbn [fst] in Hn2.
      split; [apply has_rank_update_same; now rewrite Hn2|].
      destruct Hatt as [[-> ->]|Hin].
      * left. split; [|reflexivity]. intros e He Hev.
        assert (Hin : In e (outEdges g v))
          by (apply (@outEdges_In g0 g v e (inv_edges Hinv)); auto).
        apply Forall2_length in Hall.
        destruct (outEdges g v); [contradiction | discriminate].
      * right. destruct (@Forall2_In_r _ _ _ _ _ (Int z) Hall Hin)
          as (e & He & zw & ml & Ex & Hr & Hm & _ & Hsw).
        apply Int_inj in Ex. destruct (Hes e He) as [He0 Hev].
        exists e, zw, ml. repeat split; try assumption; [|lia].
        apply has_rank_update_other; [|exact Hr].
        intros E. apply Hsw. left. now rewrite E.
    + apply (@tight_update g2 v u z visited2 stack Hinv2 Hu).
      * intros [E|H]; [now apply Hne | contradiction].
      * apply (Ht2 u Hu). intros [E|H]; [now apply Hne | contradiction].
Qed.

Lemma sources_tight (vs : list string) : forall st,
  Inv g0 st [] -> TInv st [] -> (forall v, In v vs -> In v (nodes g0)) ->
  forall st', fold_left (visit_source (List.length (nodes g0))) vs (Ok st) = Ok st' ->
              TInv st' [].
Proof.
  induction vs as [|v vs IH]; intros st Hinv Ht Hvs st' E.
  - cbn in E. now injection E as <-.
  - assert (Hv : In v (nodes g0)) by (apply Hvs; now left).
    destruct (@dfs_ok g0 Hclosed Hml Hacyc (List.length (nodes g0)) v st [] Hinv Hv)
      as (z & st1 & E1 & Hinv1 & _).
    { intros x []. } { apply unvisited_le. }
    pose proof (@dfs_tight (List.length (nodes g0)) v st [] Hinv Ht Hv
                  ltac:(intros x []) (unvisited_le g0 st) _ _ E1) as Ht1.
    cbn [fold_left visit_source] in E. rewrite E1 in E.
    apply (IH st1 Hinv1 Ht1); [|exact E].
    intros u Hu. apply Hvs. now right.
Qed.

Lemma longestPath_tight :
  exists g1, longestPath g0 = Ok g1 /\ forall v, In v (nodes g0) -> tight g1 v.
Proof.
  destruct (@visit_sources g0 Hclosed Hml Hacyc (sources g0) (g0, []) (Inv_initial g0))
    as ([g1 visited] & E & Hinv & _ & Hsrc).
  { intros v Hv. unfold sources in Hv. apply filter_In in Hv. apply Hv. }
  pose proof (@all_visited g0 Hclosed Hacyc _ Hinv Hsrc) as Hall. cbn [snd] in Hall.
  assert (Ht : TInv (g1, visited) []).
  { apply (@sources_tight (sources g0) (g0, []) (Inv_initial g0)) with (st' := (g1, visited)).
    - intros u [].
    - intros v Hv. unfold sources in Hv. apply filter_In in Hv. apply Hv.
    - exact E. }
  exists g1. rewrite longestPath_unfold, E. split; [reflexivity|].
  intros v Hv. apply (Ht v (Hall v Hv)). intros [].
Qed.

End Tight.


Lemma g_dag_closed : edges_closed Examples.g_dag.
Proof. intros e [<-|[<-|[<-|[<-|[]]]]]; simpl; auto 10. Qed.

Lemma g_dag_integer_minlen : integer_minlen Examples.g_dag.
Proof. intros e [<-|[<-|[<-|[<-|[]]]]]; eexists; eexists; split; reflexivity. Qed.


(** On a -> b -> c, a -> c, d -> c with minlen 1, 2, 1, 1 the sink c gets
    rank 0 and a gets rank -3, the length of its longest path. *)
Example longestPath_dag_ranks :
  option_map (fun g1 => map (fun v => option_map Label.rank (node g1 v)) (nodes g1))
    (match longestPath Examples.g_dag with Ok g1 => Some g1 | _ => None end)
  = Some [Some (Some (Int (-3))); Some (Some (Int (-2))); Some (Some (Int 0));
          Some (Some (Int (-1)))].
Proof. reflexivity. Qed.


(** X22. [longestPath] writes nothing but [rank]: the result has the nodes
    of the input in the same order, with labels that differ in [rank] at
    most, and the same edges, edge labels, hierarchy and graph label. *)
Theorem longestPath_writes_only_rank (g g1 : Graph) :
  edges_closed g -> longestPath g = Ok g1 -> same_but_rank g g1.
Proof.
  intros Hclosed E. destruct (longestPath_runs Hclosed) as (g1' & E' & Hsame).
  rewrite E in E'. injection E' as <-. exact Hsame.
Qed.

(** A cycle b -> c -> b entered from the source a. *)
Definition g_cycle : Graph :=
  mkGraph [("a", Label.empty); ("b", Label.empty); ("c", Label.empty)]%string
          [Examples.edge_minlen "a" "b" 1; Examples.edge_minlen "b" "c" 1;
           Examples.edge_minlen "c" "b" 1]%string [] Examples.no_label.

Lemma g_cycle_closed : edges_closed g_cycle.
Proof.
  intros e [<-|[<-|[<-|[]]]]; split; simpl; auto.
Qed.


(** On the cycle the rank read back through the edge that closes it is
    still [undefined], and the ranks computed from it are NaN. *)
Example longestPath_on_cycle :
  option_map (fun g1 => map (fun v => option_map Label.rank (node g1 v)) (nodes g1))
    (match longestPath g_cycle with Ok g1 => Some g1 | _ => None end)
  = Some [Some (Some NaN); Some (Some NaN); Some (Some NaN)].
Proof. reflexivity. Qed.

Lemma longestPath_writes_only_rank_witness :
  exists g1, longestPath Examples.g_dag = Ok g1 /\ same_but_rank Examples.g_dag g1.
Proof.
  eexists. split; [reflexivity|].
  apply (@longestPath_writes_only_rank Examples.g_dag).
  - intros e [<-|[<-|[<-|[<-|[]]]]]; split; simpl; auto.
  - reflexivity.
Defined.

End LongestPathMore.

(** ** lib/order/index.js: assignOrder and the loop of order *)

Module OrderMore.
Import Graphlib Order OrderFrame OrderTrace GraphFacts.

(** The writes of [assignOrder]: the ids of the layering with their
    column, row after row. *)
Definition placements (layering : Util.Layering) : list (nat * string) :=
  flat_map (@entries string) layering.

(** The column of the last write to [v]. *)
Fixpoint last_column (es : list (nat * string)) (v : string) : option nat :=
  match es with
  | [] => None
  | (i, u) :: es' =>
      match last_column es' v with
      | Some j => Some j
      | None => if String.eqb v u then Some i else None
      end
  end.

Definition write_order (p : nat * string) : M unit :=
  let '(i, v) := p in set_node_order v i.

Lemma forEach_app {A : Type} (l1 l2 : list A) (f : A -> M unit) (w : World) :
  forEach (l1 ++ l2) f w = bind (forEach l1 f) (fun _ => forEach l2 f) w.
Proof.
  revert w. induction l1 as [|a l1 IH]; intros w; [reflexivity|].
  cbn [forEach app]. unfold bind in *.
  destruct (f a w) as [w1 [[]| | |]]; try reflexivity.
  apply IH.
Qed.

Lemma assignOrder_flat (layering : Util.Layering) (w : World) :
  assignOrder (Some layering) w = forEach (placements layering) write_order w.
Proof.
  unfold assignOrder, placements. revert w.
  induction layering as [|layer layering IH]; intros w; [reflexivity|].
  cbn [forEach flat_map]. rewrite forEach_app. unfold bind.
  assert (E : forEach (entries layer) (fun '(i, v) => set_node_order v i) w
              = forEach (entries layer) write_order w).
  { f_equal. }
  rewrite E. destruct (forEach (entries layer) write_order w) as [w1 [[]| | |]];
    try reflexivity. apply IH.
Qed.

Lemma set_order_twice (l : Label.t) (a b : option num) :
  Label.set_order (Label.set_order l a) b = Label.set_order l b.
Proof. reflexivity. Qed.

(** When every id is a node, all the writes are done and the last write
    to a node decides its [order]. *)
Lemma writes_done (es : list (nat * string)) : forall w,
  (forall i v, In (i, v) es -> In v (nodes (w_g w))) ->
  exists g',
    forEach es write_order w = (mkWorld g' (w_idCounter w) (w_log w), Ok tt) /\
    nodes g' = nodes (w_g w) /\
    forall v, node g' v =
      match last_column es v with
      | Some i => option_map (fun l => Label.set_order l (Some (Int (Z.of_nat i))))
                             (node (w_g w) v)
      | None => node (w_g w) v
      end.
Proof.
  induction es as [|[i u] es IH]; intros w Hin.
  - exists (w_g w). destruct w. now repeat split.
  - assert (Hu : In u (nodes (w_g w))) by (apply (Hin i); now left).
    destruct (node_In _ _ Hu) as [lu Nu].
    cbn [forEach write_order]. unfold bind at 1, set_node_order, bind, get_g.
    rewrite Nu. unfold put_g.
    set (g1 := update (w_g w) u (fun l => Label.set_order l (Some (Int (Z.of_nat i))))).
    destruct (IH (mkWorld g1 (w_idCounter w) (w_log w))) as (g' & E & Hn & Hl).
    { intros j v Hv. cbn [w_g]. unfold g1. rewrite nodes_update. apply (Hin j). now right. }
    cbn [w_g w_idCounter w_log] in *. exists g'. split; [exact E|].
    split; [rewrite Hn; unfold g1; apply nodes_update|].
    intros v. rewrite Hl. unfold g1. rewrite node_update.
    cbn [last_column]. destruct (last_column es v) as [j|].
    + destruct (String.eqb v u) eqn:Ev; [|reflexivity].
      apply String.eqb_eq in Ev. subst v. rewrite Nu. reflexivity.
    + destruct (String.eqb v u) eqn:Ev; [|reflexivity].
      apply String.eqb_eq in Ev. now subst v.
Qed.

(** The first id that is not a node stops the writes with a [TypeError]. *)
Lemma writes_throw (es : list (nat * string)) : forall w,
  (exists i v, In (i, v) es /\ ~ In v (nodes (w_g w))) ->
  snd (forEach es write_order w) = Throw "TypeError".
Proof.
  induction es as [|[i u] es IH]; intros w (j & v & Hv & Hnv); [contradiction|].
  cbn [forEach write_order]. unfold bind at 1, set_node_order, bind, get_g.
  destruct (node (w_g w) u) as [lu|] eqn:Nu; [|reflexivity].
  unfold put_g. apply IH. cbn [w_g]. destruct Hv as [E|Hv].
  - injection E as <- <-. exfalso. apply Hnv. eapply node_Some_In, Nu.
  - exists j, v. split; [assumption|]. now rewrite nodes_update.
Qed.

(** X24. [assignOrder(g, layering)] returns normally exactly when every
    id in the layering is a node of the graph, and throws a [TypeError]
    otherwise.  When it returns, a node that occurs in the layering has as
    [order] the column of its last occurrence, its other properties are as
    before, and the nodes that do not occur keep their labels. *)
Theorem assignOrder_places_nodes (layering : Util.Layering) (w : World) :
  let r := assignOrder (Some layering) w in
  (snd r = Ok tt \/ snd r = Throw "TypeError") /\
  (snd r = Ok tt <->
   forall i v, In (i, v) (placements layering) -> In v (nodes (w_g w))) /\
  (snd r = Ok tt ->
   nodes (w_g (fst r)) = nodes (w_g w) /\
   forall v, node (w_g (fst r)) v =
     match last_column (placements layering) v with
     | Some i => option_map (fun l => Label.set_order l (Some (Int (Z.of_nat i))))
                            (node (w_g w) v)
     | None => node (w_g w) v
     end).
Proof.
  cbv zeta. rewrite assignOrder_flat.
  assert (Hdec : (forall i v, In (i, v) (placements layering) -> In v (nodes (w_g w))) \/
                 exists i v, In (i, v) (placements layering) /\ ~ In v (nodes (w_g w))).
  { induction (placements layering) as [|[i u] es IH].
    - left. intros i v [].
    - destruct (in_dec string_dec u (nodes (w_g w))) as [Hu|Hu].
      + destruct IH as [IH|(j & v & Hv & Hnv)].
        * left. intros j v [E|Hv]; [injection E as <- <-; exact Hu | now apply (IH j)].
        * right. exists j, v. split; [now right | assumption].
      + right. exists i, u. split; [now left | assumption]. }
  destruct Hdec as [Hall|Hsome].
  - destruct (writes_done _ w Hall) as (g' & E & Hn & Hl). rewrite E. cbn [fst snd w_g].
    split; [now left|]. split; [tauto|]. intros _. now split.
  - pose proof (writes_throw _ w Hsome) as E. rewrite E.
    split; [now right|]. split; [|discriminate].
    split; [discriminate|]. intros Hall. exfalso.
    destruct Hsome as (i & v & Hv & Hnv). apply Hnv. now apply (Hall i).
Qed.

(** *** How long the loop of [order] runs *)

(** With [c1] the first crossing count, the loop variables satisfy
    [i + 4 * bestCC <= 4 * c1 + lastBest]: an iteration without improvement
    raises both [i] and [lastBest], an improving one lowers [bestCC]. *)
Definition Bound (hist : list (Util.Layering * nat)) (s : LoopState) : Prop :=
  match map snd hist with
  | [] => True
  | c1 :: _ =>
      exists b, ls_bestCC s = Some b /\
                (ls_i s + 4 * b <= 4 * c1 + ls_lastBest s)%nat
  end.

Lemma Bound_step hist s layering cc s' :
  LoopInv hist s -> Bound hist s ->
  (ls_lastBest s < 4)%nat ->
  ls_i s' = S (ls_i s) ->
  ((cc_lt cc (ls_bestCC s) = true /\ ls_lastBest s' = 1%nat /\
    ls_bestCC s' = Some cc /\ ls_best s' = Some layering) \/
   (cc_lt cc (ls_bestCC s) = false /\ ls_lastBest s' = S (ls_lastBest s) /\
    ls_bestCC s' = ls_bestCC s /\ ls_best s' = ls_best s)) ->
  Bound (hist ++ [(layering, cc)]) s'.
Proof.
  intros Hinv Hb Hlt Hi Hcase. unfold Bound in *. rewrite map_app. cbn [map snd].
  destruct hist as [|[l1 c1] hist].
  - cbn [map app snd]. destruct (inv_start Hinv eq_refl) as (Hlb & Hbest & _).
    pose proof (inv_i Hinv) as Hi0. cbn [List.length] in Hi0.
    destruct Hcase as [(_ & Hlb' & Hb' & _) | (Hcc & _)].
    + exists cc. split; [exact Hb'|]. lia.
    + rewrite Hbest in Hcc. discriminate.
  - cbn [map app snd] in *. destruct Hb as (b & Hbs & Hle).
    destruct Hcase as [(Hcc & Hlb' & Hb' & _) | (Hcc & Hlb' & Hb' & _)].
    + rewrite Hbs in Hcc. cbn [cc_lt] in Hcc. apply Nat.ltb_lt in Hcc.
      exists cc. split; [exact Hb'|]. lia.
    + exists b. split; [now rewrite Hb'|]. lia.
Qed.

Lemma iterations_bound C s w evs s' w' :
  iterations C s w evs s' w' ->
  forall hist, LoopInv hist s -> Bound hist s ->
    LoopInv (hist ++ counted evs) s' /\ Bound (hist ++ counted evs) s'.
Proof.
  induction 1 as [s w | s w s1 w1 rest evs s' w' Hlt Hit Hlog Hres Hits IH];
    intros hist Hinv Hb.
  - now rewrite List.app_nil_r.
  - destruct Hres as (Hi & _ & _ & layering & -> & _ & Hcase).
    cbn [counted flat_map app]. fold (counted evs).
    change ((layering, crossCount C (w_g w1) layering) :: counted evs)
      with ([(layering, crossCount C (w_g w1) layering)] ++ counted evs).
    rewrite List.app_assoc. apply IH.
    + eapply LoopInv_step; eauto.
    + eapply Bound_step; eauto.
Qed.

(** X25. A run of the default algorithm with the heuristic enabled that
    returns has swept and counted at least 4 times and at most
    [4 * (c - b + 1)] times, where [c] is the crossing count after the
    first sweep and [b] the least count of the run:
    [n + 4 * b <= 4 * c + 4] for the number [n] of iterations. *)
Theorem order_iteration_bound (C : Collaborators) (fuel : nat) (opts : option Opts)
  (w w' : World) :
  heuristic_enabled opts ->
  order C fuel opts w = (w', Ok tt) ->
  let ccs := counts (new_events w w') in
  exists c b,
    hd_error ccs = Some c /\ In b ccs /\
    (forall cc, In cc ccs -> (b <= cc)%nat) /\
    (4 <= List.length ccs)%nat /\
    (List.length ccs + 4 * b <= 4 * c + 4)%nat.
Proof.
  intros Hopts Hrun.
  assert (Hd : order C fuel opts w = order_default C fuel false w).
  { destruct opts as [[[f|] d]|]; simpl in *; try reflexivity.
    - destruct Hopts; discriminate.
    - destruct Hopts as [_ ->]. reflexivity. }
  rewrite Hd in Hrun. apply order_default_run in Hrun.
  destruct Hrun as [[_ Hno] | (down & up & w0 & w1 & o1 & _ & _ & L0 & Hloop & L1 & Hfin)];
    [now contradiction (Hno tt)|].
  destruct o1 as [s| | |]; try (now contradiction (proj2 Hfin tt)).
  apply order_loop_iterations in Hloop.
  destruct Hloop as (evs & s1 & w2 & tail & Hits & Hend & Hlog).
  inversion Hend as [Hex Hw Hs Ht | | w3 o3 rest Hlt Hit Hno Hnf Hrest Hw Hs Ht];
    subst; [|now contradiction (Hno s)].
  rewrite List.app_nil_r in Hlog.
  assert (Hev : new_events w w' = evs).
  { apply new_events_app. congruence. }
  cbv zeta. rewrite Hev.
  destruct (@iterations_bound _ _ _ _ _ _ Hits [] (LoopInv_start down up) I)
    as [[Hi Hstart Hrun Hnostop] Hb].
  cbn [app] in *. unfold counts.
  assert (Hne : counted evs <> []).
  { intros E. destruct (Hstart E) as (Hz & _). lia. }
  destruct (Hrun Hne) as (Hlb & Hle & best & b & Hbs & _ & Hnth & Hmin & _ & _).
  assert (E4 : ls_lastBest s = 4%nat) by lia.
  unfold Bound in Hb. destruct (map snd (counted evs)) as [|c ccs] eqn:Ec.
  - destruct (counted evs); [congruence | discriminate].
  - destruct Hb as (b' & Hbs' & Hbound). rewrite Hbs in Hbs'. injection Hbs' as <-.
    exists c, b. split; [reflexivity|].
    split; [rewrite <- Ec; apply in_map_iff; exists (best, b); split;
            [reflexivity | eapply nth_error_In, Hnth]|].
    split; [exact Hmin|].
    assert (Hlen : List.length (c :: ccs) = List.length (counted evs))
      by (rewrite <- Ec; apply length_map).
    rewrite Hlen. split; lia.
Qed.

Lemma order_iteration_bound_witness :
  exists c b,
    hd_error (counts (w_log (fst Examples.ladder_run))) = Some c /\
    (List.length (counts (w_log (fst Examples.ladder_run))) + 4 * b <= 4 * c + 4)%nat.
Proof.
  destruct (@order_iteration_bound Examples.adversary 10 None
              (Examples.start Examples.g_ladder) (fst Examples.ladder_run) I)
    as (c & b & Hc & _ & _ & _ & Hn).
  - vm_compute. reflexivity.
  - exists c, b. split; [exact Hc | exact Hn].
Defined.

(** *** order without the heuristic *)

(** Neither the graph nor the log is touched. *)
Definition quiet (w w' : World) : Prop := w_g w' = w_g w /\ w_log w' = w_log w.

Lemma quiet_refl (w : World) : quiet w w.
Proof. now split. Qed.

Lemma quiet_trans (w1 w2 w3 : World) : quiet w1 w2 -> quiet w2 w3 -> quiet w1 w3.
Proof. unfold quiet. intros [? ?] [? ?]. split; congruence. Qed.

Lemma quiet_idCounter (w : World) (n : nat) : quiet w (mkWorld (w_g w) n (w_log w)).
Proof. now split. Qed.

(** The writes of [assignOrder] depend on the graph only. *)
Lemma writes_same_graph (es : list (nat * string)) : forall w1 w2,
  w_g w1 = w_g w2 ->
  w_g (fst (forEach es write_order w1)) = w_g (fst (forEach es write_order w2)) /\
  snd (forEach es write_order w1) = snd (forEach es write_order w2) /\
  w_log (fst (forEach es write_order w1)) = w_log w1.
Proof.
  induction es as [|[i u] es IH]; intros w1 w2 Hg; [now repeat split|].
  cbn [forEach write_order]. unfold set_node_order. unfold bind, get_g.
  rewrite Hg. destruct (node (w_g w2) u) as [lu|]; [|now repeat split].
  unfold put_g.
  set (g1 := update (w_g w2) u (fun l => Label.set_order l (Some (Int (Z.of_nat i))))).
  destruct (IH (mkWorld g1 (w_idCounter w1) (w_log w1))
               (mkWorld g1 (w_idCounter w2) (w_log w2)) eq_refl) as (A & B & D).
  cbn [w_log] in D. now repeat split.
Qed.

Lemma order_default_disabled (C : Collaborators) (fuel : nat) (w w' : World)
  (o : outcome unit) :
  order_default C fuel true w = (w', o) ->
  w_log w' = w_log w /\
  (o = Ok tt ->
   w_g w' = w_g (fst (assignOrder (Some (map (map Some) (initOrder C (w_g w)))) w))).
Proof.
  unfold order_default.
  unfold bind at 1, get_g at 1. unfold bind at 1.
  destruct (Util.range (Int 1) _ (Int 1)) as [ranks_down|];
    [|intros H; injection H as <- <-; split; [reflexivity | discriminate]].
  unfold bind at 1.
  pose proof (@respects_buildLayerGraphs quiet quiet_refl quiet_trans
                quiet_idCounter ranks_down Rel_inEdges w) as [G1 L1].
  destruct (buildLayerGraphs ranks_down Rel_inEdges w) as [wa [down| | |]];
    cbn [fst] in G1, L1;
    try (intros H; injection H as <- <-; split; [assumption | discriminate]).
  unfold bind at 1.
  destruct (Util.range (num_sub _ _) _ _) as [ranks_up|];
    [|intros H; injection H as <- <-; split; [assumption | discriminate]].
  unfold bind at 1.
  pose proof (@respects_buildLayerGraphs quiet quiet_refl quiet_trans
                quiet_idCounter ranks_up Rel_outEdges wa) as [G2 L2].
  destruct (buildLayerGraphs ranks_up Rel_outEdges wa) as [wb [up| | |]];
    cbn [fst] in G2, L2;
    try (intros H; injection H as <- <-; split; [congruence | discriminate]).
  unfold bind at 1, get_g at 1. unfold bind at 1.
  assert (Egb : w_g wb = w_g w) by congruence.
  rewrite Egb, !assignOrder_flat.
  destruct (@writes_same_graph
              (placements (map (map Some) (initOrder C (w_g w)))) wb w Egb)
    as (A & B & D).
  destruct (forEach _ write_order wb) as [w0 [[]| | |]];
    cbn [fst snd ret] in *;
    intros H; injection H as <- <-; (split; [congruence|]); intros; congruence.
Qed.

(** X26. With [disableOptimalOrderHeuristic] set, [order] never sweeps a
    layer graph and never counts crossings, and its result does not depend
    on the number of iterations its loop would be allowed; when it returns,
    the graph is the one that [assignOrder] produces from the layering of
    the Initial Order Seeder. *)
Theorem order_without_heuristic (C : Collaborators) (fuel : nat) (w : World) :
  let r := order C fuel (Some (mkOpts None true)) w in
  w_log (fst r) = w_log w /\
  (forall fuel', order C fuel' (Some (mkOpts None true)) w = r) /\
  (snd r = Ok tt ->
   w_g (fst r)
   = w_g (fst (assignOrder (Some (map (map Some) (initOrder C (w_g w)))) w))).
Proof.
  cbv zeta. cbn [order].
  destruct (order_default C fuel true w) as [w' o] eqn:E.
  destruct (order_default_disabled _ _ _ E) as [L G]. cbn [fst snd].
  split; [exact L|]. split; [|exact G].
  intros fuel'. rewrite <- E. reflexivity.
Qed.

End OrderMore.

(** ** lib/util.js: what removeEmptyRanks leaves alone *)

Module CompactionMore.
Import Graphlib JSNumFacts UtilFacts GraphFacts Util RemoveEmptyRanksFacts LongestPathMore.

Lemma removeEmptyRanks_loop_frame (nodeRankFactor : option num)
  (layers : list (option (list string))) : forall i st,
  same_but_rank (snd st) (snd (removeEmptyRanks_loop nodeRankFactor layers i st)).
Proof.
  induction layers as [|vs layers IH]; intros i [delta g]; [apply same_but_rank_refl|].
  cbn [removeEmptyRanks_loop]. eapply same_but_rank_trans; [|apply IH].
  unfold removeEmptyRanks_step. destruct vs as [vs|].
  - destruct (negb (delta =? 0)%Z); [|apply same_but_rank_refl]. cbn [snd].
    clear. revert g. induction vs as [|v vs IHv]; intros g; [apply same_but_rank_refl|].
    cbn [fold_left]. eapply same_but_rank_trans; [|apply IHv].
    apply (same_but_rank_rewrite g v
             (fun node => Some (num_add (to_num (Label.rank node)) (Int delta)))).
  - destruct (negb _); apply same_but_rank_refl.
Qed.

Lemma removed_below_le (g : Graph) (m f : Z) (i : nat) : (removed_below g m f i <= i)%nat.
Proof.
  unfold removed_below.
  rewrite <- (List.length_seq i 0) at 2. apply filter_length_le.
Qed.

Lemma removed_below_factor_one (g : Graph) (m : Z) (i : nat) : removed_below g m 1 i = O.
Proof.
  unfold removed_below. induction (seq 0 i) as [|j l IH]; [reflexivity|].
  cbn [filter]. unfold removable at 1. rewrite Z.mod_1_r. cbn [Z.eqb negb].
  rewrite andb_false_r. exact IH.
Qed.

(** X27. [removeEmptyRanks] writes nothing but [rank].  On a graph whose
    nodes all have integer ranks, with a positive integer
    [nodeRankFactor], no rank is raised, no rank falls below the least
    rank, the nodes of least rank keep it, and with a factor of 1 no rank
    changes at all. *)
Theorem removeEmptyRanks_only_lowers (g : Graph) (f m : Z) :
  NoDup (nodes g) -> all_ranked g ->
  nodeRankFactor (g_graph g) = Some (Int f) -> (0 < f)%Z ->
  is_min_rank g m ->
  same_but_rank g (removeEmptyRanks g) /\
  forall v z, has_rank g v z ->
    exists z', has_rank (removeEmptyRanks g) v z' /\
               (m <= z' <= z)%Z /\ (z = m -> z' = m) /\ (f = 1%Z -> z' = z).
Proof.
  intros Hnd Hall Hf Hpos Hmin. split.
  - unfold removeEmptyRanks. cbv zeta.
    match goal with
    | |- same_but_rank g (snd (removeEmptyRanks_loop ?nf ?ls ?i ?st)) =>
        apply (removeEmptyRanks_loop_frame nf ls i st)
    end.
  - intros v z Hz.
    pose proof (removeEmptyRanks_rank Hnd Hall Hf Hpos Hmin Hz) as Hr.
    destruct Hmin as [[v0 Hv0] Hleast].
    pose proof (Hleast v z Hz) as Hge.
    set (i := Z.to_nat (z - m)) in *.
    exists (z - Z.of_nat (removed_below g m f i))%Z. split; [exact Hr|].
    pose proof (removed_below_le g m f i) as Hle.
    assert (Hused : rank_used g (m + Z.of_nat 0) = true).
    { apply (rank_used_idx Hall (conj (ex_intro _ v0 Hv0) Hleast)).
      exists v0. split; [destruct Hv0 as (l & N & _); eapply node_Some_In, N|].
      unfold idx. rewrite (has_rank_rankZ Hv0). lia. }
    assert (H0 : removed_below g m f 0 = O) by reflexivity.
    split; [|split].
    + destruct (Nat.eq_dec i 0) as [E|E]; [rewrite E, H0; lia|].
      destruct (@c_gap g m f 0 i ltac:(lia) Hused) as [A _]. unfold c in A.
      rewrite H0 in A. lia.
    + intros ->. replace i with O by (unfold i; lia). rewrite H0. lia.
    + intros ->. rewrite removed_below_factor_one. lia.
Qed.

Lemma removeEmptyRanks_only_lowers_witness :
  same_but_rank Examples.g_sparse (removeEmptyRanks Examples.g_sparse).
Proof.
  apply (@removeEmptyRanks_only_lowers Examples.g_sparse 4 0).
  - repeat constructor; simpl; intuition discriminate.
  - exact g_sparse_ranked.
  - reflexivity.
  - lia.
  - split.
    + exists "a"%string. eexists. split; reflexivity.
    + intros v z (l & N & R). unfold node in N. simpl in N.
      destruct (String.eqb v "a"); [|destruct (String.eqb v "b")]; try discriminate;
        injection N as <-; injection R as <-; lia.
Defined.

End CompactionMore.

(** ** lib/util.js and lib/order/index.js: buildLayerMatrix after assignOrder *)

Module LayerMatrixFacts.
Import Graphlib Order OrderFrame OrderTrace GraphFacts JSNumFacts Util OrderMore.

(** An array with its trailing holes cut off: the holes past the last
    element written are not part of a JS array. *)
Fixpoint trim {A : Type} (a : list (option A)) : list (option A) :=
  match a with
  | [] => []
  | x :: a' =>
      match x, trim a' with
      | None, [] => []
      | _, t => x :: t
      end
  end.

(** [a] with position [i] overwritten, for [i] within [a]. *)
Fixpoint overwrite {A : Type} (a : list A) (i : nat) (x : A) : list A :=
  match a, i with
  | [], _ => []
  | _ :: a', O => x :: a'
  | y :: a', S i' => y :: overwrite a' i' x
  end.

Lemma array_set_nonempty {A : Type} (a : list (option A)) (i : nat) (x : A) :
  array_set a i x <> [].
Proof. destruct i, a; discriminate. Qed.

Lemma array_set_trim {A : Type} (m : list (option A)) : forall i x,
  (i < List.length m)%nat ->
  array_set (trim m) i x = trim (overwrite m i (Some x)).
Proof.
  induction m as [|y m IH]; intros i x Hi; [simpl in Hi; lia|].
  destruct i as [|i].
  - cbn [overwrite trim]. destruct y as [y|]; [reflexivity|].
    destruct (trim m); reflexivity.
  - cbn [List.length] in Hi. specialize (IH i x ltac:(lia)).
    cbn [overwrite trim]. rewrite <- IH.
    pose proof (array_set_nonempty (trim m) i x) as Hne.
    destruct y as [y|].
    + reflexivity.
    + destruct (trim m) as [|z t] eqn:Et.
      * cbn [array_set]. destruct (array_set [] i x) eqn:Ea; [contradiction|reflexivity].
      * cbn [array_set]. fold (array_set (z :: t) i x).
        destruct (array_set (z :: t) i x) eqn:Ea; [contradiction|reflexivity].
Qed.

Lemma trim_dense {A : Type} (l : list A) : trim (map Some l) = map Some l.
Proof. induction l as [|x l IH]; [reflexivity|]. cbn [map trim]. now rewrite IH. Qed.

(** The part of a row that has been written once the nodes [P] are
    processed. *)
Definition mask (P : list string) (row : list string) : list (option string) :=
  map (fun x => if existsb (String.eqb x) P then Some x else None) row.

Lemma mask_skip (P : list string) (v : string) (row : list string) :
  ~ In v row -> mask (v :: P) row = mask P row.
Proof.
  intros Hv. unfold mask. apply map_ext_in. intros x Hx. cbn [existsb].
  destruct (String.eqb x v) eqn:E; [|reflexivity].
  apply String.eqb_eq in E. subst. contradiction.
Qed.

Lemma mask_write (P : list string) (v : string) (row : list string) : forall c,
  NoDup row -> nth_error row c = Some v ->
  overwrite (mask P row) c (Some v) = mask (v :: P) row.
Proof.
  induction row as [|x row IH]; intros c Hnd Hc; [now destruct c|].
  inversion Hnd as [|? ? Hx Hnd']; subst. destruct c as [|c].
  - injection Hc as ->.
    change (mask P (v :: row))
      with ((if existsb (String.eqb v) P then Some v else None) :: mask P row).
    change (mask (v :: P) (v :: row))
      with ((if existsb (String.eqb v) (v :: P) then Some v else None)
            :: mask (v :: P) row).
    cbn [overwrite existsb]. rewrite String.eqb_refl. cbn [orb].
    f_equal. symmetry. now apply mask_skip.
  - cbn [nth_error] in Hc.
    change (mask P (x :: row))
      with ((if existsb (String.eqb x) P then Some x else None) :: mask P row).
    change (mask (v :: P) (x :: row))
      with ((if existsb (String.eqb x) (v :: P) then Some x else None)
            :: mask (v :: P) row).
    cbn [overwrite]. rewrite (IH c Hnd' Hc). f_equal. cbn [existsb].
    destruct (String.eqb x v) eqn:E; [|reflexivity].
    apply String.eqb_eq in E. subst x. exfalso. apply Hx. eapply nth_error_In, Hc.
Qed.

Lemma mask_full (P : list string) (row : list string) :
  (forall x, In x row -> In x P) -> mask P row = map Some row.
Proof.
  intros H. unfold mask. apply map_ext_in. intros x Hx.
  assert (E : existsb (String.eqb x) P = true).
  { apply existsb_exists. exists x. split; [now apply H | apply String.eqb_refl]. }
  now rewrite E.
Qed.

Lemma mask_empty (row : list string) : trim (mask [] row) = [].
Proof.
  induction row as [|x row IH]; [reflexivity|].
  change (mask [] (x :: row)) with (@None string :: mask [] row).
  cbn [trim]. now rewrite IH.
Qed.

(** The matrix once the nodes [P] are processed. *)
Definition partial (L : list (list string)) (P : list string) : Layering :=
  map (fun row => trim (mask P row)) L.

Lemma NoDup_app_disjoint {A : Type} (l1 l2 : list A) (x : A) :
  NoDup (l1 ++ l2) -> In x l1 -> ~ In x l2.
Proof.
  induction l1 as [|y l1 IH]; intros Hnd Hx; [contradiction|].
  inversion Hnd as [|? ? Hy Hnd']; subst. destruct Hx as [->|Hx].
  - intros H. apply Hy, in_or_app. now right.
  - now apply IH.
Qed.

Lemma array_index_nat (n : nat) : array_index (Int (Z.of_nat n)) = Some n.
Proof.
  rewrite array_index_Int.
  destruct (Z.leb_spec 0 (Z.of_nat n)); [|lia]. now rewrite Nat2Z.id.
Qed.

Lemma empty_matrix (L : list (list string)) : forall ranks : list num,
  List.length ranks = List.length L ->
  map (fun _ : num => @nil (option string)) ranks = partial L [].
Proof.
  unfold partial. induction L as [|row L' IHL]; intros [|x ranks] Hlen;
    try discriminate; [reflexivity|].
  cbn [map]. rewrite mask_empty. f_equal. apply IHL. now injection Hlen.
Qed.

Section Rebuild.
Variable g : Graph.
Variable L : list (list string).
Hypothesis HL : NoDup (concat L).
Hypothesis Hplaced : forall r row c v,
  nth_error L r = Some row -> nth_error row c = Some v ->
  exists l, node g v = Some l /\ Label.rank l = Some (Int (Z.of_nat r)) /\
            Label.order l = Some (Int (Z.of_nat c)).
Hypothesis Hunplaced : forall v l,
  node g v = Some l -> ~ In v (concat L) -> Label.rank l = None.

Lemma step_unplaced (P : list string) (v : string) :
  In v (nodes g) -> ~ In v (concat L) ->
  buildLayerMatrix_step g (Ok (partial L P)) v = Ok (partial L (v :: P)).
Proof.
  intros Hv Hnv. destruct (node_In g v Hv) as [l N].
  cbn [buildLayerMatrix_step]. rewrite N, (Hunplaced v N Hnv). f_equal.
  unfold partial. apply map_ext_in. intros row Hrow. f_equal. symmetry.
  apply mask_skip. intros H. apply Hnv. apply in_concat. eauto.
Qed.

Lemma step_placed (P : list string) (r c : nat) (row : list string) (v : string) :
  nth_error L r = Some row -> nth_error row c = Some v ->
  buildLayerMatrix_step g (Ok (partial L P)) v = Ok (partial L (v :: P)).
Proof.
  intros Hr Hc. destruct (Hplaced r c Hr Hc) as (l & N & Rk & Ro).
  cbn [buildLayerMatrix_step]. rewrite N, Rk, array_index_nat.
  assert (Hrow : nth_error (partial L P) r = Some (trim (mask P row))).
  { unfold partial. now rewrite nth_error_map, Hr. }
  rewrite Hrow, Ro. cbn [to_num]. rewrite array_index_nat. f_equal.
  destruct (nth_error_split L r Hr) as (L1 & L2 & EL & Hlen).
  assert (Hin : In v row) by (eapply nth_error_In, Hc).
  rewrite EL in HL. rewrite concat_app in HL. cbn [concat] in HL.
  assert (Hrow_nd : NoDup row).
  { apply NoDup_app_remove_l in HL. now apply NoDup_app_remove_r in HL. }
  assert (H1 : forall row', In row' L1 -> ~ In v row').
  { intros row' Hrow' Hv'.
    apply (@NoDup_app_disjoint _ _ _ v HL); [apply in_concat; eauto|].
    apply in_or_app. now left. }
  assert (H2 : forall row', In row' L2 -> ~ In v row').
  { intros row' Hrow' Hv'. apply NoDup_app_remove_l in HL.
    apply (@NoDup_app_disjoint _ _ _ v HL Hin). apply in_concat. eauto. }
  unfold partial. rewrite EL, !map_app. cbn [map].
  rewrite firstn_app.
  assert (Hl1 : List.length (map (fun row0 => trim (mask P row0)) L1) = r)
    by now rewrite length_map.
  rewrite Hl1, Nat.sub_diag. cbn [firstn]. rewrite List.app_nil_r.
  rewrite firstn_all2 by lia.
  assert (Hskip : skipn (S r) (map (fun row0 => trim (mask P row0)) L1
                               ++ trim (mask P row)
                                  :: map (fun row0 => trim (mask P row0)) L2)
                  = map (fun row0 => trim (mask P row0)) L2).
  { rewrite skipn_app, Hl1. rewrite skipn_all2 by lia.
    replace (S r - r)%nat with 1%nat by lia. reflexivity. }
  rewrite Hskip.
  assert (E1 : map (fun row0 => trim (mask P row0)) L1
               = map (fun row0 => trim (mask (v :: P) row0)) L1).
  { apply map_ext_in. intros row' Hrow'. f_equal. symmetry. now apply mask_skip, H1. }
  assert (E2 : map (fun row0 => trim (mask P row0)) L2
               = map (fun row0 => trim (mask (v :: P) row0)) L2).
  { apply map_ext_in. intros row' Hrow'. f_equal. symmetry. now apply mask_skip, H2. }
  assert (E3 : array_set (trim (mask P row)) c v = trim (mask (v :: P) row)).
  { rewrite array_set_trim.
    - f_equal. now apply mask_write.
    - unfold mask. rewrite length_map. apply nth_error_Some. congruence. }
  now rewrite E1, E2, E3.
Qed.

Lemma In_concat_nth (v : string) :
  In v (concat L) ->
  exists r row c, nth_error L r = Some row /\ nth_error row c = Some v.
Proof.
  intros H. apply in_concat in H. destruct H as (row & Hrow & Hv).
  apply In_nth_error in Hrow, Hv. destruct Hrow as [r Hr], Hv as [c Hc]. eauto.
Qed.

Lemma steps (vs : list string) : forall P,
  (forall v, In v vs -> In v (nodes g)) ->
  fold_left (buildLayerMatrix_step g) vs (Ok (partial L P))
  = Ok (partial L (rev vs ++ P)).
Proof.
  induction vs as [|v vs IH]; intros P Hvs; [reflexivity|].
  cbn [fold_left rev].
  assert (E : buildLayerMatrix_step g (Ok (partial L P)) v = Ok (partial L (v :: P))).
  { destruct (in_dec string_dec v (concat L)) as [Hin|Hout].
    - destruct (In_concat_nth v Hin) as (r & row & c & Hr & Hc).
      now apply (step_placed P r c Hr Hc).
    - apply step_unplaced; [apply Hvs; now left | assumption]. }
  rewrite E, IH by (intros u Hu; apply Hvs; now right).
  now rewrite <- List.app_assoc.
Qed.

Lemma rebuilt (ranks : list num) :
  List.length ranks = List.length L ->
  fold_left (buildLayerMatrix_step g) (nodes g) (Ok (map (fun _ => []) ranks))
  = Ok (map (map Some) L).
Proof.
  intros Hlen.
  rewrite (empty_matrix L ranks Hlen), steps by auto. f_equal. unfold partial.
  apply map_ext_in. intros row Hrow. rewrite mask_full; [apply trim_dense|].
  intros x Hx. apply in_or_app. left. apply -> in_rev.
  destruct (In_nth_error _ _ Hrow) as [r Hr].
  destruct (In_nth_error _ _ Hx) as [c Hc].
  destruct (Hplaced r c Hr Hc) as (l & N & _). eapply node_Some_In, N.
Qed.

End Rebuild.

(** The placements of a layering without holes. *)
Definition dense (L : list (list string)) : Layering := map (map Some) L.

Lemma entries_dense (row : list string) : forall i c v,
  In (c, v) (entries_from i (map Some row)) <->
  (i <= c)%nat /\ nth_error row (c - i) = Some v.
Proof.
  induction row as [|x row IH]; intros i c v.
  - cbn. split; [contradiction|]. intros [_ H]. now destruct (c - i)%nat.
  - cbn [map entries_from]. split.
    + intros [E|H].
      * injection E as <- <-. split; [lia|]. now rewrite Nat.sub_diag.
      * apply IH in H. destruct H as [Hle H]. split; [lia|].
        replace (c - i)%nat with (S (c - S i)) by lia. exact H.
    + intros [Hle H]. destruct (Nat.eq_dec c i) as [->|Hne].
      * left. rewrite Nat.sub_diag in H. now injection H as ->.
      * right. apply IH. split; [lia|].
        replace (c - i)%nat with (S (c - S i)) in H by lia. exact H.
Qed.

Lemma snd_entries_dense (row : list string) : forall i,
  map snd (entries_from i (map Some row)) = row.
Proof.
  induction row as [|x row IH]; intros i; [reflexivity|].
  cbn [map entries_from snd]. now rewrite IH.
Qed.

Lemma placements_dense (L : list (list string)) (c : nat) (v : string) :
  In (c, v) (placements (dense L)) <->
  exists r row, nth_error L r = Some row /\ nth_error row c = Some v.
Proof.
  unfold placements, dense. rewrite in_flat_map. split.
  - intros (layer & Hl & Hin). apply in_map_iff in Hl. destruct Hl as (row & <- & Hrow).
    apply entries_dense in Hin. destruct Hin as [_ Hc]. rewrite Nat.sub_0_r in Hc.
    destruct (In_nth_error _ _ Hrow) as [r Hr]. eauto.
  - intros (r & row & Hr & Hc). exists (map Some row). split.
    + apply in_map. eapply nth_error_In, Hr.
    + apply entries_dense. split; [lia|]. now rewrite Nat.sub_0_r.
Qed.

Lemma snd_placements_dense (L : list (list string)) :
  map snd (placements (dense L)) = concat L.
Proof.
  unfold placements, dense. induction L as [|row L IH]; [reflexivity|].
  cbn [map flat_map concat]. rewrite map_app, IH. f_equal.
  apply snd_entries_dense.
Qed.

Lemma last_column_absent (es : list (nat * string)) (v : string) :
  ~ In v (map snd es) -> last_column es v = None.
Proof.
  induction es as [|[i u] es IH]; intros H; [reflexivity|].
  cbn [last_column]. rewrite IH by (intros H'; apply H; now right).
  destruct (String.eqb v u) eqn:E; [|reflexivity].
  apply String.eqb_eq in E. subst. exfalso. apply H. now left.
Qed.

Lemma last_column_unique (es : list (nat * string)) (i : nat) (v : string) :
  NoDup (map snd es) -> In (i, v) es -> last_column es v = Some i.
Proof.
  induction es as [|[j u] es IH]; intros Hnd Hin; [contradiction|].
  cbn [map snd] in Hnd. inversion Hnd as [|? ? Hu Hnd']; subst.
  cbn [last_column]. destruct Hin as [E|Hin].
  - injection E as -> ->. rewrite (@last_column_absent es v Hu).
    now rewrite String.eqb_refl.
  - now rewrite (IH Hnd' Hin).
Qed.

Lemma Zseq_up_length (n : nat) : forall a, List.length (UtilFacts.Zseq_up a n) = n.
Proof. induction n as [|n IH]; intros a; [reflexivity|]. cbn. now rewrite IH. Qed.

(** X28. Round trip of the two functions that [order] alternates between
    a layering and the [order] fields.  For a layering without holes that
    names each ranked node of the graph once, in the row of its rank, and
    has one row per rank up to [maxRank], [assignOrder] returns, and
    [buildLayerMatrix] on the graph it leaves gives the layering back. *)
Theorem buildLayerMatrix_after_assignOrder (L : list (list string)) (w : World) :
  NoDup (concat L) ->
  (forall r row v, nth_error L r = Some row -> In v row ->
                   has_rank (w_g w) v (Z.of_nat r)) ->
  (forall v l, node (w_g w) v = Some l -> Label.rank l <> None -> In v (concat L)) ->
  maxRank (w_g w) = Int (Z.of_nat (List.length L) - 1) ->
  snd (assignOrder (Some (dense L)) w) = Ok tt /\
  buildLayerMatrix (w_g (fst (assignOrder (Some (dense L)) w))) = Ok (dense L).
Proof.
  intros HL Hrank Hall Hmax.
  rewrite assignOrder_flat.
  destruct (writes_done (placements (dense L)) w) as (g' & E & Hn & Hl).
  { intros i v Hin. apply placements_dense in Hin. destruct Hin as (r & row & Hr & Hc).
    destruct (Hrank r row v Hr (nth_error_In _ _ Hc)) as (l & N & _).
    eapply node_Some_In, N. }
  rewrite E. cbn [fst snd w_g]. split; [reflexivity|].
  assert (Hnd : NoDup (map snd (placements (dense L))))
    by now rewrite snd_placements_dense.
  assert (Hplaced : forall r row c v,
            nth_error L r = Some row -> nth_error row c = Some v ->
            exists l, node g' v = Some l /\ Label.rank l = Some (Int (Z.of_nat r)) /\
                      Label.order l = Some (Int (Z.of_nat c))).
  { intros r row c v Hr Hc.
    destruct (Hrank r row v Hr (nth_error_In _ _ Hc)) as (l & N & R).
    assert (Hin : In (c, v) (placements (dense L)))
      by (apply placements_dense; eauto).
    rewrite Hl, (@last_column_unique _ c v Hnd Hin), N. cbn [option_map].
    eexists. split; [reflexivity|]. now split. }
  assert (Hunplaced : forall v l, node g' v = Some l -> ~ In v (concat L) ->
                                  Label.rank l = None).
  { intros v l N Hout. rewrite Hl, last_column_absent in N
      by now rewrite snd_placements_dense.
    destruct (Label.rank l) eqn:R; [|reflexivity].
    exfalso. apply Hout, (Hall v l N). congruence. }
  assert (Hmax' : maxRank g' = maxRank (w_g w)).
  { unfold maxRank. cbv zeta. rewrite Hn. f_equal. apply map_ext. intros v.
    rewrite Hl. destruct (last_column (placements (dense L)) v) as [i|]; [|reflexivity].
    now destruct (node (w_g w) v). }
  unfold buildLayerMatrix. rewrite Hmax', Hmax, num_add_Int.
  replace (Z.of_nat (List.length L) - 1 + 1)%Z with (Z.of_nat (List.length L)) by lia.
  change (range (Int (Z.of_nat (List.length L))) None (Int 1))
    with (range (Int 0) (Some (Int (Z.of_nat (List.length L)))) (Int 1)).
  rewrite UtilFacts.range_ascending.
  apply (@rebuilt g' L HL Hplaced Hunplaced).
  rewrite length_map, Zseq_up_length. lia.
Qed.

(** Two rows: a b above c d. *)
Definition g_two_rows : Graph :=
  mkGraph [("c", Examples.ranked 1); ("a", Examples.ranked 0);
           ("d", Examples.ranked 1); ("b", Examples.ranked 0)]%string
          [] [] Examples.no_label.

Lemma buildLayerMatrix_after_assignOrder_witness :
  buildLayerMatrix
    (w_g (fst (assignOrder (Some (dense [["a"; "b"]; ["c"; "d"]]%string))
                           (Examples.start g_two_rows))))
  = Ok (dense [["a"; "b"]; ["c"; "d"]]%string).
Proof.
  apply (@buildLayerMatrix_after_assignOrder [["a"; "b"]; ["c"; "d"]]%string
           (Examples.start g_two_rows)).
  - repeat constructor; simpl; intuition discriminate.
  - intros [|[|r]] row v Hr Hv; cbn in Hr; try discriminate;
      [injection Hr as <- | injection Hr as <- | now destruct r];
      destruct Hv as [<-|[<-|[]]]; eexists; split; reflexivity.
  - intros v l N R. unfold node in N. cbn in N.
    repeat match type of N with
           | (if ?c then _ else _) = _ => destruct c eqn:?
           end; try discriminate;
      match goal with
      | H : String.eqb v _ = true |- _ => apply String.eqb_eq in H; subst v
      end; cbn; auto 6.
  - reflexivity.
Defined.

End LayerMatrixFacts.

(** ** lib/order/index.js: the index of buildLayerGraphs *)

Module LayerIndexFacts.
Import Graphlib Order JSNumFacts GraphFacts Util RangeFacts.

(** The nodes filed under the integer rank [r]:
    [nodesByRank.get(r) || []]. *)
Definition filed (nodesByRank : list (num * list string)) (r : Z) : list string :=
  match nodesByRank_get nodesByRank (Int r) with
  | Some vs => vs
  | None => []
  end.

(** All keys of the index are integers. *)
Definition integer_keys (nodesByRank : list (num * list string)) : Prop :=
  forall k vs, In (k, vs) nodesByRank -> exists z, k = Int z.

Lemma same_value_zero_Int (a b : Z) : same_value_zero (Int a) (Int b) = (a =? b)%Z.
Proof. unfold same_value_zero. cbn [Int]. apply num_eqb_Int. Qed.

Lemma addNodeToRank_filed (nodesByRank : list (num * list string)) (k : Z) (v : string) :
  integer_keys nodesByRank ->
  integer_keys (addNodeToRank nodesByRank (Int k) v) /\
  forall r, filed (addNodeToRank nodesByRank (Int k) v) r
            = filed nodesByRank r ++ (if (r =? k)%Z then [v] else []).
Proof.
  induction nodesByRank as [|[k' vs] rest IH]; intros Hk.
  - split.
    + intros k0 vs0 [E|[]]. injection E as <- _. eauto.
    + intros r. unfold filed. cbn [addNodeToRank nodesByRank_get].
      rewrite same_value_zero_Int. now destruct (r =? k)%Z.
  - destruct (Hk k' vs (or_introl eq_refl)) as [z' ->].
    assert (Hrest : integer_keys rest) by (intros k0 vs0 H; apply (Hk k0 vs0); now right).
    destruct (IH Hrest) as [IHk IHf].
    cbn [addNodeToRank]. rewrite same_value_zero_Int.
    destruct (Z.eqb_spec k z') as [->|Hne].
    + split.
      * intros k0 vs0 [E|H]; [injection E as <- _; eauto | apply (Hk k0 vs0); now right].
      * intros r. unfold filed. cbn [nodesByRank_get]. rewrite same_value_zero_Int.
        destruct (Z.eqb_spec r z'); [reflexivity|]. now rewrite List.app_nil_r.
    + split.
      * intros k0 vs0 [E|H]; [injection E as <- _; eauto | now apply (IHk k0 vs0)].
      * intros r. specialize (IHf r). unfold filed in *. cbn [nodesByRank_get].
        rewrite same_value_zero_Int.
        destruct (Z.eqb_spec r z') as [->|Hr]; [|exact IHf].
        destruct (Z.eqb_spec z' k); [congruence|]. now rewrite List.app_nil_r.
Qed.

(** The ranks of the loop [for (r = minRank; r <= maxRank; r++)]. *)
Lemma rank_span_Int (a b : Z) :
  rank_span (Int a) (Int b) = Some (progression a 1 (Z.to_nat (b - a + 1))).
Proof.
  unfold rank_span.
  apply (@range_loop_progression _ (fun z => (z <=? b)%Z) 1).
  - intros z. apply num_leb_Int.
  - cbn [Int].
    assert (E : Qfloor (inject_Z b - inject_Z a) = (b - a)%Z).
    { rewrite <- (Qfloor_Z (b - a)). apply Qfloor_comp.
      unfold Qminus. now rewrite <- inject_Z_opp, <- inject_Z_plus. }
    rewrite E. lia.
  - intros k Hk. apply Z.leb_le. lia.
  - apply Z.leb_gt. lia.
Qed.

Lemma span_filed (v : string) (rank : num) (k : option Z) (n : nat) :
  (forall z, num_eqb (Int z) rank = match k with Some k => (z =? k)%Z | None => false end) ->
  forall a nodesByRank,
    integer_keys nodesByRank ->
    let idx := fold_left (fun nodesByRank r =>
                 if negb (num_eqb r rank) then addNodeToRank nodesByRank r v
                 else nodesByRank) (progression a 1 n) nodesByRank in
    integer_keys idx /\
    forall r, filed idx r
              = filed nodesByRank r ++
                (if ((a <=? r)%Z && (r <? a + Z.of_nat n)%Z
                     && negb match k with Some k => (r =? k)%Z | None => false end)%bool
                 then [v] else []).
Proof.
  intros Hrank. induction n as [|n IH]; intros a nodesByRank Hk; cbv zeta.
  - split; [exact Hk|]. intros r. cbn [progression map seq fold_left].
    replace ((a <=? r)%Z && (r <? a + Z.of_nat 0)%Z)%bool with false
      by (symmetry; apply andb_false_iff;
          destruct (Z.leb_spec a r); [right; apply Z.ltb_ge; lia | now left]).
    cbn [andb]. now rewrite List.app_nil_r.
  - rewrite progression_S. cbn [fold_left]. rewrite Hrank.
    set (hit := match k with Some k0 => (a =? k0)%Z | None => false end).
    assert (Hstep : integer_keys (if negb hit then addNodeToRank nodesByRank (Int a) v
                                  else nodesByRank) /\
                    forall r, filed (if negb hit then addNodeToRank nodesByRank (Int a) v
                                     else nodesByRank) r
                              = filed nodesByRank r ++
                                (if ((r =? a)%Z && negb hit)%bool then [v] else [])).
    { destruct hit; cbn [negb].
      - split; [exact Hk|]. intros r. rewrite andb_false_r. now rewrite List.app_nil_r.
      - destruct (addNodeToRank_filed a v Hk) as [A B]. split; [exact A|].
        intros r. rewrite B, andb_true_r. reflexivity. }
    destruct Hstep as [Hk1 Hf1].
    destruct (IH (a + 1)%Z _ Hk1) as [Hk2 Hf2]. cbv zeta in Hk2, Hf2.
    split; [exact Hk2|]. intros r. rewrite Hf2, Hf1, <- List.app_assoc. f_equal.
    unfold hit.
    destruct (Z.eqb_spec r a) as [->|Hra].
    + replace ((a + 1 <=? a)%Z) with false by (symmetry; apply Z.leb_gt; lia).
      replace ((a <=? a)%Z) with true by (symmetry; apply Z.leb_le; lia).
      replace ((a <? a + Z.of_nat (S n))%Z) with true by (symmetry; apply Z.ltb_lt; lia).
      cbn [andb]. now rewrite List.app_nil_r.
    + cbn [andb app].
      replace ((a + 1 <=? r)%Z) with ((a <=? r)%Z)
        by (destruct (Z.leb_spec a r), (Z.leb_spec (a + 1) r); try reflexivity; lia).
      replace ((r <? a + 1 + Z.of_nat n)%Z) with ((r <? a + Z.of_nat (S n))%Z)
        by (destruct (Z.ltb_spec r (a + 1 + Z.of_nat n)),
                     (Z.ltb_spec r (a + Z.of_nat (S n))); try reflexivity; lia).
      reflexivity.
Qed.

(** Ranks and rank spans, where present, are integers. *)
Definition integral (x : option num) : Prop := x = None \/ exists z, x = Some (Int z).

Definition integer_spans (g : Graph) : Prop :=
  forall v l, node g v = Some l ->
    integral (Label.rank l) /\ integral (Label.minRank l) /\ integral (Label.maxRank l).

(** The test of [buildLayerGraph] on the node [v] at the rank [r]:
    [node.rank === rank || node.minRank <= rank && rank <= node.maxRank]. *)
Definition in_layer (g : Graph) (r : Z) (v : string) : bool :=
  match node g v with
  | Some node =>
      num_eqb (to_num (Label.rank node)) (Int r)
      || (num_leb (to_num (Label.minRank node)) (Int r)
          && num_leb (Int r) (to_num (Label.maxRank node)))
  | None => false
  end.

Lemma index_node_filed (g : Graph) (v : string) (nodesByRank : list (num * list string)) :
  integer_spans g ->
  integer_keys nodesByRank ->
  exists idx,
    index_node g (Some nodesByRank) v = Some idx /\
    integer_keys idx /\
    forall r, filed idx r
              = filed nodesByRank r ++ (if in_layer g r v then [v] else []).
Proof.
  intros Hg Hk. unfold index_node, in_layer.
  destruct (node g v) as [l|] eqn:El.
  2:{ exists nodesByRank. repeat split; [exact Hk|]. intros r. now rewrite List.app_nil_r. }
  destruct (Hg v l El) as (Hr & Hmin & Hmax).
  set (k := match Label.rank l with
            | Some (Fin q) => Some (Qfloor q)
            | _ => None
            end).
  assert (Hrank : forall z, num_eqb (Int z) (to_num (Label.rank l))
                            = match k with Some k => (z =? k)%Z | None => false end).
  { intros z. unfold k. destruct Hr as [->|[z' ->]]; [reflexivity|].
    cbn [to_num Int]. change (Fin (inject_Z z')) with (Int z').
    rewrite num_eqb_Int. change (Fin (inject_Z z)) with (Int z).
    now rewrite Qfloor_Z. }
  assert (Hrank' : forall z, num_eqb (to_num (Label.rank l)) (Int z)
                             = match k with Some k => (z =? k)%Z | None => false end).
  { intros z. unfold k. destruct Hr as [->|[z' ->]]; [reflexivity|].
    cbn [to_num Int]. change (Fin (inject_Z z')) with (Int z').
    change (Fin (inject_Z z)) with (Int z).
    rewrite num_eqb_Int, Qfloor_Z. apply Z.eqb_sym. }
  set (first := match Label.rank l with
                | Some rank => addNodeToRank nodesByRank rank v
                | None => nodesByRank
                end).
  assert (Hfirst : integer_keys first /\
                   forall r, filed first r
                             = filed nodesByRank r ++
                               (if match k with Some k => (r =? k)%Z | None => false end
                                then [v] else [])).
  { unfold first, k. destruct Hr as [->|[z' ->]].
    - split; [exact Hk|]. intros r. now rewrite List.app_nil_r.
    - destruct (addNodeToRank_filed z' v Hk) as [A B]. split; [exact A|].
      intros r. rewrite B. cbn [Int]. now rewrite Qfloor_Z. }
  destruct Hfirst as [Hk1 Hf1].
  destruct Hmin as [->|[a ->]].
  { exists first. repeat split; [exact Hk1|]. intros r.
    rewrite Hf1, Hrank'. cbn [to_num]. unfold num_leb at 1. cbn [andb].
    now rewrite orb_false_r. }
  destruct Hmax as [->|[b ->]].
  { exists first. repeat split; [exact Hk1|]. intros r.
    rewrite Hf1, Hrank'. cbn [to_num].
    replace (num_leb (Int r) NaN) with false by reflexivity.
    now rewrite andb_false_r, orb_false_r. }
  rewrite rank_span_Int.
  destruct (@span_filed v (to_num (Label.rank l)) k (Z.to_nat (b - a + 1)) Hrank a first Hk1)
    as [Hk2 Hf2]. cbv zeta in Hk2, Hf2.
  eexists. split; [reflexivity|]. split; [exact Hk2|].
  intros r. rewrite Hf2, Hf1, <- List.app_assoc. f_equal.
  rewrite Hrank'. cbn [to_num]. rewrite !num_leb_Int.
  replace ((a <=? r)%Z && (r <? a + Z.of_nat (Z.to_nat (b - a + 1)))%Z)%bool
    with ((a <=? r)%Z && (r <=? b)%Z)%bool
    by (destruct (Z.leb_spec a r), (Z.leb_spec r b),
                 (Z.ltb_spec r (a + Z.of_nat (Z.to_nat (b - a + 1))));
        try reflexivity; lia).
  destruct (match k with Some k0 => (r =? k0)%Z | None => false end);
    cbn [negb orb andb app]; [now rewrite andb_false_r|].
  rewrite andb_true_r. reflexivity.
Qed.

Lemma index_filed (g : Graph) :
  integer_spans g ->
  forall vs nodesByRank,
    integer_keys nodesByRank ->
    exists idx,
      fold_left (index_node g) vs (Some nodesByRank) = Some idx /\
      forall r, filed idx r = filed nodesByRank r ++ filter (in_layer g r) vs.
Proof.
  intros Hg. induction vs as [|v vs IH]; intros nodesByRank Hk.
  - exists nodesByRank. split; [reflexivity|]. intros r. cbn [filter].
    now rewrite List.app_nil_r.
  - destruct (index_node_filed v Hg Hk) as (idx1 & E1 & Hk1 & Hf1).
    destruct (IH idx1 Hk1) as (idx & E & Hf).
    exists idx. cbn [fold_left]. rewrite E1. split; [exact E|].
    intros r. rewrite Hf, Hf1, <- List.app_assoc. f_equal. cbn [filter].
    now destruct (in_layer g r v).
Qed.

(** A node that fails the test leaves the layer graph as it is. *)
Lemma step_skips (g : Graph) (r : Z) (relationship : Relationship)
  (root : string) (vs : list string) :
  (forall v, In v vs -> node g v <> None) ->
  forall result,
    fold_left (BuildLayerGraph.buildLayerGraph_step g (Int r) relationship root)
              (filter (in_layer g r) vs) result
    = fold_left (BuildLayerGraph.buildLayerGraph_step g (Int r) relationship root)
                vs result.
Proof.
  induction vs as [|v vs IH]; intros Hn result; [reflexivity|].
  assert (Hn' : forall v', In v' vs -> node g v' <> None) by (intros v' H; apply Hn; now right).
  cbn [filter fold_left].
  destruct (in_layer g r v) eqn:Ein.
  - cbn [fold_left]. now apply IH.
  - rewrite (IH Hn'). f_equal.
    unfold BuildLayerGraph.buildLayerGraph_step.
    destruct result as [lg| | |]; try reflexivity.
    unfold in_layer in Ein.
    destruct (node g v) as [l|] eqn:El; [|exfalso; apply (Hn v); [now left|exact El]].
    now rewrite Ein.
Qed.

Lemma mapM_ext {A B : Type} (f f' : A -> M B) (l : list A) :
  (forall a, In a l -> forall w, f a w = f' a w) ->
  forall w, mapM f l w = mapM f' l w.
Proof.
  induction l as [|a l IH]; intros H w; [reflexivity|].
  cbn [mapM]. unfold bind.
  rewrite (H a (or_introl eq_refl) w).
  destruct (f' a w) as [w1 [b| | |]]; try reflexivity.
  rewrite (IH (fun a' Ha => H a' (or_intror Ha)) w1). reflexivity.
Qed.


(** A cluster spanning the ranks 0 and 1 around a -> b. *)
Definition spanning (minRank maxRank : num) : Label.t :=
  Label.mk None None (Some minRank) (Some maxRank)
           (Some [Some "bl0"; Some "bl1"]%string) (Some [Some "br0"; Some "br1"]%string)
           None None None.

Definition g_spanning (minRank maxRank : num) : Graph :=
  mkGraph [("a", Examples.ranked 0); ("sg", spanning minRank maxRank);
           ("b", Examples.ranked 1)]%string
          [(mkEdge "a" "b" None, mkEdgeLabel (Some (Int 1)) (Some (Int 1)))]%string
          [("a", "sg"); ("b", "sg")]%string Examples.no_label.

Lemma g_spanning_integer_spans : integer_spans (g_spanning (Int 0) (Int 1)).
Proof.
  intros v l N. unfold node in N. simpl in N.
  repeat match type of N with
         | (if ?c then _ else _) = _ => destruct c
         end;
    try discriminate; injection N as <-; simpl;
    repeat split; try (now left); right; eexists; reflexivity.
Qed.


(** The nodes of the three layer graphs, in the order of their creation:
    the cluster is in the layers 0 and 1 below the root of the layer, [a]
    is in the layer 1 as the source of the edge into [b], and the layer 2
    is empty. *)
Example buildLayerGraphs_spanning :
  match snd (buildLayerGraphs (map Int [0; 1; 2]%Z) Rel_inEdges
                              (Examples.start (g_spanning (Int 0) (Int 1)))) with
  | Ok lgs => map (fun lg => map fst (lg_nodes lg)) lgs
  | _ => []
  end = [["a"; "sg"; "_root1"]; ["sg"; "_root2"; "b"; "a"]; []]%string.
Proof. vm_compute. reflexivity. Qed.

(** With a span from 1/2 to 3/2 the index files the cluster under 1/2 and
    3/2 only, while the test of [buildLayerGraph] accepts it at the rank 1:
    with the index the cluster enters the layer 1 only as the parent of
    [b] and is never put below the root. *)
Example buildLayerGraphs_fractional_span :
  let g := g_spanning (Fin (1 # 2)) (Fin (3 # 2)) in
  (match snd (buildLayerGraphs [Int 1] Rel_inEdges (Examples.start g)) with
   | Ok lgs => map (fun lg => map fst (lg_nodes lg)) lgs
   | _ => []
   end = [["b"; "sg"; "a"]]%string) /\
  (match fst (BuildLayerGraph.buildLayerGraph g (Int 1) Rel_inEdges None 0) with
   | Ok lg => map fst (lg_nodes lg)
   | _ => []
   end = ["sg"; "_root1"; "b"; "a"]%string).
Proof. vm_compute. split; reflexivity. Qed.

End LayerIndexFacts.

(** ** lib/order/build-layer-graph.js: the edges of a layer graph *)

Module LayerGraphFacts.
Import Graphlib BuildLayerGraph JSNumFacts.

(** The test of [buildLayerGraph] on the node [v]:
    [node.rank === rank || node.minRank <= rank && rank <= node.maxRank]. *)
Definition accepts (g : Graph) (rank : num) (v : string) : bool :=
  match node g v with
  | Some node =>
      num_eqb (to_num (Label.rank node)) rank
      || (num_leb (to_num (Label.minRank node)) rank
          && num_leb rank (to_num (Label.maxRank node)))
  | None => false
  end.

(** [e.v === v ? e.w : e.v] *)
Definition other_end (v : string) (e : Edge) : string :=
  if String.eqb (e_v e) v then e_w e else e_v e.

(** [g.edge(e).weight] *)
Definition weight_of (g : Graph) (e : Edge) : num :=
  match edge (g_edges g) e with
  | Some l => to_num (weight l)
  | None => NaN
  end.

(** The edges of [g[relationship](v)] whose other end is [u]. *)
Definition toward (g : Graph) (relationship : Relationship) (v u : string) : list Edge :=
  filter (fun e => String.eqb (other_end v e) u) (relationship_edges g relationship v).

(** The weights of these edges, added up as the loop adds them: each to the
    sum so far, from 0. *)
Definition aggregated (g : Graph) (es : list Edge) : option num :=
  match es with
  | [] => None
  | _ => Some (fold_left (fun sum e => num_add (weight_of g e) sum) es (Int 0))
  end.

Definition or_zero (x : option num) : num :=
  match x with
  | Some n => n
  | None => Int 0
  end.

Lemma edge_key_eqb_true (u v a b : string) (y : num) :
  edge_key_eqb u v (a, b, y) = true <-> u = a /\ v = b.
Proof.
  unfold edge_key_eqb. cbn [fst snd]. rewrite andb_true_iff, !String.eqb_eq. tauto.
Qed.

Lemma find_replaced (u v u' v' : string) (x : num) (es : list (string * string * num)) :
  option_map snd
    (find (edge_key_eqb u' v')
          (map (fun e => if edge_key_eqb u v e then (u, v, x) else e) es))
  = if edge_key_eqb u' v' (u, v, x)
    then (if existsb (edge_key_eqb u v) es then Some x else None)
    else option_map snd (find (edge_key_eqb u' v') es).
Proof.
  induction es as [|[[a b] y] es IH].
  - cbn [map find existsb option_map]. now destruct (edge_key_eqb u' v' (u, v, x)).
  - cbn [map find existsb].
    destruct (edge_key_eqb u v (a, b, y)) eqn:K.
    + apply edge_key_eqb_true in K. destruct K as [-> ->]. cbn [orb find].
      change (edge_key_eqb u' v' (a, b, y)) with (edge_key_eqb u' v' (a, b, x)).
      destruct (edge_key_eqb u' v' (a, b, x)) eqn:K'; [reflexivity|].
      exact IH.
    + cbn [orb find].
      destruct (edge_key_eqb u' v' (a, b, y)) eqn:K'.
      * apply edge_key_eqb_true in K'. destruct K' as [-> ->].
        change (edge_key_eqb a b (u, v, x)) with (edge_key_eqb a b (u, v, y)).
        destruct (edge_key_eqb a b (u, v, y)) eqn:K2; [|reflexivity].
        apply edge_key_eqb_true in K2. destruct K2 as [-> ->].
        assert (T : edge_key_eqb u v (u, v, y) = true) by now apply edge_key_eqb_true.
        congruence.
      * exact IH.
Qed.

Lemma find_appended (u v u' v' : string) (x : num) (es : list (string * string * num)) :
  existsb (edge_key_eqb u v) es = false ->
  option_map snd (find (edge_key_eqb u' v') (es ++ [(u, v, x)]))
  = if edge_key_eqb u' v' (u, v, x) then Some x
    else option_map snd (find (edge_key_eqb u' v') es).
Proof.
  induction es as [|[[a b] y] es IH]; intros Hex.
  - cbn [app find option_map]. now destruct (edge_key_eqb u' v' (u, v, x)).
  - cbn [existsb] in Hex. apply orb_false_iff in Hex. destruct Hex as [K Hex].
    cbn [app find].
    destruct (edge_key_eqb u' v' (a, b, y)) eqn:K'.
    + apply edge_key_eqb_true in K'. destruct K' as [-> ->].
      destruct (edge_key_eqb a b (u, v, x)) eqn:K2; [|reflexivity].
      apply edge_key_eqb_true in K2. destruct K2 as [-> ->].
      assert (T : edge_key_eqb u v (u, v, y) = true) by now apply edge_key_eqb_true.
      congruence.
    + now apply IH.
Qed.

Lemma lg_edges_setNode_default (lg : LayerGraph) (v : string) :
  lg_edges (lg_setNode_default lg v) = lg_edges lg.
Proof. unfold lg_setNode_default. now destruct (lg_hasNode lg v). Qed.

Lemma lg_edges_setNode (lg : LayerGraph) (v : string) (l : LgLabel) :
  lg_edges (lg_setNode lg v l) = lg_edges lg.
Proof. unfold lg_setNode. now destruct (lg_hasNode lg v). Qed.

Lemma lg_edges_setParent (lg : LayerGraph) (v p : string) :
  lg_edges (lg_setParent lg v p) = lg_edges lg.
Proof.
  unfold lg_setParent. cbn [lg_edges]. now rewrite !lg_edges_setNode_default.
Qed.

(** [result.edge(u', v')] after [result.setEdge(u, v, x)]. *)
Lemma lg_edge_setEdge (lg : LayerGraph) (u v u' v' : string) (x : num) :
  lg_edge (lg_setEdge lg u v x) u' v'
  = if (String.eqb u' u && String.eqb v' v)%bool then Some x else lg_edge lg u' v'.
Proof.
  unfold lg_edge, lg_setEdge. cbn [lg_edges]. rewrite !lg_edges_setNode_default.
  change (String.eqb u' u && String.eqb v' v)%bool with (edge_key_eqb u' v' (u, v, x)).
  destruct (existsb (edge_key_eqb u v) (lg_edges lg)) eqn:Hex.
  - now rewrite find_replaced, Hex.
  - now apply find_appended.
Qed.

Section Aggregate.

Variables (g : Graph) (rank : num) (relationship : Relationship) (root : string).

(** What the loop over the edges of [v] leaves under the key [(u, v)],
    when [init] was there before. *)
Definition tally (v u : string) (init : option num) (es : list Edge) : option num :=
  fold_left (fun acc e =>
               if String.eqb (other_end v e) u
               then Some (num_add (weight_of g e) (or_zero acc))
               else acc) es init.

Lemma tally_cons (v u : string) (init : option num) (e : Edge) (es : list Edge) :
  tally v u init (e :: es)
  = tally v u (if String.eqb (other_end v e) u
               then Some (num_add (weight_of g e) (or_zero init))
               else init) es.
Proof. reflexivity. Qed.

Lemma tally_aggregated (v u : string) (es : list Edge) :
  tally v u None es = aggregated g (filter (fun e => String.eqb (other_end v e) u) es).
Proof.
  assert (H : forall init,
             tally v u init es
             = match filter (fun e => String.eqb (other_end v e) u) es with
               | [] => init
               | fs => Some (fold_left (fun sum e => num_add (weight_of g e) sum) fs
                                       (or_zero init))
               end).
  { induction es as [|e es' IH]; intros init; [reflexivity|].
    unfold tally in *. cbn [fold_left filter].
    destruct (String.eqb (other_end v e) u).
    - rewrite IH. cbn [fold_left or_zero].
      now destruct (filter (fun e0 => String.eqb (other_end v e0) u) es').
    - apply IH. }
  rewrite H. unfold aggregated.
  now destruct (filter (fun e => String.eqb (other_end v e) u) es).
Qed.

(** The loop [g[relationship](v).forEach(e => ...)]. *)
Definition add_edges (v : string) (result : outcome LayerGraph) (es : list Edge)
  : outcome LayerGraph :=
  fold_left (fun result e =>
    match result with
    | Ok result =>
        let u := if String.eqb (e_v e) v then e_w e else e_v e in
        let weight' :=
          match lg_edge result u v with
          | Some edge_weight => edge_weight
          | None => Int 0
          end in
        match Graphlib.edge (g_edges g) e with
        | Some l => Ok (lg_setEdge result u v (num_add (to_num (weight l)) weight'))
        | None => Throw "TypeError"
        end
    | other => other
    end) es result.

Lemma add_edges_stuck (v : string) (es : list Edge) (o : outcome LayerGraph) (lg' : LayerGraph) :
  add_edges v o es = Ok lg' -> exists lg, o = Ok lg.
Proof.
  revert o. induction es as [|e es IH]; intros o H.
  - exists lg'. exact H.
  - unfold add_edges in *. cbn [fold_left] in H. apply IH in H. destruct H as [lg1 H].
    destruct o as [lg| | |]; try discriminate. now exists lg.
Qed.

Lemma add_edges_tally (v : string) (es : list Edge) :
  forall lg lg', add_edges v (Ok lg) es = Ok lg' ->
  forall u v', lg_edge lg' u v'
               = if String.eqb v' v then tally v u (lg_edge lg u v) es
                 else lg_edge lg u v'.
Proof.
  induction es as [|e es IH]; intros lg lg' H u v'.
  - injection H as <-. unfold tally. cbn [fold_left].
    destruct (String.eqb_spec v' v) as [->|]; reflexivity.
  - unfold add_edges in H. cbn [fold_left] in H. fold (add_edges v) in H.
    change (if String.eqb (e_v e) v then e_w e else e_v e) with (other_end v e) in H.
    destruct (Graphlib.edge (g_edges g) e) as [l|] eqn:El.
    2:{ change (fold_left _ es (Throw "TypeError")) with (add_edges v (Throw "TypeError") es) in H.
        apply add_edges_stuck in H. destruct H as [? H]. discriminate. }
    match type of H with
    | fold_left ?f es (Ok ?lg1) = _ =>
        change (fold_left f es (Ok lg1)) with (add_edges v (Ok lg1) es) in H;
        set (lg1' := lg1) in *
    end.
    rewrite (IH lg1' lg' H u v'). unfold lg1'. rewrite !lg_edge_setEdge.
    assert (W : weight_of g e = to_num (weight l)) by (unfold weight_of; now rewrite El).
    destruct (String.eqb_spec v' v) as [->|Hv].
    + rewrite tally_cons, W, String.eqb_refl, andb_true_r,
        (String.eqb_sym u (other_end v e)).
      destruct (String.eqb_spec (other_end v e) u) as [<-|]; reflexivity.
    + now rewrite andb_false_r.
Qed.

Lemma step_stuck (vs : list string) (o : outcome LayerGraph) (lg' : LayerGraph) :
  fold_left (buildLayerGraph_step g rank relationship root) vs o = Ok lg' ->
  exists lg, o = Ok lg.
Proof.
  revert o. induction vs as [|v vs IH]; intros o H.
  - exists lg'. exact H.
  - cbn [fold_left] in H. apply IH in H. destruct H as [lg1 H].
    destruct o as [lg| | |]; try discriminate. now exists lg.
Qed.

(** The edges of the layer graph after the node [v] has been handled. *)
Lemma step_edges (v : string) (lg lg' : LayerGraph) :
  buildLayerGraph_step g rank relationship root (Ok lg) v = Ok lg' ->
  forall u v', lg_edge lg' u v'
               = if (String.eqb v' v && accepts g rank v)%bool
                 then tally v u (lg_edge lg u v) (relationship_edges g relationship v)
                 else lg_edge lg u v'.
Proof.
  unfold buildLayerGraph_step, accepts. intros H u v'.
  destruct (node g v) as [nd|]; [|discriminate].
  destruct (_ || _)%bool; [|injection H as <-; now rewrite andb_false_r].
  rewrite andb_true_r.
  match type of H with
  | match fold_left ?f ?es (Ok ?lg0) with _ => _ end = _ =>
      change (fold_left f es (Ok lg0)) with (add_edges v (Ok lg0) es) in H;
      destruct (add_edges v (Ok lg0) es) as [lg1| | |] eqn:E; try discriminate;
      pose proof (@add_edges_tally v es lg0 lg1 E u v') as T
  end.
  unfold lg_edge in T at 2 3.
  rewrite lg_edges_setParent, lg_edges_setNode_default in T.
  fold (lg_edge lg u v) in T. fold (lg_edge lg u v') in T.
  assert (E' : lg_edge lg' u v' = lg_edge lg1 u v').
  { destruct (Label.minRank nd).
    - destruct (Label.borderLeft nd), (Label.borderRight nd); try discriminate.
      injection H as <-. unfold lg_edge. now rewrite lg_edges_setNode.
    - now injection H as <-. }
  rewrite E'. exact T.
Qed.

Lemma fold_edges (vs : list string) :
  NoDup vs ->
  forall lg lg',
    (forall u v, In v vs -> lg_edge lg u v = None) ->
    fold_left (buildLayerGraph_step g rank relationship root) vs (Ok lg) = Ok lg' ->
    forall u v, lg_edge lg' u v
                = if (existsb (String.eqb v) vs && accepts g rank v)%bool
                  then tally v u None (relationship_edges g relationship v)
                  else lg_edge lg u v.
Proof.
  induction 1 as [|v0 vs Hnin Hnd IH]; intros lg lg' Hnone H u v.
  - now injection H as <-.
  - cbn [fold_left] in H.
    destruct (step_stuck _ _ H) as [lg1 E1]. rewrite E1 in H.
    pose proof (@step_edges v0 lg lg1 E1) as S1.
    assert (Hnone1 : forall u' v', In v' vs -> lg_edge lg1 u' v' = None).
    { intros u' v' Hin. rewrite S1.
      destruct (String.eqb_spec v' v0) as [->|]; [contradiction|].
      cbn [andb]. apply Hnone. now right. }
    rewrite (IH lg1 lg' Hnone1 H u v). cbn [existsb].
    destruct (existsb (String.eqb v) vs) eqn:Hex.
    + assert (Hin : In v vs).
      { apply existsb_exists in Hex. destruct Hex as (x & Hx & Ex).
        apply String.eqb_eq in Ex. now subst x. }
      rewrite orb_true_r, (Hnone1 u v Hin), (Hnone u v (or_intror Hin)). reflexivity.
    + rewrite orb_false_r. cbn [andb]. rewrite S1.
      destruct (String.eqb_spec v v0) as [->|]; [|reflexivity].
      cbn [andb]. rewrite (Hnone u v0 (or_introl eq_refl)). reflexivity.
Qed.

End Aggregate.

(** X30.  The edges of a layer graph: when [buildLayerGraph] returns for
    a list of nodes without repetition, the layer graph has an edge
    [(u, v)] exactly when [v] is a listed node that passes the rank test
    and the graph has an edge of the relationship between [v] and [u]; its
    weight is the sum of the weights of all these edges (parallel edges of
    a multigraph are merged into one). *)
Theorem buildLayerGraph_aggregates_weights (g : Graph) (rank : num)
  (relationship : Relationship) (vs : list string) (idCounter idCounter' : nat)
  (lg : LayerGraph) :
  NoDup vs ->
  buildLayerGraph g rank relationship (Some vs) idCounter = (Ok lg, idCounter') ->
  forall u v,
    lg_edge lg u v
    = if (existsb (String.eqb v) vs && accepts g rank v)%bool
      then aggregated g (toward g relationship v u)
      else None.
Proof.
  intros Hnd H u v. unfold buildLayerGraph in H.
  destruct (createRootNode g idCounter) as [[root c]|]; [|discriminate].
  injection H as H _.
  rewrite (@fold_edges g rank relationship root vs Hnd
             (mkLayerGraph rank relationship root [] [] []) lg
             (fun _ _ _ => eq_refl) H u v).
  unfold toward. rewrite tally_aggregated. reflexivity.
Qed.
(** Two parallel edges a -> b of weights 2 and 3, and c -> b of weight 1. *)
Definition g_multi : Graph :=
  mkGraph [("a", Examples.ranked 0); ("b", Examples.ranked 1); ("c", Examples.ranked 0)]%string
          [(mkEdge "a" "b" None, mkEdgeLabel (Some (Int 2)) (Some (Int 1)));
           (mkEdge "c" "b" None, mkEdgeLabel (Some (Int 1)) (Some (Int 1)));
           (mkEdge "a" "b" (Some "x"), mkEdgeLabel (Some (Int 3)) (Some (Int 1)))]%string
          [] Examples.no_label.

Lemma buildLayerGraph_aggregates_weights_witness :
  exists lg idCounter,
    buildLayerGraph g_multi (Int 1) Rel_inEdges (Some (nodes g_multi)) 0
      = (Ok lg, idCounter) /\
    lg_edge lg "a" "b" = Some (Int 5) /\
    lg_edge lg "c" "b" = Some (Int 1) /\
    lg_edge lg "b" "a" = None.
Proof.
  destruct (buildLayerGraph g_multi (Int 1) Rel_inEdges (Some (nodes g_multi)) 0)
    as [[lg| | |] c] eqn:E; try (vm_compute in E; discriminate).
  assert (Hnd : NoDup (nodes g_multi))
    by (repeat constructor; simpl; intuition discriminate).
  exists lg, c. split; [reflexivity|].
  rewrite !(@buildLayerGraph_aggregates_weights g_multi (Int 1) Rel_inEdges
              (nodes g_multi) 0 c lg Hnd E).
  repeat split; vm_compute; reflexivity.
Defined.

(** The same on the layer below with the outgoing edges: the edges of the
    layer graph point at the node of the layer, against the edges of the
    graph. *)
Example buildLayerGraph_out_edges :
  match fst (buildLayerGraph g_multi (Int 0) Rel_outEdges None 0) with
  | Ok lg => lg_edges lg
  | _ => []
  end = [("b", "a", Int 5); ("b", "c", Int 1)]%string.
Proof. vm_compute. reflexivity. Qed.

End LayerGraphFacts.
